(** * Robust Rank Aggregation (RRA.c): a shallow embedding and its properties

    The C program ranks groups of items by a lo-value (the smallest
    order-statistic Beta probability among a group's best percentiles) and
    calibrates a false discovery rate by simulating the null distribution.
    This file embeds its statistical core, [ProcessGroups],
    [ComputeLoValue], [ComputeFDR] and [QuickSortGroupByLoValue], and
    proves what the design document says about it; it then embeds the
    ingestion, [ReadFile], the output, [SaveGroupInfo], and [main], and
    proves what the code guarantees around the core.

    Conventions of the embedding.
    - A C [double] is a rational ([Q]): comparisons are the order of the
      rationals and computed values are compared with [==].  The sums
      and differences [value +- 0.000000001] of [ProcessGroups] are
      rounded to binary64, to nearest with ties to even ([round64]):
      the values of a list are arbitrary doubles, and the rounding
      decides which of them a bracket holds.  Quotients are exact, and
      so are the brackets of [ComputeFDR], whose lo-values lie in
      [0, 1], where 1e-9 is millions of units in the last place.
      Infinities and NaN are outside the model.
    - A C [int] is a [Z], and [/] on [int] is [Z.quot].  The two
      expressions of [ComputeFDR] that decide the size of the pool,
      [numOfRandPass/groupNum+1] and [groupNum*scanPass], wrap around
      modulo 2^32 ([to_int]) when they leave the range of [int].
      Counters and indices stay below the sizes of the arrays, and the
      lists of the input hold fewer than 2^30 values each, so that
      [itemNum*2] (line 478) stays in range.  The size of the pool is
      decided by the arguments: the sum of two indices and 1 that ranks
      a lo-value in it (line 587) stays in range when twice the size of
      the pool plus one does, which the properties that speak of these
      ranks assume ([pool_fits]).
    - An array is a [list] read and written through integer indices.
    - A failing [assert] and a division by zero abort the program: the
      function returns [None].  [malloc] does not fail.
    - The services of [math_api.h], [rvgs.h] and [rngs.h] are not part of
      RRA.c.  The sort and the binary search are modelled from their
      documented behaviour, the Beta distribution function and the random
      generator are interfaces; each is marked where it is introduced.
    - A C string is a [string]; the fixed sizes of the name buffers are
      outside the model.  A file is the string of its characters, read
      through [fgets] and [feof] as the C standard describes them.  The
      tokenizer of [words.h] and [atof] are interfaces.  What is printed
      on the console is not modelled.

    Plan: arrays and the quicksort; binary64 rounding and machine
    integers; the data model and the functions of
    RRA.c; [ComputeLoValue] on an explicit store; files, [ReadFile],
    [SaveGroupInfo] and [main]; correctness of the quicksort, of the
    binary search and of the loops; the properties of the core; the
    properties of the ingestion and of [main]. *)

From Stdlib Require Import ZArith QArith Qpower Qabs Qminmax Qround List Lia Lra Lqa Permutation Sorted Bool.
From Stdlib Require String Ascii.
From Equations Require Import Equations.
Import ListNotations.
Open Scope Z_scope.

Set Default Proof Using "Type".

(** ** Doubles *)

Abbreviation double := Q (only parsing).

(** [x < y] on doubles, as a boolean test. *)
Definition Qlt_bool (x y : Q) : bool := negb (Qle_bool y x).

Lemma Qlt_bool_iff x y : Qlt_bool x y = true <-> (x < y)%Q.
Proof.
  unfold Qlt_bool. rewrite negb_true_iff. split; intro H.
  - apply Qnot_le_lt. intro Hle. apply Qle_bool_iff in Hle. congruence.
  - destruct (Qle_bool y x) eqn:E; [|reflexivity].
    apply Qle_bool_iff in E. exfalso. exact (Qlt_not_le _ _ H E).
Qed.

Lemma Qlt_bool_false x y : Qlt_bool x y = false <-> (y <= x)%Q.
Proof.
  unfold Qlt_bool. rewrite negb_false_iff. apply Qle_bool_iff.
Qed.

(** Keeps the equation of a tested condition in the context of a
    well-founded definition. *)
Definition inspect {A : Type} (x : A) : { y : A | x = y } := exist _ x eq_refl.

(** ** Arrays *)

Section Arrays.
Context {A : Type} (d : A).

(** [a[i]]; a read outside the array is undefined in C and yields [d]. *)
Definition get (a : list A) (i : Z) : A :=
  if i <? 0 then d else nth (Z.to_nat i) a d.

Fixpoint upd_nat (a : list A) (n : nat) (v : A) : list A :=
  match a, n with
  | [], _ => []
  | _ :: t, O => v :: t
  | h :: t, S n' => h :: upd_nat t n' v
  end.

(** [a[i] = v]; a write outside the array is undefined in C and is
    dropped. *)
Definition upd (a : list A) (i : Z) (v : A) : list A :=
  if i <? 0 then a else upd_nat a (Z.to_nat i) v.

(** [h = a[i]; a[i] = a[j]; a[j] = h]. *)
Definition swap (a : list A) (i j : Z) : list A :=
  let h := get a i in
  let a := upd a i (get a j) in
  upd a j h.

End Arrays.

(** ** In-place quicksort around the middle element

    [QuickSortGroupByLoValue] of RRA.c, written once for any element type
    ordered by a [double] key. *)

Section QuickSort.
Context {A : Type} (d : A) (key : A -> double).

(** [while ((a[i].key < x) && (i <= j)) i++;] *)
Equations? scan_up (a : list A) (x : double) (i j : Z) : Z
  by wf (Z.to_nat (j + 1 - i)) lt :=
  scan_up a x i j with inspect (Qlt_bool (key (get d a i)) x && (i <=? j)) => {
    | exist _ true _ => scan_up a x (i + 1) j
    | exist _ false _ => i }.
Proof. apply andb_prop in e. lia. Qed.

(** [while ((a[j].key > x) && (i <= j)) j--;] *)
Equations? scan_down (a : list A) (x : double) (i j : Z) : Z
  by wf (Z.to_nat (j + 1 - i)) lt :=
  scan_down a x i j with inspect (Qlt_bool x (key (get d a j)) && (i <=? j)) => {
    | exist _ true _ => scan_down a x i (j - 1)
    | exist _ false _ => j }.
Proof. apply andb_prop in e. lia. Qed.

Lemma scan_up_ge a x i j : i <= scan_up a x i j.
Proof. funelim (scan_up a x i j); lia. Qed.

Lemma scan_down_le a x i j : scan_down a x i j <= j.
Proof. funelim (scan_down a x i j); lia. Qed.

(** One round of the partition loop: both scans, then the exchange. *)
Definition partition_round (a : list A) (x : double) (i j : Z) : list A * Z * Z :=
  let i := scan_up a x i j in
  let j := scan_down a x i j in
  if i <=? j then (swap d a i j, i + 1, j - 1) else (a, i, j).

Lemma partition_round_decr a x i j a' i' j' :
  i <= j -> partition_round a x i j = (a', i', j') ->
  (Z.to_nat (j' + 1 - i') < Z.to_nat (j + 1 - i))%nat.
Proof.
  unfold partition_round. intros Hij Heq.
  pose proof (scan_up_ge a x i j).
  pose proof (scan_down_le a x (scan_up a x i j) j).
  destruct (Z.leb_spec (scan_up a x i j) (scan_down a x (scan_up a x i j) j));
    inversion Heq; subst; lia.
Qed.

(** [while (i <= j) { ... }] *)
Equations? partition (a : list A) (x : double) (i j : Z) : list A * Z * Z
  by wf (Z.to_nat (j + 1 - i)) lt :=
  partition a x i j with inspect (i <=? j) => {
    | exist _ false _ => (a, i, j)
    | exist _ true _ with inspect (partition_round a x i j) => {
      | exist _ (a', i', j') _ => partition a' x i' j' } }.
Proof. eapply partition_round_decr; eauto. lia. Qed.

Lemma scan_up_eq a x i j :
  scan_up a x i j =
    if Qlt_bool (key (get d a i)) x && (i <=? j) then scan_up a x (i + 1) j else i.
Proof. funelim (scan_up a x i j); rewrite e; reflexivity. Qed.

Lemma scan_down_eq a x i j :
  scan_down a x i j =
    if Qlt_bool x (key (get d a j)) && (i <=? j) then scan_down a x i (j - 1) else j.
Proof. funelim (scan_down a x i j); rewrite e; reflexivity. Qed.

Lemma partition_eq a x i j :
  partition a x i j =
    if i <=? j
    then let '(a', i', j') := partition_round a x i j in partition a' x i' j'
    else (a, i, j).
Proof. funelim (partition a x i j); rewrite e; [|rewrite e0]; reflexivity. Qed.

(** Induction on the distance between the two cursors. *)
Lemma cursor_ind (P : Z -> Z -> Prop) :
  (forall i j, (forall i' j', (Z.to_nat (j' + 1 - i') < Z.to_nat (j + 1 - i))%nat -> P i' j') -> P i j) ->
  forall i j, P i j.
Proof.
  intros Hstep i j.
  remember (Z.to_nat (j + 1 - i)) as n eqn:Hn.
  revert i j Hn. induction n as [n IH] using lt_wf_ind. intros i j ->.
  apply Hstep. intros i' j' Hlt. eapply IH; eauto.
Qed.

Lemma partition_mono a x i j a' i' j' :
  partition a x i j = (a', i', j') -> i <= i' /\ j' <= j.
Proof.
  revert a a' i' j'. pattern i, j. apply cursor_ind. clear i j.
  intros i j IH a a' i' j'. rewrite partition_eq.
  destruct (Z.leb_spec i j) as [Hij|Hij].
  - destruct (partition_round a x i j) as [[a1 i1] j1] eqn:Hr. intros Heq.
    pose proof (partition_round_decr _ _ _ _ _ _ _ Hij Hr) as Hd.
    apply (IH _ _ Hd) in Heq.
    unfold partition_round in Hr.
    pose proof (scan_up_ge a x i j).
    pose proof (scan_down_le a x (scan_up a x i j) j).
    destruct (Z.leb_spec (scan_up a x i j) (scan_down a x (scan_up a x i j) j));
      inversion Hr; subst; lia.
  - intros Heq; inversion Heq; subst. lia.
Qed.
(** A scan never passes an element at which its test fails: the pivot
    stops both scans of the first round. *)
Lemma scan_up_stop a x m : forall i j,
  i <= m <= j -> Qlt_bool (key (get d a m)) x = false -> scan_up a x i j <= m.
Proof.
  intros i j. pattern i, j. apply cursor_ind. clear i j.
  intros i j IH Hm Hx. rewrite scan_up_eq.
  destruct (Qlt_bool (key (get d a i)) x && (i <=? j)) eqn:E; [|lia].
  apply andb_prop in E. destruct E as [E1 E2].
  assert (i <> m) by (intros ->; congruence).
  apply IH; [lia|lia|assumption].
Qed.

Lemma scan_down_stop a x m : forall i j,
  i <= m <= j -> Qlt_bool x (key (get d a m)) = false -> m <= scan_down a x i j.
Proof.
  intros i j. pattern i, j. apply cursor_ind. clear i j.
  intros i j IH Hm Hx. rewrite scan_down_eq.
  destruct (Qlt_bool x (key (get d a j)) && (i <=? j)) eqn:E; [|lia].
  apply andb_prop in E. destruct E as [E1 E2].
  assert (j <> m) by (intros ->; congruence).
  apply IH; [lia|lia|assumption].
Qed.

Lemma Qlt_bool_irrefl (x : Q) : Qlt_bool x x = false.
Proof. apply Qlt_bool_false. apply Qle_refl. Qed.

(** The partition of a non-empty range around one of its own elements
    moves both cursors: the two recursive calls are on strictly smaller
    ranges. *)
Lemma partition_progress a lo hi m a' i' j' :
  lo <= m <= hi ->
  partition a (key (get d a m)) lo hi = (a', i', j') ->
  lo < i' /\ j' < hi.
Proof.
  intros Hm. rewrite partition_eq.
  destruct (Z.leb_spec lo hi) as [Hlh|Hlh]; [|lia].
  unfold partition_round.
  set (x := key (get d a m)).
  pose proof (scan_up_stop a x m lo hi Hm (Qlt_bool_irrefl x)) as Hi.
  pose proof (scan_up_ge a x lo hi) as Hi'.
  assert (Hm' : scan_up a x lo hi <= m <= hi) by lia.
  pose proof (scan_down_stop a x m _ _ Hm' (Qlt_bool_irrefl x)) as Hj.
  pose proof (scan_down_le a x (scan_up a x lo hi) hi) as Hj'.
  destruct (Z.leb_spec (scan_up a x lo hi) (scan_down a x (scan_up a x lo hi) hi)); [|lia].
  intros Heq. apply partition_mono in Heq. lia.
Qed.

Lemma quot2_between lo hi : lo <= hi -> lo <= Z.quot (lo + hi) 2 <= hi.
Proof.
  intros H.
  destruct (Z.le_gt_cases 0 (lo + hi)) as [Hs|Hs].
  - rewrite Z.quot_div_nonneg by lia.
    pose proof (Z.div_mod (lo + hi) 2 ltac:(lia)).
    pose proof (Z.mod_pos_bound (lo + hi) 2 ltac:(lia)). lia.
  - replace (lo + hi) with (- (- (lo + hi))) by lia.
    rewrite Z.quot_opp_l by lia.
    rewrite Z.quot_div_nonneg by lia.
    pose proof (Z.div_mod (- (lo + hi)) 2 ltac:(lia)).
    pose proof (Z.mod_pos_bound (- (lo + hi)) 2 ltac:(lia)). lia.
Qed.

(** [QuickSort(a, lo, hi)]: partition around [a[(lo+hi)/2]], then sort
    [lo..j] and [i..hi]. *)
Equations? QuickSortBy (a : list A) (lo hi : Z) : list A
  by wf (Z.to_nat (hi - lo + 1)) lt :=
  QuickSortBy a lo hi with inspect (hi <? lo) => {
    | exist _ true _ => a
    | exist _ false _
        with inspect (partition a (key (get d a (Z.quot (lo + hi) 2))) lo hi) => {
      | exist _ (a1, i, j) _ =>
          let a2 := if lo <? j then QuickSortBy a1 lo j else a1 in
          if i <? hi then QuickSortBy a2 i hi else a2 } }.
Proof.
  all: assert (Hm : lo <= Z.quot (lo + hi) 2 <= hi) by (apply quot2_between; lia).
  all: destruct (partition_progress _ _ _ _ _ _ _ Hm e0); lia.
Qed.

Lemma QuickSortBy_eq a lo hi :
  QuickSortBy a lo hi =
    if hi <? lo then a
    else let '(a1, i, j) := partition a (key (get d a (Z.quot (lo + hi) 2))) lo hi in
         let a2 := if lo <? j then QuickSortBy a1 lo j else a1 in
         if i <? hi then QuickSortBy a2 i hi else a2.
Proof. funelim (QuickSortBy a lo hi); rewrite e; [|rewrite e0]; reflexivity. Qed.
End QuickSort.

(** ** Binary64 rounding

    The doubles are the rationals [m * 2^e] with [|m| < 2^53] and
    [e >= -1074].  [round64] is the rounding of the arithmetic of the
    program: to the nearest double, ties to the even significand. *)

(** [2^e], for an exponent of either sign. *)
Definition pow2 (e : Z) : Q := (2 ^ e)%Q.

Lemma pow2_pos e : (0 < pow2 e)%Q.
Proof. apply Qpower_0_lt. reflexivity. Qed.

Lemma pow2_add a b : (pow2 (a + b) == pow2 a * pow2 b)%Q.
Proof. apply Qpower_plus. discriminate. Qed.

Lemma pow2_le a b : a <= b -> (pow2 a <= pow2 b)%Q.
Proof. intros Hab. apply Qpower_le_compat_l; [exact Hab|discriminate]. Qed.

Lemma pow2_lt_inv a b : (pow2 a < pow2 b)%Q -> a < b.
Proof. intros Hab. apply (Qpower_lt_compat_l_inv 2); [exact Hab|reflexivity]. Qed.

Lemma pow2_Z k : 0 <= k -> (pow2 k == inject_Z (2 ^ k))%Q.
Proof. intros Hk. unfold pow2. rewrite Zpower_Qpower by exact Hk. reflexivity. Qed.

Lemma pow2_sub a b : (pow2 (a - b) == pow2 a / pow2 b)%Q.
Proof.
  unfold Z.sub. rewrite pow2_add. unfold pow2. rewrite Qpower_opp. reflexivity.
Qed.

(** Rounding to the nearest integer, ties to the even one. *)
Definition round_half_even (q : Q) : Z :=
  let f := Qfloor q in
  match (q - inject_Z f ?= 1 # 2)%Q with
  | Lt => f
  | Gt => f + 1
  | Eq => if Z.even f then f else f + 1
  end.

Lemma round_half_even_comp x y : (x == y)%Q -> round_half_even x = round_half_even y.
Proof.
  intros E. unfold round_half_even. rewrite (Qfloor_comp _ _ E).
  assert (E' : (x - inject_Z (Qfloor y) == y - inject_Z (Qfloor y))%Q)
    by (rewrite E; reflexivity).
  rewrite (Qcompare_comp _ _ E' _ _ (Qeq_refl (1 # 2))). reflexivity.
Qed.

Lemma round_half_even_near x :
  (inject_Z (round_half_even x) - (1 # 2) <= x <= inject_Z (round_half_even x) + (1 # 2))%Q.
Proof.
  unfold round_half_even.
  pose proof (Qfloor_le x) as Hlo. pose proof (Qlt_floor x) as Hhi.
  rewrite inject_Z_plus in Hhi. change (inject_Z 1) with 1%Q in Hhi.
  destruct (x - inject_Z (Qfloor x) ?= 1 # 2)%Q eqn:E.
  - apply Qeq_alt in E. destruct (Z.even (Qfloor x)).
    + split; lra.
    + rewrite inject_Z_plus. change (inject_Z 1) with 1%Q. split; lra.
  - apply Qlt_alt in E. split; lra.
  - apply Qgt_alt in E. rewrite inject_Z_plus. change (inject_Z 1) with 1%Q. split; lra.
Qed.

Lemma round_half_even_mono x y :
  (x <= y)%Q -> round_half_even x <= round_half_even y.
Proof.
  intros Hxy.
  destruct (Z.le_gt_cases (round_half_even x) (round_half_even y)) as [|Hgt]; [assumption|].
  exfalso.
  pose proof (round_half_even_near x) as [Hx _].
  pose proof (round_half_even_near y) as [_ Hy].
  assert (Hz : (inject_Z (round_half_even y) + 1 <= inject_Z (round_half_even x))%Q).
  { change 1%Q with (inject_Z 1). rewrite <- inject_Z_plus, <- Zle_Qle. lia. }
  assert (E : (x == y)%Q) by lra.
  rewrite (round_half_even_comp _ _ E) in Hgt. lia.
Qed.

Lemma round_half_even_Z n : round_half_even (inject_Z n) = n.
Proof.
  unfold round_half_even. rewrite Qfloor_Z.
  assert (E : (inject_Z n - inject_Z n == 0)%Q) by ring.
  rewrite (Qcompare_comp _ _ E _ _ (Qeq_refl (1 # 2))). reflexivity.
Qed.

(** The exponent of the binade of a positive rational:
    [2^(ilog2 q) <= q < 2^(ilog2 q + 1)]. *)
Definition ilog2 (q : Q) : Z :=
  let k := Z.log2 (Qnum q) - Z.log2 (Zpos (Qden q)) in
  if Qle_bool (pow2 k) q then k else k - 1.

Lemma Zfrac_le a b c d :
  0 < b -> 0 < d -> a * d <= c * b ->
  (inject_Z a / inject_Z b <= inject_Z c / inject_Z d)%Q.
Proof.
  intros Hb Hd H.
  assert (Hb' : (0 < inject_Z b)%Q) by (change 0%Q with (inject_Z 0); now rewrite <- Zlt_Qlt).
  assert (Hd' : (0 < inject_Z d)%Q) by (change 0%Q with (inject_Z 0); now rewrite <- Zlt_Qlt).
  apply Qle_shift_div_r; [exact Hb'|].
  assert (E : (inject_Z c / inject_Z d * inject_Z b == inject_Z c * inject_Z b / inject_Z d)%Q).
  { field. intros E0. rewrite E0 in Hd'. discriminate. }
  rewrite E. apply Qle_shift_div_l; [exact Hd'|].
  rewrite <- !inject_Z_mult, <- Zle_Qle. exact H.
Qed.

Lemma Zfrac_lt a b c d :
  0 < b -> 0 < d -> a * d < c * b ->
  (inject_Z a / inject_Z b < inject_Z c / inject_Z d)%Q.
Proof.
  intros Hb Hd H.
  assert (Hb' : (0 < inject_Z b)%Q) by (change 0%Q with (inject_Z 0); now rewrite <- Zlt_Qlt).
  assert (Hd' : (0 < inject_Z d)%Q) by (change 0%Q with (inject_Z 0); now rewrite <- Zlt_Qlt).
  apply Qlt_shift_div_r; [exact Hb'|].
  assert (E : (inject_Z c / inject_Z d * inject_Z b == inject_Z c * inject_Z b / inject_Z d)%Q).
  { field. intros E0. rewrite E0 in Hd'. discriminate. }
  rewrite E. apply Qlt_shift_div_l; [exact Hd'|].
  rewrite <- !inject_Z_mult, <- Zlt_Qlt. exact H.
Qed.

Lemma ilog2_spec q : (0 < q)%Q -> (pow2 (ilog2 q) <= q < pow2 (ilog2 q + 1))%Q.
Proof.
  intros Hq. unfold ilog2.
  destruct q as [n d]. cbn [Qnum Qden].
  assert (Hn : 0 < n) by (unfold Qlt in Hq; cbn in Hq; lia).
  pose proof (Z.log2_spec n Hn) as [Ha1 Ha2].
  pose proof (Z.log2_spec (Zpos d) ltac:(lia)) as [Hb1 Hb2].
  pose proof (Z.log2_nonneg n) as Ha. pose proof (Z.log2_nonneg (Zpos d)) as Hb.
  set (a := Z.log2 n) in *. set (b := Z.log2 (Zpos d)) in *.
  assert (Ea : 0 < 2 ^ a) by (apply Z.pow_pos_nonneg; lia).
  assert (Eb : 0 < 2 ^ b) by (apply Z.pow_pos_nonneg; lia).
  assert (Eq : (n # d == inject_Z n / inject_Z (Zpos d))%Q) by apply Qmake_Qdiv.
  destruct (Qle_bool (pow2 (a - b)) (n # d)) eqn:E.
  - apply Qle_bool_iff in E. split; [exact E|].
    replace (a - b + 1) with ((a + 1) - b) by lia.
    rewrite pow2_sub, !pow2_Z by lia. rewrite Eq.
    apply Zfrac_lt; [lia|lia|].
    unfold Z.succ in Ha2. nia.
  - assert (E' : (n # d < pow2 (a - b))%Q).
    { apply Qnot_le_lt. intros Hle. apply Qle_bool_iff in Hle. congruence. }
    replace (a - b - 1 + 1) with (a - b) by lia. split; [|exact E'].
    replace (a - b - 1) with (a - (b + 1)) by lia.
    rewrite pow2_sub, !pow2_Z by lia. rewrite Eq.
    apply Zfrac_le; [apply Z.pow_pos_nonneg; lia|lia|].
    unfold Z.succ in Hb2. nia.
Qed.

Lemma ilog2_mono x y : (0 < x)%Q -> (x <= y)%Q -> ilog2 x <= ilog2 y.
Proof.
  intros Hx Hxy.
  destruct (ilog2_spec x Hx) as [Hx1 _].
  destruct (ilog2_spec y ltac:(lra)) as [_ Hy2].
  assert (Hlt : (pow2 (ilog2 x) < pow2 (ilog2 y + 1))%Q) by lra.
  apply pow2_lt_inv in Hlt. lia.
Qed.

Lemma ilog2_comp x y : (0 < x)%Q -> (x == y)%Q -> ilog2 x = ilog2 y.
Proof.
  intros Hx E.
  pose proof (ilog2_mono x y Hx ltac:(lra)).
  pose proof (ilog2_mono y x ltac:(lra) ltac:(lra)). lia.
Qed.

(** Rounding to the nearest multiple of [2^e], ties to even. *)
Definition to_grid (e : Z) (q : Q) : Q :=
  (inject_Z (round_half_even (q / pow2 e)) * pow2 e)%Q.

Lemma to_grid_comp e x y : (x == y)%Q -> (to_grid e x == to_grid e y)%Q.
Proof.
  intros E. unfold to_grid.
  rewrite (round_half_even_comp (x / pow2 e) (y / pow2 e)); [reflexivity|].
  rewrite E. reflexivity.
Qed.

Lemma to_grid_mono e x y : (x <= y)%Q -> (to_grid e x <= to_grid e y)%Q.
Proof.
  intros Hxy. unfold to_grid. pose proof (pow2_pos e) as Hp.
  apply Qmult_le_compat_r; [|lra].
  rewrite <- Zle_Qle. apply round_half_even_mono.
  apply Qmult_le_compat_r; [exact Hxy|].
  apply Qlt_le_weak, Qinv_lt_0_compat, Hp.
Qed.

Lemma to_grid_exact e k : 0 <= k -> (to_grid e (pow2 (e + k)) == pow2 (e + k))%Q.
Proof.
  intros Hk. unfold to_grid. pose proof (pow2_pos e) as Hp.
  assert (E : (pow2 (e + k) / pow2 e == inject_Z (2 ^ k))%Q).
  { rewrite pow2_add, <- pow2_Z by exact Hk. field. lra. }
  rewrite (round_half_even_comp _ _ E), round_half_even_Z.
  rewrite pow2_add, <- pow2_Z by exact Hk. ring.
Qed.

Lemma to_grid_near e x :
  (to_grid e x - pow2 e / 2 <= x <= to_grid e x + pow2 e / 2)%Q.
Proof.
  unfold to_grid. pose proof (pow2_pos e) as Hp.
  pose proof (round_half_even_near (x / pow2 e)) as [H1 H2].
  set (m := inject_Z (round_half_even (x / pow2 e))) in *.
  assert (Ex : (x == x / pow2 e * pow2 e)%Q) by (field; lra).
  assert (G1 : ((m - (1 # 2)) * pow2 e <= x / pow2 e * pow2 e)%Q)
    by (apply Qmult_le_compat_r; lra).
  assert (G2 : (x / pow2 e * pow2 e <= (m + (1 # 2)) * pow2 e)%Q)
    by (apply Qmult_le_compat_r; lra).
  rewrite <- Ex in G1, G2.
  assert (E1 : (m * pow2 e - pow2 e / 2 == (m - (1 # 2)) * pow2 e)%Q) by field.
  assert (E2 : (m * pow2 e + pow2 e / 2 == (m + (1 # 2)) * pow2 e)%Q) by field.
  rewrite E1, E2. split; assumption.
Qed.

(** Binary64 has 53 significant bits and no exponent below -1074. *)
Definition ulp_exponent (q : Q) : Z := Z.max (ilog2 q - 52) (-1074).

(** The double nearest to a positive rational. *)
Definition round_positive (q : Q) : Q := to_grid (ulp_exponent q) q.

(** The double nearest to a rational, ties to even.  Overflow to
    infinity is not modelled. *)
Definition round64 (q : Q) : Q :=
  match (q ?= 0)%Q with
  | Eq => 0%Q
  | Gt => round_positive q
  | Lt => (- round_positive (- q))%Q
  end.

Lemma round_positive_comp x y :
  (0 < x)%Q -> (x == y)%Q -> (round_positive x == round_positive y)%Q.
Proof.
  intros Hx E. unfold round_positive, ulp_exponent.
  rewrite (ilog2_comp x y Hx E). apply to_grid_comp, E.
Qed.

Lemma round_positive_nonneg x : (0 < x)%Q -> (0 <= round_positive x)%Q.
Proof.
  intros Hx. unfold round_positive, to_grid.
  pose proof (pow2_pos (ulp_exponent x)) as Hp.
  apply Qmult_le_0_compat; [|lra].
  change 0%Q with (inject_Z 0). rewrite <- Zle_Qle.
  rewrite <- (round_half_even_Z 0). apply round_half_even_mono.
  change (inject_Z 0) with 0%Q.
  apply Qlt_le_weak, Qlt_shift_div_l; [exact Hp|lra].
Qed.

Lemma round_positive_mono x y :
  (0 < x)%Q -> (x <= y)%Q -> (round_positive x <= round_positive y)%Q.
Proof.
  intros Hx Hxy. assert (Hy : (0 < y)%Q) by lra.
  pose proof (ilog2_mono x y Hx Hxy) as Hlog.
  unfold round_positive.
  destruct (Z.eq_dec (ulp_exponent x) (ulp_exponent y)) as [E|NE].
  - rewrite E. apply to_grid_mono, Hxy.
  - assert (Hlt : ulp_exponent x < ulp_exponent y) by (unfold ulp_exponent in *; lia).
    assert (Ey : ulp_exponent y = ilog2 y - 52) by (unfold ulp_exponent in *; lia).
    assert (Hex : ilog2 x - 52 <= ulp_exponent x) by (unfold ulp_exponent; lia).
    destruct (ilog2_spec x Hx) as [_ Hx2]. destruct (ilog2_spec y Hy) as [Hy1 _].
    pose proof (pow2_le (ilog2 x + 1) (ilog2 y) ltac:(lia)) as Hstep.
    apply Qle_trans with (pow2 (ilog2 y)).
    + replace (ilog2 y) with (ulp_exponent x + (ilog2 y - ulp_exponent x)) by lia.
      rewrite <- to_grid_exact by lia. apply to_grid_mono.
      replace (ulp_exponent x + (ilog2 y - ulp_exponent x)) with (ilog2 y) by lia. lra.
    + replace (ilog2 y) with (ulp_exponent y + 52) at 1 by lia.
      rewrite <- to_grid_exact by lia. apply to_grid_mono.
      replace (ulp_exponent y + 52) with (ilog2 y) by lia. exact Hy1.
Qed.

Lemma round64_comp x y : (x == y)%Q -> (round64 x == round64 y)%Q.
Proof.
  intros E. unfold round64.
  rewrite (Qcompare_comp _ _ E _ _ (Qeq_refl 0)).
  destruct (Qcompare_spec y 0) as [C|C|C]; [reflexivity| |].
  - apply Qopp_comp. apply round_positive_comp; lra.
  - apply round_positive_comp; lra.
Qed.

#[export] Instance round64_Proper : Proper (Qeq ==> Qeq) round64.
Proof. intros x y E. apply round64_comp, E. Qed.

(** Rounding is monotone. *)
Lemma round64_mono x y : (x <= y)%Q -> (round64 x <= round64 y)%Q.
Proof.
  intros Hxy. unfold round64.
  destruct (Qcompare_spec x 0) as [Cx|Cx|Cx];
    destruct (Qcompare_spec y 0) as [Cy|Cy|Cy]; try lra.
  - apply round_positive_nonneg. lra.
  - pose proof (round_positive_nonneg (- x) ltac:(lra)). lra.
  - pose proof (round_positive_mono (- y) (- x) ltac:(lra) ltac:(lra)). lra.
  - pose proof (round_positive_nonneg (- x) ltac:(lra)).
    pose proof (round_positive_nonneg y ltac:(lra)). lra.
  - apply round_positive_mono; lra.
Qed.

(** The rationals that are doubles. *)
Definition is_double (q : Q) : Prop := (round64 q == q)%Q.

(** A double is within half a unit in the last place of what it rounds. *)
Lemma round64_near x :
  ~ (x == 0)%Q ->
  (round64 x - pow2 (ulp_exponent (Qabs x)) / 2 <= x
     <= round64 x + pow2 (ulp_exponent (Qabs x)) / 2)%Q.
Proof.
  intros Hx. unfold round64.
  destruct (Qcompare_spec x 0) as [C|C|C]; [contradiction| |].
  - assert (Ea : (Qabs x == - x)%Q) by (apply Qabs_neg; lra).
    assert (Ee : ulp_exponent (Qabs x) = ulp_exponent (- x)).
    { unfold ulp_exponent. rewrite (ilog2_comp (Qabs x) (- x)); [reflexivity|lra|exact Ea]. }
    rewrite Ee. pose proof (to_grid_near (ulp_exponent (- x)) (- x)) as [H1 H2].
    unfold round_positive. split; lra.
  - assert (Ea : (Qabs x == x)%Q) by (apply Qabs_pos; lra).
    assert (Ee : ulp_exponent (Qabs x) = ulp_exponent x).
    { unfold ulp_exponent. rewrite (ilog2_comp (Qabs x) x); [reflexivity|lra|exact Ea]. }
    rewrite Ee. apply to_grid_near.
Qed.

Lemma round64_zero : round64 0 = 0%Q.
Proof. reflexivity. Qed.

(** Below [2^23] a double is within [2^-31] of what it rounds. *)
Lemma round64_near_small x :
  (Qabs x < pow2 23)%Q ->
  (round64 x - pow2 (-31) <= x <= round64 x + pow2 (-31))%Q.
Proof.
  intros Hx. pose proof (pow2_pos (-31)) as Hp.
  destruct (Qeq_dec x 0) as [E|NE].
  - rewrite (round64_comp x 0 E), round64_zero. rewrite E. split; lra.
  - pose proof (round64_near x NE) as Hnear.
    assert (Hpos : (0 < Qabs x)%Q).
    { destruct (Qle_lt_or_eq _ _ (Qabs_nonneg x)) as [Hlt|Heq]; [exact Hlt|].
      exfalso. apply NE. destruct (Qcompare_spec x 0) as [C|C|C]; [exact C| |].
      - rewrite Qabs_neg in Heq by lra. lra.
      - rewrite Qabs_pos in Heq by lra. lra. }
    destruct (ilog2_spec (Qabs x) Hpos) as [Hlo _].
    assert (Hlog : ilog2 (Qabs x) < 23) by (apply pow2_lt_inv; lra).
    assert (Hulp : ulp_exponent (Qabs x) <= -30) by (unfold ulp_exponent; lia).
    pose proof (pow2_le _ _ Hulp) as Hle.
    assert (E31 : (pow2 (-30) / 2 == pow2 (-31))%Q) by reflexivity.
    assert (Hhalf : (pow2 (ulp_exponent (Qabs x)) / 2 <= pow2 (-31))%Q).
    { rewrite <- E31. apply Qmult_le_compat_r; [exact Hle|discriminate]. }
    split; lra.
Qed.

(** The sum and the difference of two doubles. *)
Definition double_add (x y : Q) : Q := round64 (x + y).
Definition double_sub (x y : Q) : Q := round64 (x - y).

Lemma double_sub_le x y : is_double x -> (0 <= y)%Q -> (double_sub x y <= x)%Q.
Proof.
  intros Hx Hy. unfold double_sub, is_double in *.
  apply Qle_trans with (round64 x); [apply round64_mono; lra|].
  rewrite Hx. apply Qle_refl.
Qed.

Lemma double_add_ge x y : is_double x -> (0 <= y)%Q -> (x <= double_add x y)%Q.
Proof.
  intros Hx Hy. unfold double_add, is_double in *.
  apply Qle_trans with (round64 x); [|apply round64_mono; lra].
  rewrite Hx. apply Qle_refl.
Qed.

Lemma double_sub_mono x x' y : (x <= x')%Q -> (double_sub x y <= double_sub x' y)%Q.
Proof. intros Hx. apply round64_mono. lra. Qed.

Lemma double_add_mono x x' y : (x <= x')%Q -> (double_add x y <= double_add x' y)%Q.
Proof. intros Hx. apply round64_mono. lra. Qed.

(** ** Machine integers *)

Definition INT_MAX : Z := 2147483647.
Definition INT_MIN : Z := -2147483648.

Definition is_int (z : Z) : Prop := INT_MIN <= z <= INT_MAX.

(** The [int] in which an integer result is stored: the result modulo
    2^32, in the range of [int]. *)
Definition to_int (z : Z) : Z := (z + 2147483648) mod 4294967296 - 2147483648.

Lemma to_int_is_int z : is_int (to_int z).
Proof.
  unfold is_int, to_int, INT_MIN, INT_MAX.
  pose proof (Z.mod_pos_bound (z + 2147483648) 4294967296 ltac:(lia)). lia.
Qed.

Lemma to_int_id z : is_int z -> to_int z = z.
Proof.
  unfold is_int, to_int, INT_MIN, INT_MAX. intros Hz.
  rewrite Z.mod_small by lia. lia.
Qed.

(** One wrap: a result at most 2^32 above the range. *)
Lemma to_int_above z :
  INT_MAX < z <= INT_MAX + 4294967296 -> to_int z = z - 4294967296.
Proof.
  unfold to_int, INT_MAX. intros Hz.
  replace (z + 2147483648) with (z - 2147483648 + 1 * 4294967296) by lia.
  rewrite Z.mod_add by lia. rewrite Z.mod_small by lia. lia.
Qed.

(** ** Loops *)

Section Loops.
Context {S : Type}.

Fixpoint for_loop (n : nat) (i : Z) (body : Z -> S -> S) (s : S) : S :=
  match n with
  | O => s
  | Datatypes.S n' => for_loop n' (i + 1) body (body i s)
  end.

(** [for (i = lo; i < hi; i++) body] *)
Definition for_range (lo hi : Z) (body : Z -> S -> S) (s : S) : S :=
  for_loop (Z.to_nat (hi - lo)) lo body s.

Fixpoint for_loop_opt (n : nat) (i : Z) (body : Z -> S -> option S) (s : S) : option S :=
  match n with
  | O => Some s
  | Datatypes.S n' =>
      match body i s with
      | Some s' => for_loop_opt n' (i + 1) body s'
      | None => None
      end
  end.

(** The same loop when the body may abort. *)
Definition for_range_opt (lo hi : Z) (body : Z -> S -> option S) (s : S) : option S :=
  for_loop_opt (Z.to_nat (hi - lo)) lo body s.

Fixpoint for_loop_down (n : nat) (i : Z) (body : Z -> S -> S) (s : S) : S :=
  match n with
  | O => s
  | Datatypes.S n' => for_loop_down n' (i - 1) body (body i s)
  end.

(** [for (i = hi; i >= 0; i--) body] *)
Definition for_down (hi : Z) (body : Z -> S -> S) (s : S) : S :=
  for_loop_down (Z.to_nat (hi + 1)) hi body s.
End Loops.

(** ** Services outside RRA.c *)

(** Modelled from the spec: [BetaNoncentralCdf(a, b, lambda, x, errorMax)]
    of math_api.h, which is not part of RRA.c, is the noncentral Beta
    distribution function with shape parameters [a] and [b] and
    noncentrality [lambda] at [x], to the absolute error [errorMax].  The
    evaluator is a parameter of the model; what a property needs of it is
    a hypothesis of that property. *)
Class BetaCdf := {
  BetaNoncentralCdf : double -> double -> double -> double -> double -> double
}.

(** Modelled from the spec: the seeded uniform generator of rngs.h and
    rvgs.h, which are not part of RRA.c.  The generator is state of the
    whole process, here a value of [rng] that every call takes and
    returns: [PlantSeeds x] reseeds it, and [Uniform lo hi] draws one
    value and advances it. *)
Class RandomGen := {
  rng : Type;
  PlantSeeds : Z -> rng -> rng;
  Uniform : double -> double -> rng -> double * rng
}.

(** Modelled from the spec: the reseed is process-wide, that is the
    state that [PlantSeeds x] leaves depends on [x] and not on the state
    it finds.  A property that needs it takes it as a hypothesis. *)
Definition reseeds `{RandomGen} : Prop :=
  forall (x : Z) (g g' : rng), PlantSeeds x g = PlantSeeds x g'.

(** Modelled from the spec: [QuicksortF(a, lo, hi)] of math_api.h, which
    is not part of RRA.c, sorts [a[lo..hi]] ascending in place with a
    quicksort around the middle element: the quicksort of this program
    on plain doubles. *)
Definition QuicksortF (a : list double) (lo hi : Z) : list double :=
  QuickSortBy 0%Q (fun v => v) a lo hi.

(** Modelled from the spec: the binary search behind [bTreeSearchingF]
    (math_api.h).  It returns the insertion point of [a] in the sorted
    [list[lo..hi-1]]: the first index whose element is not below [a]. *)
Equations? lower_bound (a : double) (list : list double) (lo hi : Z) : Z
  by wf (Z.to_nat (hi - lo)) lt :=
  lower_bound a list lo hi with inspect (lo <? hi) => {
    | exist _ false _ => lo
    | exist _ true _
        with inspect (Qlt_bool (get 0%Q list (lo + (hi - lo) / 2)) a) => {
      | exist _ true _ => lower_bound a list (lo + (hi - lo) / 2 + 1) hi
      | exist _ false _ => lower_bound a list lo (lo + (hi - lo) / 2) } }.
Proof.
  - apply Z.ltb_lt in e.
    pose proof (Z.div_mod (hi - lo) 2 ltac:(lia)).
    pose proof (Z.mod_pos_bound (hi - lo) 2 ltac:(lia)). lia.
  - apply Z.ltb_lt in e.
    pose proof (Z.div_mod (hi - lo) 2 ltac:(lia)).
    pose proof (Z.mod_pos_bound (hi - lo) 2 ltac:(lia)). lia.
Qed.

(** Modelled from the spec: [bTreeSearchingF(a, list, start, end)] of
    math_api.h, which is not part of RRA.c, returns the insertion point of
    [a] in the sorted [list[start..end]], that is the number of elements
    strictly less than [a] when [start] is 0. *)
Definition bTreeSearchingF (a : double) (list : list double) (start end_ : Z) : Z :=
  lower_bound a list start (end_ + 1).

(** ** Data model of RRA.c *)

Definition CDF_MAX_ERROR : double := 1 # 10000000000.
Definition RAND_PASS_NUM : Z := 100.

(** The literal [0.000000001] that brackets a value in both searches,
    as a decimal and as the double that the literal denotes. *)
Definition EPSILON : double := 1 # 1000000000.
Definition EPSILON_double : double := round64 EPSILON.

Record ITEM_STRUCT := {
  item_name : String.string;
  listIndex : Z;
  value : double;
  percentile : double
}.

Record GROUP_STRUCT := {
  group_name : String.string;
  items : list ITEM_STRUCT;
  itemNum : Z;
  loValue : double;
  fdr : double
}.

Record LIST_STRUCT := {
  list_name : String.string;
  values : list double;
  list_itemNum : Z
}.

Definition no_item : ITEM_STRUCT :=
  {| item_name := String.EmptyString; listIndex := 0; value := 0%Q; percentile := 0%Q |}.
Definition no_group : GROUP_STRUCT :=
  {| group_name := String.EmptyString; items := []; itemNum := 0;
     loValue := 0%Q; fdr := 0%Q |}.
Definition no_list : LIST_STRUCT :=
  {| list_name := String.EmptyString; values := []; list_itemNum := 0 |}.

(** Assignments to one field. *)
Definition set_percentile (it : ITEM_STRUCT) (p : double) : ITEM_STRUCT :=
  {| item_name := item_name it; listIndex := listIndex it; value := value it;
     percentile := p |}.
Definition set_items (g : GROUP_STRUCT) (its : list ITEM_STRUCT) : GROUP_STRUCT :=
  {| group_name := group_name g; items := its; itemNum := itemNum g;
     loValue := loValue g; fdr := fdr g |}.
Definition set_loValue (g : GROUP_STRUCT) (v : double) : GROUP_STRUCT :=
  {| group_name := group_name g; items := items g; itemNum := itemNum g;
     loValue := v; fdr := fdr g |}.
Definition set_fdr (g : GROUP_STRUCT) (v : double) : GROUP_STRUCT :=
  {| group_name := group_name g; items := items g; itemNum := itemNum g;
     loValue := loValue g; fdr := v |}.
Definition set_values (l : LIST_STRUCT) (vs : list double) : LIST_STRUCT :=
  {| list_name := list_name l; values := vs; list_itemNum := list_itemNum l |}.

(** [QuickSortGroupByLoValue(groups, lo, hi)] *)
Definition QuickSortGroupByLoValue (groups : list GROUP_STRUCT) (lo hi : Z)
  : list GROUP_STRUCT :=
  QuickSortBy no_group loValue groups lo hi.

(** [malloc(n * sizeof(double))]: the contents are indeterminate in C and
    are zero here. *)
Definition malloc_double (n : Z) : list double := repeat 0%Q (Z.to_nat n).

(** The largest [itemNum] of the groups, 0 when there is none. *)
Definition max_itemNum (groups : list GROUP_STRUCT) (groupNum : Z) : Z :=
  for_range 0 groupNum
    (fun i m => if m <? itemNum (get no_group groups i)
                then itemNum (get no_group groups i) else m) 0.

Section Core.
Context `{BetaCdf}.

(** The scan of [ComputeLoValue], from index [i] with [n] rounds left. *)
Fixpoint lo_scan (n : nat) (tmpArray : list double) (num : Z)
         (maxPercentile : double) (i : Z) (tmpLoValue : double) : double :=
  match n with
  | O => tmpLoValue
  | S n' =>
      if Qlt_bool maxPercentile (get 0%Q tmpArray i) && (0 <? i)
      then tmpLoValue
      else
        let tmpF := BetaNoncentralCdf (inject_Z (i + 1)) (inject_Z (num - i)) 0%Q
                                      (get 0%Q tmpArray i) CDF_MAX_ERROR in
        let tmpLoValue := if Qlt_bool tmpF tmpLoValue then tmpF else tmpLoValue in
        lo_scan n' tmpArray num maxPercentile (i + 1) tmpLoValue
  end.

(** [ComputeLoValue(percentiles, num, &loValue, maxPercentile)]: the
    value stored in [*loValue], or [None] when [assert(num>0)] fails.
    The array argument is not written; [Mem.ComputeLoValue] below is the
    same function on an explicit store. *)
Definition ComputeLoValue (percentiles : list double) (num : Z)
           (maxPercentile : double) : option double :=
  if 0 <? num then
    let tmpArray := firstn (Z.to_nat num) percentiles in
    let tmpArray := QuicksortF tmpArray 0 (num - 1) in
    Some (lo_scan (Z.to_nat num) tmpArray num maxPercentile 0 1%Q)
  else None.

(** Lines 473-478 of [ProcessGroups]: the percentile of one item.  The
    two values searched for are doubles, the rounded difference and the
    rounded sum. *)
Definition item_percentile (lists : list LIST_STRUCT) (it : ITEM_STRUCT) : double :=
  let l := get no_list lists (listIndex it) in
  let index1 :=
    bTreeSearchingF (double_sub (value it) EPSILON_double) (values l)
                    0 (list_itemNum l - 1) in
  let index2 :=
    bTreeSearchingF (double_add (value it) EPSILON_double) (values l)
                    0 (list_itemNum l - 1) in
  ((inject_Z index1 + inject_Z index2 + 1) / inject_Z (list_itemNum l * 2))%Q.

(** The body of the loop over the items of group [i]. *)
Definition process_item (lists : list LIST_STRUCT) (i j : Z)
           (st : list GROUP_STRUCT * list double) : list GROUP_STRUCT * list double :=
  let '(groups, tmpF) := st in
  let g := get no_group groups i in
  let it := get no_item (items g) j in
  let p := item_percentile lists it in
  (upd groups i (set_items g (upd (items g) j (set_percentile it p))),
   upd tmpF j p).

(** The body of the loop over the groups. *)
Definition process_group (lists : list LIST_STRUCT) (maxPercentile : double) (i : Z)
           (st : list GROUP_STRUCT * list double)
  : option (list GROUP_STRUCT * list double) :=
  let '(groups, tmpF) :=
    for_range 0 (itemNum (get no_group (fst st) i)) (process_item lists i) st in
  match ComputeLoValue tmpF (itemNum (get no_group groups i)) maxPercentile with
  | Some v => Some (upd groups i (set_loValue (get no_group groups i) v), tmpF)
  | None => None
  end.

(** The loop that sorts the values of every list. *)
Definition sort_lists (lists : list LIST_STRUCT) (listNum : Z) : list LIST_STRUCT :=
  for_range 0 listNum
    (fun i lists =>
       let l := get no_list lists i in
       upd lists i (set_values l (QuicksortF (values l) 0 (list_itemNum l - 1))))
    lists.

(** [ProcessGroups(groups, groupNum, lists, listNum, maxPercentile)]: the
    groups and lists after the call. *)
Definition ProcessGroups (groups : list GROUP_STRUCT) (groupNum : Z)
           (lists : list LIST_STRUCT) (listNum : Z) (maxPercentile : double)
  : option (list GROUP_STRUCT * list LIST_STRUCT) :=
  let maxItemPerGroup := max_itemNum groups groupNum in
  if 0 <? maxItemPerGroup then
    let tmpF := malloc_double maxItemPerGroup in
    let lists := sort_lists lists listNum in
    match for_range_opt 0 groupNum (process_group lists maxPercentile) (groups, tmpF) with
    | Some (groups, _) => Some (groups, lists)
    | None => None
    end
  else None.
End Core.

Section FDR.
Context `{BetaCdf} `{RandomGen}.

(** [for (k...) tmpPercentile[k] = Uniform(0.0, 1.0);] *)
Definition draw_percentiles (n : Z) (st : list double * rng) : list double * rng :=
  for_range 0 n
    (fun k '(tmpPercentile, g) =>
       let '(u, g) := Uniform 0%Q 1%Q g in (upd tmpPercentile k u, g))
    st.

(** The state of the simulation loops: the scratch percentiles, the
    pool, its fill count and the generator. *)
Record sim_state := {
  tmpPercentile : list double;
  randLoValue : list double;
  randLoValueNum : Z;
  gen : rng
}.

(** The body of the loop over the groups in one pass. *)
Definition simulate_group (groups : list GROUP_STRUCT) (maxPercentile : double)
           (j : Z) (s : sim_state) : option sim_state :=
  let n := itemNum (get no_group groups j) in
  let '(tmp, g) := draw_percentiles n (tmpPercentile s, gen s) in
  match ComputeLoValue tmp n maxPercentile with
  | Some v =>
      Some {| tmpPercentile := tmp;
              randLoValue := upd (randLoValue s) (randLoValueNum s) v;
              randLoValueNum := randLoValueNum s + 1;
              gen := g |}
  | None => None
  end.

(** Lines 566-579: [scanPass] passes over all groups. *)
Definition simulate (groups : list GROUP_STRUCT) (groupNum : Z)
           (maxPercentile : double) (scanPass : Z) (s : sim_state) : option sim_state :=
  for_range_opt 0 scanPass
    (fun _ s => for_range_opt 0 groupNum (simulate_group groups maxPercentile) s) s.

(** Lines 585-590: the rank-based estimate of every group. *)
Definition assign_fdr (randLoValue : list double) (randLoValueNum groupNum : Z)
           (groups : list GROUP_STRUCT) : list GROUP_STRUCT :=
  for_range 0 groupNum
    (fun i groups =>
       let g := get no_group groups i in
       upd groups i
         (set_fdr g
            (inject_Z (bTreeSearchingF (loValue g - EPSILON)%Q randLoValue
                                       0 (randLoValueNum - 1)
                       + bTreeSearchingF (loValue g + EPSILON)%Q randLoValue
                                         0 (randLoValueNum - 1)
                       + 1)
             / 2 / inject_Z randLoValueNum / (inject_Z i + (1 # 2))
             * inject_Z groupNum)%Q))
    groups.

(** Lines 592-595. *)
Definition clamp_last (groupNum : Z) (groups : list GROUP_STRUCT) : list GROUP_STRUCT :=
  let g := get no_group groups (groupNum - 1) in
  if Qlt_bool 1%Q (fdr g) then upd groups (groupNum - 1) (set_fdr g 1%Q) else groups.

(** Lines 597-603. *)
Definition sweep (groupNum : Z) (groups : list GROUP_STRUCT) : list GROUP_STRUCT :=
  for_down (groupNum - 2)
    (fun i groups =>
       let g := get no_group groups i in
       let g1 := get no_group groups (i + 1) in
       if Qlt_bool (fdr g1) (fdr g) then upd groups i (set_fdr g (fdr g1)) else groups)
    groups.

(** [int scanPass = numOfRandPass/groupNum+1] *)
Definition scanPass_of (numOfRandPass groupNum : Z) : Z :=
  to_int (Z.quot numOfRandPass groupNum + 1).

(** Lines 540-579: the pool of simulated lo-values as it stands after
    the simulation loops, before it is sorted.  [g0] is the state in
    which the call finds the generator. *)
Definition null_pool (groups : list GROUP_STRUCT) (groupNum : Z)
           (maxPercentile : double) (numOfRandPass : Z) (g0 : rng)
  : option sim_state :=
  let scanPass := scanPass_of numOfRandPass groupNum in
  let maxItemNum := max_itemNum groups groupNum in
  if negb (0 <? maxItemNum) then None else
  let tmpPercentile := malloc_double maxItemNum in
  let randLoValueNum := to_int (groupNum * scanPass) in
  if negb (0 <? randLoValueNum) then None else
  let randLoValue := malloc_double randLoValueNum in
  simulate groups groupNum maxPercentile scanPass
    {| tmpPercentile := tmpPercentile; randLoValue := randLoValue;
       randLoValueNum := 0; gen := PlantSeeds 123456 g0 |}.

(** [ComputeFDR(groups, groupNum, maxPercentile, numOfRandPass)] run from
    the generator state [g0]: the groups and the generator after the
    call.  A division by zero or a failing assertion aborts. *)
Definition ComputeFDR (groups : list GROUP_STRUCT) (groupNum : Z)
           (maxPercentile : double) (numOfRandPass : Z) (g0 : rng)
  : option (list GROUP_STRUCT * rng) :=
  if groupNum =? 0 then None else
  match null_pool groups groupNum maxPercentile numOfRandPass g0 with
  | None => None
  | Some s =>
      let randLoValue := QuicksortF (randLoValue s) 0 (randLoValueNum s - 1) in
      let groups := QuickSortGroupByLoValue groups 0 (groupNum - 1) in
      let groups := assign_fdr randLoValue (randLoValueNum s) groupNum groups in
      let groups := clamp_last groupNum groups in
      let groups := sweep groupNum groups in
      Some (groups, gen s)
  end.
End FDR.

(** ** [ComputeLoValue] on an explicit store

    The value-level [ComputeLoValue] above says what is computed.  Here the
    same statements run on a heap of [double] arrays, so that what the call
    writes, and where, is part of the model. *)

Module Mem.
Definition block := nat.

(** The allocated arrays and the next unused block. *)
Record store := {
  next : block;
  cell : block -> option (list double)
}.

(** Every block at or above [next] is unused. *)
Definition well_formed (s : store) : Prop :=
  forall b, (next s <= b)%nat -> cell s b = None.

Definition load (s : store) (b : block) : list double :=
  match cell s b with
  | Some a => a
  | None => []
  end.

Definition write (s : store) (b : block) (a : list double) : store :=
  {| next := next s;
     cell := fun b' => if Nat.eqb b' b then Some a else cell s b' |}.

(** [malloc(n * sizeof(double))] *)
Definition malloc (n : Z) (s : store) : block * store :=
  (next s,
   {| next := S (next s);
      cell := fun b' => if Nat.eqb b' (next s) then Some (malloc_double n)
                        else cell s b' |}).

(** [free(b)] *)
Definition free (b : block) (s : store) : store :=
  {| next := next s;
     cell := fun b' => if Nat.eqb b' b then None else cell s b' |}.

(** [memcpy(dst, src, n * sizeof(double))] *)
Definition memcpy (dst src : block) (n : Z) (s : store) : store :=
  write s dst (firstn (Z.to_nat n) (load s src) ++ skipn (Z.to_nat n) (load s dst)).

Section WithBeta.
Context `{BetaCdf}.

(** [ComputeLoValue(percentiles, num, &loValue, maxPercentile)] with
    [percentiles] a block of the store: the value stored in [*loValue]
    and the store after the call.  The cell [*loValue] is the result
    of the function here: the callers pass the address of a field of
    a group or of a cell of the pool, never a cell of [percentiles]. *)
Definition ComputeLoValue (percentiles : block) (num : Z)
           (maxPercentile : double) (s : store) : option (double * store) :=
  if 0 <? num then
    let '(tmpArray, s) := malloc num s in
    let s := memcpy tmpArray percentiles num s in
    let s := write s tmpArray (QuicksortF (load s tmpArray) 0 (num - 1)) in
    let tmpLoValue :=
      lo_scan (Z.to_nat num) (load s tmpArray) num maxPercentile 0 1%Q in
    let s := free tmpArray s in
    Some (tmpLoValue, s)
  else None.
End WithBeta.
End Mem.

(** ** Instances on which the model runs *)

(** The probability that at least [k] of [n] independent uniform draws
    fall at or below [x]: the distribution function of the [k]-th order
    statistic, which is the central Beta distribution function with
    shapes [k] and [n - k + 1]. *)
Fixpoint at_least (n k : nat) (x : Q) : Q :=
  match k with
  | O => 1
  | S k' =>
      match n with
      | O => 0
      | S n' => x * at_least n' k' x + (1 - x) * at_least n' k x
      end
  end.

Definition clamp01 (x : Q) : Q := Qmax 0 (Qmin 1 x).

(** An exact evaluator for whole shape parameters. *)
Definition order_statistic_cdf (a b lambda x errorMax : double) : double :=
  at_least (Z.to_nat (Qfloor a + Qfloor b - 1)) (Z.to_nat (Qfloor a)) (clamp01 x).

Definition ExactBeta : BetaCdf := {| BetaNoncentralCdf := order_statistic_cdf |}.

(** A Lehmer generator (multiplier 48271, modulus 2^31 - 1). *)
Definition lehmer_modulus : positive := 2147483647.

Definition lehmer_uniform (lo hi : double) (g : Z) : double * Z :=
  let g' := (48271 * g) mod Zpos lehmer_modulus in
  ((lo + (hi - lo) * (g' # lehmer_modulus))%Q, g').

Definition Lehmer : RandomGen :=
  {| rng := Z;
     PlantSeeds := fun x _ => x mod Zpos lehmer_modulus;
     Uniform := lehmer_uniform |}.

Lemma Lehmer_reseeds : @reseeds Lehmer.
Proof. intros x g g'. reflexivity. Qed.

(** ** Text files and the C library *)

Import String.StringSyntax Ascii.AsciiSyntax.
Delimit Scope string_scope with string.
Delimit Scope char_scope with char.

Definition MAX_NAME_LEN : Z := 255.
Definition MAX_GROUP_NUM : Z := 100000.
Definition MAX_LIST_NUM : Z := 1000.

(** Modelled from the spec: [StringToWords(words, s, wordLen, maxWords,
    delimiters)] of words.h, which is not part of RRA.c, splits [s] at
    the delimiters, stores the words in [words] and returns their number.
    Here it returns the words, and the number is their count.  [atof] is
    the reader of the C library.  Both are parameters of the model. *)
Class TextServices := {
  StringToWords : String.string -> list String.string;
  atof : String.string -> double
}.

(** A stream opened for reading: the characters not yet read and the
    end-of-file indicator. *)
Record FILE := {
  unread : String.string;
  eof : bool
}.

Definition newline : Ascii.ascii := "010"%char.

(** What one call of [fgets] takes from the characters [s] when it may
    store [n] more: the characters through the first newline, the rest of
    the file, and whether the end of the file was hit on the way. *)
Fixpoint read_line (n : Z) (s : String.string)
  : String.string * String.string * bool :=
  if n <=? 0 then (String.EmptyString, s, false)
  else
    match s with
    | String.EmptyString => (String.EmptyString, String.EmptyString, true)
    | String.String c s' =>
        if Ascii.eqb c newline then (String.String c String.EmptyString, s', false)
        else let '(l, r, e) := read_line (n - 1) s' in (String.String c l, r, e)
    end.

(** [fgets(tmpS, size, fh)]: the buffer and the stream after the call.
    At the end of the file nothing is stored, the buffer keeps its
    contents and the indicator is set. *)
Definition fgets (tmpS : String.string) (size : Z) (fh : FILE) : String.string * FILE :=
  match unread fh with
  | String.EmptyString => (tmpS, {| unread := String.EmptyString; eof := true |})
  | _ =>
      let '(l, r, e) := read_line (size - 1) (unread fh) in
      (l, {| unread := r; eof := eof fh || e |})
  end.

(** [feof(fh)] *)
Definition feof (fh : FILE) : bool := eof fh.

(** [fopen(fileName, "r")] in the file system [fs]: [None] is the null
    pointer. *)
Definition fopen (fs : String.string -> option String.string) (fileName : String.string)
  : option FILE :=
  match fs fileName with
  | Some contents => Some {| unread := contents; eof := false |}
  | None => None
  end.

(** The size of the line buffer, [255*(MAX_NAME_LEN+1)*sizeof(char)]. *)
Definition LINE_SIZE : Z := 255 * (MAX_NAME_LEN + 1).

(** ** [ReadFile] *)

(** Assignments to one field. *)
Definition set_group_name (g : GROUP_STRUCT) (s : String.string) : GROUP_STRUCT :=
  {| group_name := s; items := items g; itemNum := itemNum g;
     loValue := loValue g; fdr := fdr g |}.
Definition set_itemNum (g : GROUP_STRUCT) (n : Z) : GROUP_STRUCT :=
  {| group_name := group_name g; items := items g; itemNum := n;
     loValue := loValue g; fdr := fdr g |}.
Definition set_list_name (l : LIST_STRUCT) (s : String.string) : LIST_STRUCT :=
  {| list_name := s; values := values l; list_itemNum := list_itemNum l |}.
Definition set_list_itemNum (l : LIST_STRUCT) (n : Z) : LIST_STRUCT :=
  {| list_name := list_name l; values := values l; list_itemNum := n |}.

(** [malloc(n * sizeof(ITEM_STRUCT))]: the contents are indeterminate in C
    and are [no_item] here. *)
Definition malloc_items (n : Z) : list ITEM_STRUCT := repeat no_item (Z.to_nat n).

Section NameTable.
Context {A : Type} (d : A) (name_of : A -> String.string).

(** [for (i=0;i<n;i++) { if (!strcmp(name, a[i].name)) break; }]: the
    value of [i] after the loop, with [k] rounds left. *)
Fixpoint find_from (name : String.string) (a : list A) (k : nat) (i : Z) : Z :=
  match k with
  | O => i
  | S k' =>
      if String.eqb name (name_of (get d a i)) then i
      else find_from name a k' (i + 1)
  end.

Definition find_name (name : String.string) (a : list A) (n : Z) : Z :=
  find_from name a (Z.to_nat n) 0.

(** Lines 278-300 of [ReadFile], and lines 302-324 for the lists: look
    the name up among the first [n] entries; a new name takes the entry
    [n] with a count of 1, a known one has its count incremented.  [None]
    is the [return -1] taken when the table is full. *)
Definition enter_name (fresh : A -> String.string -> A) (bump : A -> A)
           (name : String.string) (a : list A) (n max : Z) : option (list A * Z) :=
  let i := find_name name a n in
  if n <=? i then
    let a := upd a n (fresh (get d a n) name) in
    let n := n + 1 in
    if max <=? n then None else Some (a, n)
  else Some (upd a i (bump (get d a i)), n).
End NameTable.

Section Ingestion.
Context `{TextServices}.

(** The line buffer and the stream between two calls of [fgets]. *)
Record line_reader := {
  fh : FILE;
  tmpS : String.string
}.

(** [fgets(tmpS, 255*(MAX_NAME_LEN+1)*sizeof(char), fh);] *)
Definition read_next (r : line_reader) : line_reader :=
  let '(s, f) := fgets (tmpS r) LINE_SIZE (fh r) in {| fh := f; tmpS := s |}.

(** [StringToWords(words, tmpS, ...)] on the buffer, and its result. *)
Definition words (r : line_reader) : list String.string := StringToWords (tmpS r).
Definition wordNum (r : line_reader) : Z := Z.of_nat (length (words r)).

(** The loop test [(wordNum==4)&&(!feof(fh))]. *)
Definition more_records (r : line_reader) : bool :=
  (wordNum r =? 4) && negb (feof (fh r)).

(** What is left to read bounds the number of rounds. *)
Definition remaining (r : line_reader) : nat :=
  if eof (fh r) then O else S (String.length (unread (fh r))).

Lemma read_line_shorter : forall s n l r e,
  0 < n -> s <> String.EmptyString -> read_line n s = (l, r, e) ->
  (String.length r < String.length s)%nat.
Proof.
  induction s as [|c s IH]; intros n l r e Hn Hs; [congruence|].
  cbn [read_line]. destruct (Z.leb_spec n 0) as [|_]; [lia|].
  destruct (Ascii.eqb c newline).
  - intros E. inversion E; subst. cbn [String.length]. lia.
  - destruct (read_line (n - 1) s) as [[l1 r1] e1] eqn:E1. intros E.
    inversion E; subst. cbn [String.length].
    destruct s as [|c' s'].
    + cbn [read_line] in E1. destruct (n - 1 <=? 0); inversion E1; cbn; lia.
    + destruct (Z.leb_spec (n - 1) 0) as [Hle|Hgt].
      * cbn [read_line] in E1. destruct (Z.leb_spec (n - 1) 0); [|lia].
        inversion E1; subst. lia.
      * pose proof (IH (n - 1) l1 r e Hgt ltac:(discriminate) E1). lia.
Qed.

Lemma read_next_remaining r :
  eof (fh r) = false -> (remaining (read_next r) < remaining r)%nat.
Proof.
  intros He. unfold remaining at 2. rewrite He.
  unfold read_next, fgets.
  destruct (unread (fh r)) as [|c s] eqn:Eu.
  - cbn. lia.
  - destruct (read_line (LINE_SIZE - 1) (String.String c s)) as [[l r1] e] eqn:E.
    assert (Hn : 0 < LINE_SIZE - 1) by reflexivity.
    assert (Hne : String.String c s <> String.EmptyString) by discriminate.
    pose proof (read_line_shorter _ _ _ _ _ Hn Hne E) as Hs.
    unfold remaining. cbn [fh eof unread].
    destruct (eof (fh r) || e); lia.
Qed.

(** [while ((wordNum==4)&&(!feof(fh))) { body; fgets(...); wordNum =
    StringToWords(...); }], for both loops of [ReadFile].  [None] is the
    early exit of the body. *)
Equations? read_records {S : Type} (body : list String.string -> S -> option S)
           (r : line_reader) (s : S) : option (line_reader * S)
  by wf (remaining r) lt :=
  read_records body r s with inspect (more_records r) => {
    | exist _ false _ => Some (r, s)
    | exist _ true _ with body (words r) s => {
      | None => None
      | Some s' => read_records body (read_next r) s' } }.
Proof.
  apply read_next_remaining.
  unfold more_records, feof in e. apply andb_prop in e. destruct e as [_ e].
  now apply negb_true_iff in e.
Qed.

(** The counters of the first pass. *)
Record tally := {
  t_groups : list GROUP_STRUCT;
  t_lists : list LIST_STRUCT;
  tmpGroupNum : Z;
  tmpListNum : Z;
  totalItemNum : Z
}.

(** The body of the first loop, lines 274-326: count the record under its
    group and under its list.  [None] is [return -1]. *)
Definition count_record (maxGroupNum maxListNum : Z) (words : list String.string)
           (t : tally) : option tally :=
  let tmpGroupName := nth 1 words String.EmptyString in
  let tmpListName := nth 2 words String.EmptyString in
  match enter_name no_group group_name
                   (fun g name => set_itemNum (set_group_name g name) 1)
                   (fun g => set_itemNum g (itemNum g + 1))
                   tmpGroupName (t_groups t) (tmpGroupNum t) maxGroupNum with
  | None => None
  | Some (groups, tmpGroupNum) =>
      match enter_name no_list list_name
                       (fun l name => set_list_itemNum (set_list_name l name) 1)
                       (fun l => set_list_itemNum l (list_itemNum l + 1))
                       tmpListName (t_lists t) (tmpListNum t) maxListNum with
      | None => None
      | Some (lists, tmpListNum) =>
          Some {| t_groups := groups; t_lists := lists;
                  tmpGroupNum := tmpGroupNum; tmpListNum := tmpListNum;
                  totalItemNum := totalItemNum t + 1 |}
      end
  end.

(** Lines 334-338: the item array of every group, and the count reset. *)
Definition alloc_items (groups : list GROUP_STRUCT) (tmpGroupNum : Z)
  : list GROUP_STRUCT :=
  for_range 0 tmpGroupNum
    (fun i groups =>
       let g := get no_group groups i in
       upd groups i (set_itemNum (set_items g (malloc_items (itemNum g))) 0))
    groups.

(** Lines 340-344: the value array of every list, and the count reset. *)
Definition alloc_values (lists : list LIST_STRUCT) (tmpListNum : Z)
  : list LIST_STRUCT :=
  for_range 0 tmpListNum
    (fun i lists =>
       let l := get no_list lists i in
       upd lists i (set_list_itemNum (set_values l (malloc_double (list_itemNum l))) 0))
    lists.

(** The body of the second loop, lines 364-394: store the record in its
    group and its value in its list.  [None] is a failing assertion. *)
Definition store_record (tmpGroupNum tmpListNum : Z) (words : list String.string)
           (st : list GROUP_STRUCT * list LIST_STRUCT)
  : option (list GROUP_STRUCT * list LIST_STRUCT) :=
  let '(groups, lists) := st in
  let tmpItemName := nth 0 words String.EmptyString in
  let tmpGroupName := nth 1 words String.EmptyString in
  let tmpListName := nth 2 words String.EmptyString in
  let tmpValue := atof (nth 3 words String.EmptyString) in
  let i := find_name no_group group_name tmpGroupName groups tmpGroupNum in
  let j := find_name no_list list_name tmpListName lists tmpListNum in
  if negb (i <? tmpGroupNum) then None else
  if negb (j <? tmpListNum) then None else
  let g := get no_group groups i in
  let it := get no_item (items g) (itemNum g) in
  let it := {| item_name := tmpItemName; listIndex := j; value := tmpValue;
               percentile := percentile it |} in
  let groups :=
    upd groups i (set_itemNum (set_items g (upd (items g) (itemNum g) it))
                              (itemNum g + 1)) in
  let l := get no_list lists j in
  let lists :=
    upd lists j (set_list_itemNum (set_values l (upd (values l) (list_itemNum l) tmpValue))
                                  (list_itemNum l + 1)) in
  Some (groups, lists).

(** How a call of [ReadFile] ends when no assertion fails: [return -1],
    or the count of records with the arrays and the two numbers stored
    through [groupNum] and [listNum]. *)
Inductive read_outcome :=
| ReadFailed
| ReadDone (totalItemNum : Z) (groups : list GROUP_STRUCT) (groupNum : Z)
           (lists : list LIST_STRUCT) (listNum : Z).

(** [ReadFile(fileName, groups, maxGroupNum, &groupNum, lists, maxListNum,
    &listNum)] in the file system [fs].  [None] is a failing assertion.
    The line buffer is allocated empty. *)
Definition ReadFile (fs : String.string -> option String.string)
           (fileName : String.string)
           (groups : list GROUP_STRUCT) (maxGroupNum : Z)
           (lists : list LIST_STRUCT) (maxListNum : Z) : option read_outcome :=
  match fopen fs fileName with
  | None => Some ReadFailed
  | Some f =>
      let r := read_next {| fh := f; tmpS := String.EmptyString |} in
      if negb (wordNum r =? 4) then None else
      let r := read_next r in
      match read_records (count_record maxGroupNum maxListNum) r
              {| t_groups := groups; t_lists := lists;
                 tmpGroupNum := 0; tmpListNum := 0; totalItemNum := 0 |} with
      | None => Some ReadFailed
      | Some (r, t) =>
          let groups := alloc_items (t_groups t) (tmpGroupNum t) in
          let lists := alloc_values (t_lists t) (tmpListNum t) in
          match fopen fs fileName with
          | None => Some ReadFailed
          | Some f =>
              let r := read_next {| fh := f; tmpS := tmpS r |} in
              let r := read_next r in
              match read_records (store_record (tmpGroupNum t) (tmpListNum t)) r
                      (groups, lists) with
              | None => None
              | Some (_, (groups, lists)) =>
                  Some (ReadDone (totalItemNum t) groups (tmpGroupNum t)
                                 lists (tmpListNum t))
              end
          end
      end
  end.
End Ingestion.

(** ** [SaveGroupInfo] *)

(** The arguments of one [fprintf] of line 432: a row of the output. *)
Record output_row := {
  out_name : String.string;
  out_itemNum : Z;
  out_loValue : double;
  out_fdr : double
}.

(** [SaveGroupInfo(fileName, groups, groupNum)]: the value returned and,
    when the file could be opened for writing, the rows written after the
    header, in order.  How [fprintf] lays the numbers out is not
    modelled. *)
Definition SaveGroupInfo (writable : String.string -> bool) (fileName : String.string)
           (groups : list GROUP_STRUCT) (groupNum : Z) : Z * option (list output_row) :=
  if negb (writable fileName) then (-1, None)
  else
    (1, Some (for_range 0 groupNum
                (fun i rows =>
                   let g := get no_group groups i in
                   rows ++ [{| out_name := group_name g; out_itemNum := itemNum g;
                               out_loValue := loValue g; out_fdr := fdr g |}])
                [])).

(** ** [main] *)

(** The three settings read from the command line. *)
Record settings := {
  inputFileName : String.string;
  outputFileName : String.string;
  maxPercentile : double
}.

Section Main.
Context `{BetaCdf} `{RandomGen} `{TextServices}.

(** Lines 91-109: the defaults and the loop over the arguments. *)
Definition parse_arguments (argv : list String.string) : settings :=
  for_range 2 (Z.of_nat (length argv))
    (fun i o =>
       let o := if String.eqb (get String.EmptyString argv (i - 1)) "-i"%string
                then {| inputFileName := get String.EmptyString argv i;
                        outputFileName := outputFileName o;
                        maxPercentile := maxPercentile o |}
                else o in
       let o := if String.eqb (get String.EmptyString argv (i - 1)) "-o"%string
                then {| inputFileName := inputFileName o;
                        outputFileName := get String.EmptyString argv i;
                        maxPercentile := maxPercentile o |}
                else o in
       if String.eqb (get String.EmptyString argv (i - 1)) "-p"%string
       then {| inputFileName := inputFileName o;
               outputFileName := outputFileName o;
               maxPercentile := atof (get String.EmptyString argv i) |}
       else o)
    {| inputFileName := String.EmptyString; outputFileName := String.EmptyString;
       maxPercentile := 1 # 4 |}.

(** [main(argc, argv)] with [argc] the length of [argv], in the file
    system [fs], with the output files [writable], from the generator
    state [g0]: the exit status and the rows written to the output file,
    if it was written.  [None] is a failing assertion. *)
Definition main (fs : String.string -> option String.string)
           (writable : String.string -> bool) (g0 : rng)
           (argv : list String.string) : option (Z * option (list output_row)) :=
  let argc := Z.of_nat (length argv) in
  if argc =? 1 then Some (-1, None) else
  let o := parse_arguments argv in
  if String.eqb (inputFileName o) String.EmptyString
     || String.eqb (outputFileName o) String.EmptyString
  then Some (-1, None) else
  if Qlt_bool 1 (maxPercentile o) || Qlt_bool (maxPercentile o) 0
  then Some (-1, None) else
  let groups := repeat no_group (Z.to_nat MAX_GROUP_NUM) in
  let lists := repeat no_list (Z.to_nat MAX_LIST_NUM) in
  match ReadFile fs (inputFileName o) groups MAX_GROUP_NUM lists MAX_LIST_NUM with
  | None => None
  | Some ReadFailed => Some (-1, None)
  | Some (ReadDone flag groups groupNum lists listNum) =>
      if flag <=? 0 then Some (-1, None) else
      match ProcessGroups groups groupNum lists listNum (maxPercentile o) with
      | None => None
      | Some (groups, lists) =>
          match ComputeFDR groups groupNum (maxPercentile o)
                           (RAND_PASS_NUM * groupNum) g0 with
          | None => None
          | Some (groups, _) =>
              let '(flag, rows) :=
                SaveGroupInfo writable (outputFileName o) groups groupNum in
              if flag <=? 0 then Some (-1, None) else Some (0, rows)
          end
      end
  end.
End Main.

(** ** A tokenizer and a reader of numbers on which the model runs *)

(** The delimiters of [ReadFile]: space, tab, carriage return, newline,
    vertical tab and form feed. *)
Definition is_delimiter (c : Ascii.ascii) : bool :=
  existsb (Ascii.eqb c) [" "; "009"; "013"; "010"; "011"; "012"]%char.

(** The words of [s], with [word] the characters of the word being read. *)
Fixpoint split_words (word : String.string) (s : String.string) : list String.string :=
  match s with
  | String.EmptyString =>
      match word with String.EmptyString => [] | _ => [word] end
  | String.String c s' =>
      if is_delimiter c then
        match word with
        | String.EmptyString => split_words String.EmptyString s'
        | _ => word :: split_words String.EmptyString s'
        end
      else split_words (String.append word (String.String c String.EmptyString)) s'
  end.

Definition digit_of (c : Ascii.ascii) : option Z :=
  let n := Z.of_nat (Ascii.nat_of_ascii c) in
  if (48 <=? n) && (n <=? 57) then Some (n - 48) else None.

(** The digits at the head of [s] as a number, with the count of digits
    read and the rest of the string. *)
Fixpoint read_digits (acc : Z) (count : nat) (s : String.string)
  : Z * nat * String.string :=
  match s with
  | String.EmptyString => (acc, count, s)
  | String.String c s' =>
      match digit_of c with
      | Some k => read_digits (10 * acc + k) (S count) s'
      | None => (acc, count, s)
      end
  end.

(** An unsigned or negative decimal number with an optional fraction. *)
Definition read_decimal (s : String.string) : double :=
  let '(negative, s) :=
    match s with
    | String.String "-"%char s' => (true, s')
    | _ => (false, s)
    end in
  let '(whole, _, s) := read_digits 0 O s in
  let v :=
    match s with
    | String.String "."%char s' =>
        let '(part, count, _) := read_digits 0 O s' in
        (inject_Z whole + inject_Z part / inject_Z (10 ^ Z.of_nat count))%Q
    | _ => inject_Z whole
    end in
  if negative then (- v)%Q else v.

Definition PlainText : TextServices :=
  {| StringToWords := split_words String.EmptyString; atof := read_decimal |}.

(** ** Reading and writing arrays *)

Section ArrayFacts.
Context {A : Type} (d : A).

Lemma length_upd_nat (a : list A) n v : length (upd_nat a n v) = length a.
Proof.
  revert n; induction a as [|h t IH]; intros [|n]; simpl; auto.
Qed.

Lemma length_upd (a : list A) i v : length (upd a i v) = length a.
Proof. unfold upd. destruct (i <? 0); auto using length_upd_nat. Qed.

Lemma nth_upd_nat_same a n v : (n < length a)%nat -> nth n (upd_nat a n v) d = v.
Proof.
  revert n; induction a as [|h t IH]; intros [|n] Hn; simpl in *; try lia; auto.
  apply IH; lia.
Qed.

Lemma nth_upd_nat_other a n m v : n <> m -> nth m (upd_nat a n v) d = nth m a d.
Proof.
  revert n m; induction a as [|h t IH]; intros [|n] [|m] Hn; simpl in *;
    try congruence; auto.
Qed.

Lemma get_upd_same a i v :
  0 <= i < Z.of_nat (length a) -> get d (upd a i v) i = v.
Proof.
  intros Hi. unfold get, upd.
  destruct (Z.ltb_spec i 0); [lia|]. apply nth_upd_nat_same. lia.
Qed.

Lemma get_upd_other a i k v : i <> k -> get d (upd a i v) k = get d a k.
Proof.
  intros Hik. unfold get, upd.
  destruct (Z.ltb_spec k 0); [reflexivity|].
  destruct (Z.ltb_spec i 0); [reflexivity|].
  apply nth_upd_nat_other. lia.
Qed.

Lemma length_swap (a : list A) i j : length (swap d a i j) = length a.
Proof. unfold swap. now rewrite !length_upd. Qed.

Lemma get_swap a i j k :
  0 <= i < Z.of_nat (length a) -> 0 <= j < Z.of_nat (length a) ->
  get d (swap d a i j) k =
    if k =? j then get d a i else if k =? i then get d a j else get d a k.
Proof.
  intros Hi Hj. unfold swap.
  destruct (Z.eqb_spec k j) as [->|Hkj].
  - apply get_upd_same. rewrite length_upd. lia.
  - rewrite get_upd_other by congruence.
    destruct (Z.eqb_spec k i) as [->|Hki].
    + now apply get_upd_same.
    + apply get_upd_other. congruence.
Qed.

Lemma Permutation_upd_nat a n v :
  (n < length a)%nat -> Permutation (v :: a) (nth n a d :: upd_nat a n v).
Proof.
  revert n; induction a as [|h t IH]; intros [|n] Hn; simpl in *; try lia.
  - apply perm_swap.
  - eapply perm_trans; [apply perm_swap|].
    eapply perm_trans; [apply perm_skip; apply IH; apply PeanoNat.Nat.succ_lt_mono, Hn|].
    apply perm_swap.
Qed.

Lemma Permutation_upd a i v :
  0 <= i < Z.of_nat (length a) -> Permutation (v :: a) (get d a i :: upd a i v).
Proof.
  intros Hi. unfold upd, get. destruct (Z.ltb_spec i 0); [lia|].
  apply Permutation_upd_nat. lia.
Qed.

Lemma Permutation_swap a i j :
  0 <= i < Z.of_nat (length a) -> 0 <= j < Z.of_nat (length a) ->
  Permutation a (swap d a i j).
Proof.
  intros Hi Hj. unfold swap.
  apply Permutation_cons_inv with (a := get d a j).
  eapply perm_trans; [apply (Permutation_upd a i (get d a j) Hi)|].
  eapply perm_trans.
  - apply (Permutation_upd (upd a i (get d a j)) j (get d a i)).
    rewrite length_upd. exact Hj.
  - replace (get d (upd a i (get d a j)) j) with (get d a j); [reflexivity|].
    destruct (Z.eq_dec i j) as [->|Hij].
    + symmetry. now apply get_upd_same.
    + symmetry. now apply get_upd_other.
Qed.

Lemma get_In a i : 0 <= i < Z.of_nat (length a) -> In (get d a i) a.
Proof.
  intros Hi. unfold get. destruct (Z.ltb_spec i 0); [lia|].
  apply nth_In. lia.
Qed.

Lemma In_get a x : In x a -> exists i, 0 <= i < Z.of_nat (length a) /\ get d a i = x.
Proof.
  intros Hin. destruct (In_nth a x d Hin) as (n & Hn & Hx).
  exists (Z.of_nat n). split; [lia|].
  unfold get. destruct (Z.ltb_spec (Z.of_nat n) 0); [lia|].
  now rewrite Nat2Z.id.
Qed.

Lemma get_cons x a i : 0 < i -> get d (x :: a) i = get d a (i - 1).
Proof.
  intros Hi. unfold get.
  destruct (Z.ltb_spec i 0); [lia|]. destruct (Z.ltb_spec (i - 1) 0); [lia|].
  replace (Z.to_nat i) with (S (Z.to_nat (i - 1))) by lia. reflexivity.
Qed.

Lemma get_0 x a : get d (x :: a) 0 = x.
Proof. reflexivity. Qed.
End ArrayFacts.

(** ** Correctness of the quicksort *)

Section QuickSortCorrect.
Context {A : Type} (d : A) (key : A -> double).

(** [a[lo..hi]] is ascending by key. *)
Definition sorted_range (a : list A) (lo hi : Z) : Prop :=
  forall k1 k2, lo <= k1 -> k1 <= k2 -> k2 <= hi ->
                (key (get d a k1) <= key (get d a k2))%Q.

(** [b] is reached from [a] by exchanges of cells of [lo..hi] only. *)
Inductive swaps (lo hi : Z) : list A -> list A -> Prop :=
| swaps_refl a : swaps lo hi a a
| swaps_step a i j b :
    lo <= i <= hi -> lo <= j <= hi ->
    swaps lo hi (swap d a i j) b -> swaps lo hi a b.

Lemma swaps_trans lo hi a b c :
  swaps lo hi a b -> swaps lo hi b c -> swaps lo hi a c.
Proof.
  induction 1 as [a|a i j b Hi Hj Hs IH]; intros Hc; [assumption|].
  eapply swaps_step; [exact Hi|exact Hj|apply IH; exact Hc].
Qed.

Lemma swaps_weaken lo hi lo' hi' a b :
  swaps lo hi a b -> lo' <= lo -> hi <= hi' -> swaps lo' hi' a b.
Proof.
  induction 1 as [a|a i j b Hi Hj Hs IH]; intros Hlo Hhi; [constructor|].
  apply swaps_step with (i := i) (j := j); [lia|lia|apply IH; assumption].
Qed.

Lemma swaps_length lo hi a b : swaps lo hi a b -> length b = length a.
Proof.
  induction 1 as [a|a i j b Hi Hj Hs IH]; [reflexivity|].
  now rewrite IH, length_swap.
Qed.

Lemma swaps_outside lo hi a b :
  swaps lo hi a b -> 0 <= lo -> hi < Z.of_nat (length a) ->
  forall k, k < lo \/ hi < k -> get d b k = get d a k.
Proof.
  induction 1 as [a|a i j b Hi Hj Hs IH]; intros Hlo Hhi k Hk; [reflexivity|].
  rewrite IH by (rewrite ?length_swap; assumption).
  rewrite get_swap by lia.
  destruct (Z.eqb_spec k j); [lia|]. destruct (Z.eqb_spec k i); [lia|]. reflexivity.
Qed.

Lemma swaps_forall (P : A -> Prop) lo hi a b :
  swaps lo hi a b -> 0 <= lo -> hi < Z.of_nat (length a) ->
  (forall k, lo <= k <= hi -> P (get d a k)) ->
  forall k, lo <= k <= hi -> P (get d b k).
Proof.
  induction 1 as [a|a i j b Hi Hj Hs IH]; intros Hlo Hhi HP k Hk; [auto|].
  apply IH; rewrite ?length_swap; try assumption.
  intros k' Hk'. rewrite get_swap by lia.
  destruct (Z.eqb_spec k' j); [apply HP; lia|].
  destruct (Z.eqb_spec k' i); apply HP; lia.
Qed.

Lemma swaps_Permutation lo hi a b :
  swaps lo hi a b -> 0 <= lo -> hi < Z.of_nat (length a) -> Permutation a b.
Proof.
  induction 1 as [a|a i j b Hi Hj Hs IH]; intros Hlo Hhi; [reflexivity|].
  eapply perm_trans; [apply (Permutation_swap d a i j); lia|].
  apply IH; rewrite ?length_swap; assumption.
Qed.

(** What the two scans establish. *)
Lemma scan_up_spec a x : forall i j,
  (forall k, i <= k < scan_up d key a x i j -> (key (get d a k) < x)%Q) /\
  (scan_up d key a x i j <= j -> (x <= key (get d a (scan_up d key a x i j)))%Q).
Proof.
  intros i j. pattern i, j. apply cursor_ind. clear i j.
  intros i j IH. rewrite scan_up_eq.
  destruct (Qlt_bool (key (get d a i)) x && (i <=? j)) eqn:E.
  - apply andb_prop in E. destruct E as [E1 E2].
    apply Qlt_bool_iff in E1.
    destruct (IH (i + 1) j ltac:(lia)) as [IH1 IH2].
    split; [|assumption].
    intros k Hk. destruct (Z.eq_dec k i) as [->|]; [assumption|].
    apply IH1. lia.
  - split; [lia|]. intros Hij.
    apply andb_false_iff in E. destruct E as [E|E]; [|lia].
    now apply Qlt_bool_false.
Qed.

Lemma scan_down_spec a x : forall i j,
  (forall k, scan_down d key a x i j < k <= j -> (x < key (get d a k))%Q) /\
  (i <= scan_down d key a x i j -> (key (get d a (scan_down d key a x i j)) <= x)%Q).
Proof.
  intros i j. pattern i, j. apply cursor_ind. clear i j.
  intros i j IH. rewrite scan_down_eq.
  destruct (Qlt_bool x (key (get d a j)) && (i <=? j)) eqn:E.
  - apply andb_prop in E. destruct E as [E1 E2].
    apply Qlt_bool_iff in E1.
    destruct (IH i (j - 1) ltac:(lia)) as [IH1 IH2].
    split; [|assumption].
    intros k Hk. destruct (Z.eq_dec k j) as [->|]; [assumption|].
    apply IH1. lia.
  - split; [lia|]. intros Hij.
    apply andb_false_iff in E. destruct E as [E|E]; [|lia].
    now apply Qlt_bool_false.
Qed.

(** The partition loop: everything left of [i] is at most the pivot,
    everything right of [j] is at least the pivot, and the cursors have
    crossed when it ends. *)
Lemma partition_spec x lo hi : forall i j a a' i' j',
  0 <= lo -> hi < Z.of_nat (length a) -> lo <= i -> j <= hi ->
  (forall k, lo <= k < i -> (key (get d a k) <= x)%Q) ->
  (forall k, j < k <= hi -> (x <= key (get d a k))%Q) ->
  partition d key a x i j = (a', i', j') ->
  swaps lo hi a a' /\ j' < i' /\
  (forall k, lo <= k < i' -> (key (get d a' k) <= x)%Q) /\
  (forall k, j' < k <= hi -> (x <= key (get d a' k))%Q).
Proof.
  intros i j. pattern i, j. apply cursor_ind. clear i j.
  intros i j IH a a' i' j' Hlo Hhi Hi Hj HL HR. rewrite partition_eq.
  destruct (Z.leb_spec i j) as [Hij|Hij].
  2:{ intros Heq; inversion Heq; subst. repeat split; auto; try lia; constructor. }
  destruct (partition_round d key a x i j) as [[a1 i1] j1] eqn:Hr. intros Heq.
  pose proof (partition_round_decr _ _ _ _ _ _ _ _ _ Hij Hr) as Hd.
  unfold partition_round in Hr.
  pose proof (scan_up_ge d key a x i j) as Hu.
  destruct (scan_up_spec a x i j) as [Hu1 Hu2].
  set (iu := scan_up d key a x i j) in *.
  pose proof (scan_down_le d key a x iu j) as Hdn.
  destruct (scan_down_spec a x iu j) as [Hd1 Hd2].
  set (jd := scan_down d key a x iu j) in *.
  assert (HL' : forall k, lo <= k < iu -> (key (get d a k) <= x)%Q).
  { intros k Hk. destruct (Z.lt_ge_cases k i); [apply HL; lia|].
    apply Qlt_le_weak, Hu1. lia. }
  assert (HR' : forall k, jd < k <= hi -> (x <= key (get d a k))%Q).
  { intros k Hk. destruct (Z.lt_ge_cases j k); [apply HR; lia|].
    apply Qlt_le_weak, Hd1. lia. }
  destruct (Z.leb_spec iu jd) as [Hc|Hc]; inversion Hr; subst a1 i1 j1; clear Hr.
  - assert (Hin : 0 <= iu < Z.of_nat (length a) /\ 0 <= jd < Z.of_nat (length a)) by lia.
    destruct Hin as [Hin1 Hin2].
    destruct (IH _ _ Hd (swap d a iu jd) a' i' j') as (Hs & Hx & HL2 & HR2);
      rewrite ?length_swap; try assumption; try lia.
    + intros k Hk. rewrite get_swap by assumption.
      destruct (Z.eqb_spec k jd) as [Ek|Ek].
      * assert (E : iu = jd) by lia. rewrite E. apply Hd2. lia.
      * destruct (Z.eqb_spec k iu); [apply Hd2; lia|apply HL'; lia].
    + intros k Hk. rewrite get_swap by assumption.
      destruct (Z.eqb_spec k jd); [apply Hu2; lia|].
      destruct (Z.eqb_spec k iu); [lia|apply HR'; lia].
    + repeat split; try assumption.
      eapply swaps_step; [| |exact Hs]; lia.
  - rewrite partition_eq in Heq.
    destruct (Z.leb_spec iu jd); [lia|]. inversion Heq; subst.
    repeat split; auto; try lia; constructor.
Qed.
(** Two sorted halves separated by the pivot value form a sorted range. *)
Lemma sorted_join x lo hi i j a1 a2 a3 :
  0 <= lo -> hi < Z.of_nat (length a1) -> j < i -> lo <= i -> j <= hi ->
  (forall k, lo <= k < i -> (key (get d a1 k) <= x)%Q) ->
  (forall k, j < k <= hi -> (x <= key (get d a1 k))%Q) ->
  swaps lo j a1 a2 -> sorted_range a2 lo j ->
  swaps i hi a2 a3 -> sorted_range a3 i hi ->
  sorted_range a3 lo hi.
Proof.
  intros Hlo Hhi Hji Hi Hj HL HR S12 Hs2 S23 Hs3.
  pose proof (swaps_length _ _ _ _ S12) as L2.
  assert (E32 : forall k, k < i -> get d a3 k = get d a2 k).
  { intros k Hk. apply (swaps_outside _ _ _ _ S23); lia. }
  assert (E21 : forall k, j < k -> get d a2 k = get d a1 k).
  { intros k Hk. apply (swaps_outside _ _ _ _ S12); lia. }
  assert (F1 : forall k, lo <= k < i -> (key (get d a3 k) <= x)%Q).
  { intros k Hk. rewrite E32 by lia.
    destruct (Z.le_gt_cases k j).
    - apply (swaps_forall (fun e => (key e <= x)%Q) _ _ _ _ S12); try lia.
      intros k' Hk'. apply HL. lia.
    - rewrite E21 by lia. apply HL. lia. }
  assert (F2 : forall k, j < k <= hi -> (x <= key (get d a3 k))%Q).
  { intros k Hk. destruct (Z.le_gt_cases i k).
    - apply (swaps_forall (fun e => (x <= key e)%Q) _ _ _ _ S23); try lia.
      intros k' Hk'. rewrite E21 by lia. apply HR. lia.
    - rewrite E32, E21 by lia. apply HR. lia. }
  intros k1 k2 H1 H12 H2.
  destruct (Z.le_gt_cases k2 j).
  - rewrite !E32 by lia. apply Hs2; lia.
  - destruct (Z.le_gt_cases i k1).
    + apply Hs3; lia.
    + eapply Qle_trans; [apply F1|apply F2]; lia.
Qed.

Lemma sorted_range_short a lo hi : hi <= lo -> sorted_range a lo hi.
Proof.
  intros H k1 k2 H1 H12 H2. assert (k1 = k2) by lia. subst. apply Qle_refl.
Qed.

(** The quicksort rearranges [a[lo..hi]] into ascending order and leaves
    the rest of the array alone. *)
Theorem QuickSortBy_correct : forall a lo hi,
  0 <= lo -> hi < Z.of_nat (length a) ->
  swaps lo hi a (QuickSortBy d key a lo hi) /\
  sorted_range (QuickSortBy d key a lo hi) lo hi.
Proof.
  intros a lo hi.
  remember (Z.to_nat (hi - lo + 1)) as n eqn:Hn.
  revert a lo hi Hn. induction n as [n IH] using lt_wf_ind.
  intros a lo hi Hn Hlo Hhi. rewrite QuickSortBy_eq.
  destruct (Z.ltb_spec hi lo) as [Hlh|Hlh].
  { split; [constructor|]. apply sorted_range_short. lia. }
  set (x := key (get d a (Z.quot (lo + hi) 2))).
  destruct (partition d key a x lo hi) as [[a1 i] j] eqn:Hp.
  destruct (partition_progress d key a lo hi _ a1 i j (quot2_between lo hi Hlh) Hp)
    as [Hpi Hpj].
  destruct (partition_spec x lo hi lo hi a a1 i j) as (S01 & Hji & HL & HR);
    try assumption; try lia.
  pose proof (swaps_length _ _ _ _ S01) as L1.
  set (a2 := if lo <? j then QuickSortBy d key a1 lo j else a1).
  assert (H2 : swaps lo j a1 a2 /\ sorted_range a2 lo j).
  { subst a2. destruct (Z.ltb_spec lo j).
    - apply (IH (Z.to_nat (j - lo + 1))); try lia.
    - split; [constructor|]. apply sorted_range_short. lia. }
  destruct H2 as [S12 Hs2].
  pose proof (swaps_length _ _ _ _ S12) as L2.
  set (a3 := if i <? hi then QuickSortBy d key a2 i hi else a2).
  assert (H3 : swaps i hi a2 a3 /\ sorted_range a3 i hi).
  { subst a3. destruct (Z.ltb_spec i hi).
    - apply (IH (Z.to_nat (hi - i + 1))); try lia.
    - split; [constructor|]. apply sorted_range_short. lia. }
  destruct H3 as [S23 Hs3].
  split.
  - eapply swaps_trans; [exact S01|].
    eapply swaps_trans; eapply swaps_weaken; eauto; lia.
  - eapply (sorted_join x lo hi i j a1 a2 a3); eauto; lia.
Qed.
End QuickSortCorrect.

(** ** Loop invariants *)

Section LoopFacts.
Context {S : Type}.

Lemma for_loop_inv (P : Z -> S -> Prop) (body : Z -> S -> S) : forall n i s,
  P i s ->
  (forall k s, i <= k < i + Z.of_nat n -> P k s -> P (k + 1) (body k s)) ->
  P (i + Z.of_nat n) (for_loop n i body s).
Proof.
  induction n as [|n IH]; intros i s Hs Hstep;
    cbn [for_loop for_loop_opt for_loop_down].
  - now rewrite Z.add_0_r.
  - replace (i + Z.of_nat (Datatypes.S n)) with ((i + 1) + Z.of_nat n) by lia.
    apply IH.
    + apply Hstep; [lia|assumption].
    + intros k s' Hk. apply Hstep. lia.
Qed.

Lemma for_range_inv (P : Z -> S -> Prop) lo hi (body : Z -> S -> S) s :
  lo <= hi -> P lo s ->
  (forall k s, lo <= k < hi -> P k s -> P (k + 1) (body k s)) ->
  P hi (for_range lo hi body s).
Proof.
  intros Hlh Hs Hstep. unfold for_range.
  replace hi with (lo + Z.of_nat (Z.to_nat (hi - lo))) at 1 by lia.
  apply for_loop_inv; [assumption|].
  intros k s' Hk. apply Hstep. lia.
Qed.

Lemma for_loop_opt_inv (P : Z -> S -> Prop) (body : Z -> S -> option S) : forall n i s,
  P i s ->
  (forall k s, i <= k < i + Z.of_nat n -> P k s ->
               exists s', body k s = Some s' /\ P (k + 1) s') ->
  exists s', for_loop_opt n i body s = Some s' /\ P (i + Z.of_nat n) s'.
Proof.
  induction n as [|n IH]; intros i s Hs Hstep;
    cbn [for_loop for_loop_opt for_loop_down].
  - exists s. now rewrite Z.add_0_r.
  - destruct (Hstep i s ltac:(lia) Hs) as (s1 & E1 & H1). rewrite E1.
    replace (i + Z.of_nat (Datatypes.S n)) with ((i + 1) + Z.of_nat n) by lia.
    apply IH; [assumption|].
    intros k s' Hk. apply Hstep. lia.
Qed.

Lemma for_range_opt_inv (P : Z -> S -> Prop) lo hi (body : Z -> S -> option S) s :
  lo <= hi -> P lo s ->
  (forall k s, lo <= k < hi -> P k s ->
               exists s', body k s = Some s' /\ P (k + 1) s') ->
  exists s', for_range_opt lo hi body s = Some s' /\ P hi s'.
Proof.
  intros Hlh Hs Hstep. unfold for_range_opt.
  destruct (for_loop_opt_inv P body (Z.to_nat (hi - lo)) lo s Hs) as (s' & E & HP).
  - intros k s' Hk. apply Hstep. lia.
  - exists s'. split; [exact E|].
    replace hi with (lo + Z.of_nat (Z.to_nat (hi - lo))) by lia. exact HP.
Qed.

Lemma for_loop_down_inv (P : Z -> S -> Prop) (body : Z -> S -> S) : forall n i s,
  P i s ->
  (forall k s, i - Z.of_nat n < k <= i -> P k s -> P (k - 1) (body k s)) ->
  P (i - Z.of_nat n) (for_loop_down n i body s).
Proof.
  induction n as [|n IH]; intros i s Hs Hstep;
    cbn [for_loop for_loop_opt for_loop_down].
  - now rewrite Z.sub_0_r.
  - replace (i - Z.of_nat (Datatypes.S n)) with ((i - 1) - Z.of_nat n) by lia.
    apply IH.
    + apply Hstep; [lia|assumption].
    + intros k s' Hk. apply Hstep. lia.
Qed.

Lemma for_down_inv (P : Z -> S -> Prop) hi (body : Z -> S -> S) s :
  -1 <= hi -> P hi s ->
  (forall k s, 0 <= k <= hi -> P k s -> P (k - 1) (body k s)) ->
  P (-1) (for_down hi body s).
Proof.
  intros Hhi Hs Hstep. unfold for_down.
  replace (-1) with (hi - Z.of_nat (Z.to_nat (hi + 1))) at 1 by lia.
  apply for_loop_down_inv; [assumption|].
  intros k s' Hk. apply Hstep. lia.
Qed.
End LoopFacts.

(** ** Sorted arrays and the binary search *)

Section SortedFacts.
Context {A : Type} (d : A) (key : A -> double).

(** The whole array is ascending by key. *)
Definition ascending_by (a : list A) : Prop :=
  sorted_range d key a 0 (Z.of_nat (length a) - 1).

Lemma ascending_by_StronglySorted a :
  ascending_by a -> StronglySorted (fun x y => (key x <= key y)%Q) a.
Proof.
  unfold ascending_by.
  induction a as [|h t IH]; intros Hs; constructor.
  - apply IH. intros k1 k2 H1 H12 H2.
    specialize (Hs (k1 + 1) (k2 + 1)).
    rewrite !get_cons in Hs by lia.
    replace (k1 + 1 - 1) with k1 in Hs by lia.
    replace (k2 + 1 - 1) with k2 in Hs by lia.
    apply Hs; simpl length; lia.
  - apply Forall_forall. intros y Hy.
    destruct (In_get d t y Hy) as (i & Hi & <-).
    specialize (Hs 0 (i + 1)). rewrite (get_cons d h t (i + 1)) in Hs by lia.
    replace (i + 1 - 1) with i in Hs by lia.
    rewrite get_0 in Hs. apply Hs; simpl length; lia.
Qed.

Lemma QuickSortBy_whole a :
  let a' := QuickSortBy d key a 0 (Z.of_nat (length a) - 1) in
  Permutation a a' /\ ascending_by a' /\ length a' = length a.
Proof.
  intros a'.
  destruct (QuickSortBy_correct d key a 0 (Z.of_nat (length a) - 1)) as [Hs Ho];
    [lia|lia|].
  pose proof (swaps_length _ _ _ _ _ Hs) as HL.
  split; [|split]; [| |exact HL].
  - eapply swaps_Permutation; [exact Hs|lia|lia].
  - unfold ascending_by. subst a'. rewrite HL. exact Ho.
Qed.
End SortedFacts.

(** The number of elements of [l] strictly less than [t]. *)
Definition count_below (t : double) (l : list double) : Z :=
  Z.of_nat (length (filter (fun v => Qlt_bool v t) l)).

Lemma count_below_Permutation t l l' :
  Permutation l l' -> count_below t l = count_below t l'.
Proof.
  unfold count_below. intros HP. f_equal.
  induction HP; simpl; auto.
  - destruct (Qlt_bool x t); simpl; auto.
  - destruct (Qlt_bool x t), (Qlt_bool y t); simpl; auto.
  - congruence.
Qed.

Lemma count_below_bounds t l : 0 <= count_below t l <= Z.of_nat (length l).
Proof.
  unfold count_below. pose proof (filter_length_le (fun v => Qlt_bool v t) l). lia.
Qed.

Lemma count_below_cons t x l :
  count_below t (x :: l) = (if Qlt_bool x t then 1 else 0) + count_below t l.
Proof.
  unfold count_below. simpl. destruct (Qlt_bool x t); simpl length; lia.
Qed.

(** An index that separates the elements below [t] from the others is
    their count. *)
Lemma count_below_split t : forall l r,
  0 <= r <= Z.of_nat (length l) ->
  (forall k, 0 <= k < r -> (get 0%Q l k < t)%Q) ->
  (forall k, r <= k < Z.of_nat (length l) -> (t <= get 0%Q l k)%Q) ->
  count_below t l = r.
Proof.
  induction l as [|h tl IH]; intros r Hr Hlt Hge.
  - simpl in Hr. unfold count_below. simpl. lia.
  - rewrite count_below_cons. simpl length in *.
    destruct (Z.eq_dec r 0) as [->|Hr0].
    + assert (E : Qlt_bool h t = false).
      { apply Qlt_bool_false. apply (Hge 0). lia. }
      rewrite E. rewrite (IH 0); [lia|lia|intros; lia|].
      intros k Hk. specialize (Hge (k + 1)). rewrite get_cons in Hge by lia.
      replace (k + 1 - 1) with k in Hge by lia. apply Hge. lia.
    + assert (E : Qlt_bool h t = true).
      { apply Qlt_bool_iff. apply (Hlt 0). lia. }
      rewrite E. rewrite (IH (r - 1)); [lia|lia| |].
      * intros k Hk. specialize (Hlt (k + 1)). rewrite get_cons in Hlt by lia.
        replace (k + 1 - 1) with k in Hlt by lia. apply Hlt. lia.
      * intros k Hk. specialize (Hge (k + 1)). rewrite get_cons in Hge by lia.
        replace (k + 1 - 1) with k in Hge by lia. apply Hge. lia.
Qed.

Lemma lower_bound_eq a l lo hi :
  lower_bound a l lo hi =
    if lo <? hi
    then if Qlt_bool (get 0%Q l (lo + (hi - lo) / 2)) a
         then lower_bound a l (lo + (hi - lo) / 2 + 1) hi
         else lower_bound a l lo (lo + (hi - lo) / 2)
    else lo.
Proof. funelim (lower_bound a l lo hi); rewrite e; [|rewrite e0..]; reflexivity. Qed.

(** On a sorted range the binary search returns the index that separates
    the elements below [a] from the others. *)
Lemma lower_bound_spec a l : forall lo hi,
  lo <= hi -> sorted_range 0%Q (fun v => v) l lo (hi - 1) ->
  lo <= lower_bound a l lo hi <= hi /\
  (forall k, lo <= k < lower_bound a l lo hi -> (get 0%Q l k < a)%Q) /\
  (forall k, lower_bound a l lo hi <= k < hi -> (a <= get 0%Q l k)%Q).
Proof.
  intros lo hi.
  remember (Z.to_nat (hi - lo)) as n eqn:Hn.
  revert lo hi Hn. induction n as [n IH] using lt_wf_ind.
  intros lo hi Hn Hlh Hs. rewrite lower_bound_eq.
  destruct (Z.ltb_spec lo hi) as [Hlt|Hge].
  2:{ split; [lia|]. split; intros; lia. }
  pose proof (Z.div_mod (hi - lo) 2 ltac:(lia)) as Hdm.
  pose proof (Z.mod_pos_bound (hi - lo) 2 ltac:(lia)) as Hmb.
  set (mid := lo + (hi - lo) / 2) in *.
  assert (Hmid : lo <= mid < hi) by (subst mid; lia).
  destruct (Qlt_bool (get 0%Q l mid) a) eqn:E.
  - apply Qlt_bool_iff in E.
    destruct (IH (Z.to_nat (hi - (mid + 1))) ltac:(lia) (mid + 1) hi eq_refl ltac:(lia))
      as (Hr & H1 & H2).
    { intros k1 k2 ? ? ?. apply Hs; lia. }
    split; [lia|]. split; [|assumption].
    intros k Hk. destruct (Z.le_gt_cases k mid).
    + eapply Qle_lt_trans; [|exact E]. apply (Hs k mid); lia.
    + apply H1. lia.
  - apply Qlt_bool_false in E.
    destruct (IH (Z.to_nat (mid - lo)) ltac:(lia) lo mid eq_refl ltac:(lia))
      as (Hr & H1 & H2).
    { intros k1 k2 ? ? ?. apply Hs; lia. }
    split; [lia|]. split; [assumption|].
    intros k Hk. destruct (Z.lt_ge_cases k mid).
    + apply H2. lia.
    + eapply Qle_trans; [exact E|]. apply (Hs mid k); lia.
Qed.

(** On a sorted array [bTreeSearchingF] counts the elements strictly less
    than the key. *)
Lemma bTreeSearchingF_count t l :
  ascending_by 0%Q (fun v => v) l ->
  bTreeSearchingF t l 0 (Z.of_nat (length l) - 1) = count_below t l.
Proof.
  intros Hs. unfold bTreeSearchingF.
  replace (Z.of_nat (length l) - 1 + 1) with (Z.of_nat (length l)) by lia.
  destruct (lower_bound_spec t l 0 (Z.of_nat (length l))) as (Hr & H1 & H2);
    [lia|exact Hs|].
  symmetry. apply count_below_split; assumption.
Qed.

Lemma QuicksortF_whole a :
  let a' := QuicksortF a 0 (Z.of_nat (length a) - 1) in
  Permutation a a' /\ ascending_by 0%Q (fun v => v) a' /\ length a' = length a.
Proof. apply QuickSortBy_whole. Qed.

(** ** The lo-value *)

Section LoValueFacts.
Context `{BetaCdf}.

(** The value the scan compares at index [i] of the sorted copy. *)
Definition order_cdf (tmpArray : list double) (num i : Z) : double :=
  BetaNoncentralCdf (inject_Z (i + 1)) (inject_Z (num - i)) 0%Q
                    (get 0%Q tmpArray i) CDF_MAX_ERROR.

(** The index at which the scan of [n] rounds from [i] ends. *)
Fixpoint scan_stop (n : nat) (tmpArray : list double) (maxPercentile : double)
         (i : Z) : Z :=
  match n with
  | O => i
  | S n' =>
      if Qlt_bool maxPercentile (get 0%Q tmpArray i) && (0 <? i) then i
      else scan_stop n' tmpArray maxPercentile (i + 1)
  end.

Lemma keep_smaller_le (f v : Q) :
  ((if Qlt_bool f v then f else v) <= v)%Q /\ ((if Qlt_bool f v then f else v) <= f)%Q.
Proof.
  destruct (Qlt_bool f v) eqn:E.
  - apply Qlt_bool_iff in E. split; [apply Qlt_le_weak; assumption|apply Qle_refl].
  - apply Qlt_bool_false in E. split; [apply Qle_refl|assumption].
Qed.

Lemma scan_stop_bounds a m : forall n i,
  i <= scan_stop n a m i <= i + Z.of_nat n.
Proof.
  induction n as [|n IH]; intros i; cbn [scan_stop]; [lia|].
  destruct (Qlt_bool m (get 0%Q a i) && (0 <? i)); [lia|].
  specialize (IH (i + 1)). lia.
Qed.

Lemma scan_stop_first a m n : scan_stop (S n) a m 0 >= 1.
Proof.
  cbn [scan_stop]. rewrite andb_false_r.
  pose proof (scan_stop_bounds a m n (0 + 1)). lia.
Qed.

Lemma scan_stop_scanned a m : forall n i k,
  i <= k < scan_stop n a m i -> 0 < k -> (get 0%Q a k <= m)%Q.
Proof.
  induction n as [|n IH]; intros i k Hk Hpos; cbn [scan_stop] in Hk; [lia|].
  destruct (Qlt_bool m (get 0%Q a i) && (0 <? i)) eqn:E; [lia|].
  destruct (Z.eq_dec k i) as [->|Hne].
  - apply andb_false_iff in E. destruct E as [E|E].
    + now apply Qlt_bool_false.
    + apply Z.ltb_ge in E. lia.
  - apply (IH (i + 1)); [lia|assumption].
Qed.

Lemma scan_stop_break a m : forall n i,
  scan_stop n a m i < i + Z.of_nat n ->
  (m < get 0%Q a (scan_stop n a m i))%Q /\ 0 < scan_stop n a m i.
Proof.
  induction n as [|n IH]; intros i Hlt; cbn [scan_stop] in *; [lia|].
  destruct (Qlt_bool m (get 0%Q a i) && (0 <? i)) eqn:E.
  - apply andb_prop in E. destruct E as [E1 E2].
    apply Qlt_bool_iff in E1. apply Z.ltb_lt in E2. auto.
  - apply IH. lia.
Qed.

Lemma lo_scan_le_init a num m : forall n i v, (lo_scan n a num m i v <= v)%Q.
Proof.
  induction n as [|n IH]; intros i v; cbn [lo_scan]; [apply Qle_refl|].
  destruct (Qlt_bool m (get 0%Q a i) && (0 <? i)); [apply Qle_refl|].
  eapply Qle_trans; [apply IH|]. apply (proj1 (keep_smaller_le _ _)).
Qed.

Lemma lo_scan_lower a num m : forall n i v k,
  i <= k < scan_stop n a m i -> (lo_scan n a num m i v <= order_cdf a num k)%Q.
Proof.
  induction n as [|n IH]; intros i v k Hk; cbn [lo_scan scan_stop] in *; [lia|].
  destruct (Qlt_bool m (get 0%Q a i) && (0 <? i)); [lia|].
  destruct (Z.eq_dec k i) as [->|Hne].
  - eapply Qle_trans; [apply lo_scan_le_init|]. apply (proj2 (keep_smaller_le _ _)).
  - apply IH. lia.
Qed.

Lemma lo_scan_attained a num m : forall n i v,
  lo_scan n a num m i v = v \/
  exists k, i <= k < scan_stop n a m i /\ lo_scan n a num m i v = order_cdf a num k.
Proof.
  induction n as [|n IH]; intros i v; cbn [lo_scan scan_stop]; [now left|].
  destruct (Qlt_bool m (get 0%Q a i) && (0 <? i)); [now left|].
  pose proof (scan_stop_bounds a m n (i + 1)) as Hb.
  match goal with
  | |- context [lo_scan n a num m (i + 1) ?w] => destruct (IH (i + 1) w) as [E|(k & Hk & E)]
  end.
  - rewrite E. fold (order_cdf a num i).
    destruct (Qlt_bool (order_cdf a num i) v); [right|now left].
    exists i. split; [lia|reflexivity].
  - right. exists k. split; [lia|exact E].
Qed.

(** A larger cutoff scans at least as far and keeps a value at most as
    large. *)
Lemma lo_scan_antitone a num m1 m2 : (m1 <= m2)%Q -> forall n i v1 v2,
  (v2 <= v1)%Q -> (lo_scan n a num m2 i v2 <= lo_scan n a num m1 i v1)%Q.
Proof.
  intros Hm. induction n as [|n IH]; intros i v1 v2 Hv; cbn [lo_scan]; [assumption|].
  fold (order_cdf a num i).
  destruct (Qlt_bool m2 (get 0%Q a i) && (0 <? i)) eqn:E2.
  - assert (E1 : Qlt_bool m1 (get 0%Q a i) && (0 <? i) = true).
    { apply andb_prop in E2. destruct E2 as [E E'].
      apply andb_true_intro. split; [|assumption].
      apply Qlt_bool_iff in E. apply Qlt_bool_iff.
      eapply Qle_lt_trans; eassumption. }
    rewrite E1. assumption.
  - destruct (Qlt_bool m1 (get 0%Q a i) && (0 <? i)) eqn:E1.
    + eapply Qle_trans; [apply lo_scan_le_init|].
      eapply Qle_trans; [apply (proj1 (keep_smaller_le _ _))|assumption].
    + apply IH.
      destruct (keep_smaller_le (order_cdf a num i) v1) as [A1 A2].
      destruct (keep_smaller_le (order_cdf a num i) v2) as [B1 B2].
      destruct (Qlt_bool (order_cdf a num i) v1); [assumption|].
      apply Qle_trans with v2; assumption.
Qed.

(** The sorted copy made by [ComputeLoValue]. *)
Definition sorted_copy (percentiles : list double) (num : Z) : list double :=
  QuicksortF (firstn (Z.to_nat num) percentiles) 0 (num - 1).

Lemma sorted_copy_facts percentiles num :
  0 <= num <= Z.of_nat (length percentiles) ->
  Permutation (firstn (Z.to_nat num) percentiles) (sorted_copy percentiles num) /\
  ascending_by 0%Q (fun v => v) (sorted_copy percentiles num) /\
  Z.of_nat (length (sorted_copy percentiles num)) = num.
Proof.
  intros Hn. unfold sorted_copy.
  assert (HL : Z.of_nat (length (firstn (Z.to_nat num) percentiles)) = num).
  { rewrite length_firstn. lia. }
  destruct (QuicksortF_whole (firstn (Z.to_nat num) percentiles)) as (HP & HS & HL').
  rewrite HL in HP, HS, HL'.
  split; [exact HP|]. split; [exact HS|]. rewrite HL'. exact HL.
Qed.

Lemma ComputeLoValue_eq percentiles num maxPercentile :
  0 < num ->
  ComputeLoValue percentiles num maxPercentile =
    Some (lo_scan (Z.to_nat num) (sorted_copy percentiles num) num maxPercentile 0 1%Q).
Proof.
  intros Hn. unfold ComputeLoValue, sorted_copy.
  destruct (Z.ltb_spec 0 num); [reflexivity|lia].
Qed.
End LoValueFacts.

(** ** [ProcessGroups] *)

Section ProcessFacts.
Context `{BetaCdf}.

Lemma sort_lists_spec lists listNum :
  listNum = Z.of_nat (length lists) ->
  length (sort_lists lists listNum) = length lists /\
  forall k, 0 <= k < listNum ->
    get no_list (sort_lists lists listNum) k =
      set_values (get no_list lists k)
        (QuicksortF (values (get no_list lists k)) 0
                    (list_itemNum (get no_list lists k) - 1)).
Proof.
  intros Hn. unfold sort_lists.
  set (body := fun (i : Z) (ls : list LIST_STRUCT) =>
                 upd ls i (set_values (get no_list ls i)
                   (QuicksortF (values (get no_list ls i)) 0
                               (list_itemNum (get no_list ls i) - 1)))).
  pose (P := fun (k : Z) (ls : list LIST_STRUCT) =>
       length ls = length lists /\
       (forall m, 0 <= m < k ->
          get no_list ls m =
            set_values (get no_list lists m)
              (QuicksortF (values (get no_list lists m)) 0
                          (list_itemNum (get no_list lists m) - 1))) /\
       (forall m, k <= m -> get no_list ls m = get no_list lists m)).
  assert (Hinv : P listNum (for_range 0 listNum body lists)).
  { apply (for_range_inv P); subst P; cbn beta; [lia| |].
    - split; [reflexivity|]. split; [intros; lia|reflexivity].
    - intros k ls Hk (HL & Hdone & Hrest). unfold body.
      split; [now rewrite length_upd|]. split.
      + intros m Hm. destruct (Z.eq_dec m k) as [->|Hne].
        * rewrite get_upd_same by lia. now rewrite (Hrest k) by lia.
        * rewrite get_upd_other by congruence. apply Hdone. lia.
      + intros m Hm. rewrite get_upd_other by lia. apply Hrest. lia. }
  destruct Hinv as (HL & Hdone & _). split; assumption.
Qed.

(** The percentile of an item against the sorted lists is the mid-rank
    formula on the counts of its list below the two doubles searched
    for. *)
Lemma item_percentile_formula lists listNum it :
  listNum = Z.of_nat (length lists) ->
  0 <= listIndex it < listNum ->
  list_itemNum (get no_list lists (listIndex it)) =
    Z.of_nat (length (values (get no_list lists (listIndex it)))) ->
  let l := get no_list lists (listIndex it) in
  (item_percentile (sort_lists lists listNum) it ==
     (inject_Z (count_below (double_sub (value it) EPSILON_double) (values l))
      + inject_Z (count_below (double_add (value it) EPSILON_double) (values l)) + 1)
     / (2 * inject_Z (list_itemNum l)))%Q.
Proof.
  intros Hn Hidx HN l. unfold item_percentile.
  destruct (sort_lists_spec lists listNum Hn) as [_ Hs].
  rewrite (Hs _ Hidx). fold l. cbn [values list_itemNum set_values].
  fold l in HN. rewrite HN.
  destruct (QuicksortF_whole (values l)) as (HP & HS & HL).
  set (vs := QuicksortF (values l) 0 (Z.of_nat (length (values l)) - 1)) in *.
  rewrite <- HL.
  rewrite !bTreeSearchingF_count by exact HS.
  rewrite <- !(count_below_Permutation _ _ _ HP).
  rewrite HL. rewrite inject_Z_mult.
  apply Qdiv_comp; [reflexivity|]. apply Qmult_comm.
Qed.

(** What the loops of [ProcessGroups] do to one group. *)
Definition percentiles_set (lists : list LIST_STRUCT) (g g' : GROUP_STRUCT) : Prop :=
  itemNum g' = itemNum g /\
  length (items g') = length (items g) /\
  forall j, 0 <= j < Z.of_nat (length (items g)) ->
    get no_item (items g') j =
      set_percentile (get no_item (items g) j)
                     (item_percentile lists (get no_item (items g) j)).

Lemma process_items_spec lists i groups tmpF :
  0 <= i < Z.of_nat (length groups) ->
  itemNum (get no_group groups i) = Z.of_nat (length (items (get no_group groups i))) ->
  let st := for_range 0 (itemNum (get no_group groups i)) (process_item lists i)
                      (groups, tmpF) in
  length (fst st) = length groups /\
  (forall i', i' <> i -> get no_group (fst st) i' = get no_group groups i') /\
  percentiles_set lists (get no_group groups i) (get no_group (fst st) i).
Proof.
  intros Hi Hnum. set (g0 := get no_group groups i) in *.
  pose (P := fun (j : Z) (st : list GROUP_STRUCT * list double) =>
       length (fst st) = length groups /\
       (forall i', i' <> i -> get no_group (fst st) i' = get no_group groups i') /\
       itemNum (get no_group (fst st) i) = itemNum g0 /\
       length (items (get no_group (fst st) i)) = length (items g0) /\
       (forall m, 0 <= m < j ->
          get no_item (items (get no_group (fst st) i)) m =
            set_percentile (get no_item (items g0) m)
                           (item_percentile lists (get no_item (items g0) m))) /\
       (forall m, j <= m ->
          get no_item (items (get no_group (fst st) i)) m = get no_item (items g0) m)).
  assert (Hinv : P (itemNum g0)
                   (for_range 0 (itemNum g0) (process_item lists i) (groups, tmpF))).
  { apply (for_range_inv P); subst P; cbn beta; [lia| |].
    - cbn [fst]. fold g0. repeat split; try reflexivity. intros; lia.
    - intros j [gs tf] Hj (HL & Hoth & HN & HLi & Hdone & Hrest).
      cbn [fst] in *. unfold process_item. cbn [fst].
      set (g := get no_group gs i) in *.
      rewrite (Hrest j) by lia.
      set (it := get no_item (items g0) j).
      rewrite get_upd_same by lia. cbn [itemNum items set_items].
      rewrite !length_upd.
      split; [assumption|]. split; [intros i' Hi'; rewrite get_upd_other by congruence; auto|].
      split; [assumption|]. split; [assumption|]. split.
      + intros m Hm. destruct (Z.eq_dec m j) as [->|Hne].
        * rewrite get_upd_same by lia. reflexivity.
        * rewrite get_upd_other by congruence. apply Hdone. lia.
      + intros m Hm. rewrite get_upd_other by lia. apply Hrest. lia. }
  destruct Hinv as (HL & Hoth & HN & HLi & Hdone & _).
  split; [assumption|]. split; [assumption|].
  split; [assumption|]. split; [assumption|].
  intros j Hj. apply Hdone. lia.
Qed.

Lemma process_group_spec lists maxPercentile i groups tmpF :
  0 <= i < Z.of_nat (length groups) ->
  0 < itemNum (get no_group groups i) ->
  itemNum (get no_group groups i) = Z.of_nat (length (items (get no_group groups i))) ->
  exists groups' tmpF',
    process_group lists maxPercentile i (groups, tmpF) = Some (groups', tmpF') /\
    length groups' = length groups /\
    (forall i', i' <> i -> get no_group groups' i' = get no_group groups i') /\
    percentiles_set lists (get no_group groups i) (get no_group groups' i).
Proof.
  intros Hi Hpos Hnum. unfold process_group. cbn [fst].
  destruct (process_items_spec lists i groups tmpF Hi Hnum) as (HL & Hoth & HN & HLi & Hset).
  destruct (for_range 0 (itemNum (get no_group groups i)) (process_item lists i)
                      (groups, tmpF)) as [gs tf].
  cbn [fst] in *.
  rewrite ComputeLoValue_eq by lia.
  eexists. eexists. split; [reflexivity|].
  split; [now rewrite length_upd|].
  split; [intros i' Hi'; rewrite get_upd_other by congruence; auto|].
  rewrite get_upd_same by lia.
  split; [assumption|]. split; assumption.
Qed.

Lemma max_itemNum_pos groups groupNum :
  groupNum = Z.of_nat (length groups) ->
  (exists i, 0 <= i < groupNum /\ 0 < itemNum (get no_group groups i)) ->
  0 < max_itemNum groups groupNum.
Proof.
  intros Hn (i & Hi & Hpos). unfold max_itemNum.
  set (body := fun (i : Z) (m : Z) =>
                 if m <? itemNum (get no_group groups i)
                 then itemNum (get no_group groups i) else m).
  pose (P := fun (k m : Z) =>
               forall i', 0 <= i' < k -> itemNum (get no_group groups i') <= m).
  assert (Hinv : P groupNum (for_range 0 groupNum body 0)).
  { apply (for_range_inv P); subst P; cbn beta; [lia|intros; lia|].
    intros k m Hk Hm i' Hi'. unfold body.
    destruct (Z.eq_dec i' k) as [->|Hne].
    - destruct (Z.ltb_spec m (itemNum (get no_group groups k))); lia.
    - specialize (Hm i' ltac:(lia)).
      destruct (Z.ltb_spec m (itemNum (get no_group groups k))); lia. }
  specialize (Hinv i Hi). lia.
Qed.

(** Well-formed input of the statistics: what [ReadFile] builds. *)
Definition groups_ok (groups : list GROUP_STRUCT) (groupNum listNum : Z) : Prop :=
  groupNum = Z.of_nat (length groups) /\ 0 < groupNum /\
  forall i, 0 <= i < groupNum ->
    0 < itemNum (get no_group groups i) /\
    itemNum (get no_group groups i) = Z.of_nat (length (items (get no_group groups i))) /\
    forall j, 0 <= j < itemNum (get no_group groups i) ->
      0 <= listIndex (get no_item (items (get no_group groups i)) j) < listNum.

Definition lists_ok (lists : list LIST_STRUCT) (listNum : Z) : Prop :=
  listNum = Z.of_nat (length lists) /\
  forall k, 0 <= k < listNum ->
    0 < list_itemNum (get no_list lists k) /\
    list_itemNum (get no_list lists k) = Z.of_nat (length (values (get no_list lists k))).

(** [ProcessGroups] returns, with every list sorted and every item
    carrying its percentile against the sorted lists. *)
Lemma ProcessGroups_spec groups groupNum lists listNum maxPercentile :
  groups_ok groups groupNum listNum -> lists_ok lists listNum ->
  exists groups',
    ProcessGroups groups groupNum lists listNum maxPercentile
      = Some (groups', sort_lists lists listNum) /\
    length groups' = length groups /\
    forall i, 0 <= i < groupNum ->
      percentiles_set (sort_lists lists listNum)
                      (get no_group groups i) (get no_group groups' i).
Proof.
  intros (Hn & Hpos & Hg) (Hln & Hl). unfold ProcessGroups.
  assert (Hmax : 0 < max_itemNum groups groupNum).
  { apply max_itemNum_pos; [assumption|]. exists 0. split; [lia|]. apply Hg. lia. }
  destruct (Z.ltb_spec 0 (max_itemNum groups groupNum)) as [_|]; [|lia].
  set (ls := sort_lists lists listNum).
  destruct (for_range_opt_inv
    (fun k (st : list GROUP_STRUCT * list double) =>
       length (fst st) = length groups /\
       (forall i, 0 <= i < k ->
          percentiles_set ls (get no_group groups i) (get no_group (fst st) i)) /\
       (forall i, k <= i -> get no_group (fst st) i = get no_group groups i))
    0 groupNum (process_group ls maxPercentile)
    (groups, malloc_double (max_itemNum groups groupNum)))
    as ([gs tf] & E & HL & Hdone & _).
  - lia.
  - cbn [fst]. split; [reflexivity|]. split; [intros; lia|reflexivity].
  - intros k [gs tf] Hk (HL & Hdone & Hrest). cbn [fst] in *.
    destruct (Hg k Hk) as (Hp & Hnum & _).
    destruct (process_group_spec ls maxPercentile k gs tf) as (gs' & tf' & E & HL' & Hoth & Hset).
    + lia.
    + rewrite Hrest by lia. exact Hp.
    + rewrite Hrest by lia. exact Hnum.
    + exists (gs', tf'). split; [exact E|]. cbn [fst].
      split; [congruence|]. split.
      * intros i Hi. destruct (Z.eq_dec i k) as [->|Hne].
        -- rewrite <- (Hrest k) by lia. exact Hset.
        -- rewrite Hoth by assumption. apply Hdone. lia.
      * intros i Hi. rewrite Hoth by lia. apply Hrest. lia.
  - rewrite E. cbn [fst] in *. exists gs. split; [reflexivity|].
    split; assumption.
Qed.
End ProcessFacts.

(** ** [ComputeFDR] *)

(** Two groups that differ at most in [fdr]. *)
Definition same_group_data (g g' : GROUP_STRUCT) : Prop :=
  group_name g' = group_name g /\ items g' = items g /\
  itemNum g' = itemNum g /\ loValue g' = loValue g.

(** Two arrays of groups that differ at most in the [fdr] fields. *)
Definition fdr_only (gs gs' : list GROUP_STRUCT) : Prop :=
  length gs' = length gs /\
  forall i, 0 <= i < Z.of_nat (length gs) ->
            same_group_data (get no_group gs i) (get no_group gs' i).

Lemma same_group_data_refl g : same_group_data g g.
Proof. repeat split. Qed.

Lemma same_group_data_set_fdr g g' v :
  same_group_data g g' -> same_group_data g (set_fdr g' v).
Proof. intros (A & B & C & D). repeat split; assumption. Qed.

Lemma fdr_only_refl gs : fdr_only gs gs.
Proof. split; [reflexivity|]. intros i _. apply same_group_data_refl. Qed.

Lemma fdr_only_trans gs1 gs2 gs3 :
  fdr_only gs1 gs2 -> fdr_only gs2 gs3 -> fdr_only gs1 gs3.
Proof.
  intros [L1 H1] [L2 H2]. split; [congruence|]. intros i Hi.
  destruct (H1 i Hi) as (A & B & C & D).
  destruct (H2 i ltac:(lia)) as (A' & B' & C' & D').
  repeat split; congruence.
Qed.

Lemma fdr_only_upd gs i v :
  fdr_only gs (upd gs i (set_fdr (get no_group gs i) v)).
Proof.
  split; [apply length_upd|]. intros k Hk.
  destruct (Z.eq_dec k i) as [->|Hne].
  - rewrite get_upd_same by lia. apply same_group_data_set_fdr, same_group_data_refl.
  - rewrite get_upd_other by congruence. apply same_group_data_refl.
Qed.

(** Input on which [ComputeFDR] runs to completion: the groups that
    [ReadFile] builds, each with at least one item. *)
Definition fdr_input_ok (groups : list GROUP_STRUCT) (groupNum : Z) : Prop :=
  groupNum = Z.of_nat (length groups) /\ 0 < groupNum /\
  forall i, 0 <= i < groupNum -> 0 < itemNum (get no_group groups i).

(** The size of the pool is an [int]: neither [numOfRandPass/groupNum+1]
    nor [groupNum*scanPass] leaves the range. *)
Definition pool_in_range (numOfRandPass groupNum : Z) : Prop :=
  groupNum * (Z.quot numOfRandPass groupNum + 1) <= INT_MAX.

(** The pool fits: its size is an [int], and so is every rank in it.
    The sum of the two indices and 1 of line 587 is at most twice the
    size of the pool plus one. *)
Definition pool_fits (numOfRandPass groupNum : Z) : Prop :=
  2 * (groupNum * (Z.quot numOfRandPass groupNum + 1)) + 1 <= INT_MAX.

Lemma pool_fits_in_range numOfRandPass groupNum :
  pool_fits numOfRandPass groupNum -> 0 <= numOfRandPass -> 0 < groupNum ->
  pool_in_range numOfRandPass groupNum.
Proof.
  unfold pool_fits, pool_in_range. intros Hfit Hn Hg.
  pose proof (Z.quot_pos numOfRandPass groupNum Hn ltac:(lia)). nia.
Qed.

(** At least one pass is asked for. *)
Lemma quot_succ_pos_iff (numOfRandPass groupNum : Z) :
  0 < groupNum ->
  (0 < Z.quot numOfRandPass groupNum + 1 <-> - groupNum < numOfRandPass).
Proof.
  intros Hg.
  destruct (Z.le_gt_cases 0 numOfRandPass) as [Hn|Hn].
  - pose proof (Z.quot_pos numOfRandPass groupNum Hn Hg). lia.
  - replace numOfRandPass with (- (- numOfRandPass)) at 1 by lia.
    rewrite Z.quot_opp_l by lia. rewrite Z.quot_div_nonneg by lia.
    destruct (Z.lt_ge_cases (- numOfRandPass) groupNum) as [Hs|Hs].
    + rewrite Z.div_small by lia. lia.
    + assert (1 <= - numOfRandPass / groupNum)
        by (apply Z.div_le_lower_bound; lia).
      lia.
Qed.

(** Without wrap-around the number of passes is the quotient plus one,
    and the size of the pool is the product. *)
Lemma scanPass_of_fits numOfRandPass groupNum :
  - groupNum < numOfRandPass -> 0 < groupNum -> pool_in_range numOfRandPass groupNum ->
  scanPass_of numOfRandPass groupNum = Z.quot numOfRandPass groupNum + 1 /\
  1 <= scanPass_of numOfRandPass groupNum /\
  to_int (groupNum * scanPass_of numOfRandPass groupNum) =
    groupNum * scanPass_of numOfRandPass groupNum.
Proof.
  intros Hn Hg Hfit. unfold pool_in_range in Hfit. unfold scanPass_of.
  pose proof (proj2 (quot_succ_pos_iff numOfRandPass groupNum Hg) Hn) as Hq.
  assert (Hs : is_int (Z.quot numOfRandPass groupNum + 1)).
  { unfold is_int, INT_MIN, INT_MAX in *. nia. }
  rewrite (to_int_id _ Hs). split; [reflexivity|]. split; [lia|].
  apply to_int_id. unfold is_int, INT_MIN, INT_MAX in *. nia.
Qed.

(** On arguments that are [int]s the pool has a positive size exactly
    when at least one pass is asked for and the size fits: a size
    beyond the range wraps around to a negative one. *)
Lemma pool_size_pos_iff numOfRandPass groupNum :
  is_int groupNum -> is_int numOfRandPass -> 0 < groupNum ->
  (0 < to_int (groupNum * scanPass_of numOfRandPass groupNum) <->
   - groupNum < numOfRandPass /\ pool_in_range numOfRandPass groupNum).
Proof.
  intros Hg Hn Hpos. split.
  2:{ intros [Hpass Hfit].
      destruct (scanPass_of_fits numOfRandPass groupNum ltac:(lia) Hpos Hfit)
    as (_ & Hsp & ->).
      nia. }
  intros HP. unfold pool_in_range. unfold scanPass_of in HP.
  unfold is_int, INT_MIN, INT_MAX in *.
  assert (Hqr : exists r, numOfRandPass = groupNum * Z.quot numOfRandPass groupNum + r /\
                          - groupNum < r < groupNum /\
                          (0 <= numOfRandPass -> 0 <= r) /\
                          (numOfRandPass <= 0 -> r <= 0)).
  { exists (Z.rem numOfRandPass groupNum). Z.quot_rem_to_equations. lia. }
  destruct Hqr as (r & Hqr & Hr & Hsign & Hsign').
  set (q := Z.quot numOfRandPass groupNum) in *.
  assert (Hq : -2147483648 <= groupNum * q <= 2147483647) by nia.
  assert (Hqb : -2147483648 <= q <= 2147483647) by nia.
  destruct (Z.le_gt_cases (q + 1) 2147483647) as [Hin|Hout].
  - rewrite (to_int_id (q + 1)) in HP by (unfold is_int, INT_MIN, INT_MAX; lia).
    destruct (Z.le_gt_cases (groupNum * (q + 1)) 2147483647) as [Hfit|Hover].
    + rewrite to_int_id in HP by (unfold is_int, INT_MIN, INT_MAX; nia).
      split; [|exact Hfit].
      apply (quot_succ_pos_iff numOfRandPass groupNum Hpos). fold q. nia.
    + rewrite to_int_above in HP by (unfold INT_MAX; nia). nia.
  - assert (Eq : q = 2147483647) by lia.
    assert (Eg : groupNum = 1) by nia.
    rewrite Eq, Eg in HP. vm_compute in HP. discriminate.
Qed.

Section FDRFacts.
Context `{BetaCdf} `{RandomGen}.

Lemma simulate_group_spec groups maxPercentile j s :
  0 < itemNum (get no_group groups j) ->
  exists tmp g v,
    simulate_group groups maxPercentile j s =
      Some {| tmpPercentile := tmp;
              randLoValue := upd (randLoValue s) (randLoValueNum s) v;
              randLoValueNum := randLoValueNum s + 1;
              gen := g |} /\
    ComputeLoValue tmp (itemNum (get no_group groups j)) maxPercentile = Some v.
Proof.
  intros Hpos. unfold simulate_group.
  destruct (draw_percentiles (itemNum (get no_group groups j)) (tmpPercentile s, gen s))
    as [tmp g].
  rewrite ComputeLoValue_eq by exact Hpos.
  eexists. eexists. eexists. split; [reflexivity|].
  apply ComputeLoValue_eq. exact Hpos.
Qed.

(** One pass over the groups appends one lo-value per group. *)
Lemma simulate_pass_spec groups groupNum maxPercentile s :
  (forall j, 0 <= j < groupNum -> 0 < itemNum (get no_group groups j)) ->
  0 <= groupNum -> 0 <= randLoValueNum s ->
  randLoValueNum s + groupNum <= Z.of_nat (length (randLoValue s)) ->
  exists s',
    for_range_opt 0 groupNum (simulate_group groups maxPercentile) s = Some s' /\
    randLoValueNum s' = randLoValueNum s + groupNum /\
    length (randLoValue s') = length (randLoValue s) /\
    (forall k, 0 <= k < randLoValueNum s ->
       get 0%Q (randLoValue s') k = get 0%Q (randLoValue s) k) /\
    (forall j, 0 <= j < groupNum ->
       exists buf,
         ComputeLoValue buf (itemNum (get no_group groups j)) maxPercentile
           = Some (get 0%Q (randLoValue s') (randLoValueNum s + j))).
Proof.
  intros Hitems Hg Hb Hroom.
  pose (P := fun (j : Z) (s' : sim_state) =>
    randLoValueNum s' = randLoValueNum s + j /\
    length (randLoValue s') = length (randLoValue s) /\
    (forall k, 0 <= k < randLoValueNum s ->
       get 0%Q (randLoValue s') k = get 0%Q (randLoValue s) k) /\
    (forall j', 0 <= j' < j ->
       exists buf,
         ComputeLoValue buf (itemNum (get no_group groups j')) maxPercentile
           = Some (get 0%Q (randLoValue s') (randLoValueNum s + j')))).
  destruct (for_range_opt_inv P 0 groupNum (simulate_group groups maxPercentile) s)
    as (s' & E & HP); subst P; cbn beta in *.
  - exact Hg.
  - split; [lia|]. split; [reflexivity|]. split; [reflexivity|]. intros; lia.
  - intros j s1 Hj (HN & HL & Hold & Hnew).
    destruct (simulate_group_spec groups maxPercentile j s1 (Hitems j Hj))
      as (tmp & g & v & E & Ev).
    eexists. split; [exact E|]. cbn [randLoValueNum randLoValue].
    split; [lia|]. split; [now rewrite length_upd|]. split.
    + intros k Hk. rewrite get_upd_other by lia. apply Hold. exact Hk.
    + intros j' Hj'. destruct (Z.eq_dec j' j) as [->|Hne].
      * exists tmp. rewrite HN. rewrite get_upd_same by lia. exact Ev.
      * destruct (Hnew j' ltac:(lia)) as (buf & Eb).
        exists buf. rewrite get_upd_other by lia. exact Eb.
  - exists s'. split; [exact E|]. exact HP.
Qed.

(** [scanPass] passes fill the pool with one lo-value per group and per
    pass. *)
Lemma simulate_spec groups groupNum maxPercentile scanPass s :
  (forall j, 0 <= j < groupNum -> 0 < itemNum (get no_group groups j)) ->
  0 <= groupNum -> 0 <= scanPass ->
  randLoValueNum s = 0 ->
  Z.of_nat (length (randLoValue s)) = groupNum * scanPass ->
  exists s',
    simulate groups groupNum maxPercentile scanPass s = Some s' /\
    randLoValueNum s' = groupNum * scanPass /\
    Z.of_nat (length (randLoValue s')) = groupNum * scanPass /\
    (forall p j, 0 <= p < scanPass -> 0 <= j < groupNum ->
       exists buf,
         ComputeLoValue buf (itemNum (get no_group groups j)) maxPercentile
           = Some (get 0%Q (randLoValue s') (p * groupNum + j))).
Proof.
  intros Hitems Hg Hsp Hzero Hlen.
  pose (P := fun (p : Z) (s' : sim_state) =>
    randLoValueNum s' = p * groupNum /\
    length (randLoValue s') = length (randLoValue s) /\
    (forall p' j, 0 <= p' < p -> 0 <= j < groupNum ->
       exists buf,
         ComputeLoValue buf (itemNum (get no_group groups j)) maxPercentile
           = Some (get 0%Q (randLoValue s') (p' * groupNum + j)))).
  destruct (for_range_opt_inv P 0 scanPass
              (fun _ s => for_range_opt 0 groupNum (simulate_group groups maxPercentile) s) s)
    as (s' & E & HP); subst P; cbn beta in *.
  - exact Hsp.
  - split; [lia|]. split; [reflexivity|]. intros; lia.
  - intros p s1 Hp (HN & HL & Hold).
    destruct (simulate_pass_spec groups groupNum maxPercentile s1 Hitems Hg)
      as (s2 & E & HN2 & HL2 & Hkeep & Hnew).
    + rewrite HN. nia.
    + rewrite HN, HL, Hlen. nia.
    + exists s2. split; [exact E|].
      split; [rewrite HN2, HN; ring|]. split; [congruence|].
      intros p' j Hp' Hj. destruct (Z.eq_dec p' p) as [->|Hne].
      * destruct (Hnew j Hj) as (buf & Eb). exists buf. rewrite <- HN. exact Eb.
      * destruct (Hold p' j ltac:(lia) Hj) as (buf & Eb). exists buf.
        rewrite Hkeep; [exact Eb|]. rewrite HN. nia.
  - exists s'. destruct HP as (HN & HL & Hall).
    split; [exact E|]. split; [rewrite HN; ring|].
    split; [rewrite HL; exact Hlen|]. exact Hall.
Qed.

(** The simulation runs to completion and leaves a full pool. *)
Lemma null_pool_spec groups groupNum maxPercentile numOfRandPass g0 :
  fdr_input_ok groups groupNum -> 0 <= numOfRandPass ->
  pool_in_range numOfRandPass groupNum ->
  exists s,
    null_pool groups groupNum maxPercentile numOfRandPass g0 = Some s /\
    randLoValueNum s = groupNum * scanPass_of numOfRandPass groupNum /\
    Z.of_nat (length (randLoValue s)) = groupNum * scanPass_of numOfRandPass groupNum /\
    (forall p j, 0 <= p < scanPass_of numOfRandPass groupNum -> 0 <= j < groupNum ->
       exists buf,
         ComputeLoValue buf (itemNum (get no_group groups j)) maxPercentile
           = Some (get 0%Q (randLoValue s) (p * groupNum + j))).
Proof.
  intros (Hn & Hpos & Hitems) Hpass Hfit. unfold null_pool.
  destruct (scanPass_of_fits numOfRandPass groupNum ltac:(lia) Hpos Hfit)
    as (_ & Hsp & ->).
  assert (Hmax : 0 < max_itemNum groups groupNum).
  { apply max_itemNum_pos; [assumption|]. exists 0. split; [lia|]. apply Hitems. lia. }
  destruct (Z.ltb_spec 0 (max_itemNum groups groupNum)) as [_|]; [|lia].
  destruct (Z.ltb_spec 0 (groupNum * scanPass_of numOfRandPass groupNum)) as [_|]; [|nia].
  cbn [negb].
  apply simulate_spec; try assumption; try lia.
  - reflexivity.
  - cbn [randLoValue]. unfold malloc_double. rewrite repeat_length. nia.
Qed.
End FDRFacts.

(** ** The calibration loops of [ComputeFDR] *)

(** The value assigned to the [i]-th group at lines 587-589. *)
Definition raw_fdr (randLoValue : list double) (randLoValueNum groupNum i : Z)
           (lo : double) : double :=
  (inject_Z (bTreeSearchingF (lo - EPSILON) randLoValue 0 (randLoValueNum - 1)
             + bTreeSearchingF (lo + EPSILON) randLoValue 0 (randLoValueNum - 1)
             + 1)
   / 2 / inject_Z randLoValueNum / (inject_Z i + (1 # 2)) * inject_Z groupNum)%Q.

Lemma assign_fdr_spec pool n groupNum gs :
  groupNum = Z.of_nat (length gs) ->
  fdr_only gs (assign_fdr pool n groupNum gs) /\
  forall i, 0 <= i < groupNum ->
    fdr (get no_group (assign_fdr pool n groupNum gs) i) =
      raw_fdr pool n groupNum i (loValue (get no_group gs i)).
Proof.
  intros Hn. unfold assign_fdr.
  match goal with
  | |- context [for_range 0 groupNum ?b gs] => set (body := b)
  end.
  pose (P := fun (k : Z) (gs1 : list GROUP_STRUCT) =>
    fdr_only gs gs1 /\
    (forall m, 0 <= m < k ->
       fdr (get no_group gs1 m) = raw_fdr pool n groupNum m (loValue (get no_group gs m))) /\
    (forall m, k <= m -> get no_group gs1 m = get no_group gs m)).
  assert (Hinv : P groupNum (for_range 0 groupNum body gs)).
  { apply (for_range_inv P); subst P; cbn beta; [lia| |].
    - split; [apply fdr_only_refl|]. split; [intros; lia|reflexivity].
    - intros k gs1 Hk (Hfo & Hdone & Hrest). unfold body.
      destruct Hfo as [HL Hsame].
      split; [eapply fdr_only_trans; [split; eassumption|apply fdr_only_upd]|].
      split.
      + intros m Hm. destruct (Z.eq_dec m k) as [->|Hne].
        * rewrite get_upd_same by lia. cbn [fdr set_fdr].
          rewrite (Hrest k) by lia. reflexivity.
        * rewrite get_upd_other by congruence. apply Hdone. lia.
      + intros m Hm. rewrite get_upd_other by lia. apply Hrest. lia. }
  destruct Hinv as (Hfo & Hdone & _). split; assumption.
Qed.

(** On a sorted pool the assigned value is the rank-based estimate. *)
Lemma raw_fdr_formula pool groupNum i lo :
  ascending_by 0%Q (fun v => v) pool ->
  (raw_fdr pool (Z.of_nat (length pool)) groupNum i lo ==
     inject_Z (count_below (lo - EPSILON) pool + count_below (lo + EPSILON) pool + 1)
     / (2 * inject_Z (Z.of_nat (length pool)) * (inject_Z i + (1 # 2)))
     * inject_Z groupNum)%Q.
Proof.
  intros Hs. unfold raw_fdr. rewrite !bTreeSearchingF_count by exact Hs.
  unfold Qdiv. rewrite !Qinv_mult_distr. ring.
Qed.

Lemma raw_fdr_pos pool groupNum i lo :
  ascending_by 0%Q (fun v => v) pool ->
  (0 < length pool)%nat -> 0 < groupNum -> 0 <= i ->
  (0 < raw_fdr pool (Z.of_nat (length pool)) groupNum i lo)%Q.
Proof.
  intros Hs Hlen Hg Hi. unfold raw_fdr. rewrite !bTreeSearchingF_count by exact Hs.
  pose proof (count_below_bounds (lo - EPSILON) pool).
  pose proof (count_below_bounds (lo + EPSILON) pool).
  assert (inj_pos : forall z, 0 < z -> (0 < inject_Z z)%Q).
  { intros z Hz. change (inject_Z 0 < inject_Z z)%Q. rewrite <- Zlt_Qlt. exact Hz. }
  assert (Hhalf : (0 < inject_Z i + (1 # 2))%Q).
  { assert (0 <= inject_Z i)%Q.
    { change (inject_Z 0 <= inject_Z i)%Q. rewrite <- Zle_Qle. exact Hi. }
    lra. }
  unfold Qdiv.
  apply Qmult_lt_0_compat; [|apply inj_pos; exact Hg].
  apply Qmult_lt_0_compat; [|apply Qinv_lt_0_compat; exact Hhalf].
  apply Qmult_lt_0_compat; [|apply Qinv_lt_0_compat, inj_pos; lia].
  apply Qmult_lt_0_compat; [apply inj_pos; lia|reflexivity].
Qed.

Lemma clamp_last_spec groupNum gs :
  groupNum = Z.of_nat (length gs) -> 0 < groupNum ->
  fdr_only gs (clamp_last groupNum gs) /\
  (forall m, 0 <= m < groupNum - 1 ->
     get no_group (clamp_last groupNum gs) m = get no_group gs m) /\
  (fdr (get no_group (clamp_last groupNum gs) (groupNum - 1))
     == Qmin 1 (fdr (get no_group gs (groupNum - 1))))%Q.
Proof.
  intros Hn Hpos. unfold clamp_last.
  destruct (Qlt_bool 1 (fdr (get no_group gs (groupNum - 1)))) eqn:E.
  - apply Qlt_bool_iff in E.
    split; [apply fdr_only_upd|]. split.
    + intros m Hm. apply get_upd_other. lia.
    + rewrite get_upd_same by lia. cbn [fdr set_fdr].
      symmetry. apply Q.min_l. apply Qlt_le_weak. exact E.
  - apply Qlt_bool_false in E.
    split; [apply fdr_only_refl|]. split; [reflexivity|].
    symmetry. apply Q.min_r. exact E.
Qed.

Lemma sweep_spec groupNum gs :
  groupNum = Z.of_nat (length gs) -> 0 < groupNum ->
  fdr_only gs (sweep groupNum gs) /\
  get no_group (sweep groupNum gs) (groupNum - 1) = get no_group gs (groupNum - 1) /\
  forall m, 0 <= m < groupNum - 1 ->
    (fdr (get no_group (sweep groupNum gs) m)
       == Qmin (fdr (get no_group gs m))
               (fdr (get no_group (sweep groupNum gs) (m + 1))))%Q.
Proof.
  intros Hn Hpos. unfold sweep.
  match goal with
  | |- context [for_down (groupNum - 2) ?b gs] => set (body := b)
  end.
  pose (P := fun (k : Z) (gs1 : list GROUP_STRUCT) =>
    fdr_only gs gs1 /\
    (forall m, (m <= k \/ groupNum - 1 <= m) -> get no_group gs1 m = get no_group gs m) /\
    (forall m, k < m < groupNum - 1 ->
       (fdr (get no_group gs1 m)
          == Qmin (fdr (get no_group gs m)) (fdr (get no_group gs1 (m + 1))))%Q)).
  assert (Hinv : P (-1) (for_down (groupNum - 2) body gs)).
  { apply (for_down_inv P); subst P; cbn beta; [lia| |].
    - split; [apply fdr_only_refl|]. split; [reflexivity|intros; lia].
    - intros k gs1 Hk (Hfo & Hkeep & Hdone). unfold body.
      pose proof Hfo as [HL Hsame].
      set (g := get no_group gs1 k). set (g1 := get no_group gs1 (k + 1)).
      assert (Eg : g = get no_group gs k) by (apply Hkeep; lia).
      destruct (Qlt_bool (fdr g1) (fdr g)) eqn:E.
      + apply Qlt_bool_iff in E.
        split; [eapply fdr_only_trans; [exact Hfo|apply fdr_only_upd]|].
        split; [intros m Hm; rewrite get_upd_other by lia; apply Hkeep; lia|].
        intros m Hm. destruct (Z.eq_dec m k) as [->|Hne].
        * rewrite get_upd_same by lia. rewrite get_upd_other by lia.
          cbn [fdr set_fdr]. fold g1. rewrite <- Eg.
          symmetry. apply Q.min_r. apply Qlt_le_weak. exact E.
        * rewrite !get_upd_other by lia. apply Hdone. lia.
      + apply Qlt_bool_false in E.
        split; [exact Hfo|]. split; [intros m Hm; apply Hkeep; lia|].
        intros m Hm. destruct (Z.eq_dec m k) as [->|Hne].
        * fold g g1. rewrite <- Eg. symmetry. apply Q.min_l. exact E.
        * apply Hdone. lia. }
  destruct Hinv as (Hfo & Hkeep & Hdone).
  split; [exact Hfo|]. split; [apply Hkeep; lia|].
  intros m Hm. apply Hdone. lia.
Qed.

(** A chain of minima that ends at a value of [0, 1] and runs over
    non-negative values is non-decreasing and stays in [0, 1]. *)
Lemma min_chain_bounds (groupNum : Z) (raw final : Z -> Q) :
  0 < groupNum ->
  (final (groupNum - 1)%Z == Qmin 1 (raw (groupNum - 1)%Z))%Q ->
  (forall m, 0 <= m < groupNum - 1 ->
     (final m == Qmin (raw m) (final (m + 1)%Z))%Q) ->
  (forall m, 0 <= m < groupNum -> (0 <= raw m)%Q) ->
  (forall m, 0 <= m < groupNum -> (0 <= final m <= 1)%Q) /\
  (forall m, 0 <= m < groupNum - 1 -> (final m <= final (m + 1)%Z)%Q).
Proof.
  intros Hpos Hlast Hstep Hraw.
  assert (Hb : forall n m, m = groupNum - 1 - Z.of_nat n -> 0 <= m ->
                           (0 <= final m <= 1)%Q).
  { induction n as [|n IH]; intros m Hm Hm0.
    - replace m with (groupNum - 1) by lia. rewrite Hlast. split.
      + apply Q.min_glb; [discriminate|apply Hraw; lia].
      + apply Q.le_min_l.
    - destruct (IH (m + 1) ltac:(lia) ltac:(lia)) as [B1 B2].
      rewrite (Hstep m) by lia. split.
      + apply Q.min_glb; [apply Hraw; lia|exact B1].
      + eapply Qle_trans; [apply Q.le_min_r|exact B2]. }
  split.
  - intros m Hm. apply (Hb (Z.to_nat (groupNum - 1 - m))); lia.
  - intros m Hm. rewrite (Hstep m) at 1 by lia. apply Q.le_min_r.
Qed.

(** ** The generator across the simulation *)

Section ArraySnoc.
Context {A : Type} (d : A).

Lemma firstn_upd_nat_snoc (a : list A) (n : nat) (v : A) :
  (n < length a)%nat -> firstn (S n) (upd_nat a n v) = firstn n a ++ [v].
Proof.
  revert n. induction a as [|x a IH]; intros n Hn; [cbn in Hn; lia|].
  destruct n as [|n]; [reflexivity|].
  cbn [upd_nat]. change (firstn (S (S n)) (x :: upd_nat a n v))
    with (x :: firstn (S n) (upd_nat a n v)).
  rewrite IH by (cbn [length] in Hn; lia). reflexivity.
Qed.

(** Writing the cell behind the first [c] cells extends them by the
    value written. *)
Lemma firstn_upd_snoc (a : list A) (c : Z) (v : A) :
  0 <= c < Z.of_nat (length a) ->
  firstn (Z.to_nat (c + 1)) (upd a c v) = firstn (Z.to_nat c) a ++ [v].
Proof.
  intros Hc. unfold upd. destruct (Z.ltb_spec c 0); [lia|].
  replace (Z.to_nat (c + 1)) with (S (Z.to_nat c)) by lia.
  apply firstn_upd_nat_snoc. lia.
Qed.

Lemma get_repeat (n : nat) (m : Z) : get d (repeat d n) m = d.
Proof.
  unfold get. destruct (m <? 0); [reflexivity|].
  generalize (Z.to_nat m) as k. induction n as [|n IH]; intros [|k]; cbn; auto.
Qed.
End ArraySnoc.

(** Every group of the range has at most [max_itemNum] items, and the
    maximum is 0 on an empty range. *)
Lemma max_itemNum_ge groups groupNum :
  0 <= max_itemNum groups groupNum /\
  forall i, 0 <= i < groupNum ->
    itemNum (get no_group groups i) <= max_itemNum groups groupNum.
Proof.
  unfold max_itemNum.
  set (body := fun (i : Z) (m : Z) =>
                 if m <? itemNum (get no_group groups i)
                 then itemNum (get no_group groups i) else m).
  destruct (Z.le_gt_cases 0 groupNum) as [Hn|Hn].
  - pose (P := fun (k m : Z) =>
               0 <= m /\ forall i', 0 <= i' < k -> itemNum (get no_group groups i') <= m).
    assert (Hinv : P groupNum (for_range 0 groupNum body 0)).
    { apply (for_range_inv P); subst P; cbn beta; [lia|split; [lia|intros; lia]|].
      intros k m Hk [Hm0 Hm]. unfold body. split.
      - destruct (Z.ltb_spec m (itemNum (get no_group groups k))); lia.
      - intros i' Hi'. destruct (Z.eq_dec i' k) as [->|Hne].
        + destruct (Z.ltb_spec m (itemNum (get no_group groups k))); lia.
        + specialize (Hm i' ltac:(lia)).
          destruct (Z.ltb_spec m (itemNum (get no_group groups k))); lia. }
    exact Hinv.
  - unfold for_range. replace (Z.to_nat (groupNum - 0)) with O by lia.
    cbn [for_loop]. split; [lia|intros; lia].
Qed.

Section LoopSteps.
Context {S : Type}.

Lemma for_loop_succ (body : Z -> S -> S) : forall n i s,
  for_loop (Datatypes.S n) i body s = body (i + Z.of_nat n) (for_loop n i body s).
Proof.
  induction n as [|n IH]; intros i s.
  - cbn [for_loop]. now rewrite Z.add_0_r.
  - change (for_loop (Datatypes.S (Datatypes.S n)) i body s)
      with (for_loop (Datatypes.S n) (i + 1) body (body i s)).
    rewrite IH. cbn [for_loop]. f_equal. lia.
Qed.

Lemma for_range_succ (body : Z -> S -> S) lo hi s :
  lo <= hi -> for_range lo (hi + 1) body s = body hi (for_range lo hi body s).
Proof.
  intros Hlh. unfold for_range.
  replace (Z.to_nat (hi + 1 - lo)) with (Datatypes.S (Z.to_nat (hi - lo))) by lia.
  rewrite for_loop_succ. f_equal. lia.
Qed.

Lemma for_loop_opt_some (P : Z -> S -> Prop) (body : Z -> S -> option S) : forall n i s s',
  P i s ->
  (forall k s s1, i <= k < i + Z.of_nat n -> P k s -> body k s = Some s1 -> P (k + 1) s1) ->
  for_loop_opt n i body s = Some s' -> P (i + Z.of_nat n) s'.
Proof.
  induction n as [|n IH]; intros i s s' Hs Hstep; cbn [for_loop_opt].
  - intros E. inversion E; subst. now rewrite Z.add_0_r.
  - destruct (body i s) as [s1|] eqn:E1; [|discriminate]. intros E.
    replace (i + Z.of_nat (Datatypes.S n)) with ((i + 1) + Z.of_nat n) by lia.
    apply (IH (i + 1) s1 s'); [| |exact E].
    + apply (Hstep i s s1); [lia|exact Hs|exact E1].
    + intros k s2 s3 Hk. apply Hstep. lia.
Qed.

Lemma for_range_opt_some (P : Z -> S -> Prop) lo hi (body : Z -> S -> option S) s s' :
  lo <= hi -> P lo s ->
  (forall k s s1, lo <= k < hi -> P k s -> body k s = Some s1 -> P (k + 1) s1) ->
  for_range_opt lo hi body s = Some s' -> P hi s'.
Proof.
  intros Hlh Hs Hstep E. unfold for_range_opt in E.
  replace hi with (lo + Z.of_nat (Z.to_nat (hi - lo))) by lia.
  apply (for_loop_opt_some P body _ lo s s' Hs); [|exact E].
  intros k s1 s2 Hk. apply Hstep. lia.
Qed.
End LoopSteps.

(** The number of items of the groups before the [j]-th. *)
Definition items_before (groups : list GROUP_STRUCT) (j : Z) : Z :=
  for_range 0 j (fun i n => n + itemNum (get no_group groups i)) 0.

Lemma items_before_succ groups j :
  0 <= j -> items_before groups (j + 1) = items_before groups j + itemNum (get no_group groups j).
Proof. intros Hj. unfold items_before. now rewrite for_range_succ. Qed.

Lemma items_before_nonneg groups groupNum :
  (forall i, 0 <= i < groupNum -> 0 < itemNum (get no_group groups i)) ->
  forall j, 0 <= j <= groupNum -> 0 <= items_before groups j.
Proof.
  intros Hitems j Hj. unfold items_before.
  apply (for_range_inv (fun k n => 0 <= k <= j -> 0 <= n)); try lia.
  intros k n Hk Hn _. specialize (Hitems k ltac:(lia)). lia.
Qed.

Section GeneratorFacts.
Context `{BetaCdf} `{RandomGen}.

(** The generator after [n] more draws of [Uniform(0.0, 1.0)]. *)
Definition after_draws (n : nat) (g : rng) : rng :=
  Nat.iter n (fun g => snd (Uniform 0%Q 1%Q g)) g.

Lemma after_draws_add a b g :
  after_draws (a + b) g = after_draws b (after_draws a g).
Proof. unfold after_draws. rewrite Nat.add_comm. apply Nat.iter_add. Qed.

Lemma draw_percentiles_gen n tmp g :
  0 <= n -> snd (draw_percentiles n (tmp, g)) = after_draws (Z.to_nat n) g.
Proof.
  intros Hn. unfold draw_percentiles.
  apply (for_range_inv
           (fun k (st : list double * rng) => snd st = after_draws (Z.to_nat k) g));
    [exact Hn|reflexivity|].
  intros k [tmp1 g1] Hk Hst. cbn [snd] in Hst. subst g1.
  replace (Z.to_nat (k + 1)) with (Datatypes.S (Z.to_nat k)) by lia.
  change (after_draws (Datatypes.S (Z.to_nat k)) g)
    with (snd (Uniform 0%Q 1%Q (after_draws (Z.to_nat k) g))).
  destruct (Uniform 0%Q 1%Q (after_draws (Z.to_nat k) g)) as [u g2]. reflexivity.
Qed.

Lemma simulate_group_gen groups maxPercentile j s s' :
  0 <= itemNum (get no_group groups j) ->
  simulate_group groups maxPercentile j s = Some s' ->
  gen s' = after_draws (Z.to_nat (itemNum (get no_group groups j))) (gen s).
Proof.
  intros Hn. unfold simulate_group.
  pose proof (draw_percentiles_gen (itemNum (get no_group groups j))
                (tmpPercentile s) (gen s) Hn) as Hg.
  destruct (draw_percentiles (itemNum (get no_group groups j)) (tmpPercentile s, gen s))
    as [tmp g]. cbn [snd] in Hg.
  destruct (ComputeLoValue tmp (itemNum (get no_group groups j)) maxPercentile);
    [|discriminate].
  intros E. inversion E; subst. reflexivity.
Qed.

Lemma simulate_pass_gen groups groupNum maxPercentile s s' :
  (forall j, 0 <= j < groupNum -> 0 < itemNum (get no_group groups j)) ->
  0 <= groupNum ->
  for_range_opt 0 groupNum (simulate_group groups maxPercentile) s = Some s' ->
  gen s' = after_draws (Z.to_nat (items_before groups groupNum)) (gen s).
Proof.
  intros Hitems Hg.
  apply (for_range_opt_some
           (fun j (s1 : sim_state) =>
              gen s1 = after_draws (Z.to_nat (items_before groups j)) (gen s)));
    [exact Hg|reflexivity|].
  intros j s1 s2 Hj Hs1 E.
  rewrite (simulate_group_gen groups maxPercentile j s1 s2) by
    (try exact E; specialize (Hitems j Hj); lia).
  rewrite Hs1, <- after_draws_add. f_equal.
  rewrite items_before_succ by lia.
  pose proof (items_before_nonneg groups groupNum Hitems j ltac:(lia)).
  specialize (Hitems j Hj). lia.
Qed.

Lemma simulate_gen groups groupNum maxPercentile scanPass s s' :
  (forall j, 0 <= j < groupNum -> 0 < itemNum (get no_group groups j)) ->
  0 <= groupNum -> 0 <= scanPass ->
  simulate groups groupNum maxPercentile scanPass s = Some s' ->
  gen s' = after_draws (Z.to_nat (scanPass * items_before groups groupNum)) (gen s).
Proof.
  intros Hitems Hg Hsp.
  pose proof (items_before_nonneg groups groupNum Hitems groupNum ltac:(lia)) as Htot.
  apply (for_range_opt_some
           (fun p (s1 : sim_state) =>
              gen s1 = after_draws (Z.to_nat (p * items_before groups groupNum)) (gen s)));
    [exact Hsp|reflexivity|].
  intros p s1 s2 Hp Hs1 E. cbn beta in E.
  rewrite (simulate_pass_gen groups groupNum maxPercentile s1 s2 Hitems Hg E).
  rewrite Hs1, <- after_draws_add. f_equal. nia.
Qed.

(** The simulation draws from the generator seeded with 123456, once per
    item of every group in every pass, and never reseeds. *)
Lemma null_pool_gen groups groupNum maxPercentile numOfRandPass g0 s :
  fdr_input_ok groups groupNum -> 0 <= numOfRandPass ->
  pool_in_range numOfRandPass groupNum ->
  null_pool groups groupNum maxPercentile numOfRandPass g0 = Some s ->
  gen s = after_draws
            (Z.to_nat (scanPass_of numOfRandPass groupNum * items_before groups groupNum))
            (PlantSeeds 123456 g0).
Proof.
  intros (Hn & Hpos & Hitems) Hpass Hfit. unfold null_pool.
  destruct (scanPass_of_fits numOfRandPass groupNum ltac:(lia) Hpos Hfit) as (_ & Hsp & _).
  destruct (negb (0 <? max_itemNum groups groupNum)); [discriminate|].
  destruct (negb (0 <? to_int (groupNum * scanPass_of numOfRandPass groupNum)));
    [discriminate|].
  intros E.
  assert (Hg : 0 <= groupNum) by lia.
  assert (Hs0 : 0 <= scanPass_of numOfRandPass groupNum) by lia.
  rewrite (simulate_gen _ _ _ _ _ _ Hitems Hg Hs0 E). reflexivity.
Qed.

(** [ComputeLoValue] reads the first [num] cells only. *)
Lemma ComputeLoValue_firstn percentiles num maxPercentile :
  ComputeLoValue (firstn (Z.to_nat num) percentiles) num maxPercentile =
    ComputeLoValue percentiles num maxPercentile.
Proof.
  unfold ComputeLoValue. rewrite firstn_firstn, Nat.min_id. reflexivity.
Qed.

(** The next [n] values that [Uniform(0.0, 1.0)] draws from the state
    [g]. *)
Fixpoint draw_list (n : nat) (g : rng) : list double :=
  match n with
  | O => []
  | Datatypes.S n' =>
      fst (Uniform 0%Q 1%Q g) :: draw_list n' (snd (Uniform 0%Q 1%Q g))
  end.

Lemma after_draws_succ n g :
  after_draws (Datatypes.S n) g = snd (Uniform 0%Q 1%Q (after_draws n g)).
Proof. reflexivity. Qed.

Lemma after_draws_first n g :
  after_draws (Datatypes.S n) g = after_draws n (snd (Uniform 0%Q 1%Q g)).
Proof. unfold after_draws. apply Nat.iter_succ_r. Qed.

Lemma draw_list_snoc n : forall g,
  draw_list (Datatypes.S n) g =
    draw_list n g ++ [fst (Uniform 0%Q 1%Q (after_draws n g))].
Proof.
  induction n as [|n IH]; intros g; [reflexivity|].
  change (draw_list (Datatypes.S (Datatypes.S n)) g)
    with (fst (Uniform 0%Q 1%Q g)
            :: draw_list (Datatypes.S n) (snd (Uniform 0%Q 1%Q g))).
  rewrite IH, after_draws_first. reflexivity.
Qed.

(** The loop of line 570 stores the next [n] draws in the first [n]
    cells of the scratch array. *)
Lemma draw_percentiles_values n tmp g :
  0 <= n <= Z.of_nat (length tmp) ->
  length (fst (draw_percentiles n (tmp, g))) = length tmp /\
  firstn (Z.to_nat n) (fst (draw_percentiles n (tmp, g))) = draw_list (Z.to_nat n) g.
Proof.
  intros Hn. unfold draw_percentiles.
  pose (P := fun (k : Z) (st : list double * rng) =>
    length (fst st) = length tmp /\
    firstn (Z.to_nat k) (fst st) = draw_list (Z.to_nat k) g /\
    snd st = after_draws (Z.to_nat k) g).
  assert (Hinv : P n (for_range 0 n
                        (fun k '(tmpPercentile, g) =>
                           let '(u, g) := Uniform 0%Q 1%Q g in (upd tmpPercentile k u, g))
                        (tmp, g))).
  { apply (for_range_inv P); subst P; cbn beta; [lia| |].
    - cbn [fst snd]. repeat split.
    - intros k [tf g1] Hk (HL & Hf & Hg). cbn [fst snd] in *. subst g1.
      replace (Z.to_nat (k + 1)) with (Datatypes.S (Z.to_nat k)) by lia.
      rewrite draw_list_snoc, after_draws_succ.
      destruct (Uniform 0%Q 1%Q (after_draws (Z.to_nat k) g)) as [u g2].
      cbn [fst snd]. split; [now rewrite length_upd|]. split; [|reflexivity].
      replace (Datatypes.S (Z.to_nat k)) with (Z.to_nat (k + 1)) by lia.
      rewrite firstn_upd_snoc by lia. rewrite Hf. reflexivity. }
  destruct Hinv as (HL & Hf & _). split; assumption.
Qed.

(** One simulated group: its lo-value is that of the next draws, as
    many as the group has items. *)
Lemma simulate_group_draws groups maxPercentile j s :
  0 < itemNum (get no_group groups j) <= Z.of_nat (length (tmpPercentile s)) ->
  exists s' v,
    simulate_group groups maxPercentile j s = Some s' /\
    length (tmpPercentile s') = length (tmpPercentile s) /\
    gen s' = after_draws (Z.to_nat (itemNum (get no_group groups j))) (gen s) /\
    randLoValueNum s' = randLoValueNum s + 1 /\
    randLoValue s' = upd (randLoValue s) (randLoValueNum s) v /\
    ComputeLoValue (draw_list (Z.to_nat (itemNum (get no_group groups j))) (gen s))
                   (itemNum (get no_group groups j)) maxPercentile = Some v.
Proof.
  intros Hn. unfold simulate_group.
  set (n := itemNum (get no_group groups j)) in *.
  pose proof (draw_percentiles_values n (tmpPercentile s) (gen s) ltac:(lia)) as [HL Hf].
  pose proof (draw_percentiles_gen n (tmpPercentile s) (gen s) ltac:(lia)) as Hg.
  destruct (draw_percentiles n (tmpPercentile s, gen s)) as [tmp g].
  cbn [fst snd] in *.
  rewrite <- Hf, ComputeLoValue_firstn.
  rewrite (ComputeLoValue_eq tmp n maxPercentile) by lia.
  eexists. eexists. split; [reflexivity|]. cbn [tmpPercentile gen randLoValueNum randLoValue].
  repeat split; assumption.
Qed.

(** One pass: the [j]-th lo-value it adds is that of the draws that
    follow those of the groups before the [j]-th. *)
Lemma simulate_pass_draws groups groupNum maxPercentile s :
  (forall j, 0 <= j < groupNum ->
     0 < itemNum (get no_group groups j) <= Z.of_nat (length (tmpPercentile s))) ->
  0 <= groupNum -> 0 <= randLoValueNum s ->
  randLoValueNum s + groupNum <= Z.of_nat (length (randLoValue s)) ->
  exists s',
    for_range_opt 0 groupNum (simulate_group groups maxPercentile) s = Some s' /\
    randLoValueNum s' = randLoValueNum s + groupNum /\
    length (randLoValue s') = length (randLoValue s) /\
    length (tmpPercentile s') = length (tmpPercentile s) /\
    gen s' = after_draws (Z.to_nat (items_before groups groupNum)) (gen s) /\
    (forall k, 0 <= k < randLoValueNum s ->
       get 0%Q (randLoValue s') k = get 0%Q (randLoValue s) k) /\
    (forall j, 0 <= j < groupNum ->
       ComputeLoValue
         (draw_list (Z.to_nat (itemNum (get no_group groups j)))
                    (after_draws (Z.to_nat (items_before groups j)) (gen s)))
         (itemNum (get no_group groups j)) maxPercentile
         = Some (get 0%Q (randLoValue s') (randLoValueNum s + j))).
Proof.
  intros Hitems Hg Hb Hroom.
  assert (Hpos : forall j, 0 <= j < groupNum -> 0 < itemNum (get no_group groups j))
    by (intros j Hj; apply Hitems; exact Hj).
  pose (P := fun (j : Z) (s' : sim_state) =>
    randLoValueNum s' = randLoValueNum s + j /\
    length (randLoValue s') = length (randLoValue s) /\
    length (tmpPercentile s') = length (tmpPercentile s) /\
    gen s' = after_draws (Z.to_nat (items_before groups j)) (gen s) /\
    (forall k, 0 <= k < randLoValueNum s ->
       get 0%Q (randLoValue s') k = get 0%Q (randLoValue s) k) /\
    (forall j', 0 <= j' < j ->
       ComputeLoValue
         (draw_list (Z.to_nat (itemNum (get no_group groups j')))
                    (after_draws (Z.to_nat (items_before groups j')) (gen s)))
         (itemNum (get no_group groups j')) maxPercentile
         = Some (get 0%Q (randLoValue s') (randLoValueNum s + j')))).
  destruct (for_range_opt_inv P 0 groupNum (simulate_group groups maxPercentile) s)
    as (s' & E & HP); subst P; cbn beta in *.
  - exact Hg.
  - split; [lia|]. split; [reflexivity|]. split; [reflexivity|].
    split; [reflexivity|]. split; [reflexivity|]. intros; lia.
  - intros j s1 Hj (HN & HL & HT & HG & Hold & Hnew).
    destruct (simulate_group_draws groups maxPercentile j s1) as (s2 & v & E & HT2 & HG2 & HN2 & HR2 & Ev).
    { rewrite HT. apply Hitems. exact Hj. }
    exists s2. split; [exact E|].
    split; [lia|]. split; [rewrite HR2, length_upd; exact HL|].
    split; [congruence|]. split.
    { rewrite HG2, HG, <- after_draws_add. f_equal.
      rewrite items_before_succ by lia.
      pose proof (items_before_nonneg groups groupNum Hpos j ltac:(lia)).
      specialize (Hpos j Hj). lia. }
    split.
    + intros k Hk. rewrite HR2, get_upd_other by lia. apply Hold. exact Hk.
    + intros j' Hj'. rewrite HR2. destruct (Z.eq_dec j' j) as [->|Hne].
      * rewrite HN, get_upd_same by lia. rewrite <- HG. exact Ev.
      * rewrite get_upd_other by lia. apply Hnew. lia.
  - exists s'. split; [exact E|]. exact HP.
Qed.

(** All passes: the lo-value of group [j] in pass [p] is that of the
    draws that follow those of the earlier passes and groups. *)
Lemma simulate_draws groups groupNum maxPercentile scanPass s :
  (forall j, 0 <= j < groupNum ->
     0 < itemNum (get no_group groups j) <= Z.of_nat (length (tmpPercentile s))) ->
  0 <= groupNum -> 0 <= scanPass ->
  randLoValueNum s = 0 ->
  Z.of_nat (length (randLoValue s)) = groupNum * scanPass ->
  exists s',
    simulate groups groupNum maxPercentile scanPass s = Some s' /\
    randLoValueNum s' = groupNum * scanPass /\
    Z.of_nat (length (randLoValue s')) = groupNum * scanPass /\
    gen s' = after_draws (Z.to_nat (scanPass * items_before groups groupNum)) (gen s) /\
    (forall p j, 0 <= p < scanPass -> 0 <= j < groupNum ->
       ComputeLoValue
         (draw_list (Z.to_nat (itemNum (get no_group groups j)))
                    (after_draws
                       (Z.to_nat (p * items_before groups groupNum + items_before groups j))
                       (gen s)))
         (itemNum (get no_group groups j)) maxPercentile
         = Some (get 0%Q (randLoValue s') (p * groupNum + j))).
Proof.
  intros Hitems Hg Hsp Hzero Hlen.
  assert (Hpos : forall j, 0 <= j < groupNum -> 0 < itemNum (get no_group groups j))
    by (intros j Hj; apply Hitems; exact Hj).
  pose proof (items_before_nonneg groups groupNum Hpos) as Hbefore.
  set (T := items_before groups groupNum) in *.
  pose (P := fun (p : Z) (s' : sim_state) =>
    randLoValueNum s' = p * groupNum /\
    length (randLoValue s') = length (randLoValue s) /\
    length (tmpPercentile s') = length (tmpPercentile s) /\
    gen s' = after_draws (Z.to_nat (p * T)) (gen s) /\
    (forall p' j, 0 <= p' < p -> 0 <= j < groupNum ->
       ComputeLoValue
         (draw_list (Z.to_nat (itemNum (get no_group groups j)))
                    (after_draws (Z.to_nat (p' * T + items_before groups j)) (gen s)))
         (itemNum (get no_group groups j)) maxPercentile
         = Some (get 0%Q (randLoValue s') (p' * groupNum + j)))).
  destruct (for_range_opt_inv P 0 scanPass
              (fun _ s => for_range_opt 0 groupNum (simulate_group groups maxPercentile) s) s)
    as (s' & E & HP); subst P; cbn beta in *.
  - exact Hsp.
  - split; [lia|]. split; [reflexivity|]. split; [reflexivity|].
    split; [reflexivity|]. intros; lia.
  - intros p s1 Hp (HN & HL & HT & HG & Hold).
    destruct (simulate_pass_draws groups groupNum maxPercentile s1)
      as (s2 & E & HN2 & HL2 & HT2 & HG2 & Hkeep & Hnew).
    + intros j Hj. rewrite HT. apply Hitems. exact Hj.
    + exact Hg.
    + rewrite HN. nia.
    + rewrite HN, HL, Hlen. nia.
    + exists s2. split; [exact E|].
      split; [rewrite HN2, HN; ring|]. split; [congruence|]. split; [congruence|].
      pose proof (Hbefore groupNum ltac:(lia)) as HT0. fold T in HT0.
      split.
      { rewrite HG2, HG, <- after_draws_add. f_equal. fold T. nia. }
      intros p' j Hp' Hj. destruct (Z.eq_dec p' p) as [->|Hne].
      * specialize (Hnew j Hj). rewrite HG, <- after_draws_add in Hnew.
        rewrite <- HN. rewrite <- Hnew.
        pose proof (Hbefore j ltac:(lia)).
        replace (Z.to_nat (p * T + items_before groups j))
          with (Z.to_nat (p * T) + Z.to_nat (items_before groups j))%nat by nia.
        reflexivity.
      * rewrite Hkeep; [apply Hold; [lia|exact Hj]|]. rewrite HN. nia.
  - exists s'. destruct HP as (HN & HL & _ & HG & Hall).
    split; [exact E|]. split; [rewrite HN; ring|].
    split; [rewrite HL; exact Hlen|]. split; [exact HG|exact Hall].
Qed.

(** The pool: after the seed, every lo-value is that of the draws of its
    pass and group, in the order of the loops. *)
Lemma null_pool_draws groups groupNum maxPercentile numOfRandPass g0 :
  fdr_input_ok groups groupNum -> 0 <= numOfRandPass ->
  pool_in_range numOfRandPass groupNum ->
  exists s,
    null_pool groups groupNum maxPercentile numOfRandPass g0 = Some s /\
    randLoValueNum s = groupNum * scanPass_of numOfRandPass groupNum /\
    Z.of_nat (length (randLoValue s)) = groupNum * scanPass_of numOfRandPass groupNum /\
    gen s = after_draws
              (Z.to_nat (scanPass_of numOfRandPass groupNum
                         * items_before groups groupNum))
              (PlantSeeds 123456 g0) /\
    (forall p j, 0 <= p < scanPass_of numOfRandPass groupNum -> 0 <= j < groupNum ->
       ComputeLoValue
         (draw_list (Z.to_nat (itemNum (get no_group groups j)))
                    (after_draws
                       (Z.to_nat (p * items_before groups groupNum + items_before groups j))
                       (PlantSeeds 123456 g0)))
         (itemNum (get no_group groups j)) maxPercentile
         = Some (get 0%Q (randLoValue s) (p * groupNum + j))).
Proof.
  intros (Hn & Hpos & Hitems) Hpass Hfit. unfold null_pool.
  destruct (scanPass_of_fits numOfRandPass groupNum ltac:(lia) Hpos Hfit) as (_ & Hsp & ->).
  assert (Hmax : 0 < max_itemNum groups groupNum).
  { apply max_itemNum_pos; [assumption|]. exists 0. split; [lia|]. apply Hitems. lia. }
  destruct (Z.ltb_spec 0 (max_itemNum groups groupNum)) as [_|]; [|lia].
  destruct (Z.ltb_spec 0 (groupNum * scanPass_of numOfRandPass groupNum)) as [_|]; [|nia].
  cbn [negb].
  apply (simulate_draws groups groupNum maxPercentile (scanPass_of numOfRandPass groupNum)
           {| tmpPercentile := malloc_double (max_itemNum groups groupNum);
              randLoValue := malloc_double (groupNum * scanPass_of numOfRandPass groupNum);
              randLoValueNum := 0; gen := PlantSeeds 123456 g0 |}).
  - intros j Hj. cbn [tmpPercentile]. unfold malloc_double. rewrite repeat_length.
    pose proof (proj2 (max_itemNum_ge groups groupNum) j Hj).
    specialize (Hitems j Hj). lia.
  - lia.
  - lia.
  - reflexivity.
  - cbn [randLoValue]. unfold malloc_double. rewrite repeat_length. nia.
Qed.
End GeneratorFacts.

(** ** The exact evaluator returns probabilities *)

Lemma clamp01_bounds x : (0 <= clamp01 x <= 1)%Q.
Proof.
  unfold clamp01. split.
  - apply Q.le_max_l.
  - apply Q.max_lub; [discriminate|apply Q.le_min_l].
Qed.

Lemma at_least_bounds x : (0 <= x <= 1)%Q -> forall n k, (0 <= at_least n k x <= 1)%Q.
Proof.
  intros Hx. induction n as [|n IH]; intros [|k]; cbn [at_least];
    try (split; discriminate).
  destruct (IH k) as [A1 A2]. destruct (IH (S k)) as [B1 B2].
  destruct Hx as [X1 X2].
  assert (X3 : (0 <= 1 - x)%Q) by lra.
  pose proof (Qmult_le_0_compat _ _ X1 A1) as P1.
  pose proof (Qmult_le_0_compat _ _ X3 B1) as P2.
  assert (P3 : (x * at_least n k x <= x * 1)%Q).
  { rewrite !(Qmult_comm x). apply Qmult_le_compat_r; assumption. }
  assert (P4 : ((1 - x) * at_least n (S k) x <= (1 - x) * 1)%Q).
  { rewrite !(Qmult_comm (1 - x)). apply Qmult_le_compat_r; assumption. }
  split; lra.
Qed.

Lemma order_statistic_cdf_bounds a b lambda x e :
  (0 <= order_statistic_cdf a b lambda x e <= 1)%Q.
Proof. unfold order_statistic_cdf. apply at_least_bounds, clamp01_bounds. Qed.

(** ** Properties of [ComputeLoValue] *)

(** C1: for [num > 0] percentiles, [ComputeLoValue] sorts a copy of them
    ascending, scans it from index 0 and stops at the first index [i > 0]
    whose element exceeds [maxPercentile] (index 0 is always scanned),
    and stores the minimum over the scanned indices [i] of the central
    Beta distribution function with shapes [(i+1, num-i)] at the [i]-th
    sorted percentile.  The evaluator returns probabilities, so the
    initial 1.0 never undercuts them. *)
Theorem ComputeLoValue_min_order_cdf `{BetaCdf}
        (percentiles : list double) (num : Z) (maxPercentile : double) :
  0 < num -> num <= Z.of_nat (length percentiles) ->
  (forall a b x, (BetaNoncentralCdf a b 0 x CDF_MAX_ERROR <= 1)%Q) ->
  exists (tmpArray : list double) (stop : Z) (v : double),
    Permutation (firstn (Z.to_nat num) percentiles) tmpArray /\
    StronglySorted Qle tmpArray /\
    1 <= stop <= num /\
    (forall i, 0 < i < stop -> (get 0 tmpArray i <= maxPercentile)%Q) /\
    (stop < num -> (maxPercentile < get 0 tmpArray stop)%Q) /\
    ComputeLoValue percentiles num maxPercentile = Some v /\
    (forall i, 0 <= i < stop ->
       (v <= BetaNoncentralCdf (inject_Z (i + 1)) (inject_Z (num - i)) 0
                               (get 0 tmpArray i) CDF_MAX_ERROR)%Q) /\
    (exists i, 0 <= i < stop /\
       (v == BetaNoncentralCdf (inject_Z (i + 1)) (inject_Z (num - i)) 0
                               (get 0 tmpArray i) CDF_MAX_ERROR)%Q).
Proof.
  intros Hn Hlen Hprob.
  destruct (sorted_copy_facts percentiles num ltac:(lia)) as (HP & HS & HL).
  set (a := sorted_copy percentiles num) in *.
  set (stop := scan_stop (Z.to_nat num) a maxPercentile 0).
  exists a, stop, (lo_scan (Z.to_nat num) a num maxPercentile 0 1%Q).
  pose proof (scan_stop_bounds a maxPercentile (Z.to_nat num) 0) as Hb.
  assert (H1 : 1 <= stop).
  { subst stop. destruct (Z.to_nat num) as [|n] eqn:E; [lia|].
    pose proof (scan_stop_first a maxPercentile n). lia. }
  fold stop in Hb.
  split; [exact HP|].
  split; [apply (ascending_by_StronglySorted 0%Q (fun v => v)); exact HS|].
  split; [lia|].
  split; [intros i Hi; apply (scan_stop_scanned a maxPercentile (Z.to_nat num) 0); fold stop; lia|].
  split; [intros Hlt; apply (scan_stop_break a maxPercentile (Z.to_nat num) 0); fold stop; lia|].
  split; [apply ComputeLoValue_eq; exact Hn|].
  split.
  - intros i Hi. apply (lo_scan_lower a num maxPercentile). fold stop. exact Hi.
  - destruct (lo_scan_attained a num maxPercentile (Z.to_nat num) 0 1%Q)
      as [E|(k & Hk & E)].
    + exists 0. split; [lia|]. rewrite E. apply Qle_antisym.
      * rewrite <- E at 1. apply (lo_scan_lower a num maxPercentile). fold stop. lia.
      * apply Hprob.
    + exists k. split; [exact Hk|]. rewrite E. reflexivity.
Qed.

(** Scenario B: percentiles [0.1, 0.2, 0.9] with cutoff 0.25. *)
Lemma ComputeLoValue_min_order_cdf_witness :
  exists (tmpArray : list double) (stop : Z) (v : double),
    Permutation (firstn (Z.to_nat 3) [1 # 10; 2 # 10; 9 # 10]%Q) tmpArray /\
    StronglySorted Qle tmpArray /\
    1 <= stop <= 3 /\
    (forall i, 0 < i < stop -> (get 0 tmpArray i <= 1 # 4)%Q) /\
    (stop < 3 -> (1 # 4 < get 0 tmpArray stop)%Q) /\
    @ComputeLoValue ExactBeta [1 # 10; 2 # 10; 9 # 10]%Q 3 (1 # 4)%Q = Some v /\
    (forall i, 0 <= i < stop ->
       (v <= order_statistic_cdf (inject_Z (i + 1)) (inject_Z (3 - i)) 0
                                 (get 0 tmpArray i) CDF_MAX_ERROR)%Q) /\
    (exists i, 0 <= i < stop /\
       (v == order_statistic_cdf (inject_Z (i + 1)) (inject_Z (3 - i)) 0
                                 (get 0 tmpArray i) CDF_MAX_ERROR)%Q).
Proof.
  apply (@ComputeLoValue_min_order_cdf ExactBeta [1 # 10; 2 # 10; 9 # 10]%Q 3 (1 # 4)%Q).
  - lia.
  - simpl. lia.
  - intros a b x. apply order_statistic_cdf_bounds.
Defined.

(** Scenario B evaluated with the exact distribution functions: indices 0
    and 1 are scanned, with values 0.271 and 0.104. *)
Example scenario_B :
  scan_stop 3 [1 # 10; 2 # 10; 9 # 10]%Q (1 # 4)%Q 0 = 2 /\
  (@order_cdf ExactBeta [1 # 10; 2 # 10; 9 # 10]%Q 3 0 == 271 # 1000)%Q /\
  (@order_cdf ExactBeta [1 # 10; 2 # 10; 9 # 10]%Q 3 1 == 104 # 1000)%Q /\
  @ComputeLoValue ExactBeta [1 # 10; 2 # 10; 9 # 10]%Q 3 (1 # 4)%Q
    = Some (104000000000 # 1000000000000)%Q /\
  (104000000000 # 1000000000000 == 104 # 1000)%Q.
Proof. repeat split; vm_compute; reflexivity. Qed.

(** C7: for a fixed array of [num > 0] percentiles the lo-value is
    antitone in [maxPercentile]: a larger cutoff gives a lo-value that is
    at most the one of a smaller cutoff. *)
Theorem ComputeLoValue_antitone `{BetaCdf}
        (percentiles : list double) (num : Z) (maxPercentile1 maxPercentile2 : double) :
  0 < num -> (maxPercentile1 <= maxPercentile2)%Q ->
  exists v1 v2,
    ComputeLoValue percentiles num maxPercentile1 = Some v1 /\
    ComputeLoValue percentiles num maxPercentile2 = Some v2 /\
    (v2 <= v1)%Q.
Proof.
  intros Hn Hm.
  exists (lo_scan (Z.to_nat num) (sorted_copy percentiles num) num maxPercentile1 0 1%Q),
         (lo_scan (Z.to_nat num) (sorted_copy percentiles num) num maxPercentile2 0 1%Q).
  split; [apply ComputeLoValue_eq; exact Hn|].
  split; [apply ComputeLoValue_eq; exact Hn|].
  apply lo_scan_antitone; [exact Hm|apply Qle_refl].
Qed.

Lemma ComputeLoValue_antitone_witness :
  exists v1 v2,
    @ComputeLoValue ExactBeta [1 # 10; 2 # 10; 9 # 10]%Q 3 (3 # 20)%Q = Some v1 /\
    @ComputeLoValue ExactBeta [1 # 10; 2 # 10; 9 # 10]%Q 3 (1 # 4)%Q = Some v2 /\
    (v2 <= v1)%Q.
Proof.
  apply (@ComputeLoValue_antitone ExactBeta [1 # 10; 2 # 10; 9 # 10]%Q 3 (3 # 20)%Q (1 # 4)%Q).
  - lia.
  - vm_compute. discriminate.
Defined.

(** C9: on percentiles of [0, 1] the lo-value lies in [0, 1], whatever the
    cutoff, as long as the evaluator returns a probability at positive
    shapes and arguments of [0, 1]. *)
Theorem ComputeLoValue_unit_interval `{BetaCdf}
        (percentiles : list double) (num : Z) (maxPercentile : double) :
  0 < num -> num = Z.of_nat (length percentiles) ->
  Forall (fun p => (0 <= p <= 1)%Q) percentiles ->
  (forall a b x, (0 < a)%Q -> (0 < b)%Q -> (0 <= x <= 1)%Q ->
                 (0 <= BetaNoncentralCdf a b 0 x CDF_MAX_ERROR <= 1)%Q) ->
  exists v, ComputeLoValue percentiles num maxPercentile = Some v /\ (0 <= v <= 1)%Q.
Proof.
  intros Hn Hlen Hp Hprob.
  destruct (sorted_copy_facts percentiles num ltac:(lia)) as (HP & HS & HL).
  set (a := sorted_copy percentiles num) in *.
  exists (lo_scan (Z.to_nat num) a num maxPercentile 0 1%Q).
  split; [apply ComputeLoValue_eq; exact Hn|].
  split; [|apply lo_scan_le_init].
  destruct (lo_scan_attained a num maxPercentile (Z.to_nat num) 0 1%Q)
    as [E|(k & Hk & E)]; rewrite E; [discriminate|].
  pose proof (scan_stop_bounds a maxPercentile (Z.to_nat num) 0) as Hb.
  apply Hprob.
  - change (inject_Z 0 < inject_Z (k + 1))%Q. rewrite <- Zlt_Qlt. lia.
  - change (inject_Z 0 < inject_Z (num - k))%Q. rewrite <- Zlt_Qlt. lia.
  - assert (Hin : In (get 0%Q a k) percentiles).
    { assert (Hs : In (get 0%Q a k) (firstn (Z.to_nat num) percentiles)).
      { eapply Permutation_in; [apply Permutation_sym; exact HP|].
        apply get_In. lia. }
      rewrite <- (firstn_skipn (Z.to_nat num) percentiles).
      apply in_or_app. now left. }
    rewrite Forall_forall in Hp. apply Hp. exact Hin.
Qed.

Lemma ComputeLoValue_unit_interval_witness :
  exists v, @ComputeLoValue ExactBeta [9 # 10; 1 # 10; 2 # 10]%Q 3 (1 # 4)%Q = Some v
            /\ (0 <= v <= 1)%Q.
Proof.
  apply (@ComputeLoValue_unit_interval ExactBeta [9 # 10; 1 # 10; 2 # 10]%Q 3 (1 # 4)%Q).
  - lia.
  - reflexivity.
  - repeat constructor; discriminate.
  - intros a b x _ _ _. apply order_statistic_cdf_bounds.
Defined.

(** ** [ComputeLoValue] and the caller's memory *)

(** The store-level function computes the value of the value-level one. *)
Lemma Mem_ComputeLoValue_value `{BetaCdf}
      (s : Mem.store) (percentiles : Mem.block) (a : list double)
      (num : Z) (maxPercentile : double) :
  Mem.well_formed s -> Mem.cell s percentiles = Some a ->
  num <= Z.of_nat (length a) ->
  option_map fst (Mem.ComputeLoValue percentiles num maxPercentile s) =
    ComputeLoValue a num maxPercentile.
Proof.
  intros Hwf Hp Hlen. unfold Mem.ComputeLoValue, ComputeLoValue.
  destruct (Z.ltb_spec 0 num) as [Hn|Hn]; [|reflexivity].
  cbn [Mem.malloc option_map fst]. do 2 f_equal.
  assert (Hne : Nat.eqb percentiles (Mem.next s) = false).
  { apply Nat.eqb_neq. intros ->. rewrite (Hwf (Mem.next s)) in Hp by lia. discriminate. }
  unfold Mem.memcpy, Mem.write, Mem.load. cbn [Mem.cell Mem.next].
  rewrite !Nat.eqb_refl, Hne, Hp. f_equal.
  unfold malloc_double. rewrite skipn_all2 by (rewrite repeat_length; lia).
  apply app_nil_r.
Qed.

(** C10: [ComputeLoValue] sorts a private copy: after the call on an
    array of [num > 0] percentiles every cell of the caller's array, and
    of every other array of the store, holds the value it held before,
    and the value stored in [*loValue] is the lo-value of the array. *)
Theorem ComputeLoValue_frame `{BetaCdf}
        (s : Mem.store) (percentiles : Mem.block) (a : list double)
        (num : Z) (maxPercentile : double) :
  0 < num -> num = Z.of_nat (length a) ->
  Mem.well_formed s -> Mem.cell s percentiles = Some a ->
  exists v s',
    Mem.ComputeLoValue percentiles num maxPercentile s = Some (v, s') /\
    ComputeLoValue a num maxPercentile = Some v /\
    Mem.cell s' percentiles = Some a /\
    (forall i, get 0%Q (Mem.load s' percentiles) i = get 0%Q a i) /\
    (forall b, Mem.cell s' b = Mem.cell s b).
Proof.
  intros Hn Hlen Hwf Hp.
  pose proof (Mem_ComputeLoValue_value s percentiles a num maxPercentile Hwf Hp
                ltac:(lia)) as Hval.
  revert Hval. unfold Mem.ComputeLoValue.
  destruct (Z.ltb_spec 0 num) as [_|]; [|lia].
  cbn [Mem.malloc option_map fst]. intros Hval.
  eexists. eexists. split; [reflexivity|].
  split; [symmetry; exact Hval|].
  assert (Hall : forall b,
    Mem.cell
      (Mem.free (Mem.next s)
         (Mem.write
            (Mem.memcpy (Mem.next s) percentiles num
               {| Mem.next := S (Mem.next s);
                  Mem.cell := fun b' => if Nat.eqb b' (Mem.next s)
                                        then Some (malloc_double num)
                                        else Mem.cell s b' |})
            (Mem.next s)
            (QuicksortF
               (Mem.load
                  (Mem.memcpy (Mem.next s) percentiles num
                     {| Mem.next := S (Mem.next s);
                        Mem.cell := fun b' => if Nat.eqb b' (Mem.next s)
                                              then Some (malloc_double num)
                                              else Mem.cell s b' |})
                  (Mem.next s)) 0 (num - 1)))) b = Mem.cell s b).
  { intros b. unfold Mem.free. cbn [Mem.cell].
    destruct (Nat.eqb_spec b (Mem.next s)) as [->|Hb]; [symmetry; apply Hwf; lia|].
    apply Nat.eqb_neq in Hb.
    unfold Mem.write at 1. cbn [Mem.cell]. rewrite Hb.
    unfold Mem.memcpy, Mem.write. cbn [Mem.cell]. rewrite !Hb. reflexivity. }
  split; [rewrite Hall; exact Hp|].
  split; [|exact Hall].
  intros i. unfold Mem.load at 1. rewrite Hall, Hp. reflexivity.
Qed.

Definition example_store : Mem.store :=
  {| Mem.next := 1%nat;
     Mem.cell := fun b => if Nat.eqb b 0 then Some [9 # 10; 1 # 10; 2 # 10]%Q else None |}.

Lemma ComputeLoValue_frame_witness :
  exists v s',
    @Mem.ComputeLoValue ExactBeta 0%nat 3 (1 # 4)%Q example_store = Some (v, s') /\
    @ComputeLoValue ExactBeta [9 # 10; 1 # 10; 2 # 10]%Q 3 (1 # 4)%Q = Some v /\
    Mem.cell s' 0%nat = Some [9 # 10; 1 # 10; 2 # 10]%Q /\
    (forall i, get 0%Q (Mem.load s' 0%nat) i = get 0%Q [9 # 10; 1 # 10; 2 # 10]%Q i) /\
    (forall b, Mem.cell s' b = Mem.cell example_store b).
Proof.
  apply (@ComputeLoValue_frame ExactBeta example_store 0%nat
           [9 # 10; 1 # 10; 2 # 10]%Q 3 (1 # 4)%Q).
  - lia.
  - reflexivity.
  - intros b Hb. simpl in *. destruct b; [lia|reflexivity].
  - reflexivity.
Defined.

(** ** Properties of the percentiles *)

Lemma count_below_all t l :
  Forall (fun w => (w < t)%Q) l -> count_below t l = Z.of_nat (length l).
Proof.
  induction 1 as [|w l Hw Hl IH]; [reflexivity|].
  rewrite count_below_cons, IH.
  apply Qlt_bool_iff in Hw. rewrite Hw. simpl length. lia.
Qed.

Lemma count_below_missing t x l :
  In x l -> (t <= x)%Q -> count_below t l < Z.of_nat (length l).
Proof.
  intros Hin Hx. induction l as [|w l IH]; [contradiction|].
  rewrite count_below_cons. simpl length.
  pose proof (count_below_bounds t l).
  destruct Hin as [->|Hin].
  - apply Qlt_bool_false in Hx. rewrite Hx. lia.
  - specialize (IH Hin). destruct (Qlt_bool w t); lia.
Qed.

(** The mid-rank quotient in terms of its integer numerator. *)
Lemma mid_rank_bounds (below above n : Z) :
  0 <= below -> 0 <= above -> 0 < n -> below + above + 1 <= 2 * n ->
  (0 < (inject_Z below + inject_Z above + 1) / (2 * inject_Z n) <= 1)%Q.
Proof.
  intros Hb Ha Hn Hle.
  assert (Hd : (0 < 2 * inject_Z n)%Q).
  { apply Qmult_lt_0_compat; [reflexivity|].
    change (inject_Z 0 < inject_Z n)%Q. rewrite <- Zlt_Qlt. exact Hn. }
  assert (Hnum : (inject_Z below + inject_Z above + 1 == inject_Z (below + above + 1))%Q).
  { rewrite !inject_Z_plus. reflexivity. }
  assert (Hden : (2 * inject_Z n == inject_Z (2 * n))%Q).
  { rewrite inject_Z_mult. reflexivity. }
  split.
  - apply Qlt_shift_div_l; [exact Hd|]. rewrite Qmult_0_l, Hnum.
    change (inject_Z 0 < inject_Z (below + above + 1))%Q. rewrite <- Zlt_Qlt. lia.
  - apply Qle_shift_div_r; [exact Hd|]. rewrite Qmult_1_l, Hnum, Hden.
    rewrite <- Zle_Qle. exact Hle.
Qed.

Lemma mid_rank_one (below above n : Z) :
  0 < n -> below + above + 1 = 2 * n ->
  ((inject_Z below + inject_Z above + 1) / (2 * inject_Z n) == 1)%Q.
Proof.
  intros Hn Heq.
  assert (Hnum : (inject_Z below + inject_Z above + 1 == 2 * inject_Z n)%Q).
  { transitivity (inject_Z (below + above + 1)).
    - rewrite !inject_Z_plus. reflexivity.
    - rewrite Heq, inject_Z_mult. reflexivity. }
  rewrite Hnum. apply Qmult_inv_r.
  intros E.
  assert (Hd : (0 < 2 * inject_Z n)%Q).
  { apply Qmult_lt_0_compat; [reflexivity|].
    change (inject_Z 0 < inject_Z n)%Q. rewrite <- Zlt_Qlt. exact Hn. }
  rewrite E in Hd. discriminate.
Qed.

(** The literal is a positive double, and [2^-31] is less than it. *)
Lemma EPSILON_double_pos : (0 < EPSILON_double)%Q.
Proof. vm_compute. reflexivity. Qed.

Lemma EPSILON_double_bounds :
  (pow2 (-31) < EPSILON_double)%Q /\ (EPSILON_double + pow2 (-31) < 2 # 1000000000)%Q /\
  (EPSILON_double < 1)%Q /\ (pow2 23 == 8388608)%Q.
Proof. repeat split; vm_compute; reflexivity. Qed.

(** Up to [2^23 - 1] in magnitude the rounded bracket is a proper one:
    it holds the value and reaches less than 2e-9 below it. *)
Lemma bracket_small (v : double) :
  (Qabs v <= 8388607)%Q ->
  (v - (2 # 1000000000) < double_sub v EPSILON_double)%Q /\
  (double_sub v EPSILON_double < v)%Q /\
  (v < double_add v EPSILON_double)%Q.
Proof.
  intros Hv. apply Qabs_Qle_condition in Hv. destruct Hv as [Hv1 Hv2].
  pose proof EPSILON_double_pos as Hpos.
  destruct EPSILON_double_bounds as (Hlo & Hhi & Hone & H23).
  unfold double_sub, double_add.
  assert (Hsub : (Qabs (v - EPSILON_double) < pow2 23)%Q).
  { apply Qabs_Qlt_condition. rewrite H23. split; lra. }
  assert (Hadd : (Qabs (v + EPSILON_double) < pow2 23)%Q).
  { apply Qabs_Qlt_condition. rewrite H23. split; lra. }
  pose proof (round64_near_small _ Hsub) as [S1 S2].
  pose proof (round64_near_small _ Hadd) as [A1 A2].
  repeat split; lra.
Qed.

(** After [ProcessGroups] every list is sorted and every item carries the
    mid-rank quotient of its list. *)
Lemma ProcessGroups_mid_rank `{BetaCdf}
      (groups : list GROUP_STRUCT) (groupNum : Z)
      (lists : list LIST_STRUCT) (listNum : Z) (maxPercentile : double) :
  groups_ok groups groupNum listNum -> lists_ok lists listNum ->
  exists groups' lists',
    ProcessGroups groups groupNum lists listNum maxPercentile = Some (groups', lists') /\
    (forall k, 0 <= k < listNum ->
       Permutation (values (get no_list lists k)) (values (get no_list lists' k)) /\
       StronglySorted Qle (values (get no_list lists' k))) /\
    (forall i j, 0 <= i < groupNum -> 0 <= j < itemNum (get no_group groups i) ->
       let it := get no_item (items (get no_group groups i)) j in
       let l := get no_list lists (listIndex it) in
       let below := count_below (double_sub (value it) EPSILON_double) (values l) in
       let above := count_below (double_add (value it) EPSILON_double) (values l) in
       (percentile (get no_item (items (get no_group groups' i)) j) ==
          (inject_Z below + inject_Z above + 1) / (2 * inject_Z (list_itemNum l)))%Q).
Proof.
  intros Hg Hl.
  destruct (ProcessGroups_spec groups groupNum lists listNum maxPercentile Hg Hl)
    as (groups' & E & HL & Hset).
  exists groups', (sort_lists lists listNum). split; [exact E|].
  destruct Hg as (Hn & Hpos & Hg). destruct Hl as (Hln & Hl).
  split.
  - intros k Hk. destruct (sort_lists_spec lists listNum Hln) as [_ Hs].
    rewrite (Hs k Hk). cbn [values set_values]. rewrite (proj2 (Hl k Hk)).
    destruct (QuicksortF_whole (values (get no_list lists k))) as (HP & HS & _).
    split; [exact HP|].
    apply (ascending_by_StronglySorted 0%Q (fun v => v)). exact HS.
  - intros i j Hi Hj it l below above.
    destruct (Hg i Hi) as (Hp & Hnum & Hidx).
    destruct (Hset i Hi) as (_ & _ & Hitems).
    rewrite (Hitems j) by lia. cbn [percentile set_percentile]. fold it.
    apply (item_percentile_formula lists listNum it Hln (Hidx j Hj)).
    apply Hl. apply Hidx. exact Hj.
Qed.


(** A group of one item of value [v], in the list of index 0. *)
Definition single_item_group (v : double) : GROUP_STRUCT :=
  {| group_name := String.EmptyString;
     items := [{| item_name := String.EmptyString; listIndex := 0;
                  value := v; percentile := 0%Q |}];
     itemNum := 1; loValue := 0%Q; fdr := 0%Q |}.

Lemma single_item_group_ok v : groups_ok [single_item_group v] 1 1.
Proof.
  split; [reflexivity|]. split; [lia|].
  intros i Hi. assert (i = 0) by lia. subst i.
  split; [reflexivity|]. split; [reflexivity|].
  intros j Hj. assert (j = 0) by (cbn in Hj; lia). subst j. cbn. lia.
Qed.

Lemma single_list_ok (l : LIST_STRUCT) :
  0 < list_itemNum l -> list_itemNum l = Z.of_nat (length (values l)) ->
  lists_ok [l] 1.
Proof.
  intros Hpos HN. split; [reflexivity|].
  intros k Hk. assert (k = 0) by lia. subst k. split; [exact Hpos|exact HN].
Qed.

(** Scenario A: the item of value 30 in the list of values 10, 20, 30, 40
    and 50. *)
Definition scenario_list : LIST_STRUCT :=
  {| list_name := String.EmptyString; values := [50; 10; 40; 20; 30]%Q; list_itemNum := 5 |}.

Definition scenario_group : GROUP_STRUCT := single_item_group 30.


Lemma scenario_lists_ok : lists_ok [scenario_list] 1.
Proof. apply single_list_ok; reflexivity. Qed.




(** C6, as amended: an item whose value, a double, occurs in its list
    gets a percentile in (0, 1].  The percentile is exactly 1 when every
    other value of the list is strictly below the double [value - 1e-9]
    and the value is strictly below the double [value + 1e-9]; for a
    value of magnitude at most [2^23 - 1] that is the case whenever it
    exceeds every other value by at least 2e-9. *)
Theorem ProcessGroups_percentile_bounds `{BetaCdf}
        (groups : list GROUP_STRUCT) (groupNum : Z)
        (lists : list LIST_STRUCT) (listNum : Z) (maxPercentile : double) :
  groups_ok groups groupNum listNum -> lists_ok lists listNum ->
  exists groups' lists',
    ProcessGroups groups groupNum lists listNum maxPercentile = Some (groups', lists') /\
    (forall i j, 0 <= i < groupNum -> 0 <= j < itemNum (get no_group groups i) ->
       let it := get no_item (items (get no_group groups i)) j in
       let l := get no_list lists (listIndex it) in
       let p := percentile (get no_item (items (get no_group groups' i)) j) in
       is_double (value it) -> In (value it) (values l) ->
       (0 < p <= 1)%Q /\
       (forall others,
          Permutation (values l) (value it :: others) ->
          Forall (fun w => (w < double_sub (value it) EPSILON_double)%Q) others ->
          (value it < double_add (value it) EPSILON_double)%Q ->
          (p == 1)%Q) /\
       (forall others,
          Permutation (values l) (value it :: others) ->
          (Qabs (value it) <= 8388607)%Q ->
          Forall (fun w => (w <= value it - (2 # 1000000000))%Q) others ->
          (p == 1)%Q)).
Proof.
  intros Hg Hl.
  destruct (ProcessGroups_mid_rank groups groupNum lists listNum maxPercentile Hg Hl)
    as (groups' & lists' & E & _ & Hp).
  exists groups', lists'. split; [exact E|].
  intros i j Hi Hj it l p Hdouble Hin.
  specialize (Hp i j Hi Hj). cbn zeta in Hp. fold it l p in Hp.
  destruct Hg as (Hn & Hpos & Hg). destruct Hl as (Hln & Hl).
  destruct (Hg i Hi) as (_ & _ & Hidx).
  pose proof (proj2 (Hl _ (Hidx j Hj))) as HN. fold it l in HN.
  pose proof EPSILON_double_pos as Heps.
  pose proof (double_sub_le (value it) EPSILON_double Hdouble ltac:(lra)) as Hlow.
  pose proof (count_below_bounds (double_sub (value it) EPSILON_double) (values l)) as Hb.
  pose proof (count_below_bounds (double_add (value it) EPSILON_double) (values l)) as Ha.
  assert (Hlt : count_below (double_sub (value it) EPSILON_double) (values l)
                < Z.of_nat (length (values l))).
  { apply (count_below_missing _ (value it)); [exact Hin|exact Hlow]. }
  assert (Hone : forall others,
            Permutation (values l) (value it :: others) ->
            Forall (fun w => (w < double_sub (value it) EPSILON_double)%Q) others ->
            (value it < double_add (value it) EPSILON_double)%Q ->
            (p == 1)%Q).
  { intros others HP Hoth Hup. rewrite Hp. apply mid_rank_one; [lia|].
    rewrite !(count_below_Permutation _ _ _ HP), !count_below_cons.
    assert (E1 : Qlt_bool (value it) (double_sub (value it) EPSILON_double) = false).
    { apply Qlt_bool_false. exact Hlow. }
    assert (E2 : Qlt_bool (value it) (double_add (value it) EPSILON_double) = true).
    { apply Qlt_bool_iff. exact Hup. }
    rewrite E1, E2, HN.
    rewrite (Permutation_length HP). simpl length.
    rewrite !count_below_all; [lia| |exact Hoth].
    eapply Forall_impl; [|exact Hoth]. cbn beta. intros w Hw. lra. }
  split; [|split].
  - rewrite Hp. apply mid_rank_bounds; lia.
  - exact Hone.
  - intros others HP Hsmall Hoth.
    destruct (bracket_small (value it) Hsmall) as (B1 & _ & B3).
    apply (Hone others HP); [|exact B3].
    eapply Forall_impl; [|exact Hoth]. cbn beta. intros w Hw. lra.
Qed.

(** The item of the largest value of Scenario A. *)
Lemma ProcessGroups_percentile_bounds_witness :
  exists groups' lists',
    @ProcessGroups ExactBeta [single_item_group 50] 1 [scenario_list] 1 (1 # 4)%Q
      = Some (groups', lists') /\
    let p := percentile (get no_item (items (get no_group groups' 0)) 0) in
    (0 < p <= 1)%Q /\ (p == 1)%Q.
Proof.
  destruct (@ProcessGroups_percentile_bounds ExactBeta [single_item_group 50] 1
              [scenario_list] 1 (1 # 4)%Q (single_item_group_ok 50) scenario_lists_ok)
    as (groups' & lists' & E & Hp).
  exists groups', lists'. split; [exact E|].
  destruct (Hp 0 0 ltac:(lia) ltac:(cbn; lia)) as (Hbounds & _ & Hone).
  - vm_compute. reflexivity.
  - cbn. tauto.
  - split; [exact Hbounds|].
    apply (Hone [10; 40; 20; 30]%Q).
    + apply Permutation_refl.
    + apply Qabs_Qle_condition. cbn. split; discriminate.
    + repeat constructor; cbn; discriminate.
Defined.

(** C6 as stated fails, in two ways.  A strictly largest value with a
    neighbour within 1e-9 is bracketed together with it: of the doubles 1
    and [1 + 2^-31] the second is strictly the largest and untied, and
    its percentile is 3/4.  And a value that absorbs the literal is not
    below its own upper bound: of the values 1 and 2e7 the second exceeds
    the first by far more than 1e-9, but [2e7 + 1e-9] is 2e7 in binary64,
    and its percentile is 3/4 as well. *)
Definition near_tie_value : double := (1 + (1 # 2147483648))%Q.

Definition near_tie_list : LIST_STRUCT :=
  {| list_name := String.EmptyString; values := [1%Q; near_tie_value]; list_itemNum := 2 |}.

Definition wide_list : LIST_STRUCT :=
  {| list_name := String.EmptyString; values := [1; 20000000]%Q; list_itemNum := 2 |}.

Lemma largest_value_percentile_counterexample :
  (is_double near_tie_value /\ is_double 1 /\
   Permutation (values near_tie_list) (near_tie_value :: [1%Q]) /\
   Forall (fun w => (w < near_tie_value)%Q) [1%Q] /\
   option_map
     (fun r => percentile (get no_item (items (get no_group (fst r) 0)) 0))
     (@ProcessGroups ExactBeta [single_item_group near_tie_value] 1 [near_tie_list] 1
                     (1 # 4)%Q)
     = Some (3 # 4)%Q) /\
  (is_double 20000000 /\
   Permutation (values wide_list) (20000000%Q :: [1%Q]) /\
   Forall (fun w => (w < 20000000 - EPSILON)%Q) [1%Q] /\
   option_map
     (fun r => percentile (get no_item (items (get no_group (fst r) 0)) 0))
     (@ProcessGroups ExactBeta [single_item_group 20000000] 1 [wide_list] 1 (1 # 4)%Q)
     = Some (3 # 4)%Q) /\
  ~ (3 # 4 == 1)%Q.
Proof.
  split; [|split].
  - split; [vm_compute; reflexivity|]. split; [vm_compute; reflexivity|].
    split; [apply perm_swap|]. split; [repeat constructor|].
    vm_compute. reflexivity.
  - split; [vm_compute; reflexivity|].
    split; [apply perm_swap|]. split; [repeat constructor|].
    vm_compute. reflexivity.
  - discriminate.
Qed.

(** ** Properties of [ComputeFDR] *)

(** The stages of a run that completes. *)
Lemma ComputeFDR_stages `{BetaCdf} `{RandomGen}
      (groups : list GROUP_STRUCT) (groupNum : Z)
      (maxPercentile : double) (numOfRandPass : Z) (g0 : rng) :
  fdr_input_ok groups groupNum -> 0 <= numOfRandPass ->
  pool_in_range numOfRandPass groupNum ->
  exists s,
    null_pool groups groupNum maxPercentile numOfRandPass g0 = Some s /\
    randLoValueNum s = groupNum * scanPass_of numOfRandPass groupNum /\
    Z.of_nat (length (randLoValue s)) = randLoValueNum s /\
    0 < randLoValueNum s /\
    ComputeFDR groups groupNum maxPercentile numOfRandPass g0 =
      Some (sweep groupNum
              (clamp_last groupNum
                 (assign_fdr (QuicksortF (randLoValue s) 0 (randLoValueNum s - 1))
                             (randLoValueNum s) groupNum
                             (QuickSortGroupByLoValue groups 0 (groupNum - 1)))),
            gen s).
Proof.
  intros Hok Hpass Hfit.
  destruct (null_pool_spec groups groupNum maxPercentile numOfRandPass g0 Hok Hpass Hfit)
    as (s & E & HN & HL & _).
  destruct Hok as (Hn & Hpos & Hitems).
  destruct (scanPass_of_fits numOfRandPass groupNum ltac:(lia) Hpos Hfit) as (_ & Hsp & _).
  exists s. split; [exact E|]. split; [exact HN|]. split; [congruence|].
  split; [nia|].
  unfold ComputeFDR.
  destruct (Z.eqb_spec groupNum 0); [lia|]. rewrite E. reflexivity.
Qed.

(** C3: on groups with at least one item each, with
    [numOfRandPass >= 0] and a pool that fits, ranks included, the call
    completes; the pool and the groups are sorted ascending, and the loop of
    lines 585-590 assigns to the [i]-th group
    [rankInPool / (2 * poolSize * (i + 0.5)) * groupNum], where
    [rankInPool] is the number of pooled values strictly below
    [loValue - 1e-9] plus the number strictly below [loValue + 1e-9] plus
    1, and [poolSize] the number of pooled values.  The clamp and the
    sweep then run on the array so assigned. *)
Theorem ComputeFDR_rank_estimate `{BetaCdf} `{RandomGen}
        (groups : list GROUP_STRUCT) (groupNum : Z)
        (maxPercentile : double) (numOfRandPass : Z) (g0 : rng) :
  fdr_input_ok groups groupNum -> 0 <= numOfRandPass ->
  pool_fits numOfRandPass groupNum ->
  exists (s : sim_state) (pool : list double) (sorted assigned : list GROUP_STRUCT),
    null_pool groups groupNum maxPercentile numOfRandPass g0 = Some s /\
    Permutation (randLoValue s) pool /\ StronglySorted Qle pool /\
    Permutation groups sorted /\
    StronglySorted (fun a b => (loValue a <= loValue b)%Q) sorted /\
    fdr_only sorted assigned /\
    (forall i, 0 <= i < groupNum ->
       let lo := loValue (get no_group sorted i) in
       let rankInPool :=
         count_below (lo - EPSILON) pool + count_below (lo + EPSILON) pool + 1 in
       let poolSize := Z.of_nat (length pool) in
       (fdr (get no_group assigned i) ==
          inject_Z rankInPool / (2 * inject_Z poolSize * (inject_Z i + (1 # 2)))
          * inject_Z groupNum)%Q) /\
    ComputeFDR groups groupNum maxPercentile numOfRandPass g0 =
      Some (sweep groupNum (clamp_last groupNum assigned), gen s).
Proof.
  intros Hok Hpass Hfit.
  apply pool_fits_in_range in Hfit; [|exact Hpass|apply Hok].
  destruct (ComputeFDR_stages groups groupNum maxPercentile numOfRandPass g0
              Hok Hpass Hfit)
    as (s & E & HN & HL & HNpos & Hrun).
  destruct Hok as (Hn & Hpos & Hitems).
  destruct (QuicksortF_whole (randLoValue s)) as (HPp & HSp & HLp).
  rewrite HL in HPp, HSp, HLp.
  set (pool := QuicksortF (randLoValue s) 0 (randLoValueNum s - 1)) in *.
  destruct (QuickSortBy_whole no_group loValue groups) as (HPg & HSg & HLg).
  rewrite <- Hn in HPg, HSg, HLg.
  fold (QuickSortGroupByLoValue groups 0 (groupNum - 1)) in HPg, HSg, HLg.
  set (sorted := QuickSortGroupByLoValue groups 0 (groupNum - 1)) in *.
  destruct (assign_fdr_spec pool (randLoValueNum s) groupNum sorted ltac:(lia))
    as (Hfo & Hraw).
  exists s, pool, sorted, (assign_fdr pool (randLoValueNum s) groupNum sorted).
  split; [exact E|]. split; [exact HPp|].
  split; [apply (ascending_by_StronglySorted 0%Q (fun v => v)); exact HSp|].
  split; [exact HPg|].
  split; [apply (ascending_by_StronglySorted no_group loValue); exact HSg|].
  split; [exact Hfo|].
  split; [|exact Hrun].
  intros i Hi lo rankInPool poolSize. rewrite (Hraw i Hi). fold lo.
  assert (EN : randLoValueNum s = Z.of_nat (length pool)).
  { rewrite HLp. symmetry. exact HL. }
  subst poolSize rankInPool. rewrite EN. apply raw_fdr_formula. exact HSp.
Qed.

(** A group of [n] items with the lo-value [lo]. *)
Definition example_group (n : Z) (lo : double) : GROUP_STRUCT :=
  {| group_name := String.EmptyString; items := repeat no_item (Z.to_nat n);
     itemNum := n; loValue := lo; fdr := 0%Q |}.

Definition example_groups : list GROUP_STRUCT :=
  [example_group 2 (1 # 2); example_group 1 (1 # 100); example_group 3 (3 # 10)].

Lemma example_groups_ok : fdr_input_ok example_groups 3.
Proof.
  split; [reflexivity|]. split; [lia|].
  intros i Hi.
  assert (Hc : i = 0 \/ i = 1 \/ i = 2) by lia.
  destruct Hc as [->|[->| ->]]; reflexivity.
Qed.

Lemma ComputeFDR_rank_estimate_witness :
  exists (s : @sim_state Lehmer) (pool : list double)
         (sorted assigned : list GROUP_STRUCT),
    @null_pool ExactBeta Lehmer example_groups 3 (1 # 4)%Q 3 0 = Some s /\
    Permutation (randLoValue s) pool /\ StronglySorted Qle pool /\
    Permutation example_groups sorted /\
    StronglySorted (fun a b => (loValue a <= loValue b)%Q) sorted /\
    fdr_only sorted assigned /\
    (forall i, 0 <= i < 3 ->
       let lo := loValue (get no_group sorted i) in
       let rankInPool :=
         count_below (lo - EPSILON) pool + count_below (lo + EPSILON) pool + 1 in
       let poolSize := Z.of_nat (length pool) in
       (fdr (get no_group assigned i) ==
          inject_Z rankInPool / (2 * inject_Z poolSize * (inject_Z i + (1 # 2)))
          * inject_Z 3)%Q) /\
    @ComputeFDR ExactBeta Lehmer example_groups 3 (1 # 4)%Q 3 0 =
      Some (sweep 3 (clamp_last 3 assigned), gen s).
Proof.
  apply (@ComputeFDR_rank_estimate ExactBeta Lehmer example_groups 3 (1 # 4)%Q 3 0).
  - exact example_groups_ok.
  - lia.
  - unfold pool_fits. vm_compute. discriminate.
Defined.

(** The ceiling of [a / b] for positive [b]. *)
Definition ceil_div (a b : Z) : Z := (a + b - 1) / b.

(** The number of passes against the ceiling of the quotient: equal
    when [groupNum] does not divide [numOfRandPass], one more when it
    does. *)
Lemma scanPass_of_ceil numOfRandPass groupNum :
  0 <= numOfRandPass -> 0 < groupNum -> pool_in_range numOfRandPass groupNum ->
  scanPass_of numOfRandPass groupNum =
    ceil_div numOfRandPass groupNum
    + (if numOfRandPass mod groupNum =? 0 then 1 else 0).
Proof.
  intros Ha Hb Hfit.
  destruct (scanPass_of_fits numOfRandPass groupNum ltac:(lia) Hb Hfit) as (-> & _).
  unfold ceil_div.
  rewrite Z.quot_div_nonneg by lia.
  pose proof (Z.div_mod numOfRandPass groupNum ltac:(lia)) as Hdm.
  pose proof (Z.mod_pos_bound numOfRandPass groupNum Hb) as Hmb.
  set (q := numOfRandPass / groupNum) in *.
  set (r := numOfRandPass mod groupNum) in *.
  destruct (Z.eqb_spec r 0) as [Hr|Hr].
  - assert (E : (numOfRandPass + groupNum - 1) / groupNum = q).
    { symmetry. apply (Z.div_unique _ _ q (groupNum - 1)); lia. }
    lia.
  - assert (E : (numOfRandPass + groupNum - 1) / groupNum = q + 1).
    { symmetry. apply (Z.div_unique _ _ (q + 1) (r - 1)); lia. }
    lia.
Qed.

(** C4: the program does not run the ceiling of
    [numOfRandPass / groupNum] passes when [groupNum] divides
    [numOfRandPass].  With one group and [numOfRandPass = 100], the
    arguments [main] passes for a single group, it runs 101 passes and
    pools 101 lo-values, while the ceiling of 100 / 1 is 100, the number
    of passes that the comment of [RAND_PASS_NUM] announces. *)
Theorem scanPass_ceiling_counterexample :
  option_map randLoValueNum
    (@null_pool ExactBeta Lehmer [example_group 1 (1 # 2)] 1 (1 # 4)%Q
                (RAND_PASS_NUM * 1) 0)
    = Some 101 /\
  scanPass_of (RAND_PASS_NUM * 1) 1 = 101 /\
  ceil_div (RAND_PASS_NUM * 1) 1 = 100 /\
  RAND_PASS_NUM = 100 /\
  scanPass_of (RAND_PASS_NUM * 1) 1 <> ceil_div (RAND_PASS_NUM * 1) 1.
Proof.
  split; [vm_compute; reflexivity|].
  split; [reflexivity|]. split; [reflexivity|]. split; [reflexivity|].
  vm_compute. discriminate.
Qed.

(** C5: when [ComputeFDR] returns, the groups are the input groups sorted
    ascending by [loValue], every [fdr] lies in [0, 1] and [fdr] is
    non-decreasing along the order.  With [assigned] the array that the
    loop of lines 585-590 leaves, the last [fdr] is the assigned value
    clamped to 1.0 and every other one is the smaller of its assigned
    value and its successor's final value. *)
Theorem ComputeFDR_monotone `{BetaCdf} `{RandomGen}
        (groups : list GROUP_STRUCT) (groupNum : Z)
        (maxPercentile : double) (numOfRandPass : Z) (g0 : rng) :
  fdr_input_ok groups groupNum -> 0 <= numOfRandPass ->
  pool_fits numOfRandPass groupNum ->
  exists (s : sim_state) (final : list GROUP_STRUCT),
    null_pool groups groupNum maxPercentile numOfRandPass g0 = Some s /\
    ComputeFDR groups groupNum maxPercentile numOfRandPass g0 = Some (final, gen s) /\
    let sorted := QuickSortGroupByLoValue groups 0 (groupNum - 1) in
    let pool := QuicksortF (randLoValue s) 0 (randLoValueNum s - 1) in
    let assigned := assign_fdr pool (randLoValueNum s) groupNum sorted in
    Permutation groups sorted /\ fdr_only sorted assigned /\ fdr_only sorted final /\
    StronglySorted (fun a b => (loValue a <= loValue b)%Q) final /\
    (forall i, 0 <= i < groupNum -> (0 <= fdr (get no_group final i) <= 1)%Q) /\
    (forall i, 0 <= i < groupNum - 1 ->
       (fdr (get no_group final i) <= fdr (get no_group final (i + 1)))%Q) /\
    (fdr (get no_group final (groupNum - 1))
       == Qmin 1 (fdr (get no_group assigned (groupNum - 1))))%Q /\
    (forall i, 0 <= i < groupNum - 1 ->
       (fdr (get no_group final i)
          == Qmin (fdr (get no_group assigned i)) (fdr (get no_group final (i + 1))))%Q).
Proof.
  intros Hok Hpass Hfit.
  apply pool_fits_in_range in Hfit; [|exact Hpass|apply Hok].
  destruct (ComputeFDR_stages groups groupNum maxPercentile numOfRandPass g0
              Hok Hpass Hfit)
    as (s & E & HN & HL & HNpos & Hrun).
  destruct Hok as (Hn & Hpos & Hitems).
  destruct (QuicksortF_whole (randLoValue s)) as (HPp & HSp & HLp).
  rewrite HL in HPp, HSp, HLp.
  set (pool := QuicksortF (randLoValue s) 0 (randLoValueNum s - 1)) in *.
  destruct (QuickSortBy_whole no_group loValue groups) as (HPg & HSg & HLg).
  rewrite <- Hn in HPg, HSg, HLg.
  fold (QuickSortGroupByLoValue groups 0 (groupNum - 1)) in HPg, HSg, HLg.
  set (sorted := QuickSortGroupByLoValue groups 0 (groupNum - 1)) in *.
  assert (Hns : groupNum = Z.of_nat (length sorted)) by (rewrite HLg; exact Hn).
  destruct (assign_fdr_spec pool (randLoValueNum s) groupNum sorted Hns) as (Hfo1 & Hraw).
  set (assigned := assign_fdr pool (randLoValueNum s) groupNum sorted) in *.
  assert (Hna : groupNum = Z.of_nat (length assigned)).
  { destruct Hfo1 as [L _]. rewrite L. exact Hns. }
  destruct (clamp_last_spec groupNum assigned Hna Hpos) as (Hfo2 & Hsame2 & Hlast2).
  set (clamped := clamp_last groupNum assigned) in *.
  assert (Hnc : groupNum = Z.of_nat (length clamped)).
  { destruct Hfo2 as [L _]. rewrite L. exact Hna. }
  destruct (sweep_spec groupNum clamped Hnc Hpos) as (Hfo3 & Hlast3 & Hstep3).
  set (final := sweep groupNum clamped) in *.
  assert (Hfo : fdr_only sorted final).
  { eapply fdr_only_trans; [exact Hfo1|]. eapply fdr_only_trans; eassumption. }
  assert (Elast : (fdr (get no_group final (groupNum - 1))
                     == Qmin 1 (fdr (get no_group assigned (groupNum - 1))))%Q).
  { rewrite Hlast3. exact Hlast2. }
  assert (Estep : forall i, 0 <= i < groupNum - 1 ->
            (fdr (get no_group final i)
               == Qmin (fdr (get no_group assigned i)) (fdr (get no_group final (i + 1))))%Q).
  { intros i Hi. rewrite (Hstep3 i Hi). rewrite (Hsame2 i Hi). reflexivity. }
  assert (Hnonneg : forall m, 0 <= m < groupNum -> (0 <= fdr (get no_group assigned m))%Q).
  { intros m Hm. rewrite (Hraw m Hm). apply Qlt_le_weak.
    assert (EN : randLoValueNum s = Z.of_nat (length pool)).
    { rewrite HLp. symmetry. exact HL. }
    rewrite EN. apply raw_fdr_pos; try assumption; lia. }
  destruct (min_chain_bounds groupNum
              (fun m => fdr (get no_group assigned m))
              (fun m => fdr (get no_group final m)) Hpos Elast Estep Hnonneg)
    as [Hbounds Hmono].
  assert (Hsorted : StronglySorted (fun a b => (loValue a <= loValue b)%Q) final).
  { apply (ascending_by_StronglySorted no_group loValue).
    destruct Hfo as [Lf Hsame]. unfold ascending_by. rewrite Lf.
    intros k1 k2 H1 H12 H2.
    destruct (Hsame k1 ltac:(lia)) as (_ & _ & _ & ->).
    destruct (Hsame k2 ltac:(lia)) as (_ & _ & _ & ->).
    apply HSg; lia. }
  exists s, final. split; [exact E|]. split; [exact Hrun|].
  exact (conj HPg (conj Hfo1 (conj Hfo (conj Hsorted
          (conj Hbounds (conj Hmono (conj Elast Estep))))))).
Qed.

(** Three groups, two of them with a lo-value above the whole pool.  In
    ascending order the loop of lines 585-590 assigns them 1/2, 13/6 and
    13/10: the clamp lowers the last estimate to 1, the sweep lowers the
    one before it to 1, and the first stays. *)
Definition clamped_groups : list GROUP_STRUCT :=
  [example_group 2 1; example_group 1 (1 # 100); example_group 3 1].

Lemma clamped_groups_ok : fdr_input_ok clamped_groups 3.
Proof.
  split; [reflexivity|]. split; [lia|].
  intros i Hi.
  assert (Hc : i = 0 \/ i = 1 \/ i = 2) by lia.
  destruct Hc as [->|[->| ->]]; reflexivity.
Qed.

Lemma ComputeFDR_monotone_witness :
  (exists (s : @sim_state Lehmer) (final : list GROUP_STRUCT),
    @null_pool ExactBeta Lehmer clamped_groups 3 (1 # 4)%Q 3 0 = Some s /\
    @ComputeFDR ExactBeta Lehmer clamped_groups 3 (1 # 4)%Q 3 0 = Some (final, gen s) /\
    let sorted := QuickSortGroupByLoValue clamped_groups 0 (3 - 1) in
    let pool := QuicksortF (randLoValue s) 0 (randLoValueNum s - 1) in
    let assigned := @assign_fdr pool (randLoValueNum s) 3 sorted in
    Permutation clamped_groups sorted /\ fdr_only sorted assigned /\
    fdr_only sorted final /\
    StronglySorted (fun a b => (loValue a <= loValue b)%Q) final /\
    (forall i, 0 <= i < 3 -> (0 <= fdr (get no_group final i) <= 1)%Q) /\
    (forall i, 0 <= i < 3 - 1 ->
       (fdr (get no_group final i) <= fdr (get no_group final (i + 1)))%Q) /\
    (fdr (get no_group final (3 - 1))
       == Qmin 1 (fdr (get no_group assigned (3 - 1))))%Q /\
    (forall i, 0 <= i < 3 - 1 ->
       (fdr (get no_group final i)
          == Qmin (fdr (get no_group assigned i)) (fdr (get no_group final (i + 1))))%Q)) /\
  option_map
    (fun s => map (fun g => Qred (fdr g))
                  (@assign_fdr (QuicksortF (randLoValue s) 0 (randLoValueNum s - 1))
                               (randLoValueNum s) 3
                               (QuickSortGroupByLoValue clamped_groups 0 (3 - 1))))
    (@null_pool ExactBeta Lehmer clamped_groups 3 (1 # 4)%Q 3 0)
    = Some [1 # 2; 13 # 6; 13 # 10]%Q /\
  option_map (fun r => map (fun g => Qred (fdr g)) (fst r))
             (@ComputeFDR ExactBeta Lehmer clamped_groups 3 (1 # 4)%Q 3 0)
    = Some [1 # 2; 1; 1]%Q.
Proof.
  split; [|split; vm_compute; reflexivity].
  apply (@ComputeFDR_monotone ExactBeta Lehmer clamped_groups 3 (1 # 4)%Q 3 0).
  - exact clamped_groups_ok.
  - lia.
  - unfold pool_fits. vm_compute. discriminate.
Defined.

(** C8: [ComputeFDR] seeds the generator once, with the constant 123456
    and before the first draw, so with a generator whose reseed is
    process-wide its result does not depend on the state in which it
    finds the generator: two runs on the same groups, cutoff and pass
    count return the same groups, with the same [fdr] values, and leave
    the same generator state.  The [fdr] values are those of the
    draws that follow the seed: the lo-value pooled for group [j] in pass
    [p] is computed from as many consecutive draws as the group has
    items, taken from the seeded generator after the draws of the earlier
    passes and groups, and the run leaves the generator after
    [scanPass] times the number of items draws, so nothing reseeds in
    between. *)
Theorem ComputeFDR_deterministic `{BetaCdf} `{RandomGen}
        (groups : list GROUP_STRUCT) (groupNum : Z)
        (maxPercentile : double) (numOfRandPass : Z) (g0 g0' : rng) :
  reseeds ->
  ComputeFDR groups groupNum maxPercentile numOfRandPass g0 =
    ComputeFDR groups groupNum maxPercentile numOfRandPass g0' /\
  option_map (fun r => map fdr (fst r))
             (ComputeFDR groups groupNum maxPercentile numOfRandPass g0) =
    option_map (fun r => map fdr (fst r))
               (ComputeFDR groups groupNum maxPercentile numOfRandPass g0') /\
  (fdr_input_ok groups groupNum -> 0 <= numOfRandPass ->
   pool_fits numOfRandPass groupNum ->
   let scanPass := scanPass_of numOfRandPass groupNum in
   let seeded := PlantSeeds 123456 g0 in
   exists (s : sim_state) (final : list GROUP_STRUCT),
     null_pool groups groupNum maxPercentile numOfRandPass g0 = Some s /\
     ComputeFDR groups groupNum maxPercentile numOfRandPass g0 = Some (final, gen s) /\
     (forall p j, 0 <= p < scanPass -> 0 <= j < groupNum ->
        let n := itemNum (get no_group groups j) in
        let before := p * items_before groups groupNum + items_before groups j in
        ComputeLoValue (draw_list (Z.to_nat n) (after_draws (Z.to_nat before) seeded))
                       n maxPercentile
          = Some (get 0%Q (randLoValue s) (p * groupNum + j))) /\
     final = sweep groupNum
               (clamp_last groupNum
                  (assign_fdr (QuicksortF (randLoValue s) 0 (randLoValueNum s - 1))
                              (randLoValueNum s) groupNum
                              (QuickSortGroupByLoValue groups 0 (groupNum - 1)))) /\
     gen s = after_draws (Z.to_nat (scanPass * items_before groups groupNum)) seeded).
Proof.
  intros Hreseed.
  assert (E : ComputeFDR groups groupNum maxPercentile numOfRandPass g0 =
              ComputeFDR groups groupNum maxPercentile numOfRandPass g0').
  { unfold ComputeFDR, null_pool.
    rewrite (Hreseed 123456 g0 g0'). reflexivity. }
  split; [exact E|]. split; [rewrite E; reflexivity|].
  intros Hok Hpass Hfit scanPass seeded.
  apply pool_fits_in_range in Hfit; [|exact Hpass|apply Hok].
  destruct (null_pool_draws groups groupNum maxPercentile numOfRandPass g0 Hok Hpass Hfit)
    as (s & Es & _ & _ & Hgen & Hdraws).
  destruct (ComputeFDR_stages groups groupNum maxPercentile numOfRandPass g0
              Hok Hpass Hfit)
    as (s' & Es' & _ & _ & _ & Hrun).
  assert (s' = s) by congruence. subst s'.
  exists s. eexists. split; [exact Es|]. split; [exact Hrun|].
  split; [|split; [reflexivity|exact Hgen]].
  intros p j Hp Hj n before. apply Hdraws; assumption.
Qed.

Lemma ComputeFDR_deterministic_witness :
  @ComputeFDR ExactBeta Lehmer example_groups 3 (1 # 4)%Q 3 0 =
    @ComputeFDR ExactBeta Lehmer example_groups 3 (1 # 4)%Q 3 42 /\
  option_map (fun r => map fdr (fst r))
             (@ComputeFDR ExactBeta Lehmer example_groups 3 (1 # 4)%Q 3 0) =
    option_map (fun r => map fdr (fst r))
               (@ComputeFDR ExactBeta Lehmer example_groups 3 (1 # 4)%Q 3 42) /\
  (let scanPass := scanPass_of 3 3 in
   let seeded := @PlantSeeds Lehmer 123456 0 in
   exists (s : @sim_state Lehmer) (final : list GROUP_STRUCT),
     @null_pool ExactBeta Lehmer example_groups 3 (1 # 4)%Q 3 0 = Some s /\
     @ComputeFDR ExactBeta Lehmer example_groups 3 (1 # 4)%Q 3 0 = Some (final, gen s) /\
     (forall p j, 0 <= p < scanPass -> 0 <= j < 3 ->
        let n := itemNum (get no_group example_groups j) in
        let before := p * items_before example_groups 3 + items_before example_groups j in
        @ComputeLoValue ExactBeta
          (@draw_list Lehmer (Z.to_nat n) (@after_draws Lehmer (Z.to_nat before) seeded))
          n (1 # 4)%Q
          = Some (get 0%Q (randLoValue s) (p * 3 + j))) /\
     final = @sweep 3
               (@clamp_last 3
                  (@assign_fdr (QuicksortF (randLoValue s) 0 (randLoValueNum s - 1))
                               (randLoValueNum s) 3
                               (QuickSortGroupByLoValue example_groups 0 (3 - 1)))) /\
     gen s = @after_draws Lehmer (Z.to_nat (scanPass * items_before example_groups 3))
                          seeded).
Proof.
  destruct (@ComputeFDR_deterministic ExactBeta Lehmer example_groups 3 (1 # 4)%Q 3 0 42
              Lehmer_reseeds)
    as (E1 & E2 & E3).
  split; [exact E1|]. split; [exact E2|].
  apply E3; [exact example_groups_ok|lia|unfold pool_fits; vm_compute; discriminate].
Defined.

(** Two runs that find the generator in different states give the same
    values; the simulation loops alone, started without the seed from
    these two states, do not. *)
Example ComputeFDR_two_runs :
  @ComputeFDR ExactBeta Lehmer example_groups 3 (1 # 4)%Q 3 0 =
    @ComputeFDR ExactBeta Lehmer example_groups 3 (1 # 4)%Q 3 42 /\
  option_map (fun r => map fdr (fst r))
             (@ComputeFDR ExactBeta Lehmer example_groups 3 (1 # 4)%Q 3 0)
    = Some [6 # 12; 18 # 36; 30 # 60]%Q /\
  scanPass_of 3 3 * items_before example_groups 3 = 12 /\
  (let start (g : @rng Lehmer) : @sim_state Lehmer :=
     {| tmpPercentile := malloc_double 3; randLoValue := malloc_double 6;
        randLoValueNum := 0; gen := g |} in
   option_map randLoValue
     (@simulate ExactBeta Lehmer example_groups 3 (1 # 4)%Q 2 (start 1%Z)) <>
   option_map randLoValue
     (@simulate ExactBeta Lehmer example_groups 3 (1 # 4)%Q 2 (start 42%Z))).
Proof.
  split; [vm_compute; reflexivity|]. split; [vm_compute; reflexivity|].
  split; [vm_compute; reflexivity|]. vm_compute. discriminate.
Qed.

(** * Further properties of the statistical core *)

(** ** The group sort *)

(** X1: [QuickSortGroupByLoValue(groups, lo, hi)] on a range inside the
    array leaves the groups of [lo..hi] in ascending order of [loValue],
    only rearranges the groups (no group is lost, duplicated or altered)
    and leaves every cell outside [lo..hi] as it was. *)
Theorem QuickSortGroupByLoValue_sorts (groups : list GROUP_STRUCT) (lo hi : Z) :
  0 <= lo -> hi < Z.of_nat (length groups) ->
  let sorted := QuickSortGroupByLoValue groups lo hi in
  length sorted = length groups /\
  Permutation groups sorted /\
  (forall k, k < lo \/ hi < k -> get no_group sorted k = get no_group groups k) /\
  (forall k1 k2, lo <= k1 -> k1 <= k2 -> k2 <= hi ->
     (loValue (get no_group sorted k1) <= loValue (get no_group sorted k2))%Q).
Proof.
  intros Hlo Hhi sorted.
  destruct (QuickSortBy_correct no_group loValue groups lo hi Hlo Hhi) as [Hsw Hsorted].
  fold (QuickSortGroupByLoValue groups lo hi) in Hsw, Hsorted. fold sorted in Hsw, Hsorted.
  split; [eapply swaps_length; exact Hsw|].
  split; [eapply swaps_Permutation; eassumption|].
  split; [eapply swaps_outside; eassumption|].
  exact Hsorted.
Qed.

Lemma QuickSortGroupByLoValue_sorts_witness :
  let sorted := QuickSortGroupByLoValue example_groups 1 2 in
  length sorted = length example_groups /\
  Permutation example_groups sorted /\
  (forall k, k < 1 \/ 2 < k -> get no_group sorted k = get no_group example_groups k) /\
  (forall k1 k2, 1 <= k1 -> k1 <= k2 -> k2 <= 2 ->
     (loValue (get no_group sorted k1) <= loValue (get no_group sorted k2))%Q).
Proof.
  apply (QuickSortGroupByLoValue_sorts example_groups 1 2); [lia|simpl; lia].
Defined.

(** ** The lo-value as a function of the percentiles *)

Lemma Qlt_bool_compat (x x' y y' : Q) :
  (x == x')%Q -> (y == y')%Q -> Qlt_bool x y = Qlt_bool x' y'.
Proof.
  intros Hx Hy.
  destruct (Qlt_bool x' y') eqn:E.
  - apply Qlt_bool_iff in E. apply Qlt_bool_iff. rewrite Hx, Hy. exact E.
  - apply Qlt_bool_false in E. apply Qlt_bool_false. rewrite Hx, Hy. exact E.
Qed.

(** On an ascending array the elements below a threshold are the first
    [count_below] ones. *)
Lemma ascending_below_prefix (t : double) (l : list double) (k : Z) :
  ascending_by 0%Q (fun v => v) l -> 0 <= k < Z.of_nat (length l) ->
  ((get 0%Q l k < t)%Q <-> k < count_below t l).
Proof.
  intros Hs Hk.
  assert (Hs' : sorted_range 0%Q (fun v => v) l 0 (Z.of_nat (length l) - 1)) by exact Hs.
  destruct (lower_bound_spec t l 0 (Z.of_nat (length l)) ltac:(lia) Hs')
    as (Hb & Hlt & Hge).
  pose proof (bTreeSearchingF_count t l Hs) as Hc.
  unfold bTreeSearchingF in Hc.
  replace (Z.of_nat (length l) - 1 + 1) with (Z.of_nat (length l)) in Hc by lia.
  rewrite <- Hc. split.
  - intros Hlt'. destruct (Z.lt_ge_cases k (lower_bound t l 0 (Z.of_nat (length l))))
      as [|Hge']; [assumption|].
    exfalso. apply (Qlt_not_le _ _ Hlt'). apply Hge. lia.
  - intros Hk'. apply Hlt. lia.
Qed.

(** Two ascending arrays with the same elements agree cell by cell. *)
Lemma ascending_Permutation_get (a b : list double) :
  ascending_by 0%Q (fun v => v) a -> ascending_by 0%Q (fun v => v) b ->
  Permutation a b ->
  forall k, 0 <= k < Z.of_nat (length a) -> (get 0%Q a k == get 0%Q b k)%Q.
Proof.
  intros Ha Hb Hp k Hk.
  assert (Hl : length a = length b) by (apply Permutation_length; exact Hp).
  assert (Hkb : 0 <= k < Z.of_nat (length b)) by lia.
  apply Qle_antisym.
  - apply Qnot_lt_le. intros Hlt.
    apply (ascending_below_prefix _ b k Hb Hkb) in Hlt.
    rewrite <- (count_below_Permutation _ _ _ Hp) in Hlt.
    apply (ascending_below_prefix _ a k Ha Hk) in Hlt.
    exact (Qlt_irrefl _ Hlt).
  - apply Qnot_lt_le. intros Hlt.
    apply (ascending_below_prefix _ a k Ha Hk) in Hlt.
    rewrite (count_below_Permutation _ _ _ Hp) in Hlt.
    apply (ascending_below_prefix _ b k Hb Hkb) in Hlt.
    exact (Qlt_irrefl _ Hlt).
Qed.

Section LoValueInvariance.
Context `{BetaCdf}.

(** The evaluator gives equal values at equal arguments. *)
Definition cdf_respects_eq : Prop :=
  forall a b x y, (x == y)%Q ->
    (BetaNoncentralCdf a b 0 x CDF_MAX_ERROR == BetaNoncentralCdf a b 0 y CDF_MAX_ERROR)%Q.

(** The scan gives equal results on arrays that agree on the cells it
    reads. *)
Lemma lo_scan_compat (a b : list double) (num : Z) (m : double) :
  cdf_respects_eq ->
  forall n i v w,
    (forall k, i <= k < i + Z.of_nat n -> (get 0%Q a k == get 0%Q b k)%Q) ->
    (v == w)%Q ->
    (lo_scan n a num m i v == lo_scan n b num m i w)%Q.
Proof.
  intros Hcdf. induction n as [|n IH]; intros i v w Hab Hvw; cbn [lo_scan].
  - exact Hvw.
  - assert (Hi : (get 0%Q a i == get 0%Q b i)%Q) by (apply Hab; lia).
    rewrite (Qlt_bool_compat m m (get 0%Q a i) (get 0%Q b i) (Qeq_refl _) Hi).
    destruct (Qlt_bool m (get 0%Q b i) && (0 <? i)); [exact Hvw|].
    apply IH; [intros k Hk; apply Hab; lia|].
    pose proof (Hcdf (inject_Z (i + 1)) (inject_Z (num - i)) _ _ Hi) as Hf.
    rewrite (Qlt_bool_compat _ _ _ _ Hf Hvw).
    destruct (Qlt_bool _ w); assumption.
Qed.
End LoValueInvariance.

(** X2: the lo-value of a group does not depend on the order of its
    percentiles: [ComputeLoValue] returns equal values on two arrays that
    hold the same percentiles in different orders, for an evaluator that
    gives equal values at equal arguments. *)
Theorem ComputeLoValue_permutation `{BetaCdf}
        (percentiles percentiles' : list double) (num : Z) (maxPercentile : double) :
  0 < num -> num = Z.of_nat (length percentiles) ->
  Permutation percentiles percentiles' ->
  cdf_respects_eq ->
  exists v v',
    ComputeLoValue percentiles num maxPercentile = Some v /\
    ComputeLoValue percentiles' num maxPercentile = Some v' /\
    (v == v')%Q.
Proof.
  intros Hpos Hnum Hperm Hcdf.
  assert (Hnum' : num = Z.of_nat (length percentiles')).
  { rewrite <- (Permutation_length Hperm). exact Hnum. }
  rewrite !ComputeLoValue_eq by assumption.
  destruct (sorted_copy_facts percentiles num ltac:(lia)) as (P1 & S1 & L1).
  destruct (sorted_copy_facts percentiles' num ltac:(lia)) as (P2 & S2 & L2).
  rewrite firstn_all2 in P1 by lia. rewrite firstn_all2 in P2 by lia.
  eexists. eexists. split; [reflexivity|]. split; [reflexivity|].
  apply lo_scan_compat; [exact Hcdf| |reflexivity].
  intros k Hk. apply ascending_Permutation_get; try assumption; [|lia].
  eapply Permutation_trans; [apply Permutation_sym; exact P1|].
  eapply Permutation_trans; [exact Hperm|exact P2].
Qed.

Lemma order_statistic_cdf_respects_eq : @cdf_respects_eq ExactBeta.
Proof.
  intros a b x y Hxy. cbn. unfold order_statistic_cdf.
  assert (Hc : (clamp01 x == clamp01 y)%Q).
  { unfold clamp01. rewrite Hxy. reflexivity. }
  revert Hc. generalize (clamp01 x) as c, (clamp01 y) as c'.
  generalize (Z.to_nat (Qfloor a + Qfloor b - 1)) as n.
  generalize (Z.to_nat (Qfloor a)) as k.
  intros k n c c' Hc. revert k. induction n as [|n IH]; intros [|k]; cbn [at_least];
    try reflexivity.
  rewrite (IH k), (IH (S k)), Hc. reflexivity.
Qed.

Lemma ComputeLoValue_permutation_witness :
  exists v v',
    @ComputeLoValue ExactBeta [9 # 10; 1 # 10; 2 # 10]%Q 3 (1 # 4)%Q = Some v /\
    @ComputeLoValue ExactBeta [2 # 10; 9 # 10; 1 # 10]%Q 3 (1 # 4)%Q = Some v' /\
    (v == v')%Q.
Proof.
  apply (@ComputeLoValue_permutation ExactBeta
           [9 # 10; 1 # 10; 2 # 10]%Q [2 # 10; 9 # 10; 1 # 10]%Q 3 (1 # 4)%Q).
  - lia.
  - reflexivity.
  - apply Permutation_sym. apply (Permutation_cons_app [9 # 10; 1 # 10]%Q []).
    reflexivity.
  - exact order_statistic_cdf_respects_eq.
Defined.

(** X3: the smallest percentile is always scored.  When every percentile
    of the group exceeds [maxPercentile], the scan stops after the first
    sorted cell, and the lo-value is the evaluator's value at the
    smallest percentile with shape parameters [1] and [num]. *)
Theorem ComputeLoValue_above_cutoff `{BetaCdf}
        (percentiles : list double) (num : Z) (maxPercentile : double) :
  0 < num -> num = Z.of_nat (length percentiles) ->
  Forall (fun p => (maxPercentile < p)%Q) percentiles ->
  (forall a b x, (BetaNoncentralCdf a b 0 x CDF_MAX_ERROR <= 1)%Q) ->
  exists smallest v,
    In smallest percentiles /\
    Forall (fun p => (smallest <= p)%Q) percentiles /\
    ComputeLoValue percentiles num maxPercentile = Some v /\
    (v == BetaNoncentralCdf 1 (inject_Z num) 0 smallest CDF_MAX_ERROR)%Q.
Proof.
  intros Hpos Hnum Habove Hle1.
  rewrite ComputeLoValue_eq by assumption.
  destruct (sorted_copy_facts percentiles num ltac:(lia)) as (P & S & L).
  rewrite firstn_all2 in P by lia.
  set (a := sorted_copy percentiles num) in *.
  assert (Hin : forall k, 0 <= k < num -> In (get 0%Q a k) percentiles).
  { intros k Hk. apply (Permutation_in _ (Permutation_sym P)).
    apply get_In. lia. }
  exists (get 0%Q a 0). eexists.
  split; [apply Hin; lia|]. split.
  { apply Forall_forall. intros p Hp.
    apply (Permutation_in _ P) in Hp.
    destruct (In_get 0%Q a p Hp) as (k & Hk & <-).
    apply (S 0 k); lia. }
  split; [reflexivity|].
  destruct (Z.to_nat num) as [|n] eqn:En; [lia|].
  cbn [lo_scan]. rewrite Z.ltb_irrefl, andb_false_r.
  assert (Hscan : forall v, lo_scan n a num maxPercentile (0 + 1) v = v).
  { intros v. destruct n as [|n']; [reflexivity|]. cbn [lo_scan].
    assert (Hk : 0 <= 0 + 1 < num) by lia.
    pose proof (Hin _ Hk) as Hin1.
    rewrite Forall_forall in Habove. apply Habove in Hin1.
    apply Qlt_bool_iff in Hin1. rewrite Hin1. reflexivity. }
  rewrite Hscan.
  change (inject_Z (0 + 1)) with 1%Q. rewrite Z.sub_0_r.
  destruct (Qlt_bool _ 1) eqn:E; [reflexivity|].
  apply Qlt_bool_false in E. apply Qle_antisym; [exact E|apply Hle1].
Qed.

Lemma ComputeLoValue_above_cutoff_witness :
  exists smallest v,
    In smallest [9 # 10; 3 # 10; 1 # 2]%Q /\
    Forall (fun p => (smallest <= p)%Q) [9 # 10; 3 # 10; 1 # 2]%Q /\
    @ComputeLoValue ExactBeta [9 # 10; 3 # 10; 1 # 2]%Q 3 (1 # 4)%Q = Some v /\
    (v == order_statistic_cdf 1 (inject_Z 3) 0 smallest CDF_MAX_ERROR)%Q.
Proof.
  apply (@ComputeLoValue_above_cutoff ExactBeta [9 # 10; 3 # 10; 1 # 2]%Q 3 (1 # 4)%Q).
  - lia.
  - reflexivity.
  - repeat constructor.
  - intros a b x. apply order_statistic_cdf_bounds.
Defined.

(** ** The effect of [ProcessGroups] on a group *)

Section ArrayMore.
Context {A : Type} (d : A).

(** A write outside the array is dropped: the read sees the old cell. *)
Lemma get_upd (a : list A) (i k : Z) (v : A) :
  get d (upd a i v) k =
    if (k =? i) && (0 <=? i) && (i <? Z.of_nat (length a)) then v else get d a k.
Proof.
  destruct (Z.eqb_spec k i) as [->|Hne]; cbn [andb].
  - destruct (Z.leb_spec 0 i) as [H0|H0]; cbn [andb].
    + destruct (Z.ltb_spec i (Z.of_nat (length a))) as [H1|H1].
      * apply get_upd_same. lia.
      * unfold get, upd. destruct (Z.ltb_spec i 0); [lia|].
        rewrite !nth_overflow; [reflexivity|lia|rewrite length_upd_nat; lia].
    + unfold upd. destruct (Z.ltb_spec i 0); [reflexivity|lia].
  - apply get_upd_other. congruence.
Qed.

Lemma get_ext (a b : list A) :
  length a = length b ->
  (forall j, 0 <= j < Z.of_nat (length a) -> get d a j = get d b j) ->
  a = b.
Proof.
  intros HL Hget. apply (nth_ext a b d d HL). intros n Hn.
  specialize (Hget (Z.of_nat n) ltac:(lia)). unfold get in Hget.
  destruct (Z.ltb_spec (Z.of_nat n) 0); [lia|].
  now rewrite Nat2Z.id in Hget.
Qed.

Lemma get_firstn (a : list A) (n : nat) (j : Z) :
  0 <= j < Z.of_nat n -> get d (firstn n a) j = get d a j.
Proof.
  intros Hj. unfold get. destruct (Z.ltb_spec j 0); [lia|].
  rewrite <- (firstn_skipn n a) at 2.
  destruct (Nat.le_gt_cases (length a) n) as [Hle|Hgt].
  - rewrite skipn_all2 by exact Hle. now rewrite app_nil_r.
  - rewrite app_nth1; [reflexivity|]. rewrite length_firstn. lia.
Qed.
End ArrayMore.


Lemma max_itemNum_attained groups groupNum :
  0 < max_itemNum groups groupNum ->
  exists i, 0 <= i < groupNum /\
            itemNum (get no_group groups i) = max_itemNum groups groupNum.
Proof.
  unfold max_itemNum.
  set (body := fun (i : Z) (m : Z) =>
                 if m <? itemNum (get no_group groups i)
                 then itemNum (get no_group groups i) else m).
  destruct (Z.le_gt_cases 0 groupNum) as [Hn|Hn].
  - pose (P := fun (k m : Z) =>
               0 < m -> exists i, 0 <= i < k /\ itemNum (get no_group groups i) = m).
    assert (Hinv : P groupNum (for_range 0 groupNum body 0)).
    { apply (for_range_inv P); subst P; cbn beta; [lia|intros; lia|].
      intros k m Hk Hm. unfold body.
      destruct (Z.ltb_spec m (itemNum (get no_group groups k))) as [Hlt|Hge]; intros Hpos.
      - exists k. split; [lia|reflexivity].
      - destruct (Hm Hpos) as (i & Hi & E). exists i. split; [lia|exact E]. }
    exact Hinv.
  - unfold for_range. replace (Z.to_nat (groupNum - 0)) with O by lia.
    cbn [for_loop]. lia.
Qed.

Section ProcessEffect.
Context `{BetaCdf}.





End ProcessEffect.



(** ** Percentiles follow the values *)

Lemma count_below_mono (t1 t2 : double) (l : list double) :
  (t1 <= t2)%Q -> count_below t1 l <= count_below t2 l.
Proof.
  intros Ht. induction l as [|x l IH]; [reflexivity|].
  rewrite !count_below_cons.
  destruct (Qlt_bool x t1) eqn:E1; destruct (Qlt_bool x t2) eqn:E2; try lia.
  apply Qlt_bool_iff in E1. apply Qlt_bool_false in E2.
  exfalso. apply (Qlt_not_le _ _ E1). eapply Qle_trans; eassumption.
Qed.

(** X5: within one list the percentile is a non-decreasing function of
    the value: of two items that point to the same list, the one with the
    smaller value does not get the larger percentile, and items with
    equal values get equal percentiles, whatever groups they are in. *)
Theorem ProcessGroups_percentile_order `{BetaCdf}
        (groups : list GROUP_STRUCT) (groupNum : Z)
        (lists : list LIST_STRUCT) (listNum : Z) (maxPercentile : double) :
  groups_ok groups groupNum listNum -> lists_ok lists listNum ->
  exists groups' lists',
    ProcessGroups groups groupNum lists listNum maxPercentile = Some (groups', lists') /\
    forall i1 j1 i2 j2,
      0 <= i1 < groupNum -> 0 <= j1 < itemNum (get no_group groups i1) ->
      0 <= i2 < groupNum -> 0 <= j2 < itemNum (get no_group groups i2) ->
      let it1 := get no_item (items (get no_group groups i1)) j1 in
      let it2 := get no_item (items (get no_group groups i2)) j2 in
      let p1 := percentile (get no_item (items (get no_group groups' i1)) j1) in
      let p2 := percentile (get no_item (items (get no_group groups' i2)) j2) in
      listIndex it1 = listIndex it2 ->
      ((value it1 <= value it2)%Q -> (p1 <= p2)%Q) /\
      ((value it1 == value it2)%Q -> (p1 == p2)%Q).
Proof.
  intros Hg Hl.
  destruct (ProcessGroups_mid_rank groups groupNum lists listNum maxPercentile Hg Hl)
    as (groups' & lists' & E & _ & Hp).
  exists groups', lists'. split; [exact E|].
  assert (Hle : forall i1 j1 i2 j2,
      0 <= i1 < groupNum -> 0 <= j1 < itemNum (get no_group groups i1) ->
      0 <= i2 < groupNum -> 0 <= j2 < itemNum (get no_group groups i2) ->
      listIndex (get no_item (items (get no_group groups i1)) j1) =
        listIndex (get no_item (items (get no_group groups i2)) j2) ->
      (value (get no_item (items (get no_group groups i1)) j1) <=
         value (get no_item (items (get no_group groups i2)) j2))%Q ->
      (percentile (get no_item (items (get no_group groups' i1)) j1) <=
         percentile (get no_item (items (get no_group groups' i2)) j2))%Q).
  { intros i1 j1 i2 j2 Hi1 Hj1 Hi2 Hj2 Hidx Hv.
    rewrite (Hp i1 j1 Hi1 Hj1), (Hp i2 j2 Hi2 Hj2). cbv zeta. rewrite Hidx.
    set (it1 := get no_item (items (get no_group groups i1)) j1) in *.
    set (it2 := get no_item (items (get no_group groups i2)) j2) in *.
    set (l := get no_list lists (listIndex it2)).
    assert (HN : 0 < list_itemNum l).
    { destruct Hg as (_ & _ & Hg). destruct (Hg i2 Hi2) as (_ & _ & Hidx2).
      destruct Hl as (_ & Hl). apply Hl. apply Hidx2. exact Hj2. }
    apply Qmult_le_compat_r.
    - rewrite <- !inject_Z_plus. change 1%Q with (inject_Z 1).
      rewrite <- !inject_Z_plus. rewrite <- Zle_Qle.
      assert (count_below (double_sub (value it1) EPSILON_double) (values l)
              <= count_below (double_sub (value it2) EPSILON_double) (values l)).
      { apply count_below_mono. apply double_sub_mono. exact Hv. }
      assert (count_below (double_add (value it1) EPSILON_double) (values l)
              <= count_below (double_add (value it2) EPSILON_double) (values l)).
      { apply count_below_mono. apply double_add_mono. exact Hv. }
      lia.
    - apply Qlt_le_weak. apply Qinv_lt_0_compat.
      change 0%Q with (2 * 0)%Q. apply Qmult_lt_l; [reflexivity|].
      change 0%Q with (inject_Z 0). rewrite <- Zlt_Qlt. exact HN. }
  intros i1 j1 i2 j2 Hi1 Hj1 Hi2 Hj2 it1 it2 p1 p2 Hidx. split.
  - intros Hv. apply Hle; assumption.
  - intros Hv. apply Qle_antisym.
    + apply Hle; try assumption. fold it1 it2. rewrite Hv. apply Qle_refl.
    + apply Hle; try assumption; [symmetry; exact Hidx|].
      fold it1 it2. rewrite Hv. apply Qle_refl.
Qed.

Definition two_item_group : GROUP_STRUCT :=
  {| group_name := String.EmptyString;
     items := [{| item_name := String.EmptyString; listIndex := 0;
                  value := 40%Q; percentile := 0%Q |};
               {| item_name := String.EmptyString; listIndex := 0;
                  value := 20%Q; percentile := 0%Q |}];
     itemNum := 2; loValue := 0%Q; fdr := 0%Q |}.

Lemma two_item_groups_ok : groups_ok [scenario_group; two_item_group] 2 1.
Proof.
  split; [reflexivity|]. split; [lia|]. intros i Hi.
  assert (Hc : i = 0 \/ i = 1) by lia.
  destruct Hc as [-> | ->].
  - split; [reflexivity|]. split; [reflexivity|]. intros j Hj.
    change (0 <= j < 1) in Hj.
    assert (j = 0) by lia. subst. cbn. lia.
  - split; [reflexivity|]. split; [reflexivity|]. intros j Hj.
    change (0 <= j < 2) in Hj.
    assert (Hc : j = 0 \/ j = 1) by lia.
    destruct Hc as [-> | ->]; (split; now vm_compute).
Qed.

Lemma ProcessGroups_percentile_order_witness :
  exists groups' lists',
    @ProcessGroups ExactBeta [scenario_group; two_item_group] 2 [scenario_list] 1 (1 # 4)%Q
      = Some (groups', lists') /\
    forall i1 j1 i2 j2,
      0 <= i1 < 2 -> 0 <= j1 < itemNum (get no_group [scenario_group; two_item_group] i1) ->
      0 <= i2 < 2 -> 0 <= j2 < itemNum (get no_group [scenario_group; two_item_group] i2) ->
      let it1 := get no_item (items (get no_group [scenario_group; two_item_group] i1)) j1 in
      let it2 := get no_item (items (get no_group [scenario_group; two_item_group] i2)) j2 in
      let p1 := percentile (get no_item (items (get no_group groups' i1)) j1) in
      let p2 := percentile (get no_item (items (get no_group groups' i2)) j2) in
      listIndex it1 = listIndex it2 ->
      ((value it1 <= value it2)%Q -> (p1 <= p2)%Q) /\
      ((value it1 == value it2)%Q -> (p1 == p2)%Q).
Proof.
  apply (@ProcessGroups_percentile_order ExactBeta
           [scenario_group; two_item_group] 2 [scenario_list] 1 (1 # 4)%Q
           two_item_groups_ok scenario_lists_ok).
Defined.

(** ** When [ProcessGroups] runs to completion *)

Section LoopPreserve.
Context {S : Type}.

Lemma for_loop_preserve (I : S -> Prop) (body : Z -> S -> S) :
  (forall k s, I s -> I (body k s)) ->
  forall n i s, I s -> I (for_loop n i body s).
Proof.
  intros Hb. induction n as [|n IH]; intros i s Hs; cbn [for_loop]; auto.
Qed.

Lemma for_range_preserve (I : S -> Prop) (body : Z -> S -> S) lo hi s :
  (forall k s, I s -> I (body k s)) -> I s -> I (for_range lo hi body s).
Proof. intros Hb Hs. unfold for_range. apply for_loop_preserve; assumption. Qed.

Lemma for_loop_ext (body body' : Z -> S -> S) :
  (forall k s, body k s = body' k s) ->
  forall n i s, for_loop n i body s = for_loop n i body' s.
Proof.
  intros Hb. induction n as [|n IH]; intros i s; cbn [for_loop]; [reflexivity|].
  rewrite Hb. apply IH.
Qed.

Lemma for_loop_opt_ext (body body' : Z -> S -> option S) :
  (forall k s, body k s = body' k s) ->
  forall n i s, for_loop_opt n i body s = for_loop_opt n i body' s.
Proof.
  intros Hb. induction n as [|n IH]; intros i s; cbn [for_loop_opt]; [reflexivity|].
  rewrite Hb. destruct (body' i s); [apply IH|reflexivity].
Qed.

(** A loop that completes has entered its first round. *)
Lemma for_range_opt_first (body : Z -> S -> option S) lo hi s s' :
  lo < hi -> for_range_opt lo hi body s = Some s' ->
  exists s1, body lo s = Some s1.
Proof.
  unfold for_range_opt. intros Hlt.
  destruct (Z.to_nat (hi - lo)) as [|n] eqn:En; [lia|].
  cbn [for_loop_opt]. destruct (body lo s) as [s1|]; [eauto|discriminate].
Qed.
End LoopPreserve.

Section ProcessReturns.
Context `{BetaCdf}.

Lemma ComputeLoValue_some percentiles num maxPercentile :
  (exists v, ComputeLoValue percentiles num maxPercentile = Some v) <-> 0 < num.
Proof.
  unfold ComputeLoValue. destruct (Z.ltb_spec 0 num); split; intros H1.
  - assumption.
  - eauto.
  - destruct H1 as [v Hv]. discriminate.
  - lia.
Qed.

Lemma process_item_itemNum lists i j st k :
  itemNum (get no_group (fst (process_item lists i j st)) k) =
    itemNum (get no_group (fst st) k).
Proof.
  destruct st as [gs tf]. unfold process_item. cbn [fst].
  rewrite get_upd.
  destruct ((k =? i) && (0 <=? i) && (i <? Z.of_nat (length gs))) eqn:E; [|reflexivity].
  apply andb_prop in E. destruct E as [E _]. apply andb_prop in E. destruct E as [E _].
  apply Z.eqb_eq in E. subst. reflexivity.
Qed.

Lemma process_items_itemNum lists i n st k :
  itemNum (get no_group (fst (for_range 0 n (process_item lists i) st)) k) =
    itemNum (get no_group (fst st) k).
Proof.
  apply (for_range_preserve
           (fun s => itemNum (get no_group (fst s) k) = itemNum (get no_group (fst st) k)));
    [|reflexivity].
  intros j s Hs. rewrite process_item_itemNum. exact Hs.
Qed.

(** A round of the group loop completes exactly when the group has an
    item, and it changes no item count. *)
Lemma process_group_some lists maxPercentile i st :
  0 < itemNum (get no_group (fst st) i) ->
  exists st', process_group lists maxPercentile i st = Some st' /\
              forall k, itemNum (get no_group (fst st') k) = itemNum (get no_group (fst st) k).
Proof.
  intros Hpos. unfold process_group.
  pose proof (process_items_itemNum lists i (itemNum (get no_group (fst st) i)) st) as Hn.
  destruct (for_range 0 (itemNum (get no_group (fst st) i)) (process_item lists i) st)
    as [gs tf].
  cbn [fst] in Hn.
  destruct (proj2 (ComputeLoValue_some tf (itemNum (get no_group gs i)) maxPercentile))
    as [v Ev]; [rewrite Hn; exact Hpos|].
  rewrite Ev. eexists. split; [reflexivity|]. cbn [fst]. intros k.
  rewrite get_upd.
  destruct ((k =? i) && (0 <=? i) && (i <? Z.of_nat (length gs))) eqn:E; [|apply Hn].
  apply andb_prop in E. destruct E as [E _]. apply andb_prop in E. destruct E as [E _].
  apply Z.eqb_eq in E. subst. cbn [itemNum set_loValue]. apply Hn.
Qed.

Lemma process_group_inv lists maxPercentile i st st' :
  process_group lists maxPercentile i st = Some st' ->
  0 < itemNum (get no_group (fst st) i) /\
  forall k, itemNum (get no_group (fst st') k) = itemNum (get no_group (fst st) k).
Proof.
  intros E.
  assert (Hpos : 0 < itemNum (get no_group (fst st) i)).
  { unfold process_group in E.
    pose proof (process_items_itemNum lists i (itemNum (get no_group (fst st) i)) st) as Hn.
    destruct (for_range 0 (itemNum (get no_group (fst st) i)) (process_item lists i) st)
      as [gs tf].
    cbn [fst] in Hn. rewrite <- Hn.
    apply (ComputeLoValue_some tf _ maxPercentile).
    destruct (ComputeLoValue tf (itemNum (get no_group gs i)) maxPercentile);
      [eauto|discriminate]. }
  split; [exact Hpos|].
  destruct (process_group_some lists maxPercentile i st Hpos) as (st1 & E1 & Hk).
  rewrite E in E1. injection E1 as <-. exact Hk.
Qed.
(** A completed call has found an item in every group and has changed no
    item count. *)
Lemma ProcessGroups_completed groups groupNum lists listNum maxPercentile groups' lists' :
  ProcessGroups groups groupNum lists listNum maxPercentile = Some (groups', lists') ->
  0 < groupNum /\
  (forall i, 0 <= i < groupNum -> 0 < itemNum (get no_group groups i)) /\
  (forall i, itemNum (get no_group groups' i) = itemNum (get no_group groups i)).
Proof.
  unfold ProcessGroups.
  set (ls := sort_lists lists listNum).
  set (tmpF := malloc_double (max_itemNum groups groupNum)).
  destruct (Z.ltb_spec 0 (max_itemNum groups groupNum)) as [Hmax|]; [|discriminate].
  destruct (max_itemNum_attained groups groupNum Hmax) as (i0 & Hi0 & _).
  destruct (for_range_opt 0 groupNum (process_group ls maxPercentile) (groups, tmpF))
    as [st|] eqn:E; [|discriminate].
  intros Er. split; [lia|].
  pose (P := fun (k : Z) (st : list GROUP_STRUCT * list double) =>
     (forall i, itemNum (get no_group (fst st) i) = itemNum (get no_group groups i)) /\
     (forall i, 0 <= i < k -> 0 < itemNum (get no_group groups i))).
  assert (Hinv : P groupNum st).
  { apply (for_range_opt_some P 0 groupNum (process_group ls maxPercentile)
             (groups, tmpF) st); subst P; cbn beta; [lia| | |exact E].
    - split; [reflexivity|intros; lia].
    - intros k s s1 Hk [Hsame Hdone] Es.
      destruct (process_group_inv ls maxPercentile k s s1 Es) as [Hpos Hkeep].
      split.
      + intros i. rewrite Hkeep. apply Hsame.
      + intros i Hi. destruct (Z.eq_dec i k) as [->|Hne].
        * rewrite <- Hsame. exact Hpos.
        * apply Hdone. lia. }
  destruct st as [gs tf]. injection Er as <- <-. destruct Hinv as [Hsame Hdone].
  split; [exact Hdone|exact Hsame].
Qed.

(** The call completes when every group has an item. *)
Lemma ProcessGroups_completes groups groupNum lists listNum maxPercentile :
  0 < groupNum ->
  (forall i, 0 <= i < groupNum -> 0 < itemNum (get no_group groups i)) ->
  exists groups' lists',
    ProcessGroups groups groupNum lists listNum maxPercentile = Some (groups', lists').
Proof.
  intros Hpos Hitems. unfold ProcessGroups.
  set (ls := sort_lists lists listNum).
  set (tmpF := malloc_double (max_itemNum groups groupNum)).
  destruct (max_itemNum_ge groups groupNum) as [_ Hmax].
  specialize (Hmax 0 ltac:(lia)). specialize (Hitems 0 ltac:(lia)) as Hfirst.
  destruct (Z.ltb_spec 0 (max_itemNum groups groupNum)) as [_|]; [|lia].
  destruct (for_range_opt_inv
    (fun (k : Z) (st : list GROUP_STRUCT * list double) =>
       forall i, itemNum (get no_group (fst st) i) = itemNum (get no_group groups i))
    0 groupNum (process_group ls maxPercentile) (groups, tmpF))
    as ([gs tf] & E & _).
  - lia.
  - reflexivity.
  - intros k s Hk Hsame.
    destruct (process_group_some ls maxPercentile k s) as (s1 & E1 & Hkeep).
    + rewrite Hsame. apply Hitems. exact Hk.
    + exists s1. split; [exact E1|]. intros i. rewrite Hkeep. apply Hsame.
  - rewrite E. eauto.
Qed.
End ProcessReturns.

(** X6: [ProcessGroups] runs to completion exactly when there is at least
    one group and each of the [groupNum] groups has at least one item.
    In every other case an assertion stops the program: that of line 458
    when no group has an item, that of [ComputeLoValue] at the first
    group without items. *)
Theorem ProcessGroups_returns_iff `{BetaCdf}
        (groups : list GROUP_STRUCT) (groupNum : Z)
        (lists : list LIST_STRUCT) (listNum : Z) (maxPercentile : double) :
  (exists r, ProcessGroups groups groupNum lists listNum maxPercentile = Some r) <->
  (0 < groupNum /\ forall i, 0 <= i < groupNum -> 0 < itemNum (get no_group groups i)).
Proof.
  split.
  - intros [[groups' lists'] Hr].
    destruct (ProcessGroups_completed _ _ _ _ _ _ _ Hr) as (Hpos & Hitems & _).
    split; assumption.
  - intros [Hpos Hitems].
    destruct (ProcessGroups_completes groups groupNum lists listNum maxPercentile
                Hpos Hitems) as (groups' & lists' & E).
    eauto.
Qed.

(** ** When [ComputeFDR] runs to completion *)

Section FDRReturns.
Context `{BetaCdf} `{RandomGen}.

Lemma simulate_group_inv groups maxPercentile j s s' :
  simulate_group groups maxPercentile j s = Some s' ->
  0 < itemNum (get no_group groups j).
Proof.
  unfold simulate_group.
  destruct (draw_percentiles (itemNum (get no_group groups j)) (tmpPercentile s, gen s))
    as [tmp g].
  intros E. apply (ComputeLoValue_some tmp _ maxPercentile).
  destruct (ComputeLoValue tmp (itemNum (get no_group groups j)) maxPercentile);
    [eauto|discriminate].
Qed.

Lemma simulate_pass_inv groups groupNum maxPercentile s s' :
  0 <= groupNum ->
  for_range_opt 0 groupNum (simulate_group groups maxPercentile) s = Some s' ->
  forall j, 0 <= j < groupNum -> 0 < itemNum (get no_group groups j).
Proof.
  intros Hn E.
  pose (P := fun (k : Z) (_ : sim_state) =>
               forall j, 0 <= j < k -> 0 < itemNum (get no_group groups j)).
  apply (for_range_opt_some P 0 groupNum (simulate_group groups maxPercentile) s s');
    subst P; cbn beta; [lia|intros; lia| |exact E].
  intros k s0 s1 Hk Hdone E1 j Hj.
  destruct (Z.eq_dec j k) as [->|Hne].
  - eapply simulate_group_inv. exact E1.
  - apply Hdone. lia.
Qed.

Lemma ComputeFDR_some groups groupNum maxPercentile numOfRandPass g0 :
  (exists r, ComputeFDR groups groupNum maxPercentile numOfRandPass g0 = Some r) <->
  (exists s, groupNum <> 0 /\
             null_pool groups groupNum maxPercentile numOfRandPass g0 = Some s).
Proof.
  unfold ComputeFDR. destruct (Z.eqb_spec groupNum 0) as [E0|E0].
  - split; [intros [r Hr]; discriminate|intros (s & Hne & _); contradiction].
  - destruct (null_pool groups groupNum maxPercentile numOfRandPass g0) as [s|].
    + split; eauto.
    + split; [intros [r Hr]; discriminate|intros (s & _ & Hs); discriminate].
Qed.

Lemma ComputeFDR_completed groups groupNum maxPercentile numOfRandPass g0 r :
  is_int groupNum -> is_int numOfRandPass ->
  ComputeFDR groups groupNum maxPercentile numOfRandPass g0 = Some r ->
  0 < groupNum /\
  (forall i, 0 <= i < groupNum -> 0 < itemNum (get no_group groups i)) /\
  - groupNum < numOfRandPass /\ pool_in_range numOfRandPass groupNum.
Proof.
  intros Hgi Hni Er.
  destruct (proj1 (ComputeFDR_some groups groupNum maxPercentile numOfRandPass g0))
    as (s & Hne & E); [eauto|].
  unfold null_pool in E.
  destruct (Z.ltb_spec 0 (max_itemNum groups groupNum)) as [Hmax|];
    cbn [negb] in E; [|discriminate].
  destruct (max_itemNum_attained groups groupNum Hmax) as (i0 & Hi0 & _).
  assert (Hg : 0 < groupNum) by lia.
  destruct (Z.ltb_spec 0 (to_int (groupNum * scanPass_of numOfRandPass groupNum)))
    as [Hpool|]; cbn [negb] in E; [|discriminate].
  destruct (proj1 (pool_size_pos_iff numOfRandPass groupNum Hgi Hni Hg) Hpool)
    as [Hpass Hfit].
  destruct (scanPass_of_fits numOfRandPass groupNum Hpass Hg Hfit) as (_ & Hsp & _).
  split; [exact Hg|]. split; [|split; assumption].
  unfold simulate in E.
  destruct (for_range_opt_first _ 0 (scanPass_of numOfRandPass groupNum) _ _
              ltac:(lia) E) as [s1 E1].
  eapply simulate_pass_inv; [|exact E1]. lia.
Qed.

Lemma ComputeFDR_completes groups groupNum maxPercentile numOfRandPass g0 :
  0 < groupNum ->
  (forall i, 0 <= i < groupNum -> 0 < itemNum (get no_group groups i)) ->
  - groupNum < numOfRandPass -> pool_in_range numOfRandPass groupNum ->
  exists r, ComputeFDR groups groupNum maxPercentile numOfRandPass g0 = Some r.
Proof.
  intros Hg Hitems Hpass Hfit. apply ComputeFDR_some. unfold null_pool.
  destruct (scanPass_of_fits numOfRandPass groupNum Hpass Hg Hfit) as (_ & Hsp & ->).
  set (scanPass := scanPass_of numOfRandPass groupNum) in *.
  destruct (max_itemNum_ge groups groupNum) as [_ Hmax].
  specialize (Hmax 0 ltac:(lia)). specialize (Hitems 0 ltac:(lia)) as Hfirst.
  destruct (Z.ltb_spec 0 (max_itemNum groups groupNum)) as [_|]; [|lia].
  destruct (Z.ltb_spec 0 (groupNum * scanPass)) as [_|]; [|nia].
  cbn [negb].
  destruct (simulate_spec groups groupNum maxPercentile scanPass
              {| tmpPercentile := malloc_double (max_itemNum groups groupNum);
                 randLoValue := malloc_double (groupNum * scanPass);
                 randLoValueNum := 0; gen := PlantSeeds 123456 g0 |})
    as (s' & E & _); try assumption; try lia; try reflexivity.
  - cbn [randLoValue]. unfold malloc_double. rewrite repeat_length. nia.
  - exists s'. split; [lia|exact E].
Qed.
End FDRReturns.

(** X7: on arguments that are [int]s, [ComputeFDR] runs to completion
    exactly when there is at least one group, each of the [groupNum]
    groups has at least one item, [numOfRandPass > -groupNum], so that
    at least one pass is simulated, and the size of the pool,
    [groupNum * (numOfRandPass / groupNum + 1)], is at most [INT_MAX].
    In every other case the program is stopped: by the division by
    [groupNum = 0], or by an assertion, which is also where a pool size
    beyond [INT_MAX] ends, because it wraps around to a negative
    number. *)
Theorem ComputeFDR_returns_iff `{BetaCdf} `{RandomGen}
        (groups : list GROUP_STRUCT) (groupNum : Z)
        (maxPercentile : double) (numOfRandPass : Z) (g0 : rng) :
  is_int groupNum -> is_int numOfRandPass ->
  ((exists r, ComputeFDR groups groupNum maxPercentile numOfRandPass g0 = Some r) <->
   (0 < groupNum /\
    (forall i, 0 <= i < groupNum -> 0 < itemNum (get no_group groups i)) /\
    - groupNum < numOfRandPass /\
    groupNum * (Z.quot numOfRandPass groupNum + 1) <= INT_MAX)).
Proof.
  intros Hgi Hni. split.
  - intros [r Hr]. eapply ComputeFDR_completed; eassumption.
  - intros (Hg & Hitems & Hpass & Hfit). apply ComputeFDR_completes; assumption.
Qed.

(** One run that completes, and the run of one group with
    [numOfRandPass = INT_MAX], in which [scanPass] wraps around to
    [INT_MIN] and the assertion on the pool size fails. *)
Lemma ComputeFDR_returns_iff_witness :
  (exists r, @ComputeFDR ExactBeta Lehmer example_groups 3 (1 # 4)%Q 3 0 = Some r) /\
  scanPass_of INT_MAX 1 = INT_MIN /\
  @ComputeFDR ExactBeta Lehmer [example_group 1 (1 # 2)] 1 (1 # 4)%Q INT_MAX 0 = None.
Proof.
  assert (Hint : forall z, INT_MIN <= z <= INT_MAX -> is_int z) by (intros z Hz; exact Hz).
  split; [|split].
  - apply (@ComputeFDR_returns_iff ExactBeta Lehmer example_groups 3 (1 # 4)%Q 3 0).
    + apply Hint. unfold INT_MIN, INT_MAX. lia.
    + apply Hint. unfold INT_MIN, INT_MAX. lia.
    + destruct example_groups_ok as (_ & Hpos & Hitems).
      split; [exact Hpos|]. split; [exact Hitems|]. split; [lia|].
      vm_compute. discriminate.
  - reflexivity.
  - destruct (@ComputeFDR ExactBeta Lehmer [example_group 1 (1 # 2)] 1 (1 # 4)%Q INT_MAX 0)
      as [r|] eqn:E; [|reflexivity].
    exfalso.
    assert (Hsome : exists r', @ComputeFDR ExactBeta Lehmer [example_group 1 (1 # 2)] 1
                                 (1 # 4)%Q INT_MAX 0 = Some r') by (exists r; exact E).
    apply (@ComputeFDR_returns_iff ExactBeta Lehmer [example_group 1 (1 # 2)] 1
             (1 # 4)%Q INT_MAX 0) in Hsome.
    + destruct Hsome as (_ & _ & _ & Hfit). vm_compute in Hfit. apply Hfit. reflexivity.
    + apply Hint. unfold INT_MIN, INT_MAX. lia.
    + apply Hint. unfold INT_MIN, INT_MAX. lia.
Defined.

(** ** The clamp and the sweep as a whole *)

Lemma min_chain_closed (groupNum : Z) (raw final : Z -> Q) :
  0 < groupNum ->
  (final (groupNum - 1)%Z == Qmin 1 (raw (groupNum - 1)%Z))%Q ->
  (forall m, 0 <= m < groupNum - 1 ->
     (final m == Qmin (raw m) (final (m + 1)%Z))%Q) ->
  forall m, 0 <= m < groupNum ->
    (final m <= 1)%Q /\
    (forall j, m <= j < groupNum -> (final m <= raw j)%Q) /\
    ((final m == 1)%Q \/ exists j, m <= j < groupNum /\ (final m == raw j)%Q).
Proof.
  intros Hpos Hlast Hstep.
  assert (Hdown : forall k : nat, forall m, m = groupNum - 1 - Z.of_nat k -> 0 <= m ->
    (final m <= 1)%Q /\
    (forall j, m <= j < groupNum -> (final m <= raw j)%Q) /\
    ((final m == 1)%Q \/ exists j, m <= j < groupNum /\ (final m == raw j)%Q)).
  { induction k as [|k IH]; intros m Hm Hm0.
    - assert (E0 : m = groupNum - 1) by lia. clear Hm. subst m.
      split; [rewrite Hlast; apply Q.le_min_l|]. split.
      + intros j Hj. assert (j = groupNum - 1) by lia. subst j.
        rewrite Hlast. apply Q.le_min_r.
      + destruct (Q.min_spec 1 (raw (groupNum - 1)%Z)) as [[_ E]|[_ E]].
        * left. rewrite Hlast. exact E.
        * right. exists (groupNum - 1). split; [lia|]. rewrite Hlast. exact E.
    - destruct (IH (m + 1) ltac:(lia) ltac:(lia)) as (H1 & Hlow & Hatt).
      pose proof (Hstep m ltac:(lia)) as Em.
      split; [rewrite Em; eapply Qle_trans; [apply Q.le_min_r|exact H1]|]. split.
      + intros j Hj. rewrite Em. destruct (Z.eq_dec j m) as [->|Hne].
        * apply Q.le_min_l.
        * eapply Qle_trans; [apply Q.le_min_r|]. apply Hlow. lia.
      + destruct (Q.min_spec (raw m) (final (m + 1)%Z)) as [[_ E]|[_ E]].
        * right. exists m. split; [lia|]. rewrite Em. exact E.
        * destruct Hatt as [Hone|(j & Hj & Ej)].
          -- left. rewrite Em, E. exact Hone.
          -- right. exists j. split; [lia|]. rewrite Em, E. exact Ej. }
  intros m Hm. apply (Hdown (Z.to_nat (groupNum - 1 - m))); lia.
Qed.

(** X8: lines 592-603 of [ComputeFDR] as one step.  After the clamp and
    the downward sweep, the [fdr] of group [i] is the smallest of 1.0 and
    the values that were assigned to the groups [i], [i+1], ... up to the
    last: it is at most each of them, and it equals 1.0 or one of them.
    In particular the adjustment never raises an assigned value. *)
Theorem fdr_running_minimum (groups : list GROUP_STRUCT) (groupNum : Z) :
  groupNum = Z.of_nat (length groups) -> 0 < groupNum ->
  let final := sweep groupNum (clamp_last groupNum groups) in
  forall i, 0 <= i < groupNum ->
    (fdr (get no_group final i) <= 1)%Q /\
    (forall j, i <= j < groupNum ->
       (fdr (get no_group final i) <= fdr (get no_group groups j))%Q) /\
    ((fdr (get no_group final i) == 1)%Q \/
     exists j, i <= j < groupNum /\
               (fdr (get no_group final i) == fdr (get no_group groups j))%Q).
Proof.
  intros Hn Hpos final.
  destruct (clamp_last_spec groupNum groups Hn Hpos) as (Hfo2 & Hsame2 & Hlast2).
  set (clamped := clamp_last groupNum groups) in *.
  assert (Hnc : groupNum = Z.of_nat (length clamped)).
  { destruct Hfo2 as [L _]. rewrite L. exact Hn. }
  destruct (sweep_spec groupNum clamped Hnc Hpos) as (_ & Hlast3 & Hstep3).
  fold final in Hlast3, Hstep3.
  apply (min_chain_closed groupNum
           (fun m => fdr (get no_group groups m))
           (fun m => fdr (get no_group final m)) Hpos).
  - cbn beta. rewrite Hlast3. exact Hlast2.
  - intros m Hm. cbn beta. rewrite (Hstep3 m Hm). rewrite (Hsame2 m Hm). reflexivity.
Qed.

Definition unadjusted_groups : list GROUP_STRUCT :=
  [set_fdr (example_group 1 (1 # 100)) (3 # 10);
   set_fdr (example_group 3 (3 # 10)) (2 # 10);
   set_fdr (example_group 2 (1 # 2)) (12 # 10)].

Lemma fdr_running_minimum_witness :
  let final := sweep 3 (clamp_last 3 unadjusted_groups) in
  (fdr (get no_group final 0) <= 1)%Q /\
  (forall j, 0 <= j < 3 ->
     (fdr (get no_group final 0) <= fdr (get no_group unadjusted_groups j))%Q) /\
  ((fdr (get no_group final 0) == 1)%Q \/
   exists j, 0 <= j < 3 /\
             (fdr (get no_group final 0) == fdr (get no_group unadjusted_groups j))%Q).
Proof.
  apply (fdr_running_minimum unadjusted_groups 3); [reflexivity|lia|lia].
Defined.

(** ** The incoming [fdr] fields are not read *)

Section QuickSortRelated.
Context {A : Type} (d : A) (key : A -> double) (R : A -> A -> Prop).
Hypothesis R_default : R d d.
Hypothesis R_key : forall x y, R x y -> key x = key y.

Lemma get_related a b i : Forall2 R a b -> R (get d a i) (get d b i).
Proof using R_default.
  intros Hab. unfold get. destruct (i <? 0); [exact R_default|].
  generalize (Z.to_nat i) as n. induction Hab as [|x y a b Hxy Hab IH]; intros n.
  - destruct n; exact R_default.
  - destruct n as [|n]; [exact Hxy|apply IH].
Qed.

Lemma upd_related a b i x y :
  Forall2 R a b -> R x y -> Forall2 R (upd a i x) (upd b i y).
Proof.
  intros Hab Hxy. unfold upd. destruct (i <? 0); [exact Hab|].
  generalize (Z.to_nat i) as n. induction Hab as [|x' y' a b Hxy' Hab IH]; intros n.
  - constructor.
  - destruct n as [|n]; cbn [upd_nat]; constructor; auto.
Qed.

Lemma swap_related a b i j :
  Forall2 R a b -> Forall2 R (swap d a i j) (swap d b i j).
Proof using R_default.
  intros Hab. unfold swap.
  apply upd_related; [apply upd_related|]; try assumption; apply get_related; assumption.
Qed.

Lemma scan_up_related a b x : Forall2 R a b ->
  forall i j, scan_up d key a x i j = scan_up d key b x i j.
Proof using R_default R_key.
  intros Hab i j. pattern i, j. apply cursor_ind. clear i j.
  intros i j IH. rewrite (scan_up_eq d key a), (scan_up_eq d key b).
  rewrite (R_key _ _ (get_related a b i Hab)).
  destruct (Qlt_bool (key (get d b i)) x && (i <=? j)) eqn:E; [|reflexivity].
  apply andb_prop in E. apply IH. lia.
Qed.

Lemma scan_down_related a b x : Forall2 R a b ->
  forall i j, scan_down d key a x i j = scan_down d key b x i j.
Proof using R_default R_key.
  intros Hab i j. pattern i, j. apply cursor_ind. clear i j.
  intros i j IH. rewrite (scan_down_eq d key a), (scan_down_eq d key b).
  rewrite (R_key _ _ (get_related a b j Hab)).
  destruct (Qlt_bool x (key (get d b j)) && (i <=? j)) eqn:E; [|reflexivity].
  apply andb_prop in E. apply IH. lia.
Qed.

(** Two runs on related arrays move the cursors alike and leave related
    arrays. *)
Definition related_runs (r r' : list A * Z * Z) : Prop :=
  Forall2 R (fst (fst r)) (fst (fst r')) /\
  snd (fst r) = snd (fst r') /\ snd r = snd r'.

Lemma partition_round_related a b x i j :
  Forall2 R a b ->
  related_runs (partition_round d key a x i j) (partition_round d key b x i j).
Proof using R_default R_key.
  intros Hab. unfold partition_round.
  rewrite (scan_up_related a b x Hab), (scan_down_related a b x Hab).
  destruct (_ <=? _); repeat split; cbn [fst snd]; try assumption.
  apply swap_related. exact Hab.
Qed.

Lemma partition_related x : forall i j a b,
  Forall2 R a b ->
  related_runs (partition d key a x i j) (partition d key b x i j).
Proof using R_default R_key.
  intros i j. pattern i, j. apply cursor_ind. clear i j.
  intros i j IH a b Hab.
  rewrite (partition_eq d key a), (partition_eq d key b).
  destruct (Z.leb_spec i j) as [Hij|Hij].
  - pose proof (partition_round_related a b x i j Hab) as Hr.
    destruct (partition_round d key a x i j) as [[a1 i1] j1] eqn:Ea.
    destruct (partition_round d key b x i j) as [[b1 i2] j2] eqn:Eb.
    destruct Hr as (Hab1 & Ei & Ej). cbn [fst snd] in *. subst i2 j2.
    apply IH; [|exact Hab1].
    eapply partition_round_decr; eassumption.
  - repeat split; cbn [fst snd]; assumption.
Qed.

Lemma QuickSortBy_related : forall a b lo hi,
  Forall2 R a b -> Forall2 R (QuickSortBy d key a lo hi) (QuickSortBy d key b lo hi).
Proof using R_default R_key.
  intros a b lo hi.
  remember (Z.to_nat (hi - lo + 1)) as n eqn:Hn.
  revert a b lo hi Hn. induction n as [n IH] using lt_wf_ind.
  intros a b lo hi Hn Hab.
  rewrite (QuickSortBy_eq d key a), (QuickSortBy_eq d key b).
  destruct (Z.ltb_spec hi lo) as [Hlh|Hlh]; [exact Hab|].
  rewrite <- (R_key _ _ (get_related a b (Z.quot (lo + hi) 2) Hab)).
  set (x := key (get d a (Z.quot (lo + hi) 2))).
  pose proof (partition_related x lo hi a b Hab) as Hr.
  destruct (partition d key a x lo hi) as [[a1 i] j] eqn:Ea.
  destruct (partition d key b x lo hi) as [[b1 i2] j2] eqn:Eb.
  destruct Hr as (Hab1 & Ei & Ej). cbn [fst snd] in *. subst i2 j2.
  destruct (partition_progress d key a lo hi _ a1 i j (quot2_between lo hi Hlh) Ea)
    as [Hpi Hpj].
  assert (Hab2 : Forall2 R (if lo <? j then QuickSortBy d key a1 lo j else a1)
                           (if lo <? j then QuickSortBy d key b1 lo j else b1)).
  { destruct (Z.ltb_spec lo j); [|exact Hab1].
    apply (IH (Z.to_nat (j - lo + 1))); [lia|reflexivity|exact Hab1]. }
  destruct (Z.ltb_spec i hi); [|exact Hab2].
  apply (IH (Z.to_nat (hi - i + 1))); [lia|reflexivity|exact Hab2].
Qed.
End QuickSortRelated.

Lemma fdr_only_Forall2 gs gs' :
  fdr_only gs gs' -> Forall2 same_group_data gs gs'.
Proof.
  intros [HL Hsame]. revert gs' HL Hsame.
  induction gs as [|g gs IH]; intros [|g' gs'] HL Hsame; try discriminate.
  - constructor.
  - constructor.
    + specialize (Hsame 0 ltac:(cbn [length]; lia)). rewrite !get_0 in Hsame. exact Hsame.
    + apply IH; [cbn [length] in HL; lia|].
      intros i Hi. specialize (Hsame (i + 1) ltac:(cbn [length]; lia)).
      rewrite !get_cons in Hsame by lia.
      replace (i + 1 - 1) with i in Hsame by lia. exact Hsame.
Qed.

Lemma same_group_data_eq g1 g2 g1' g2' :
  same_group_data g1 g2 -> same_group_data g1 g1' -> same_group_data g2 g2' ->
  fdr g1' = fdr g2' -> g1' = g2'.
Proof.
  intros (N & I & C & L) (N1 & I1 & C1 & L1) (N2 & I2 & C2 & L2) F.
  destruct g1', g2'. cbn in *. congruence.
Qed.

Section FDRIgnoresFdr.
Context `{BetaCdf} `{RandomGen}.

Lemma null_pool_itemNum groups groups' groupNum maxPercentile numOfRandPass g0 :
  (forall j, itemNum (get no_group groups j) = itemNum (get no_group groups' j)) ->
  null_pool groups groupNum maxPercentile numOfRandPass g0 =
    null_pool groups' groupNum maxPercentile numOfRandPass g0.
Proof.
  intros Hsame. unfold null_pool.
  assert (Hmax : max_itemNum groups groupNum = max_itemNum groups' groupNum).
  { unfold max_itemNum, for_range. apply for_loop_ext. intros k m.
    rewrite Hsame. reflexivity. }
  rewrite Hmax.
  destruct (negb (0 <? max_itemNum groups' groupNum)); [reflexivity|].
  destruct (negb (0 <? to_int (groupNum * scanPass_of numOfRandPass groupNum)));
    [reflexivity|].
  unfold simulate, for_range_opt. apply for_loop_opt_ext. intros p s.
  apply for_loop_opt_ext. intros j s1.
  unfold simulate_group. rewrite Hsame. reflexivity.
Qed.

Lemma assign_fdr_related pool n groupNum gs gs' :
  groupNum = Z.of_nat (length gs) -> Forall2 same_group_data gs gs' ->
  assign_fdr pool n groupNum gs = assign_fdr pool n groupNum gs'.
Proof.
  intros Hn Hrel.
  assert (HL : length gs = length gs') by (eapply Forall2_length; exact Hrel).
  destruct (assign_fdr_spec pool n groupNum gs Hn) as ([L1 S1] & F1).
  destruct (assign_fdr_spec pool n groupNum gs' ltac:(lia)) as ([L2 S2] & F2).
  apply (get_ext no_group); [congruence|].
  intros i Hi. rewrite L1 in Hi.
  pose proof (get_related no_group same_group_data (same_group_data_refl no_group)
                gs gs' i Hrel) as Hi'.
  apply (same_group_data_eq _ _ _ _ Hi' (S1 i Hi) (S2 i ltac:(lia))).
  rewrite (F1 i ltac:(lia)), (F2 i ltac:(lia)).
  destruct Hi' as (_ & _ & _ & ->). reflexivity.
Qed.
End FDRIgnoresFdr.

(** X9: [ComputeFDR] never reads the [fdr] fields it finds, which [main]
    leaves uninitialised: two arrays that differ at most in the [fdr]
    fields give the same result, groups and generator state alike. *)
Theorem ComputeFDR_ignores_fdr `{BetaCdf} `{RandomGen}
        (groups groups' : list GROUP_STRUCT) (groupNum : Z)
        (maxPercentile : double) (numOfRandPass : Z) (g0 : rng) :
  groupNum = Z.of_nat (length groups) -> fdr_only groups groups' ->
  ComputeFDR groups groupNum maxPercentile numOfRandPass g0 =
    ComputeFDR groups' groupNum maxPercentile numOfRandPass g0.
Proof.
  intros Hn Hfo. pose proof (fdr_only_Forall2 _ _ Hfo) as Hrel.
  unfold ComputeFDR.
  destruct (groupNum =? 0); [reflexivity|].
  rewrite (null_pool_itemNum groups groups' groupNum maxPercentile numOfRandPass g0).
  2:{ intros j.
      destruct (get_related no_group same_group_data (same_group_data_refl no_group)
                  groups groups' j Hrel) as (_ & _ & E & _).
      symmetry. exact E. }
  destruct (null_pool groups' groupNum maxPercentile numOfRandPass g0) as [s|];
    [|reflexivity].
  cbv zeta.
  rewrite (assign_fdr_related _ _ groupNum
             (QuickSortGroupByLoValue groups 0 (groupNum - 1))
             (QuickSortGroupByLoValue groups' 0 (groupNum - 1))).
  - reflexivity.
  - destruct (QuickSortBy_whole no_group loValue groups) as (_ & _ & HL).
    rewrite <- Hn in HL.
    fold (QuickSortGroupByLoValue groups 0 (groupNum - 1)) in HL. rewrite HL. exact Hn.
  - apply (QuickSortBy_related no_group loValue same_group_data
             (same_group_data_refl no_group)).
    + intros x y (_ & _ & _ & E). symmetry. exact E.
    + exact Hrel.
Qed.

Lemma ComputeFDR_ignores_fdr_witness :
  @ComputeFDR ExactBeta Lehmer example_groups 3 (1 # 4)%Q 3 0 =
    @ComputeFDR ExactBeta Lehmer (map (fun g => set_fdr g 7%Q) example_groups) 3
                (1 # 4)%Q 3 0.
Proof.
  apply (@ComputeFDR_ignores_fdr ExactBeta Lehmer
           example_groups (map (fun g => set_fdr g 7%Q) example_groups) 3 (1 # 4)%Q 3 0).
  - reflexivity.
  - split; [reflexivity|]. intros i Hi.
    change (0 <= i < 3) in Hi.
    assert (Hc : i = 0 \/ i = 1 \/ i = 2) by lia.
    destruct Hc as [->|[->| ->]]; repeat split.
Defined.

(** * The ingestion: [ReadFile] *)

(** ** The records that the two loops read *)

Section Records.
Context `{TextServices}.

Lemma read_records_eq {S : Type} (body : list String.string -> S -> option S) r s :
  read_records body r s =
    if more_records r then
      match body (words r) s with
      | Some s' => read_records body (read_next r) s'
      | None => None
      end
    else Some (r, s).
Proof.
  funelim (read_records body r s).
  - rewrite e. reflexivity.
  - rewrite e, Heq. reflexivity.
  - rewrite e, Heq. reflexivity.
Qed.

(** The word lists that a loop of [ReadFile] started at [r] hands to its
    body, in order. *)
Equations? records (r : line_reader) : list (list String.string)
  by wf (remaining r) lt :=
  records r with inspect (more_records r) => {
    | exist _ false _ => []
    | exist _ true _ => words r :: records (read_next r) }.
Proof.
  apply read_next_remaining.
  unfold more_records, feof in e. apply andb_prop in e. destruct e as [_ e].
  now apply negb_true_iff in e.
Qed.

Lemma records_eq r :
  records r = if more_records r then words r :: records (read_next r) else [].
Proof. funelim (records r); rewrite e; reflexivity. Qed.

(** The body applied to the records in turn. *)
Fixpoint fold_records {S : Type} (body : list String.string -> S -> option S)
         (rows : list (list String.string)) (s : S) : option S :=
  match rows with
  | [] => Some s
  | w :: rows' =>
      match body w s with
      | Some s' => fold_records body rows' s'
      | None => None
      end
  end.

Lemma reader_ind (P : line_reader -> Prop) :
  (forall r, (forall r', (remaining r' < remaining r)%nat -> P r') -> P r) ->
  forall r, P r.
Proof.
  intros Hstep r. remember (remaining r) as n eqn:Hn.
  revert r Hn. induction n as [n IH] using lt_wf_ind. intros r ->.
  apply Hstep. intros r' Hlt. eapply IH; eauto.
Qed.

Lemma more_records_remaining r :
  more_records r = true -> (remaining (read_next r) < remaining r)%nat.
Proof.
  intros e. apply read_next_remaining.
  unfold more_records, feof in e. apply andb_prop in e. destruct e as [_ e].
  now apply negb_true_iff in e.
Qed.

(** A loop of [ReadFile] is its body folded over the records. *)
Lemma read_records_fold {S : Type} (body : list String.string -> S -> option S) :
  forall r s,
    option_map snd (read_records body r s) = fold_records body (records r) s.
Proof.
  intros r. pattern r. apply reader_ind. clear r. intros r IH s.
  rewrite read_records_eq, records_eq.
  destruct (more_records r) eqn:E; [|reflexivity].
  cbn [fold_records]. destruct (body (words r) s) as [s'|]; [|reflexivity].
  apply IH. apply more_records_remaining. exact E.
Qed.

(** Once the indicator is set no record is read. *)
Lemma records_at_eof r : eof (fh r) = true -> records r = [].
Proof.
  intros He. rewrite records_eq. unfold more_records, feof. rewrite He.
  now rewrite andb_false_r.
Qed.

(** The records of a file: those read after the header line.  They do
    not depend on what the line buffer holds when the file is opened. *)
Definition file_records (contents tmpS0 : String.string) : list (list String.string) :=
  records (read_next (read_next {| fh := {| unread := contents; eof := false |};
                                   tmpS := tmpS0 |})).

Lemma read_next_eof r : eof (fh r) = true -> eof (fh (read_next r)) = true.
Proof.
  intros He. unfold read_next, fgets.
  destruct (unread (fh r)); [reflexivity|].
  destruct (read_line _ _) as [[l r1] e]. cbn [fh eof]. now rewrite He.
Qed.

Lemma file_records_buffer contents tmpS0 tmpS1 :
  file_records contents tmpS0 = file_records contents tmpS1.
Proof.
  unfold file_records. destruct contents as [|c s].
  - rewrite !records_at_eof; [reflexivity| |]; apply read_next_eof; reflexivity.
  - unfold read_next at 2 4. unfold fgets. cbn [fh tmpS unread]. reflexivity.
Qed.

Section FoldInvariant.
Context {S : Type} (body : list String.string -> S -> option S)
        (rows : list (list String.string)) (Inv : list (list String.string) -> S -> Prop).

(** If the body keeps an invariant of the records read so far, a loop
    that completes establishes it for all records. *)
Lemma fold_records_some s0 s :
  Inv [] s0 ->
  (forall done w todo s s', rows = done ++ w :: todo ->
     Inv done s -> body w s = Some s' -> Inv (done ++ [w]) s') ->
  fold_records body rows s0 = Some s -> Inv rows s.
Proof.
  intros H0 Hstep.
  assert (Hgen : forall todo done s1,
            rows = done ++ todo -> Inv done s1 ->
            fold_records body todo s1 = Some s -> Inv rows s).
  { induction todo as [|w todo IH]; intros done s1 Hrows Hinv E.
    - cbn in E. injection E as <-. rewrite app_nil_r in Hrows. now subst.
    - cbn [fold_records] in E. destruct (body w s1) as [s'|] eqn:Eb; [|discriminate].
      apply (IH (done ++ [w]) s'); [|eapply Hstep; eassumption|exact E].
      rewrite <- app_assoc. exact Hrows. }
  apply (Hgen rows [] s0); [reflexivity|exact H0].
Qed.

(** If moreover the body never fails under the invariant, the loop
    completes. *)
Lemma fold_records_total s0 :
  Inv [] s0 ->
  (forall done w todo s, rows = done ++ w :: todo ->
     Inv done s -> exists s', body w s = Some s' /\ Inv (done ++ [w]) s') ->
  exists s, fold_records body rows s0 = Some s /\ Inv rows s.
Proof.
  intros H0 Hstep.
  assert (Hgen : forall todo done s1,
            rows = done ++ todo -> Inv done s1 ->
            exists s, fold_records body todo s1 = Some s /\ Inv rows s).
  { induction todo as [|w todo IH]; intros done s1 Hrows Hinv.
    - exists s1. split; [reflexivity|]. rewrite app_nil_r in Hrows. now subst.
    - destruct (Hstep done w todo s1 Hrows Hinv) as (s' & Eb & Hinv').
      cbn [fold_records]. rewrite Eb.
      apply (IH (done ++ [w]) s'); [|exact Hinv'].
      rewrite <- app_assoc. exact Hrows. }
  apply (Hgen rows [] s0); [reflexivity|exact H0].
Qed.
End FoldInvariant.
End Records.

(** ** The tables of names *)

(** How often [name] occurs among the names [seen]. *)
Definition occurrences (name : String.string) (seen : list String.string) : Z :=
  Z.of_nat (count_occ String.string_dec seen name).

Lemma occurrences_app name seen seen' :
  occurrences name (seen ++ seen') = occurrences name seen + occurrences name seen'.
Proof. unfold occurrences. rewrite count_occ_app. lia. Qed.

Lemma occurrences_one name s :
  occurrences name [s] = if String.eqb s name then 1 else 0.
Proof.
  unfold occurrences. cbn [count_occ].
  destruct (String.string_dec s name) as [->|Hne].
  - now rewrite String.eqb_refl.
  - apply String.eqb_neq in Hne. now rewrite Hne.
Qed.

Lemma occurrences_nonneg name seen : 0 <= occurrences name seen.
Proof. unfold occurrences. lia. Qed.

Lemma occurrences_In name seen : In name seen <-> 0 < occurrences name seen.
Proof.
  unfold occurrences. rewrite (count_occ_In String.string_dec). lia.
Qed.

Section NameTableFacts.
Context {A : Type} (d : A) (name_of : A -> String.string) (count_of : A -> Z)
        (fresh : A -> String.string -> A) (bump : A -> A).
Hypothesis fresh_name : forall x s, name_of (fresh x s) = s.
Hypothesis fresh_count : forall x s, count_of (fresh x s) = 1.
Hypothesis bump_name : forall x, name_of (bump x) = name_of x.
Hypothesis bump_count : forall x, count_of (bump x) = count_of x + 1.

Lemma find_from_spec name a : forall k i,
  i <= find_from d name_of name a k i <= i + Z.of_nat k /\
  (forall m, i <= m < find_from d name_of name a k i -> name_of (get d a m) <> name) /\
  (find_from d name_of name a k i < i + Z.of_nat k ->
   name_of (get d a (find_from d name_of name a k i)) = name).
Proof.
  induction k as [|k IH]; intros i; cbn [find_from].
  - split; [lia|]. split; intros; lia.
  - destruct (String.eqb_spec name (name_of (get d a i))) as [E|E].
    + split; [lia|]. split; [intros; lia|]. intros _. symmetry. exact E.
    + destruct (IH (i + 1)) as (Hb & Hlow & Hhit).
      split; [lia|]. split.
      * intros m Hm. destruct (Z.eq_dec m i) as [->|Hne]; [congruence|].
        apply Hlow. lia.
      * intros Hlt. apply Hhit. lia.
Qed.

(** The search returns the first entry with the name, or [n] when there
    is none. *)
Lemma find_name_spec name a n :
  0 <= n ->
  0 <= find_name d name_of name a n <= n /\
  (forall m, 0 <= m < find_name d name_of name a n -> name_of (get d a m) <> name) /\
  (find_name d name_of name a n < n ->
   name_of (get d a (find_name d name_of name a n)) = name).
Proof.
  intros Hn. unfold find_name.
  destruct (find_from_spec name a (Z.to_nat n) 0) as (Hb & Hlow & Hhit).
  split; [lia|]. split; [exact Hlow|]. intros Hlt. apply Hhit. lia.
Qed.

(** The first [n] entries of [a] are the distinct names among [seen],
    each with the number of its occurrences. *)
Definition table_ok (a : list A) (n : Z) (seen : list String.string) : Prop :=
  0 <= n <= Z.of_nat (length a) /\
  (forall k1 k2, 0 <= k1 < n -> 0 <= k2 < n ->
     name_of (get d a k1) = name_of (get d a k2) -> k1 = k2) /\
  (forall k, 0 <= k < n ->
     count_of (get d a k) = occurrences (name_of (get d a k)) seen /\
     0 < count_of (get d a k)) /\
  (forall s, In s seen -> exists k, 0 <= k < n /\ name_of (get d a k) = s).

Lemma table_ok_nil a : table_ok a 0 [].
Proof.
  split; [lia|]. split; [intros; lia|]. split; [intros; lia|].
  intros s [].
Qed.

Lemma enter_name_ok a n max seen name a' n' :
  table_ok a n seen -> n < max -> max <= Z.of_nat (length a) ->
  enter_name d name_of fresh bump name a n max = Some (a', n') ->
  table_ok a' n' (seen ++ [name]) /\ n' < max /\ length a' = length a.
Proof using fresh_name fresh_count bump_name bump_count.
  intros (Hn & Hdist & Hcount & Hcover) Hmax Hcap. unfold enter_name.
  destruct (find_name_spec name a n ltac:(lia)) as (Hb & Hlow & Hhit).
  set (i := find_name d name_of name a n) in *.
  destruct (Z.leb_spec n i) as [Hnew|Hold].
  - destruct (Z.leb_spec max (n + 1)) as [|Hroom]; [discriminate|].
    intros E. injection E as <- <-.
    assert (Hfresh : ~ In name seen).
    { intros Hin. destruct (Hcover _ Hin) as (k & Hk & Ek).
      apply (Hlow k); [lia|exact Ek]. }
    split; [|split; [lia|now rewrite length_upd]].
    split; [rewrite length_upd; lia|]. split; [|split].
    + intros k1 k2 Hk1 Hk2.
      destruct (Z.eq_dec k1 n) as [->|H1]; destruct (Z.eq_dec k2 n) as [->|H2];
        try reflexivity.
      * rewrite get_upd_same by lia. rewrite get_upd_other by congruence.
        rewrite fresh_name. intros E. exfalso. apply (Hlow k2); [lia|now symmetry].
      * rewrite get_upd_same by lia. rewrite get_upd_other by congruence.
        rewrite fresh_name. intros E. exfalso. apply (Hlow k1); [lia|exact E].
      * rewrite !get_upd_other by congruence. apply Hdist; lia.
    + intros k Hk. rewrite occurrences_app, occurrences_one.
      destruct (Z.eq_dec k n) as [->|Hne].
      * rewrite get_upd_same by lia. rewrite fresh_name, fresh_count.
        rewrite String.eqb_refl.
        assert (occurrences name seen = 0).
        { pose proof (occurrences_nonneg name seen).
          destruct (Z.eq_dec (occurrences name seen) 0); [assumption|].
          exfalso. apply Hfresh. apply occurrences_In. lia. }
        lia.
      * rewrite get_upd_other by congruence.
        destruct (Hcount k ltac:(lia)) as [Hc Hp].
        destruct (String.eqb_spec name (name_of (get d a k))) as [E|E].
        -- exfalso. apply (Hlow k); [lia|now symmetry].
        -- lia.
    + intros s Hin. apply in_app_or in Hin. destruct Hin as [Hin|[<-|[]]].
      * destruct (Hcover _ Hin) as (k & Hk & Ek). exists k. split; [lia|].
        rewrite get_upd_other by lia. exact Ek.
      * exists n. split; [lia|]. rewrite get_upd_same by lia. apply fresh_name.
  - intros E. injection E as <- <-.
    specialize (Hhit Hold).
    split; [|split; [lia|now rewrite length_upd]].
    split; [rewrite length_upd; lia|]. split; [|split].
    + intros k1 k2 Hk1 Hk2.
      assert (Hname : forall k, 0 <= k < n ->
                name_of (get d (upd a i (bump (get d a i))) k) = name_of (get d a k)).
      { intros k Hk. destruct (Z.eq_dec k i) as [->|Hne].
        - rewrite get_upd_same by lia. apply bump_name.
        - now rewrite get_upd_other by congruence. }
      rewrite !Hname by lia. apply Hdist; lia.
    + intros k Hk. rewrite occurrences_app, occurrences_one.
      destruct (Z.eq_dec k i) as [->|Hne].
      * rewrite get_upd_same by lia. rewrite bump_name, bump_count, Hhit.
        rewrite String.eqb_refl.
        destruct (Hcount i ltac:(lia)) as [Hc Hp]. rewrite Hhit in Hc. lia.
      * rewrite get_upd_other by congruence.
        destruct (Hcount k ltac:(lia)) as [Hc Hp].
        destruct (String.eqb_spec name (name_of (get d a k))) as [E|E].
        -- exfalso. apply Hne. apply Hdist; try lia. congruence.
        -- lia.
    + intros s Hin. apply in_app_or in Hin.
      assert (Hold' : exists k, 0 <= k < n /\ name_of (get d a k) = s).
      { destruct Hin as [Hin|[<-|[]]]; [apply Hcover; exact Hin|].
        exists i. split; [lia|exact Hhit]. }
      destruct Hold' as (k & Hk & Ek). exists k. split; [lia|].
      destruct (Z.eq_dec k i) as [->|Hne].
      * rewrite get_upd_same by lia. now rewrite bump_name.
      * now rewrite get_upd_other by congruence.
Qed.

(** Entering a name leaves the entries behind the table alone. *)
Lemma enter_name_rest a n max name a' n' :
  0 <= n ->
  enter_name d name_of fresh bump name a n max = Some (a', n') ->
  n <= n' <= n + 1 /\ forall k, n' <= k -> get d a' k = get d a k.
Proof.
  intros Hn. unfold enter_name.
  destruct (find_name_spec name a n Hn) as (Hb & _ & _).
  set (i := find_name d name_of name a n) in *.
  destruct (Z.leb_spec n i) as [Hnew|Hold].
  - destruct (Z.leb_spec max (n + 1)) as [|Hroom]; [discriminate|].
    intros E. injection E as <- <-. split; [lia|].
    intros k Hk. rewrite get_upd_other by lia. reflexivity.
  - intros E. injection E as <- <-. split; [lia|].
    intros k Hk. rewrite get_upd_other by lia. reflexivity.
Qed.
End NameTableFacts.

(** ** The first pass: counting *)

(** The group name and the list name of a record. *)
Definition group_of (w : list String.string) : String.string := nth 1 w String.EmptyString.
Definition list_of (w : list String.string) : String.string := nth 2 w String.EmptyString.

Definition groups_table : list GROUP_STRUCT -> Z -> list String.string -> Prop :=
  table_ok no_group group_name itemNum.
Definition lists_table : list LIST_STRUCT -> Z -> list String.string -> Prop :=
  table_ok no_list list_name list_itemNum.

(** The counters after the records [done]. *)
Definition tally_ok (maxGroupNum maxListNum : Z) (groups : list GROUP_STRUCT)
           (lists : list LIST_STRUCT) (done : list (list String.string)) (t : tally) : Prop :=
  groups_table (t_groups t) (tmpGroupNum t) (map group_of done) /\
  tmpGroupNum t < maxGroupNum /\ length (t_groups t) = length groups /\
  lists_table (t_lists t) (tmpListNum t) (map list_of done) /\
  tmpListNum t < maxListNum /\ length (t_lists t) = length lists /\
  totalItemNum t = Z.of_nat (length done).

Lemma count_record_ok maxGroupNum maxListNum groups lists done w t t' :
  maxGroupNum <= Z.of_nat (length groups) -> maxListNum <= Z.of_nat (length lists) ->
  tally_ok maxGroupNum maxListNum groups lists done t ->
  count_record maxGroupNum maxListNum w t = Some t' ->
  tally_ok maxGroupNum maxListNum groups lists (done ++ [w]) t'.
Proof.
  intros HcapG HcapL (HG & HGmax & HGlen & HL & HLmax & HLlen & Htot).
  unfold count_record. fold (group_of w). fold (list_of w).
  destruct (enter_name no_group group_name _ _ (group_of w) (t_groups t) (tmpGroupNum t)
                       maxGroupNum) as [[gs G]|] eqn:EG; [|discriminate].
  destruct (enter_name no_list list_name _ _ (list_of w) (t_lists t) (tmpListNum t)
                       maxListNum) as [[ls L]|] eqn:EL; [|discriminate].
  intros E. injection E as <-. unfold tally_ok. cbn [t_groups t_lists tmpGroupNum tmpListNum totalItemNum].
  rewrite !map_app. cbn [map].
  destruct (enter_name_ok no_group group_name itemNum
              (fun g name => set_itemNum (set_group_name g name) 1)
              (fun g => set_itemNum g (itemNum g + 1))
              (fun x s => eq_refl) (fun x s => eq_refl) (fun x => eq_refl) (fun x => eq_refl)
              _ _ _ _ _ _ _ HG HGmax ltac:(lia) EG) as (HG' & HGmax' & HGlen').
  destruct (enter_name_ok no_list list_name list_itemNum
              (fun l name => set_list_itemNum (set_list_name l name) 1)
              (fun l => set_list_itemNum l (list_itemNum l + 1))
              (fun x s => eq_refl) (fun x s => eq_refl) (fun x => eq_refl) (fun x => eq_refl)
              _ _ _ _ _ _ _ HL HLmax ltac:(lia) EL) as (HL' & HLmax' & HLlen').
  split; [exact HG'|]. split; [exact HGmax'|]. split; [congruence|].
  split; [exact HL'|]. split; [exact HLmax'|]. split; [congruence|].
  rewrite length_app. cbn [length]. lia.
Qed.

Lemma count_records_ok maxGroupNum maxListNum groups lists rows t :
  0 < maxGroupNum <= Z.of_nat (length groups) ->
  0 < maxListNum <= Z.of_nat (length lists) ->
  fold_records (count_record maxGroupNum maxListNum) rows
    {| t_groups := groups; t_lists := lists;
       tmpGroupNum := 0; tmpListNum := 0; totalItemNum := 0 |} = Some t ->
  tally_ok maxGroupNum maxListNum groups lists rows t.
Proof.
  intros HG HL.
  apply (fold_records_some (count_record maxGroupNum maxListNum) rows
           (tally_ok maxGroupNum maxListNum groups lists)).
  - unfold tally_ok. cbn.
    split; [apply table_ok_nil|]. split; [lia|]. split; [reflexivity|].
    split; [apply table_ok_nil|]. split; [lia|]. split; reflexivity.
  - intros done w todo s s' _ Hinv Es.
    eapply count_record_ok; try eassumption; lia.
Qed.

(** ** The allocation loops *)

Lemma alloc_items_spec groups n :
  0 <= n <= Z.of_nat (length groups) ->
  length (alloc_items groups n) = length groups /\
  (forall k, 0 <= k < n ->
     get no_group (alloc_items groups n) k =
       set_itemNum (set_items (get no_group groups k)
                              (malloc_items (itemNum (get no_group groups k)))) 0) /\
  (forall k, n <= k -> get no_group (alloc_items groups n) k = get no_group groups k).
Proof.
  intros Hn. unfold alloc_items.
  set (body := fun (i : Z) (gs : list GROUP_STRUCT) =>
                 upd gs i (set_itemNum (set_items (get no_group gs i)
                             (malloc_items (itemNum (get no_group gs i)))) 0)).
  pose (P := fun (k : Z) (gs : list GROUP_STRUCT) =>
       length gs = length groups /\
       (forall m, 0 <= m < k ->
          get no_group gs m =
            set_itemNum (set_items (get no_group groups m)
                           (malloc_items (itemNum (get no_group groups m)))) 0) /\
       (forall m, k <= m -> get no_group gs m = get no_group groups m)).
  apply (for_range_inv P); subst P; cbn beta; [lia| |].
  - split; [reflexivity|]. split; [intros; lia|reflexivity].
  - intros k gs Hk (HL & Hdone & Hrest). unfold body.
    split; [now rewrite length_upd|]. split.
    + intros m Hm. destruct (Z.eq_dec m k) as [->|Hne].
      * rewrite get_upd_same by lia. now rewrite (Hrest k) by lia.
      * rewrite get_upd_other by congruence. apply Hdone. lia.
    + intros m Hm. rewrite get_upd_other by lia. apply Hrest. lia.
Qed.

Lemma alloc_values_spec lists n :
  0 <= n <= Z.of_nat (length lists) ->
  length (alloc_values lists n) = length lists /\
  (forall k, 0 <= k < n ->
     get no_list (alloc_values lists n) k =
       set_list_itemNum (set_values (get no_list lists k)
                           (malloc_double (list_itemNum (get no_list lists k)))) 0) /\
  (forall k, n <= k -> get no_list (alloc_values lists n) k = get no_list lists k).
Proof.
  intros Hn. unfold alloc_values.
  set (body := fun (i : Z) (ls : list LIST_STRUCT) =>
                 upd ls i (set_list_itemNum (set_values (get no_list ls i)
                             (malloc_double (list_itemNum (get no_list ls i)))) 0)).
  pose (P := fun (k : Z) (ls : list LIST_STRUCT) =>
       length ls = length lists /\
       (forall m, 0 <= m < k ->
          get no_list ls m =
            set_list_itemNum (set_values (get no_list lists m)
                                (malloc_double (list_itemNum (get no_list lists m)))) 0) /\
       (forall m, k <= m -> get no_list ls m = get no_list lists m)).
  apply (for_range_inv P); subst P; cbn beta; [lia| |].
  - split; [reflexivity|]. split; [intros; lia|reflexivity].
  - intros k ls Hk (HL & Hdone & Hrest). unfold body.
    split; [now rewrite length_upd|]. split.
    + intros m Hm. destruct (Z.eq_dec m k) as [->|Hne].
      * rewrite get_upd_same by lia. now rewrite (Hrest k) by lia.
      * rewrite get_upd_other by congruence. apply Hdone. lia.
    + intros m Hm. rewrite get_upd_other by lia. apply Hrest. lia.
Qed.

(** ** The second pass: storing *)

Section SecondPass.
Context `{TextServices}.
Variable t : tally.
Variable rows : list (list String.string).
Hypothesis groups_counted :
  groups_table (t_groups t) (tmpGroupNum t) (map group_of rows).
Hypothesis lists_counted :
  lists_table (t_lists t) (tmpListNum t) (map list_of rows).

(** The value [v] is stored among the first [list_itemNum] values of the
    list [j]. *)
Definition value_stored (lists : list LIST_STRUCT) (j : Z) (v : double) : Prop :=
  exists m, 0 <= m < list_itemNum (get no_list lists j) /\
            get 0%Q (values (get no_list lists j)) m = v.

(** The arrays after the records [done] of the second pass: every group
    and every list has room for all its records and holds those read so
    far; every stored item points to a list that holds its value. *)
Definition stored (done : list (list String.string))
           (st : list GROUP_STRUCT * list LIST_STRUCT) : Prop :=
  length (fst st) = length (t_groups t) /\
  length (snd st) = length (t_lists t) /\
  (forall k, 0 <= k < tmpGroupNum t ->
     group_name (get no_group (fst st) k) = group_name (get no_group (t_groups t) k) /\
     itemNum (get no_group (fst st) k) =
       occurrences (group_name (get no_group (t_groups t) k)) (map group_of done) /\
     Z.of_nat (length (items (get no_group (fst st) k))) =
       itemNum (get no_group (t_groups t) k) /\
     forall m, 0 <= m < itemNum (get no_group (fst st) k) ->
       0 <= listIndex (get no_item (items (get no_group (fst st) k)) m) < tmpListNum t /\
       value_stored (snd st)
         (listIndex (get no_item (items (get no_group (fst st) k)) m))
         (value (get no_item (items (get no_group (fst st) k)) m))) /\
  (forall j, 0 <= j < tmpListNum t ->
     list_name (get no_list (snd st) j) = list_name (get no_list (t_lists t) j) /\
     list_itemNum (get no_list (snd st) j) =
       occurrences (list_name (get no_list (t_lists t) j)) (map list_of done) /\
     Z.of_nat (length (values (get no_list (snd st) j))) =
       list_itemNum (get no_list (t_lists t) j)).

Lemma stored_after_alloc :
  stored [] (alloc_items (t_groups t) (tmpGroupNum t),
             alloc_values (t_lists t) (tmpListNum t)).
Proof using groups_counted lists_counted.
  destruct groups_counted as (HGn & _ & HGc & _).
  destruct lists_counted as (HLn & _ & HLc & _).
  destruct (alloc_items_spec (t_groups t) (tmpGroupNum t) HGn) as (LG & HG & _).
  destruct (alloc_values_spec (t_lists t) (tmpListNum t) HLn) as (LL & HL & _).
  unfold stored. cbn [fst snd map].
  split; [exact LG|]. split; [exact LL|]. split.
  - intros k Hk. rewrite (HG k Hk). cbn [group_name itemNum items set_itemNum set_items].
    destruct (HGc k Hk) as [_ Hpos].
    split; [reflexivity|]. split; [reflexivity|]. split.
    + unfold malloc_items. rewrite repeat_length. lia.
    + intros m Hm. lia.
  - intros j Hj. rewrite (HL j Hj).
    cbn [list_name list_itemNum values set_list_itemNum set_values].
    destruct (HLc j Hj) as [_ Hpos].
    split; [reflexivity|]. split; [reflexivity|].
    unfold malloc_double. rewrite repeat_length. lia.
Qed.

(** A name of a record is found in a table that has the names of the
    counted table. *)
Lemma find_counted {A : Type} (d : A) (name_of : A -> String.string) (count_of : A -> Z)
      (a0 a : list A) (n : Z) (seen : list String.string) (name : String.string) :
  table_ok d name_of count_of a0 n seen ->
  (forall k, 0 <= k < n -> name_of (get d a k) = name_of (get d a0 k)) ->
  In name seen ->
  0 <= find_name d name_of name a n < n /\
  name_of (get d a0 (find_name d name_of name a n)) = name.
Proof using Type.
  intros (Hn & _ & _ & Hcover) Hnames Hin.
  destruct (find_name_spec d name_of name a n ltac:(lia)) as (Hb & Hlow & Hhit).
  destruct (Hcover _ Hin) as (k & Hk & Ek).
  assert (Hlt : find_name d name_of name a n < n).
  { destruct (Z.lt_ge_cases (find_name d name_of name a n) n) as [|Hge]; [assumption|].
    exfalso. apply (Hlow k); [lia|]. rewrite Hnames by lia. exact Ek. }
  split; [lia|]. rewrite <- Hnames by lia. apply Hhit. exact Hlt.
Qed.

Lemma store_record_ok done w todo st :
  rows = done ++ w :: todo -> stored done st ->
  exists st', store_record (tmpGroupNum t) (tmpListNum t) w st = Some st' /\
              stored (done ++ [w]) st'.
Proof using groups_counted lists_counted.
  intros Hrows (LG & LL & HG & HL). destruct st as [gs ls]. cbn [fst snd] in *.
  unfold store_record. fold (group_of w). fold (list_of w).
  set (v := atof (nth 3 w String.EmptyString)).
  set (nm := nth 0 w String.EmptyString).
  assert (HinG : In (group_of w) (map group_of rows)).
  { rewrite Hrows, map_app. apply in_or_app. right. left. reflexivity. }
  assert (HinL : In (list_of w) (map list_of rows)).
  { rewrite Hrows, map_app. apply in_or_app. right. left. reflexivity. }
  destruct (find_counted no_group group_name itemNum (t_groups t) gs (tmpGroupNum t)
              _ (group_of w) groups_counted (fun k Hk => proj1 (HG k Hk)) HinG)
    as (Hi & Ei).
  destruct (find_counted no_list list_name list_itemNum (t_lists t) ls (tmpListNum t)
              _ (list_of w) lists_counted (fun k Hk => proj1 (HL k Hk)) HinL)
    as (Hj & Ej).
  set (i := find_name no_group group_name (group_of w) gs (tmpGroupNum t)) in *.
  set (j := find_name no_list list_name (list_of w) ls (tmpListNum t)) in *.
  destruct (Z.ltb_spec i (tmpGroupNum t)) as [_|]; [|lia].
  destruct (Z.ltb_spec j (tmpListNum t)) as [_|]; [|lia].
  cbn [negb].
  destruct groups_counted as (HGn & HGdist & HGc & _).
  destruct lists_counted as (HLn & HLdist & HLc & _).
  set (g := get no_group gs i). set (l := get no_list ls j).
  (* the cursors are inside the arrays *)
  assert (Hrows_occ : forall (f : list String.string -> String.string) name,
            occurrences name (map f rows) =
              occurrences name (map f done) + occurrences name [f w]
              + occurrences name (map f todo)).
  { intros f name. rewrite Hrows, map_app. cbn [map].
    change (f w :: map f todo) with ([f w] ++ map f todo).
    rewrite !occurrences_app. lia. }
  destruct (HG i Hi) as (Gname & Gnum & Glen & Gitems). fold g in Gname, Gnum, Glen, Gitems.
  destruct (HL j Hj) as (Lname & Lnum & Llen). fold l in Lname, Lnum, Llen.
  assert (Hgcur : 0 <= itemNum g < Z.of_nat (length (items g))).
  { rewrite Gnum, Glen. destruct (HGc i Hi) as [-> _].
    rewrite (Hrows_occ group_of), occurrences_one, Ei, String.eqb_refl.
    pose proof (occurrences_nonneg (group_of w) (map group_of done)).
    pose proof (occurrences_nonneg (group_of w) (map group_of todo)). lia. }
  assert (Hlcur : 0 <= list_itemNum l < Z.of_nat (length (values l))).
  { rewrite Lnum, Llen. destruct (HLc j Hj) as [-> _].
    rewrite (Hrows_occ list_of), occurrences_one, Ej, String.eqb_refl.
    pose proof (occurrences_nonneg (list_of w) (map list_of done)).
    pose proof (occurrences_nonneg (list_of w) (map list_of todo)). lia. }
  rewrite Ei in Gname, Gnum. rewrite Ej in Lname, Lnum.
  eexists. split; [reflexivity|].
  set (ls' := upd ls j (set_list_itemNum
                          (set_values l (upd (values l) (list_itemNum l) v))
                          (list_itemNum l + 1))).
  (* what was stored in a list stays stored *)
  assert (Hkeep : forall j0 v0, value_stored ls j0 v0 -> value_stored ls' j0 v0).
  { intros j0 v0 (m & Hm & Em). exists m. unfold ls'.
    destruct (Z.eq_dec j0 j) as [->|Hne].
    - rewrite get_upd_same by lia. fold l in Hm, Em.
      cbn [list_itemNum values set_list_itemNum set_values].
      split; [lia|]. rewrite get_upd_other by lia. exact Em.
    - rewrite get_upd_other by congruence. split; assumption. }
  assert (Hnew : value_stored ls' j v).
  { exists (list_itemNum l). unfold ls'. rewrite get_upd_same by lia.
    cbn [list_itemNum values set_list_itemNum set_values].
    split; [lia|]. apply get_upd_same. lia. }
  unfold stored. cbn [fst snd]. fold ls'.
  split; [now rewrite length_upd|]. split; [unfold ls'; now rewrite length_upd|].
  rewrite !map_app. cbn [map]. split.
  - intros k Hk. rewrite occurrences_app, occurrences_one.
    destruct (Z.eq_dec k i) as [->|Hne].
    + rewrite get_upd_same by lia.
      cbn [group_name itemNum items set_itemNum set_items].
      rewrite Ei, String.eqb_refl, length_upd.
      split; [exact Gname|]. split; [rewrite Gnum; reflexivity|].
      split; [exact Glen|].
      intros m Hm. destruct (Z.eq_dec m (itemNum g)) as [->|Hm'].
      * rewrite get_upd_same by lia. cbn [listIndex value].
        split; [lia|exact Hnew].
      * rewrite get_upd_other by congruence.
        destruct (Gitems m ltac:(lia)) as [Hidx Hst]. split; [exact Hidx|].
        apply Hkeep. exact Hst.
    + rewrite get_upd_other by congruence.
      destruct (HG k Hk) as (Kname & Knum & Klen & Kitems).
      destruct (String.eqb_spec (group_of w) (group_name (get no_group (t_groups t) k)))
        as [E|E].
      { exfalso. apply Hne. apply HGdist; try lia. congruence. }
      split; [exact Kname|]. split; [lia|]. split; [exact Klen|].
      intros m Hm. destruct (Kitems m Hm) as [Hidx Hst]. split; [exact Hidx|].
      apply Hkeep. exact Hst.
  - intros j0 Hj0. rewrite occurrences_app, occurrences_one. unfold ls'.
    destruct (Z.eq_dec j0 j) as [->|Hne].
    + rewrite get_upd_same by lia.
      cbn [list_name list_itemNum values set_list_itemNum set_values].
      rewrite Ej, String.eqb_refl, length_upd.
      split; [exact Lname|]. split; [rewrite Lnum; reflexivity|exact Llen].
    + rewrite get_upd_other by congruence.
      destruct (HL j0 Hj0) as (Kname & Knum & Klen).
      destruct (String.eqb_spec (list_of w) (list_name (get no_list (t_lists t) j0)))
        as [E|E].
      { exfalso. apply Hne. apply HLdist; try lia. congruence. }
      split; [exact Kname|]. split; [lia|exact Klen].
Qed.

(** The second loop completes: its assertions hold at every record. *)
Lemma store_records_ok :
  exists st,
    fold_records (store_record (tmpGroupNum t) (tmpListNum t)) rows
      (alloc_items (t_groups t) (tmpGroupNum t),
       alloc_values (t_lists t) (tmpListNum t)) = Some st /\
    stored rows st.
Proof using groups_counted lists_counted.
  apply (fold_records_total (store_record (tmpGroupNum t) (tmpListNum t)) rows stored).
  - exact stored_after_alloc.
  - intros done w todo st Hrows Hst. eapply store_record_ok; eassumption.
Qed.
End SecondPass.

(** ** [ReadFile] as a function of the records *)

Section ReadFileFacts.
Context `{TextServices}.

(** The words of the first line of a file. *)
Definition header_words (contents : String.string) : list String.string :=
  words (read_next {| fh := {| unread := contents; eof := false |};
                      tmpS := String.EmptyString |}).

(** Both passes read the same records. *)
Lemma ReadFile_run fs fileName groups maxGroupNum lists maxListNum :
  ReadFile fs fileName groups maxGroupNum lists maxListNum =
    match fs fileName with
    | None => Some ReadFailed
    | Some contents =>
        if negb (Z.of_nat (length (header_words contents)) =? 4) then None else
        match fold_records (count_record maxGroupNum maxListNum)
                (file_records contents String.EmptyString)
                {| t_groups := groups; t_lists := lists;
                   tmpGroupNum := 0; tmpListNum := 0; totalItemNum := 0 |} with
        | None => Some ReadFailed
        | Some t =>
            match fold_records (store_record (tmpGroupNum t) (tmpListNum t))
                    (file_records contents String.EmptyString)
                    (alloc_items (t_groups t) (tmpGroupNum t),
                     alloc_values (t_lists t) (tmpListNum t)) with
            | Some (groups, lists) =>
                Some (ReadDone (totalItemNum t) groups (tmpGroupNum t)
                               lists (tmpListNum t))
            | None => None
            end
        end
    end.
Proof.
  unfold ReadFile, fopen. destruct (fs fileName) as [contents|]; [|reflexivity].
  cbv zeta.
  set (r1 := read_next {| fh := {| unread := contents; eof := false |};
                          tmpS := String.EmptyString |}).
  change (wordNum r1) with (Z.of_nat (length (header_words contents))).
  destruct (negb (Z.of_nat (length (header_words contents)) =? 4)); [reflexivity|].
  change (file_records contents String.EmptyString) with (records (read_next r1)).
  rewrite <- (read_records_fold (count_record maxGroupNum maxListNum)).
  destruct (read_records (count_record maxGroupNum maxListNum) _ _) as [[r t]|];
    [|reflexivity].
  cbn [option_map snd].
  change (records (read_next r1)) with (file_records contents String.EmptyString).
  rewrite (file_records_buffer contents String.EmptyString (tmpS r)).
  unfold file_records.
  rewrite <- (read_records_fold (store_record (tmpGroupNum t) (tmpListNum t))).
  destruct (read_records (store_record (tmpGroupNum t) (tmpListNum t)) _ _)
    as [[r' [gs ls]]|]; reflexivity.
Qed.

(** What a completed call has built. *)
Lemma ReadFile_done fs fileName groups maxGroupNum lists maxListNum
      total groups' groupNum lists' listNum :
  0 < maxGroupNum <= Z.of_nat (length groups) ->
  0 < maxListNum <= Z.of_nat (length lists) ->
  ReadFile fs fileName groups maxGroupNum lists maxListNum =
    Some (ReadDone total groups' groupNum lists' listNum) ->
  exists contents t,
    fs fileName = Some contents /\
    tally_ok maxGroupNum maxListNum groups lists
             (file_records contents String.EmptyString) t /\
    stored t (file_records contents String.EmptyString) (groups', lists') /\
    total = totalItemNum t /\ groupNum = tmpGroupNum t /\ listNum = tmpListNum t.
Proof.
  intros HG HL. rewrite ReadFile_run.
  destruct (fs fileName) as [contents|]; [|discriminate].
  destruct (negb _); [discriminate|].
  set (rows := file_records contents String.EmptyString).
  destruct (fold_records (count_record maxGroupNum maxListNum) rows _) as [t|] eqn:E1;
    [|discriminate].
  pose proof (count_records_ok _ _ _ _ _ _ HG HL E1) as Ht.
  pose proof Ht as (TG & TGmax & TGlen & TL & TLmax & TLlen & Ttot).
  destruct (store_records_ok t rows TG TL) as (st & E2 & Hst).
  rewrite E2. destruct st as [gs ls]. intros E. injection E as <- <- <- <- <-.
  exists contents, t. split; [reflexivity|].
  split; [exact Ht|]. split; [exact Hst|]. repeat split.
Qed.
End ReadFileFacts.

(** No two of the first [n] entries have the same name. *)
Definition distinct_names {A : Type} (d : A) (name_of : A -> String.string)
           (a : list A) (n : Z) : Prop :=
  forall k1 k2, 0 <= k1 < n -> 0 <= k2 < n ->
    name_of (get d a k1) = name_of (get d a k2) -> k1 = k2.

(** What [ReadFile] hands to the statistics, shown from what a completed
    call has stored. *)
Lemma stored_input t rows groups' lists' maxGroupNum maxListNum groups lists :
  tally_ok maxGroupNum maxListNum groups lists rows t ->
  stored t rows (groups', lists') ->
  0 <= tmpGroupNum t < maxGroupNum /\ 0 <= tmpListNum t < maxListNum /\
  totalItemNum t = Z.of_nat (length rows) /\
  (0 < totalItemNum t -> 0 < tmpGroupNum t) /\
  length groups' = length groups /\ length lists' = length lists /\
  (forall i, 0 <= i < tmpGroupNum t ->
     0 < itemNum (get no_group groups' i) /\
     itemNum (get no_group groups' i) =
       Z.of_nat (length (items (get no_group groups' i))) /\
     forall j, 0 <= j < itemNum (get no_group groups' i) ->
       0 <= listIndex (get no_item (items (get no_group groups' i)) j) < tmpListNum t /\
       In (value (get no_item (items (get no_group groups' i)) j))
          (values (get no_list lists'
                       (listIndex (get no_item (items (get no_group groups' i)) j))))) /\
  (forall k, 0 <= k < tmpListNum t ->
     0 < list_itemNum (get no_list lists' k) /\
     list_itemNum (get no_list lists' k) =
       Z.of_nat (length (values (get no_list lists' k)))) /\
  distinct_names no_group group_name groups' (tmpGroupNum t) /\
  distinct_names no_list list_name lists' (tmpListNum t).
Proof.
  intros (TG & TGmax & TGlen & TL & TLmax & TLlen & Ttot) (SLG & SLL & SG & SL).
  cbn [fst snd] in *.
  destruct TG as (TGn & TGdist & TGc & TGcover).
  destruct TL as (TLn & TLdist & TLc & TLcover).
  assert (HLok : forall k, 0 <= k < tmpListNum t ->
     0 < list_itemNum (get no_list lists' k) /\
     list_itemNum (get no_list lists' k) =
       Z.of_nat (length (values (get no_list lists' k)))).
  { intros k Hk. destruct (SL k Hk) as (_ & Lnum & Llen).
    destruct (TLc k Hk) as [Lc Lpos]. lia. }
  split; [lia|]. split; [lia|]. split; [exact Ttot|]. split.
  { intros Hpos. destruct rows as [|w rows]; [cbn in Ttot; lia|].
    destruct (TGcover (group_of w) ltac:(left; reflexivity)) as (k & Hk & _). lia. }
  split; [congruence|]. split; [congruence|]. split.
  { intros i Hi. destruct (SG i Hi) as (_ & Gnum & Glen & Gitems).
    destruct (TGc i Hi) as [Gc Gpos].
    split; [lia|]. split; [lia|].
    intros j Hj. destruct (Gitems j Hj) as [Hidx (m & Hm & Em)].
    split; [exact Hidx|]. rewrite <- Em. apply get_In.
    destruct (HLok _ Hidx) as [_ E]. lia. }
  split; [exact HLok|]. split.
  - intros k1 k2 Hk1 Hk2.
    destruct (SG k1 Hk1) as (-> & _). destruct (SG k2 Hk2) as (-> & _).
    apply TGdist; assumption.
  - intros k1 k2 Hk1 Hk2.
    destruct (SL k1 Hk1) as (-> & _). destruct (SL k2 Hk2) as (-> & _).
    apply TLdist; assumption.
Qed.

Lemma length_firstn_le {A : Type} (a : list A) (n : Z) :
  0 <= n <= Z.of_nat (length a) -> Z.of_nat (length (firstn (Z.to_nat n) a)) = n.
Proof. intros Hn. rewrite length_firstn. lia. Qed.

(** X10: the ingestion invariant.  When [ReadFile] returns a count, on
    arrays of the advertised capacities, the count is the number of
    records read, [groupNum < maxGroupNum] and [listNum < maxListNum];
    every group and every list has a distinct name and at least one
    entry, [itemNum] is the length of the array allocated for it, every
    item points to one of the [listNum] lists, and its value is among the
    values of that list.  The first [groupNum] groups and [listNum] lists
    are therefore well-formed input of [ProcessGroups]. *)
Theorem ReadFile_builds_input `{TextServices}
        (fs : String.string -> option String.string) (fileName : String.string)
        (groups : list GROUP_STRUCT) (maxGroupNum : Z)
        (lists : list LIST_STRUCT) (maxListNum : Z)
        (total : Z) (groups' : list GROUP_STRUCT) (groupNum : Z)
        (lists' : list LIST_STRUCT) (listNum : Z) :
  0 < maxGroupNum <= Z.of_nat (length groups) ->
  0 < maxListNum <= Z.of_nat (length lists) ->
  ReadFile fs fileName groups maxGroupNum lists maxListNum =
    Some (ReadDone total groups' groupNum lists' listNum) ->
  (exists contents,
     fs fileName = Some contents /\
     total = Z.of_nat (length (file_records contents String.EmptyString))) /\
  0 <= groupNum < maxGroupNum /\ 0 <= listNum < maxListNum /\
  distinct_names no_group group_name groups' groupNum /\
  distinct_names no_list list_name lists' listNum /\
  lists_ok (firstn (Z.to_nat listNum) lists') listNum /\
  (0 < total -> groups_ok (firstn (Z.to_nat groupNum) groups') groupNum listNum) /\
  (forall i j, 0 <= i < groupNum -> 0 <= j < itemNum (get no_group groups' i) ->
     let it := get no_item (items (get no_group groups' i)) j in
     In (value it) (values (get no_list lists' (listIndex it)))).
Proof.
  intros HG HL E.
  destruct (ReadFile_done _ _ _ _ _ _ _ _ _ _ _ HG HL E)
    as (contents & t & Efs & Ht & Hst & -> & -> & ->).
  destruct (stored_input _ _ _ _ _ _ _ _ Ht Hst)
    as (HGn & HLn & Htot & Hpos & LG & LL & HGok & HLok & DG & DL).
  split; [exists contents; split; assumption|].
  split; [exact HGn|]. split; [exact HLn|]. split; [exact DG|]. split; [exact DL|].
  assert (HcapG : 0 <= tmpGroupNum t <= Z.of_nat (length groups')) by lia.
  assert (HcapL : 0 <= tmpListNum t <= Z.of_nat (length lists')) by lia.
  split; [|split].
  - split; [symmetry; apply length_firstn_le; exact HcapL|].
    intros k Hk. rewrite get_firstn by lia. apply HLok. exact Hk.
  - intros Htotal. split; [symmetry; apply length_firstn_le; exact HcapG|].
    split; [apply Hpos; exact Htotal|].
    intros i Hi. rewrite get_firstn by lia.
    destruct (HGok i Hi) as (Ipos & Ilen & Iitems).
    split; [exact Ipos|]. split; [exact Ilen|].
    intros j Hj. apply Iitems. exact Hj.
  - intros i j Hi Hj it. apply (HGok i Hi). exact Hj.
Qed.

(** A small input file: a header and three records of two groups and two
    lists. *)
Definition line_end : String.string := String.String newline String.EmptyString.

Definition demo_file : String.string :=
  String.concat line_end
    ["item group list value"; "a g1 L1 0.5"; "b g1 L2 3"; "c g2 L1 -2.25"; ""]%string.

Definition demo_fs (fileName : String.string) : option String.string :=
  if String.eqb fileName "in.txt"%string then Some demo_file else None.

Definition demo_groups : list GROUP_STRUCT :=
  Eval vm_compute in
    match @ReadFile PlainText demo_fs "in.txt"%string
                    (repeat no_group 5) 5 (repeat no_list 4) 4 with
    | Some (ReadDone _ groups _ _ _) => groups
    | _ => []
    end.

Definition demo_lists : list LIST_STRUCT :=
  Eval vm_compute in
    match @ReadFile PlainText demo_fs "in.txt"%string
                    (repeat no_group 5) 5 (repeat no_list 4) 4 with
    | Some (ReadDone _ _ _ lists _) => lists
    | _ => []
    end.

Lemma demo_read :
  @ReadFile PlainText demo_fs "in.txt"%string (repeat no_group 5) 5 (repeat no_list 4) 4
    = Some (ReadDone 3 demo_groups 2 demo_lists 2).
Proof. vm_compute. reflexivity. Qed.

Lemma ReadFile_builds_input_witness :
  (exists contents,
     demo_fs "in.txt"%string = Some contents /\
     3 = Z.of_nat (length (@file_records PlainText contents String.EmptyString))) /\
  0 <= 2 < 5 /\ 0 <= 2 < 4 /\
  distinct_names no_group group_name demo_groups 2 /\
  distinct_names no_list list_name demo_lists 2 /\
  lists_ok (firstn (Z.to_nat 2) demo_lists) 2 /\
  (0 < 3 -> groups_ok (firstn (Z.to_nat 2) demo_groups) 2 2) /\
  (forall i j, 0 <= i < 2 -> 0 <= j < itemNum (get no_group demo_groups i) ->
     let it := get no_item (items (get no_group demo_groups i)) j in
     In (value it) (values (get no_list demo_lists (listIndex it)))).
Proof.
  apply (@ReadFile_builds_input PlainText demo_fs "in.txt"%string
           (repeat no_group 5) 5 (repeat no_list 4) 4 3 demo_groups 2 demo_lists 2).
  - cbn. lia.
  - cbn. lia.
  - exact demo_read.
Defined.

(** X11: the only assertion of [ReadFile] that can fail is the one on
    the header.  On arrays of the advertised capacities the call is
    stopped by an assertion exactly when the file can be opened and its
    first line does not have four words; the assertions of lines 385-386,
    on the names looked up in the second pass, always hold. *)
Theorem ReadFile_aborts_iff `{TextServices}
        (fs : String.string -> option String.string) (fileName : String.string)
        (groups : list GROUP_STRUCT) (maxGroupNum : Z)
        (lists : list LIST_STRUCT) (maxListNum : Z) :
  0 < maxGroupNum <= Z.of_nat (length groups) ->
  0 < maxListNum <= Z.of_nat (length lists) ->
  (ReadFile fs fileName groups maxGroupNum lists maxListNum = None <->
   exists contents, fs fileName = Some contents /\
                    Z.of_nat (length (header_words contents)) <> 4).
Proof.
  intros HG HL. rewrite ReadFile_run.
  destruct (fs fileName) as [contents|].
  - destruct (Z.eqb_spec (Z.of_nat (length (header_words contents))) 4) as [E4|E4];
      cbn [negb].
    + split; [|intros (c & Ec & Hc); injection Ec as <-; contradiction].
      set (rows := file_records contents String.EmptyString).
      destruct (fold_records (count_record maxGroupNum maxListNum) rows _)
        as [t|] eqn:E1; [|discriminate].
      destruct (count_records_ok _ _ _ _ _ _ HG HL E1)
        as (TG & _ & _ & TL & _).
      destruct (store_records_ok t rows TG TL) as ([gs ls] & E2 & _).
      rewrite E2. discriminate.
    + split; [|reflexivity]. intros _. exists contents. split; [reflexivity|exact E4].
  - split; [discriminate|]. intros (c & Ec & _). discriminate.
Qed.

Definition headless_fs (fileName : String.string) : option String.string :=
  if String.eqb fileName "in.txt"%string then Some "item group value"%string else None.

Lemma ReadFile_aborts_iff_witness :
  @ReadFile PlainText headless_fs "in.txt"%string
            (repeat no_group 5) 5 (repeat no_list 4) 4 = None <->
  exists contents, headless_fs "in.txt"%string = Some contents /\
                   Z.of_nat (length (@header_words PlainText contents)) <> 4.
Proof.
  apply (@ReadFile_aborts_iff PlainText headless_fs "in.txt"%string
           (repeat no_group 5) 5 (repeat no_list 4) 4); cbn; lia.
Defined.

(** ** Which lines of a file are records *)

Local Infix "+++" := String.append (at level 60, right associativity).

(** The string has a newline character. *)
Fixpoint has_newline (s : String.string) : bool :=
  match s with
  | String.EmptyString => false
  | String.String c s' => Ascii.eqb c newline || has_newline s'
  end.

(** The string is empty or its last character is a newline. *)
Fixpoint ends_with_newline (s : String.string) : bool :=
  match s with
  | String.EmptyString => true
  | String.String c s' =>
      match s' with
      | String.EmptyString => Ascii.eqb c newline
      | _ => ends_with_newline s'
      end
  end.

(** A call of [fgets] inside text that ends with a newline reads the
    same characters whatever follows the text, and stops inside it. *)
Lemma read_line_terminated : forall x n,
  0 < n -> x <> String.EmptyString -> ends_with_newline x = true ->
  exists l r,
    ends_with_newline r = true /\ (String.length r < String.length x)%nat /\
    forall u, read_line n (x +++ u) = (l, r +++ u, false).
Proof.
  induction x as [|c x IH]; intros n Hn Hx Hend; [congruence|].
  destruct (Ascii.eqb c newline) eqn:Ec.
  - exists (String.String c String.EmptyString), x.
    split; [destruct x; [reflexivity|exact Hend]|].
    split; [cbn [String.length]; lia|].
    intros u. cbn [String.append read_line].
    destruct (Z.leb_spec n 0); [lia|]. now rewrite Ec.
  - destruct x as [|c' x'].
    { cbn [ends_with_newline] in Hend. congruence. }
    destruct (Z.leb_spec (n - 1) 0) as [Hle|Hgt].
    + exists (String.String c String.EmptyString), (String.String c' x').
      split; [exact Hend|]. split; [cbn [String.length]; lia|].
      intros u. cbn [String.append read_line].
      destruct (Z.leb_spec n 0); [lia|]. rewrite Ec.
      destruct (Z.leb_spec (n - 1) 0); [reflexivity|lia].
    + destruct (IH (n - 1) Hgt ltac:(discriminate) Hend) as (l & r & Hr & Hlen & Hread).
      exists (String.String c l), r.
      split; [exact Hr|]. split; [cbn [String.length] in *; lia|].
      intros u. specialize (Hread u).
      change (String.String c (String.String c' x') +++ u)
        with (String.String c (String.String c' x' +++ u)).
      rewrite (ltac:(reflexivity) :
        read_line n (String.String c (String.String c' x' +++ u)) =
          if n <=? 0 then (String.EmptyString, String.String c (String.String c' x' +++ u), false)
          else if Ascii.eqb c newline
               then (String.String c String.EmptyString, String.String c' x' +++ u, false)
               else let '(l, r, e) := read_line (n - 1) (String.String c' x' +++ u) in
                    (String.String c l, r, e)).
      destruct (Z.leb_spec n 0); [lia|]. rewrite Ec, Hread. reflexivity.
Qed.

(** A whole line that fits the buffer is read in one call. *)
Lemma read_line_whole : forall line n u,
  has_newline line = false -> Z.of_nat (String.length line) < n ->
  read_line n (line +++ String.String newline u) =
    (line +++ String.String newline String.EmptyString, u, false).
Proof.
  induction line as [|c line IH]; intros n u Hnl Hn.
  - cbn [String.append read_line String.length] in *.
    destruct (Z.leb_spec n 0); [lia|]. now rewrite Ascii.eqb_refl.
  - cbn [has_newline] in Hnl. apply orb_false_elim in Hnl. destruct Hnl as [Ec Hnl].
    cbn [String.length] in Hn.
    change (String.String c line +++ String.String newline u)
      with (String.String c (line +++ String.String newline u)).
    rewrite (ltac:(reflexivity) :
      read_line n (String.String c (line +++ String.String newline u)) =
        if n <=? 0
        then (String.EmptyString, String.String c (line +++ String.String newline u), false)
        else if Ascii.eqb c newline
             then (String.String c String.EmptyString, line +++ String.String newline u, false)
             else let '(l, r, e) := read_line (n - 1) (line +++ String.String newline u) in
                  (String.String c l, r, e)).
    destruct (Z.leb_spec n 0); [lia|]. rewrite Ec.
    rewrite (IH (n - 1) u Hnl ltac:(lia)). reflexivity.
Qed.

(** Text without a newline that fits the buffer is read to the end of
    the file. *)
Lemma read_line_to_end : forall t n,
  has_newline t = false -> Z.of_nat (String.length t) < n ->
  read_line n t = (t, String.EmptyString, true).
Proof.
  induction t as [|c t IH]; intros n Hnl Hn.
  - cbn [read_line String.length] in *. destruct (Z.leb_spec n 0); [lia|reflexivity].
  - cbn [has_newline] in Hnl. apply orb_false_elim in Hnl. destruct Hnl as [Ec Hnl].
    cbn [String.length] in Hn.
    rewrite (ltac:(reflexivity) :
      read_line n (String.String c t) =
        if n <=? 0 then (String.EmptyString, String.String c t, false)
        else if Ascii.eqb c newline then (String.String c String.EmptyString, t, false)
             else let '(l, r, e) := read_line (n - 1) t in (String.String c l, r, e)).
    destruct (Z.leb_spec n 0); [lia|]. rewrite Ec.
    rewrite (IH (n - 1) Hnl ltac:(lia)). reflexivity.
Qed.

Section LockStep.
Context `{TextServices}.

(** The reader on a stream that has [contents] left, with the buffer
    [tmp]. *)
Definition at_start (contents tmp : String.string) : line_reader :=
  {| fh := {| unread := contents; eof := false |}; tmpS := tmp |}.

Lemma read_next_terminated x tmp :
  x <> String.EmptyString -> ends_with_newline x = true ->
  exists l r,
    ends_with_newline r = true /\ (String.length r < String.length x)%nat /\
    forall u, read_next (at_start (x +++ u) tmp) = at_start (r +++ u) l.
Proof.
  intros Hx Hend.
  destruct (read_line_terminated x (LINE_SIZE - 1) ltac:(reflexivity) Hx Hend)
    as (l & r & Hr & Hlen & Hread).
  exists l, r. split; [exact Hr|]. split; [exact Hlen|].
  intros u. unfold read_next, fgets, at_start. cbn [fh tmpS unread eof].
  destruct x as [|c x]; [congruence|].
  change (String.String c x +++ u) with (String.String c (x +++ u)).
  change (String.String c (x +++ u)) with (String.String c x +++ u).
  rewrite (Hread u). reflexivity.
Qed.

(** Two streams that agree on text ending with a newline yield the same
    records if they do from the end of that text on. *)
Lemma records_lockstep u1 u2 :
  (forall s, records (at_start u1 s) = records (at_start u2 s)) ->
  forall x s, ends_with_newline x = true ->
    records (at_start (x +++ u1) s) = records (at_start (x +++ u2) s).
Proof.
  intros Hfinal x. remember (String.length x) as n eqn:Hn.
  revert x Hn. induction n as [n IH] using lt_wf_ind. intros x -> s Hend.
  destruct x as [|c x]; [apply Hfinal|].
  rewrite (records_eq (at_start (String.String c x +++ u1) s)).
  rewrite (records_eq (at_start (String.String c x +++ u2) s)).
  change (more_records (at_start (String.String c x +++ u1) s))
    with (more_records (at_start (String.String c x +++ u2) s)).
  destruct (more_records _); [|reflexivity].
  change (words (at_start (String.String c x +++ u1) s))
    with (words (at_start (String.String c x +++ u2) s)).
  f_equal.
  destruct (read_next_terminated (String.String c x) s ltac:(discriminate) Hend)
    as (l & r & Hr & Hlen & Hread).
  rewrite !Hread. apply (IH (String.length r)); [exact Hlen|reflexivity|exact Hr].
Qed.

(** The same for a whole file: the header and the records. *)
Lemma file_lockstep u1 u2 :
  (forall s, records (read_next (at_start u1 s)) = records (read_next (at_start u2 s))) ->
  forall x, x <> String.EmptyString -> ends_with_newline x = true ->
    header_words (x +++ u1) = header_words (x +++ u2) /\
    file_records (x +++ u1) String.EmptyString =
      file_records (x +++ u2) String.EmptyString.
Proof.
  intros Hfinal2 x Hx Hend.
  assert (Hfinal1 : forall s, records (at_start u1 s) = records (at_start u2 s)).
  { intros s. rewrite (records_eq (at_start u1 s)), (records_eq (at_start u2 s)).
    change (more_records (at_start u1 s)) with (more_records (at_start u2 s)).
    destruct (more_records _); [|reflexivity].
    change (words (at_start u1 s)) with (words (at_start u2 s)).
    f_equal. apply Hfinal2. }
  destruct (read_next_terminated x String.EmptyString Hx Hend)
    as (l & r & Hr & Hlen & Hread).
  unfold header_words, file_records.
  change {| fh := {| unread := x +++ u1; eof := false |}; tmpS := String.EmptyString |}
    with (at_start (x +++ u1) String.EmptyString).
  change {| fh := {| unread := x +++ u2; eof := false |}; tmpS := String.EmptyString |}
    with (at_start (x +++ u2) String.EmptyString).
  rewrite !Hread. split; [reflexivity|].
  destruct r as [|c r]; [apply Hfinal2|].
  destruct (read_next_terminated (String.String c r) l ltac:(discriminate) Hr)
    as (l' & r' & Hr' & Hlen' & Hread').
  rewrite !Hread'. apply records_lockstep; assumption.
Qed.

(** [ReadFile] depends on the file through its header and its records. *)
Lemma ReadFile_same_records fs fs' fileName contents contents'
      groups maxGroupNum lists maxListNum :
  fs fileName = Some contents -> fs' fileName = Some contents' ->
  header_words contents = header_words contents' ->
  file_records contents String.EmptyString = file_records contents' String.EmptyString ->
  ReadFile fs fileName groups maxGroupNum lists maxListNum =
    ReadFile fs' fileName groups maxGroupNum lists maxListNum.
Proof.
  intros E E' Hh Hr. rewrite !ReadFile_run, E, E', Hh, Hr. reflexivity.
Qed.
End LockStep.

(** X12: a last line without a line terminator is not read.  If the file
    ends with text that has no newline and is shorter than the line
    buffer, [ReadFile] does exactly what it does on the file without that
    text: [fgets] sets the end-of-file indicator while it reads the line,
    and the loop test [!feof(fh)] then drops the record. *)
Theorem ReadFile_unterminated_line `{TextServices}
        (fs fs' : String.string -> option String.string) (fileName : String.string)
        (contents last : String.string)
        (groups : list GROUP_STRUCT) (maxGroupNum : Z)
        (lists : list LIST_STRUCT) (maxListNum : Z) :
  contents <> String.EmptyString -> ends_with_newline contents = true ->
  has_newline last = false -> Z.of_nat (String.length last) < LINE_SIZE - 1 ->
  fs fileName = Some (contents +++ last) -> fs' fileName = Some contents ->
  ReadFile fs fileName groups maxGroupNum lists maxListNum =
    ReadFile fs' fileName groups maxGroupNum lists maxListNum.
Proof.
  intros Hne Hend Hnl Hlen E E'.
  assert (Econt : contents = contents +++ String.EmptyString).
  { clear. induction contents as [|c s IH]; [reflexivity|].
    cbn [String.append]. now rewrite <- IH. }
  rewrite Econt in E'.
  destruct (file_lockstep last String.EmptyString) with (x := contents)
    as [Hh Hr]; try assumption.
  - intros s. rewrite !records_at_eof; [reflexivity|reflexivity|].
    unfold read_next, fgets, at_start. cbn [fh tmpS unread eof].
    destruct last as [|c t]; [reflexivity|].
    rewrite (read_line_to_end _ _ Hnl Hlen). reflexivity.
  - eapply ReadFile_same_records; eassumption.
Qed.

Definition unterminated_fs (fileName : String.string) : option String.string :=
  if String.eqb fileName "in.txt"%string then Some (demo_file +++ "d g2 L2 7")%string
  else None.

Lemma ReadFile_unterminated_line_witness :
  @ReadFile PlainText unterminated_fs "in.txt"%string
            (repeat no_group 5) 5 (repeat no_list 4) 4 =
    @ReadFile PlainText demo_fs "in.txt"%string
              (repeat no_group 5) 5 (repeat no_list 4) 4.
Proof.
  apply (@ReadFile_unterminated_line PlainText unterminated_fs demo_fs "in.txt"%string
           demo_file "d g2 L2 7"%string).
  - discriminate.
  - reflexivity.
  - reflexivity.
  - reflexivity.
  - reflexivity.
  - reflexivity.
Defined.

(** X13: the records end at the first line that does not have four
    words.  If a line of the file, one that fits the line buffer, does
    not have four words, [ReadFile] does exactly what it does on the file
    cut after that line: whatever follows is ignored, without an error. *)
Theorem ReadFile_stops_at_short_line `{TextServices}
        (fs fs' : String.string -> option String.string) (fileName : String.string)
        (contents line rest : String.string)
        (groups : list GROUP_STRUCT) (maxGroupNum : Z)
        (lists : list LIST_STRUCT) (maxListNum : Z) :
  ends_with_newline contents = true ->
  has_newline line = false -> Z.of_nat (String.length line) < LINE_SIZE - 1 ->
  Z.of_nat (length (StringToWords (line +++ line_end))) <> 4 ->
  fs fileName = Some (contents +++ line +++ String.String newline rest) ->
  fs' fileName = Some (contents +++ line +++ line_end) ->
  ReadFile fs fileName groups maxGroupNum lists maxListNum =
    ReadFile fs' fileName groups maxGroupNum lists maxListNum.
Proof.
  intros Hend Hnl Hlen Hwords E E'.
  assert (Hread : forall u s,
            read_next (at_start (line +++ String.String newline u) s) =
              at_start u (line +++ line_end)).
  { intros u s. unfold read_next, fgets, at_start. cbn [fh tmpS unread eof].
    pose proof (read_line_whole line (LINE_SIZE - 1) u Hnl Hlen) as Hw.
    destruct (line +++ String.String newline u) eqn:El.
    - destruct line; discriminate.
    - rewrite Hw. reflexivity. }
  assert (Hstop : forall u, records (at_start u (line +++ line_end)) = []).
  { intros u. rewrite records_eq. unfold more_records, wordNum, words, at_start.
    cbn [tmpS]. destruct (Z.eqb_spec (Z.of_nat (length (StringToWords (line +++ line_end)))) 4);
      [contradiction|reflexivity]. }
  destruct contents as [|c x].
  - cbn [String.append] in E, E'. rewrite !ReadFile_run, E, E'.
    assert (Hh : forall u, header_words (line +++ String.String newline u) =
                           StringToWords (line +++ line_end)).
    { intros u. unfold header_words.
      change {| fh := {| unread := line +++ String.String newline u; eof := false |};
                tmpS := String.EmptyString |}
        with (at_start (line +++ String.String newline u) String.EmptyString).
      rewrite Hread. reflexivity. }
    unfold line_end. rewrite !Hh.
    destruct (Z.eqb_spec (Z.of_nat (length (StringToWords (line +++ line_end)))) 4);
      [contradiction|reflexivity].
  - destruct (file_lockstep (line +++ String.String newline rest) (line +++ line_end))
      with (x := String.String c x) as [Hh Hr]; try assumption; try discriminate.
    + intros s. unfold line_end. rewrite !Hread. rewrite !Hstop. reflexivity.
    + eapply ReadFile_same_records; eassumption.
Qed.

Definition short_line_fs (fileName : String.string) : option String.string :=
  if String.eqb fileName "in.txt"%string
  then Some (demo_file +++ "only three words" +++ String.String newline "d g2 L2 7")%string
  else None.

Definition short_line_fs' (fileName : String.string) : option String.string :=
  if String.eqb fileName "in.txt"%string
  then Some (demo_file +++ "only three words" +++ line_end)%string
  else None.

Lemma ReadFile_stops_at_short_line_witness :
  @ReadFile PlainText short_line_fs "in.txt"%string
            (repeat no_group 5) 5 (repeat no_list 4) 4 =
    @ReadFile PlainText short_line_fs' "in.txt"%string
              (repeat no_group 5) 5 (repeat no_list 4) 4.
Proof.
  apply (@ReadFile_stops_at_short_line PlainText short_line_fs short_line_fs'
           "in.txt"%string demo_file "only three words"%string "d g2 L2 7"%string).
  - reflexivity.
  - reflexivity.
  - reflexivity.
  - vm_compute. discriminate.
  - reflexivity.
  - reflexivity.
Defined.

(** * The command line and [main] *)

(** ** The argument loop *)

Section LastFlag.
Context {V : Type} (argv : list String.string)
        (body : Z -> settings -> settings) (init : settings)
        (proj : settings -> V) (flag : String.string)
        (val : String.string -> V).
Hypothesis body_proj : forall i o,
  proj (body i o) =
    if String.eqb (get String.EmptyString argv (i - 1)) flag
    then val (get String.EmptyString argv i) else proj o.

(** A setting has the value that follows the last occurrence of its
    flag, among the arguments that have a successor, and keeps its
    initial value when the flag does not occur there. *)
Lemma last_flag_wins :
  let argc := Z.of_nat (length argv) in
  let o := for_range 2 argc body init in
  (forall k, 1 <= k < argc - 1 -> get String.EmptyString argv k = flag ->
     (forall m, k < m < argc - 1 -> get String.EmptyString argv m <> flag) ->
     proj o = val (get String.EmptyString argv (k + 1))) /\
  ((forall k, 1 <= k < argc - 1 -> get String.EmptyString argv k <> flag) ->
   proj o = proj init).
Proof using body_proj.
  intros argc o. subst o.
  destruct (Z.lt_ge_cases argc 2) as [Hshort|Hlong].
  - unfold for_range. replace (Z.to_nat (argc - 2)) with O by lia. cbn [for_loop].
    split; [intros; lia|reflexivity].
  - pose (P := fun (i : Z) (o : settings) =>
       (forall k, 1 <= k < i - 1 -> get String.EmptyString argv k = flag ->
          (forall m, k < m < i - 1 -> get String.EmptyString argv m <> flag) ->
          proj o = val (get String.EmptyString argv (k + 1))) /\
       ((forall k, 1 <= k < i - 1 -> get String.EmptyString argv k <> flag) ->
        proj o = proj init)).
    apply (for_range_inv P); subst P; cbn beta; [lia| |].
    + split; [intros; lia|reflexivity].
    + intros i o Hi [Hlast Hnone]. rewrite !body_proj.
      replace (i + 1 - 1) with i by lia.
      destruct (String.eqb_spec (get String.EmptyString argv (i - 1)) flag) as [E|E].
      * split.
        -- intros k Hk Ek Hlater.
           destruct (Z.eq_dec k (i - 1)) as [->|Hne].
           ++ now replace (i - 1 + 1) with i by lia.
           ++ exfalso. apply (Hlater (i - 1)); [lia|exact E].
        -- intros Hno. exfalso. apply (Hno (i - 1)); [lia|exact E].
      * split.
        -- intros k Hk Ek Hlater.
           assert (k <> i - 1) by congruence.
           apply Hlast; [lia|exact Ek|]. intros m Hm. apply Hlater. lia.
        -- intros Hno. apply Hnone. intros k Hk. apply Hno. lia.
Qed.
End LastFlag.

(** X14: how the command line is read.  Each of [-i], [-o] and [-p] is
    looked for among [argv[1..argc-2]]; the setting takes the argument
    that follows the last occurrence, whatever that argument is, and
    keeps its default when the flag does not occur.  A flag in the last
    position has no effect, and [argv[0]] is never taken for a flag. *)
Theorem parse_arguments_last_wins `{TextServices} (argv : list String.string) :
  let argc := Z.of_nat (length argv) in
  let arg := get String.EmptyString argv in
  let o := parse_arguments argv in
  let last (flag : String.string) (k : Z) :=
    1 <= k < argc - 1 /\ arg k = flag /\
    forall m, k < m < argc - 1 -> arg m <> flag in
  let absent (flag : String.string) :=
    forall k, 1 <= k < argc - 1 -> arg k <> flag in
  (forall k, last "-i"%string k -> inputFileName o = arg (k + 1)) /\
  (absent "-i"%string -> inputFileName o = String.EmptyString) /\
  (forall k, last "-o"%string k -> outputFileName o = arg (k + 1)) /\
  (absent "-o"%string -> outputFileName o = String.EmptyString) /\
  (forall k, last "-p"%string k -> maxPercentile o = atof (arg (k + 1))) /\
  (absent "-p"%string -> maxPercentile o = (1 # 4)%Q).
Proof.
  intros argc arg o last absent. subst o. unfold parse_arguments.
  match goal with
  | |- context [for_range 2 _ ?b ?i] => set (body := b); set (init := i)
  end.
  assert (Hi : forall i o, inputFileName (body i o) =
            if String.eqb (get String.EmptyString argv (i - 1)) "-i"
            then get String.EmptyString argv i else inputFileName o).
  { intros i o. unfold body.
    destruct (String.eqb_spec (get String.EmptyString argv (i - 1)) "-i") as [->|]; cbn;
      [reflexivity|].
    destruct (String.eqb (get String.EmptyString argv (i - 1)) "-o");
      destruct (String.eqb (get String.EmptyString argv (i - 1)) "-p"); reflexivity. }
  assert (Ho : forall i o, outputFileName (body i o) =
            if String.eqb (get String.EmptyString argv (i - 1)) "-o"
            then get String.EmptyString argv i else outputFileName o).
  { intros i o. unfold body.
    destruct (String.eqb_spec (get String.EmptyString argv (i - 1)) "-o") as [->|]; cbn;
      [reflexivity|].
    destruct (String.eqb (get String.EmptyString argv (i - 1)) "-i");
      destruct (String.eqb (get String.EmptyString argv (i - 1)) "-p"); reflexivity. }
  assert (Hp : forall i o, maxPercentile (body i o) =
            if String.eqb (get String.EmptyString argv (i - 1)) "-p"
            then atof (get String.EmptyString argv i) else maxPercentile o).
  { intros i o. unfold body.
    destruct (String.eqb_spec (get String.EmptyString argv (i - 1)) "-p") as [->|]; cbn;
      [reflexivity|].
    destruct (String.eqb (get String.EmptyString argv (i - 1)) "-i");
      destruct (String.eqb (get String.EmptyString argv (i - 1)) "-o"); reflexivity. }
  destruct (last_flag_wins argv body init inputFileName "-i"%string (fun s => s) Hi)
    as [Hi1 Hi2].
  destruct (last_flag_wins argv body init outputFileName "-o"%string (fun s => s) Ho)
    as [Ho1 Ho2].
  destruct (last_flag_wins argv body init maxPercentile "-p"%string atof Hp)
    as [Hp1 Hp2].
  split; [intros k (Hk & Ek & Hl); apply Hi1; assumption|].
  split; [exact Hi2|].
  split; [intros k (Hk & Ek & Hl); apply Ho1; assumption|].
  split; [exact Ho2|].
  split; [intros k (Hk & Ek & Hl); apply Hp1; assumption|exact Hp2].
Qed.

(** ** The run as a whole *)

Section MainFacts.
Context `{BetaCdf} `{RandomGen} `{TextServices}.

(** The settings with which [main] goes on to read the input. *)
Definition settings_valid (argv : list String.string) : Prop :=
  Z.of_nat (length argv) <> 1 /\
  inputFileName (parse_arguments argv) <> String.EmptyString /\
  outputFileName (parse_arguments argv) <> String.EmptyString /\
  (0 <= maxPercentile (parse_arguments argv) <= 1)%Q.

(** The call of [ReadFile] in [main]. *)
Definition main_read (fs : String.string -> option String.string)
           (argv : list String.string) : option read_outcome :=
  ReadFile fs (inputFileName (parse_arguments argv))
           (repeat no_group (Z.to_nat MAX_GROUP_NUM)) MAX_GROUP_NUM
           (repeat no_list (Z.to_nat MAX_LIST_NUM)) MAX_LIST_NUM.

Lemma settings_valid_dec argv : settings_valid argv \/ ~ settings_valid argv.
Proof.
  unfold settings_valid.
  destruct (Z.eq_dec (Z.of_nat (length argv)) 1); [right; tauto|].
  destruct (String.string_dec (inputFileName (parse_arguments argv)) String.EmptyString);
    [right; tauto|].
  destruct (String.string_dec (outputFileName (parse_arguments argv)) String.EmptyString);
    [right; tauto|].
  destruct (Qlt_le_dec (maxPercentile (parse_arguments argv)) 0) as [Hlt|Hge].
  { right. intros (_ & _ & _ & Hp0 & _). exact (Qlt_not_le _ _ Hlt Hp0). }
  destruct (Qlt_le_dec 1 (maxPercentile (parse_arguments argv))) as [Hlt|Hle].
  { right. intros (_ & _ & _ & _ & Hp1). exact (Qlt_not_le _ _ Hlt Hp1). }
  left. repeat split; assumption.
Qed.

(** Without valid settings [main] returns -1 before it reads anything. *)
Lemma main_invalid fs writable g0 argv :
  ~ settings_valid argv -> main fs writable g0 argv = Some (-1, None).
Proof.
  intros Hinv. unfold main.
  destruct (Z.eqb_spec (Z.of_nat (length argv)) 1) as [|Hargc]; [reflexivity|].
  destruct (String.eqb_spec (inputFileName (parse_arguments argv)) String.EmptyString)
    as [|Hin]; [reflexivity|].
  destruct (String.eqb_spec (outputFileName (parse_arguments argv)) String.EmptyString)
    as [|Hout]; [reflexivity|].
  cbn [orb].
  destruct (Qlt_bool 1 (maxPercentile (parse_arguments argv))) eqn:E1; [reflexivity|].
  destruct (Qlt_bool (maxPercentile (parse_arguments argv)) 0) eqn:E0; [reflexivity|].
  exfalso. apply Hinv. apply Qlt_bool_false in E1, E0.
  repeat split; assumption.
Qed.

(** With valid settings [main] is the sequence of the four calls. *)
Lemma main_valid fs writable g0 argv :
  settings_valid argv ->
  main fs writable g0 argv =
    match main_read fs argv with
    | None => None
    | Some ReadFailed => Some (-1, None)
    | Some (ReadDone flag groups groupNum lists listNum) =>
        if flag <=? 0 then Some (-1, None) else
        match ProcessGroups groups groupNum lists listNum
                            (maxPercentile (parse_arguments argv)) with
        | None => None
        | Some (groups, lists) =>
            match ComputeFDR groups groupNum (maxPercentile (parse_arguments argv))
                             (RAND_PASS_NUM * groupNum) g0 with
            | None => None
            | Some (groups, _) =>
                let '(flag, rows) :=
                  SaveGroupInfo writable (outputFileName (parse_arguments argv))
                                groups groupNum in
                if flag <=? 0 then Some (-1, None) else Some (0, rows)
            end
        end
    end.
Proof.
  intros (Hargc & Hin & Hout & Hp0 & Hp1). unfold main, main_read.
  destruct (Z.eqb_spec (Z.of_nat (length argv)) 1) as [|_]; [contradiction|].
  destruct (String.eqb_spec (inputFileName (parse_arguments argv)) String.EmptyString)
    as [|_]; [contradiction|].
  destruct (String.eqb_spec (outputFileName (parse_arguments argv)) String.EmptyString)
    as [|_]; [contradiction|].
  cbn [orb].
  destruct (Qlt_bool 1 (maxPercentile (parse_arguments argv))) eqn:E1.
  { apply Qlt_bool_iff in E1. exfalso. exact (Qlt_not_le _ _ E1 Hp1). }
  destruct (Qlt_bool (maxPercentile (parse_arguments argv)) 0) eqn:E0.
  { apply Qlt_bool_iff in E0. exfalso. exact (Qlt_not_le _ _ E0 Hp0). }
  reflexivity.
Qed.

Lemma main_capacity :
  0 < MAX_GROUP_NUM <= Z.of_nat (length (repeat no_group (Z.to_nat MAX_GROUP_NUM))) /\
  0 < MAX_LIST_NUM <= Z.of_nat (length (repeat no_list (Z.to_nat MAX_LIST_NUM))).
Proof. rewrite !repeat_length. unfold MAX_GROUP_NUM, MAX_LIST_NUM. lia. Qed.

(** The pool of the groups that fit the table fits an [int], ranks
    included: [main] asks for [RAND_PASS_NUM * groupNum] lo-values, which
    makes [RAND_PASS_NUM + 1] passes and a pool of at most 101 * 99999
    values. *)
Lemma main_pool_in_range groupNum :
  0 < groupNum < MAX_GROUP_NUM ->
  pool_in_range (RAND_PASS_NUM * groupNum) groupNum /\
  pool_fits (RAND_PASS_NUM * groupNum) groupNum.
Proof.
  intros Hg. unfold pool_fits, pool_in_range. rewrite Z.quot_mul by lia.
  unfold RAND_PASS_NUM, MAX_GROUP_NUM, INT_MAX in *. lia.
Qed.

(** The statistics do not fail an assertion on what [ReadFile] built from
    at least one record. *)
Lemma main_statistics fs argv (g0 : rng) maxPercentile
      total groups groupNum lists listNum :
  main_read fs argv = Some (ReadDone total groups groupNum lists listNum) ->
  0 < total ->
  exists groups1 lists1 groups2 g1,
    ProcessGroups groups groupNum lists listNum maxPercentile = Some (groups1, lists1) /\
    ComputeFDR groups1 groupNum maxPercentile (RAND_PASS_NUM * groupNum) g0
      = Some (groups2, g1).
Proof.
  intros Eread Htotal. destruct main_capacity as [HcapG HcapL].
  destruct (ReadFile_done _ _ _ _ _ _ _ _ _ _ _ HcapG HcapL Eread)
    as (contents & t & _ & Ht & Hst & -> & -> & ->).
  destruct (stored_input _ _ _ _ _ _ _ _ Ht Hst)
    as (HGn & _ & _ & Hpos & _ & _ & HGok & _).
  specialize (Hpos Htotal).
  destruct (ProcessGroups_completes groups (tmpGroupNum t) lists (tmpListNum t)
              maxPercentile Hpos (fun i Hi => proj1 (HGok i Hi)))
    as (groups1 & lists1 & E1).
  destruct (ProcessGroups_completed _ _ _ _ _ _ _ E1) as (_ & _ & Hkeep).
  destruct (ComputeFDR_completes groups1 (tmpGroupNum t) maxPercentile
              (RAND_PASS_NUM * tmpGroupNum t) g0 Hpos)
    as ([groups2 g1] & E2).
  { intros i Hi. rewrite Hkeep. apply (HGok i Hi). }
  { unfold RAND_PASS_NUM. lia. }
  { apply main_pool_in_range. lia. }
  exists groups1, lists1, groups2, g1. split; assumption.
Qed.
End MainFacts.

(** X15: how a run ends.  [main] is stopped by an assertion only when
    the settings are valid and [ReadFile] is, that is on a header line
    that does not have four words: the statistics never fail on what
    [ReadFile] built.  It returns 0 and writes the output exactly when
    the settings are valid, [ReadFile] returns a positive count and the
    output file can be opened.  In every other case it returns -1 and
    writes nothing: a failed run leaves no output. *)
Theorem main_outcome `{BetaCdf} `{RandomGen} `{TextServices}
        (fs : String.string -> option String.string)
        (writable : String.string -> bool) (g0 : rng) (argv : list String.string) :
  (main fs writable g0 argv = None <->
   settings_valid argv /\ main_read fs argv = None) /\
  ((exists rows, main fs writable g0 argv = Some (0, Some rows)) <->
   settings_valid argv /\
   (exists total groups groupNum lists listNum,
      main_read fs argv = Some (ReadDone total groups groupNum lists listNum) /\
      0 < total) /\
   writable (outputFileName (parse_arguments argv)) = true) /\
  (forall status rows, main fs writable g0 argv = Some (status, rows) ->
     (status = 0 /\ rows <> None) \/ (status = -1 /\ rows = None)).
Proof.
  destruct (settings_valid_dec argv) as [Hv|Hv].
  2:{ rewrite (main_invalid fs writable g0 argv Hv).
      split; [split; [discriminate|tauto]|].
      split; [split; [intros [rows E]; discriminate|tauto]|].
      intros status rows E. injection E as <- <-. right. split; reflexivity. }
  rewrite (main_valid fs writable g0 argv Hv).
  destruct (main_read fs argv) as [[|total groups groupNum lists listNum]|] eqn:Eread.
  - split; [split; [discriminate|intros [_ E]; discriminate]|].
    split; [split; [intros [rows E]; discriminate|]|].
    + intros (_ & (t & g & n & l & m & E & _) & _). discriminate.
    + intros status rows E. injection E as <- <-. right. split; reflexivity.
  - destruct (Z.leb_spec total 0) as [Hle|Htotal].
    + split; [split; [discriminate|intros [_ E]; discriminate]|].
      split; [split; [intros [rows E]; discriminate|]|].
      * intros (_ & (t & g & n & l & m & E & Ht) & _). injection E as <- _ _ _ _. lia.
      * intros status rows E. injection E as <- <-. right. split; reflexivity.
    + destruct (main_statistics fs argv g0 (maxPercentile (parse_arguments argv))
                  _ _ _ _ _ Eread Htotal) as (groups1 & lists1 & groups2 & g1 & E1 & E2).
      rewrite E1, E2. unfold SaveGroupInfo.
      destruct (writable (outputFileName (parse_arguments argv))) eqn:Ew; cbn.
      * split; [split; [discriminate|intros [_ E]; discriminate]|].
        split; [split; [intros _|eauto]|].
        -- split; [exact Hv|]. split; [|reflexivity].
           exists total, groups, groupNum, lists, listNum. split; [reflexivity|exact Htotal].
        -- intros status rows E. injection E as <- <-. left. split; [reflexivity|discriminate].
      * split; [split; [discriminate|intros [_ E]; discriminate]|].
        split; [split; [intros [rows E]; discriminate|]|].
        -- intros (_ & _ & E). discriminate.
        -- intros status rows E. injection E as <- <-. right. split; reflexivity.
  - split; [split; [intros _; split; [exact Hv|reflexivity]|reflexivity]|].
    split; [split; [intros [rows E]; discriminate|]|].
    + intros (_ & (t & g & n & l & m & E & _) & _). discriminate.
    + intros status rows E. discriminate.
Qed.

(** * The entries behind [groupNum]

    [main] passes arrays of [MAX_GROUP_NUM] groups of which [ReadFile]
    has filled the first [groupNum].  The statistics work on those
    alone. *)

Section AppendFacts.
Context {A : Type} (d : A).

Lemma get_app_l (a t : list A) (i : Z) :
  i < Z.of_nat (length a) -> get d (a ++ t) i = get d a i.
Proof.
  intros Hi. unfold get. destruct (Z.ltb_spec i 0); [reflexivity|].
  apply app_nth1. lia.
Qed.

Lemma get_app_r (a t : list A) (i : Z) :
  Z.of_nat (length a) <= i -> get d (a ++ t) i = get d t (i - Z.of_nat (length a)).
Proof.
  intros Hi. unfold get.
  destruct (Z.ltb_spec i 0); [lia|]. destruct (Z.ltb_spec (i - Z.of_nat (length a)) 0); [lia|].
  rewrite app_nth2 by lia. f_equal. lia.
Qed.

Lemma upd_nat_app_l (a t : list A) (n : nat) (v : A) :
  (n < length a)%nat -> upd_nat (a ++ t) n v = upd_nat a n v ++ t.
Proof.
  revert n. induction a as [|x a IH]; intros n Hn; [cbn in Hn; lia|].
  destruct n as [|n]; cbn [upd_nat app]; [reflexivity|].
  rewrite IH by (cbn [length] in Hn; lia). reflexivity.
Qed.

Lemma upd_app_l (a t : list A) (i : Z) (v : A) :
  i < Z.of_nat (length a) -> upd (a ++ t) i v = upd a i v ++ t.
Proof.
  intros Hi. unfold upd. destruct (Z.ltb_spec i 0); [reflexivity|].
  apply upd_nat_app_l. lia.
Qed.

Lemma swap_app_l (a t : list A) (i j : Z) :
  i < Z.of_nat (length a) -> j < Z.of_nat (length a) ->
  swap d (a ++ t) i j = swap d a i j ++ t.
Proof.
  intros Hi Hj. unfold swap.
  rewrite !get_app_l by assumption.
  rewrite (upd_app_l a t i) by assumption.
  rewrite upd_app_l by (rewrite length_upd; assumption). reflexivity.
Qed.
End AppendFacts.

Section LoopAppend.
Context {A : Type}.

(** A loop whose rounds write inside the first entries leaves the
    entries behind them alone. *)
Lemma for_loop_app (t : list A) (L : nat) (body : Z -> list A -> list A) (lo hi : Z) :
  (forall k a, lo <= k < hi -> length a = L ->
     body k (a ++ t) = body k a ++ t /\ length (body k a) = L) ->
  forall n i a, lo <= i -> i + Z.of_nat n <= hi -> length a = L ->
    for_loop n i body (a ++ t) = for_loop n i body a ++ t /\
    length (for_loop n i body a) = L.
Proof.
  intros Hbody. induction n as [|n IH]; intros i a Hlo Hhi HL; cbn [for_loop].
  - split; [reflexivity|exact HL].
  - destruct (Hbody i a ltac:(lia) HL) as [E1 L1]. rewrite E1.
    apply IH; [lia|lia|exact L1].
Qed.

Lemma for_loop_down_app (t : list A) (L : nat) (body : Z -> list A -> list A) (lo hi : Z) :
  (forall k a, lo <= k <= hi -> length a = L ->
     body k (a ++ t) = body k a ++ t /\ length (body k a) = L) ->
  forall n i a, i <= hi -> lo <= i - Z.of_nat n + 1 -> length a = L ->
    for_loop_down n i body (a ++ t) = for_loop_down n i body a ++ t /\
    length (for_loop_down n i body a) = L.
Proof.
  intros Hbody. induction n as [|n IH]; intros i a Hhi Hlo HL; cbn [for_loop_down].
  - split; [reflexivity|exact HL].
  - destruct (Hbody i a ltac:(lia) HL) as [E1 L1]. rewrite E1.
    apply IH; [lia|lia|exact L1].
Qed.
End LoopAppend.

Section LoopRange.
Context {S : Type}.

(** Loops with bodies that agree on the range of the loop agree. *)
Lemma for_loop_ext_range (body body' : Z -> S -> S) (lo hi : Z) :
  (forall k s, lo <= k < hi -> body k s = body' k s) ->
  forall n i s, lo <= i -> i + Z.of_nat n <= hi ->
    for_loop n i body s = for_loop n i body' s.
Proof.
  intros Hb. induction n as [|n IH]; intros i s Hlo Hhi; cbn [for_loop]; [reflexivity|].
  rewrite Hb by lia. apply IH; lia.
Qed.

Lemma for_loop_opt_ext_range (body body' : Z -> S -> option S) (lo hi : Z) :
  (forall k s, lo <= k < hi -> body k s = body' k s) ->
  forall n i s, lo <= i -> i + Z.of_nat n <= hi ->
    for_loop_opt n i body s = for_loop_opt n i body' s.
Proof.
  intros Hb. induction n as [|n IH]; intros i s Hlo Hhi; cbn [for_loop_opt]; [reflexivity|].
  rewrite Hb by lia. destruct (body' i s); [apply IH; lia|reflexivity].
Qed.

Lemma for_range_ext_range (body body' : Z -> S -> S) (lo hi : Z) s :
  (forall k s, lo <= k < hi -> body k s = body' k s) ->
  for_range lo hi body s = for_range lo hi body' s.
Proof.
  intros Hb. unfold for_range.
  destruct (Z.le_gt_cases lo hi).
  - apply (for_loop_ext_range body body' lo hi Hb); lia.
  - replace (Z.to_nat (hi - lo)) with O by lia. reflexivity.
Qed.

Lemma for_range_opt_ext_range (body body' : Z -> S -> option S) (lo hi : Z) s :
  (forall k s, lo <= k < hi -> body k s = body' k s) ->
  for_range_opt lo hi body s = for_range_opt lo hi body' s.
Proof.
  intros Hb. unfold for_range_opt.
  destruct (Z.le_gt_cases lo hi).
  - apply (for_loop_opt_ext_range body body' lo hi Hb); lia.
  - replace (Z.to_nat (hi - lo)) with O by lia. reflexivity.
Qed.
End LoopRange.

Section QuickSortAppend.
Context {A : Type} (d : A) (key : A -> double) (t : list A).

Lemma scan_up_app a x : forall i j,
  j < Z.of_nat (length a) ->
  scan_up d key (a ++ t) x i j = scan_up d key a x i j.
Proof.
  intros i j. pattern i, j. apply cursor_ind. clear i j.
  intros i j IH Hj. rewrite (scan_up_eq d key (a ++ t)), (scan_up_eq d key a).
  destruct (Z.leb_spec i j) as [Hij|Hij].
  - rewrite get_app_l by lia.
    destruct (Qlt_bool (key (get d a i)) x); cbn [andb]; [|reflexivity].
    apply IH; lia.
  - now rewrite !andb_false_r.
Qed.

Lemma scan_down_app a x : forall i j,
  j < Z.of_nat (length a) ->
  scan_down d key (a ++ t) x i j = scan_down d key a x i j.
Proof.
  intros i j. pattern i, j. apply cursor_ind. clear i j.
  intros i j IH Hj. rewrite (scan_down_eq d key (a ++ t)), (scan_down_eq d key a).
  rewrite get_app_l by lia.
  destruct (Qlt_bool x (key (get d a j)) && (i <=? j)) eqn:E; [|reflexivity].
  apply andb_prop in E. apply IH; lia.
Qed.

(** A run on the array followed by [t] is the run on the array, with [t]
    behind the result. *)
Definition run_app (r r' : list A * Z * Z) : Prop :=
  fst (fst r) = fst (fst r') ++ t /\ snd (fst r) = snd (fst r') /\ snd r = snd r'.

Lemma partition_round_app a x i j :
  j < Z.of_nat (length a) ->
  run_app (partition_round d key (a ++ t) x i j) (partition_round d key a x i j) /\
  length (fst (fst (partition_round d key a x i j))) = length a.
Proof.
  intros Hj. unfold partition_round.
  rewrite scan_up_app by exact Hj.
  pose proof (scan_down_le d key a x (scan_up d key a x i j) j) as Hd.
  rewrite scan_down_app by exact Hj.
  destruct (Z.leb_spec (scan_up d key a x i j)
                       (scan_down d key a x (scan_up d key a x i j) j)) as [Hle|Hgt];
    cbn [fst snd].
  - split; [|apply length_swap].
    split; [|split; reflexivity]. cbn [fst snd]. apply swap_app_l; lia.
  - split; [|reflexivity]. repeat split.
Qed.

Lemma partition_app x : forall i j a,
  j < Z.of_nat (length a) ->
  run_app (partition d key (a ++ t) x i j) (partition d key a x i j) /\
  length (fst (fst (partition d key a x i j))) = length a.
Proof.
  intros i j. pattern i, j. apply cursor_ind. clear i j.
  intros i j IH a Hj.
  rewrite (partition_eq d key (a ++ t)), (partition_eq d key a).
  destruct (Z.leb_spec i j) as [Hij|Hij].
  - destruct (partition_round_app a x i j Hj) as [Hr HL].
    destruct (partition_round d key a x i j) as [[a1 i1] j1] eqn:Ea.
    destruct (partition_round d key (a ++ t) x i j) as [[b1 i2] j2] eqn:Eb.
    destruct Hr as (Eb1 & Ei & Ej). cbn [fst snd] in *. subst b1 i2 j2.
    pose proof (partition_round_decr d key _ _ _ _ _ _ _ Hij Ea) as Hdecr.
    assert (Hj1 : j1 < Z.of_nat (length a1)).
    { unfold partition_round in Ea.
      pose proof (scan_down_le d key a x (scan_up d key a x i j) j).
      destruct (_ <=? _); inversion Ea; subst; lia. }
    destruct (IH i1 j1 Hdecr a1 Hj1) as [Hrun HL1].
    split; [exact Hrun|congruence].
  - split; [repeat split|reflexivity].
Qed.

Lemma QuickSortBy_app : forall a lo hi,
  hi < Z.of_nat (length a) ->
  QuickSortBy d key (a ++ t) lo hi = QuickSortBy d key a lo hi ++ t /\
  length (QuickSortBy d key a lo hi) = length a.
Proof.
  intros a lo hi.
  remember (Z.to_nat (hi - lo + 1)) as n eqn:Hn.
  revert a lo hi Hn. induction n as [n IH] using lt_wf_ind.
  intros a lo hi Hn Hhi.
  rewrite (QuickSortBy_eq d key (a ++ t)), (QuickSortBy_eq d key a).
  destruct (Z.ltb_spec hi lo) as [Hlh|Hlh]; [split; reflexivity|].
  pose proof (quot2_between lo hi Hlh) as Hm.
  rewrite get_app_l by lia.
  set (x := key (get d a (Z.quot (lo + hi) 2))).
  destruct (partition_app x lo hi a Hhi) as [Hr HL1].
  destruct (partition d key a x lo hi) as [[a1 i] j] eqn:Ea.
  destruct (partition d key (a ++ t) x lo hi) as [[b1 i2] j2] eqn:Eb.
  destruct Hr as (Eb1 & Ei & Ej). cbn [fst snd] in *. subst b1 i2 j2.
  destruct (partition_progress d key a lo hi _ a1 i j Hm Ea) as [Hpi Hpj].
  assert (H2 : (if lo <? j then QuickSortBy d key (a1 ++ t) lo j else a1 ++ t) =
               (if lo <? j then QuickSortBy d key a1 lo j else a1) ++ t /\
               length (if lo <? j then QuickSortBy d key a1 lo j else a1) = length a).
  { destruct (Z.ltb_spec lo j); [|split; [reflexivity|exact HL1]].
    destruct (IH (Z.to_nat (j - lo + 1)) ltac:(lia) a1 lo j eq_refl ltac:(lia))
      as [E L]. split; [exact E|congruence]. }
  destruct H2 as [E2 L2]. rewrite E2.
  set (a2 := if lo <? j then QuickSortBy d key a1 lo j else a1) in *.
  destruct (Z.ltb_spec i hi); [|split; [reflexivity|exact L2]].
  destruct (IH (Z.to_nat (hi - i + 1)) ltac:(lia) a2 i hi eq_refl ltac:(lia))
    as [E L]. split; [exact E|congruence].
Qed.
End QuickSortAppend.

Section FDRPrefix.
Context `{BetaCdf} `{RandomGen}.

Lemma max_itemNum_app groups rest groupNum :
  groupNum <= Z.of_nat (length groups) ->
  max_itemNum (groups ++ rest) groupNum = max_itemNum groups groupNum.
Proof.
  intros Hn. unfold max_itemNum. apply for_range_ext_range.
  intros k m Hk. rewrite get_app_l by lia. reflexivity.
Qed.

Lemma null_pool_app groups rest groupNum maxPercentile numOfRandPass g0 :
  groupNum <= Z.of_nat (length groups) ->
  null_pool (groups ++ rest) groupNum maxPercentile numOfRandPass g0 =
    null_pool groups groupNum maxPercentile numOfRandPass g0.
Proof.
  intros Hn. unfold null_pool. rewrite max_itemNum_app by exact Hn.
  destruct (negb (0 <? max_itemNum groups groupNum)); [reflexivity|].
  destruct (negb (0 <? to_int (groupNum * scanPass_of numOfRandPass groupNum)));
    [reflexivity|].
  unfold simulate. apply for_range_opt_ext_range. intros p s _.
  apply for_range_opt_ext_range. intros j s1 Hj.
  unfold simulate_group. rewrite get_app_l by lia. reflexivity.
Qed.

Lemma assign_fdr_app pool n groupNum groups rest :
  groupNum = Z.of_nat (length groups) ->
  assign_fdr pool n groupNum (groups ++ rest) = assign_fdr pool n groupNum groups ++ rest /\
  length (assign_fdr pool n groupNum groups) = length groups.
Proof.
  intros Hn. unfold assign_fdr, for_range.
  apply (for_loop_app rest (length groups) _ 0 groupNum); try lia; try reflexivity.
  intros k a Hk HL. rewrite get_app_l by lia. rewrite length_upd.
  split; [apply upd_app_l; lia|exact HL].
Qed.

Lemma clamp_last_app groupNum groups rest :
  groupNum = Z.of_nat (length groups) ->
  clamp_last groupNum (groups ++ rest) = clamp_last groupNum groups ++ rest /\
  length (clamp_last groupNum groups) = length groups.
Proof.
  intros Hn. unfold clamp_last. rewrite get_app_l by lia.
  destruct (Qlt_bool 1 (fdr (get no_group groups (groupNum - 1)))).
  - rewrite length_upd. split; [apply upd_app_l; lia|reflexivity].
  - split; reflexivity.
Qed.

Lemma sweep_app groupNum groups rest :
  groupNum = Z.of_nat (length groups) ->
  sweep groupNum (groups ++ rest) = sweep groupNum groups ++ rest /\
  length (sweep groupNum groups) = length groups.
Proof.
  intros Hn. unfold sweep, for_down.
  destruct (Z.eq_dec groupNum 0) as [E0|E0].
  { replace (Z.to_nat (groupNum - 2 + 1)) with O by lia. split; reflexivity. }
  apply (for_loop_down_app rest (length groups) _ 0 (groupNum - 2)); try lia;
    try reflexivity.
  intros k a Hk HL. rewrite !get_app_l by lia.
  destruct (Qlt_bool _ _).
  - rewrite length_upd. split; [apply upd_app_l; lia|exact HL].
  - split; [reflexivity|exact HL].
Qed.

Lemma ComputeFDR_app groups rest groupNum maxPercentile numOfRandPass g0 :
  groupNum = Z.of_nat (length groups) ->
  ComputeFDR (groups ++ rest) groupNum maxPercentile numOfRandPass g0 =
    option_map (fun r => (fst r ++ rest, snd r))
               (ComputeFDR groups groupNum maxPercentile numOfRandPass g0).
Proof.
  intros Hn. unfold ComputeFDR.
  destruct (groupNum =? 0); [reflexivity|].
  rewrite null_pool_app by lia.
  destruct (null_pool groups groupNum maxPercentile numOfRandPass g0) as [s|];
    [|reflexivity].
  cbv zeta. cbn [option_map fst snd]. unfold QuickSortGroupByLoValue.
  destruct (QuickSortBy_app no_group loValue rest groups 0 (groupNum - 1) ltac:(lia))
    as [E1 L1].
  rewrite E1.
  destruct (assign_fdr_app (QuicksortF (randLoValue s) 0 (randLoValueNum s - 1))
              (randLoValueNum s) groupNum
              (QuickSortBy no_group loValue groups 0 (groupNum - 1)) rest ltac:(lia))
    as [E2 L2].
  rewrite E2.
  destruct (clamp_last_app groupNum
              (assign_fdr (QuicksortF (randLoValue s) 0 (randLoValueNum s - 1))
                 (randLoValueNum s) groupNum
                 (QuickSortBy no_group loValue groups 0 (groupNum - 1))) rest ltac:(lia))
    as [E3 L3].
  rewrite E3.
  destruct (sweep_app groupNum
              (clamp_last groupNum
                 (assign_fdr (QuicksortF (randLoValue s) 0 (randLoValueNum s - 1))
                    (randLoValueNum s) groupNum
                    (QuickSortBy no_group loValue groups 0 (groupNum - 1)))) rest
              ltac:(lia)) as [E4 L4].
  rewrite E4. reflexivity.
Qed.
End FDRPrefix.

(** X16: [ComputeFDR] works on the first [groupNum] groups of the array
    it is given.  Whatever entries follow them, the call completes in
    the same cases, with the same generator state and the same groups in
    the first [groupNum] places as on the array of just these groups, and
    it returns the entries that follow as they were. *)
Theorem ComputeFDR_frame `{BetaCdf} `{RandomGen}
        (groups rest : list GROUP_STRUCT) (groupNum : Z)
        (maxPercentile : double) (numOfRandPass : Z) (g0 : rng) :
  groupNum = Z.of_nat (length groups) ->
  ComputeFDR (groups ++ rest) groupNum maxPercentile numOfRandPass g0 =
    match ComputeFDR groups groupNum maxPercentile numOfRandPass g0 with
    | Some (final, g1) => Some (final ++ rest, g1)
    | None => None
    end.
Proof.
  intros Hn. rewrite ComputeFDR_app by exact Hn.
  destruct (ComputeFDR groups groupNum maxPercentile numOfRandPass g0) as [[final g1]|];
    reflexivity.
Qed.

Lemma ComputeFDR_frame_witness :
  @ComputeFDR ExactBeta Lehmer (example_groups ++ [example_group 4 (1 # 1000)]) 3
              (1 # 4)%Q 3 0 =
    match @ComputeFDR ExactBeta Lehmer example_groups 3 (1 # 4)%Q 3 0 with
    | Some (final, g1) => Some (final ++ [example_group 4 (1 # 1000)], g1)
    | None => None
    end.
Proof.
  apply (@ComputeFDR_frame ExactBeta Lehmer example_groups
           [example_group 4 (1 # 1000)] 3 (1 # 4)%Q 3 0).
  reflexivity.
Defined.

(** * What [main] writes *)

(** ** The statistics keep names and item counts *)

Section ProcessKeeps.
Context `{BetaCdf}.

(** The name and the item count of a group. *)
Definition group_head (g : GROUP_STRUCT) : String.string * Z := (group_name g, itemNum g).

Lemma process_item_head lists i j st k :
  length (fst (process_item lists i j st)) = length (fst st) /\
  group_head (get no_group (fst (process_item lists i j st)) k) =
    group_head (get no_group (fst st) k).
Proof.
  destruct st as [gs tf]. unfold process_item. cbn [fst].
  split; [apply length_upd|]. rewrite get_upd.
  destruct ((k =? i) && (0 <=? i) && (i <? Z.of_nat (length gs))) eqn:E; [|reflexivity].
  apply andb_prop in E. destruct E as [E _]. apply andb_prop in E. destruct E as [E _].
  apply Z.eqb_eq in E. subst. reflexivity.
Qed.

Lemma process_group_head lists maxPercentile i st st' :
  process_group lists maxPercentile i st = Some st' ->
  length (fst st') = length (fst st) /\
  forall k, group_head (get no_group (fst st') k) = group_head (get no_group (fst st) k).
Proof.
  unfold process_group.
  assert (Hitems : length (fst (for_range 0 (itemNum (get no_group (fst st) i))
                                  (process_item lists i) st)) = length (fst st) /\
                   forall k, group_head (get no_group
                               (fst (for_range 0 (itemNum (get no_group (fst st) i))
                                       (process_item lists i) st)) k) =
                             group_head (get no_group (fst st) k)).
  { apply (for_range_preserve
             (fun s => length (fst s) = length (fst st) /\
                       forall k, group_head (get no_group (fst s) k) =
                                 group_head (get no_group (fst st) k))).
    - intros j s [HL Hk]. split.
      + rewrite (proj1 (process_item_head lists i j s 0)). exact HL.
      + intros k. rewrite (proj2 (process_item_head lists i j s k)). apply Hk.
    - split; reflexivity. }
  destruct (for_range 0 (itemNum (get no_group (fst st) i)) (process_item lists i) st)
    as [gs tf].
  cbn [fst] in Hitems. destruct Hitems as [HL Hk].
  destruct (ComputeLoValue tf (itemNum (get no_group gs i)) maxPercentile) as [v|];
    [|discriminate].
  intros E. injection E as <-. cbn [fst].
  split; [rewrite length_upd; exact HL|].
  intros k. rewrite get_upd.
  destruct ((k =? i) && (0 <=? i) && (i <? Z.of_nat (length gs))) eqn:E; [|apply Hk].
  apply andb_prop in E. destruct E as [E _]. apply andb_prop in E. destruct E as [E _].
  apply Z.eqb_eq in E. subst. rewrite <- Hk. reflexivity.
Qed.

Lemma ProcessGroups_keeps groups groupNum lists listNum maxPercentile groups' lists' :
  ProcessGroups groups groupNum lists listNum maxPercentile = Some (groups', lists') ->
  length groups' = length groups /\
  forall k, group_head (get no_group groups' k) = group_head (get no_group groups k).
Proof.
  unfold ProcessGroups.
  destruct (0 <? max_itemNum groups groupNum); [|discriminate].
  set (ls := sort_lists lists listNum).
  set (tmpF := malloc_double (max_itemNum groups groupNum)).
  destruct (for_range_opt 0 groupNum (process_group ls maxPercentile) (groups, tmpF))
    as [[gs tf]|] eqn:E; [|discriminate].
  intros Er. injection Er as <- <-.
  destruct (Z.le_gt_cases 0 groupNum) as [Hn|Hn].
  - pose (P := fun (k : Z) (st : list GROUP_STRUCT * list double) =>
       length (fst st) = length groups /\
       forall i, group_head (get no_group (fst st) i) = group_head (get no_group groups i)).
    apply (for_range_opt_some P 0 groupNum (process_group ls maxPercentile)
             (groups, tmpF) (gs, tf)); subst P; cbn beta; [lia| | |exact E].
    + split; reflexivity.
    + intros k s s1 Hk [HL Hsame] Es.
      destruct (process_group_head ls maxPercentile k s s1 Es) as [HL1 Hk1].
      split; [congruence|]. intros i. rewrite Hk1. apply Hsame.
  - unfold for_range_opt in E. replace (Z.to_nat (groupNum - 0)) with O in E by lia.
    cbn in E. injection E as <- _. split; reflexivity.
Qed.
End ProcessKeeps.

(** ** The groups that [ComputeFDR] returns *)

Lemma adjacent_sorted_range {A : Type} (d : A) (key : A -> double) (a : list A) (n : Z) :
  (forall i, 0 <= i < n - 1 -> (key (get d a i) <= key (get d a (i + 1)))%Q) ->
  sorted_range d key a 0 (n - 1).
Proof.
  intros Hadj k1 k2 H1 H12 H2.
  replace k2 with (k1 + Z.of_nat (Z.to_nat (k2 - k1))) by lia.
  assert (Hb : k1 + Z.of_nat (Z.to_nat (k2 - k1)) <= n - 1) by lia.
  revert Hb. generalize (Z.to_nat (k2 - k1)) as m.
  induction m as [|m IH]; intros Hb.
  - replace (k1 + Z.of_nat 0) with k1 by lia. apply Qle_refl.
  - eapply Qle_trans; [apply IH; lia|].
    replace (k1 + Z.of_nat (S m)) with (k1 + Z.of_nat m + 1) by lia.
    apply Hadj. lia.
Qed.

Lemma StronglySorted_map {A B : Type} (f : A -> B) (R : B -> B -> Prop) (l : list A) :
  StronglySorted (fun a b => R (f a) (f b)) l -> StronglySorted R (map f l).
Proof.
  induction 1 as [|x l Hs IH Hx]; cbn [map]; constructor; [exact IH|].
  apply Forall_forall. intros y Hy. apply in_map_iff in Hy.
  destruct Hy as (z & <- & Hz). rewrite Forall_forall in Hx. apply Hx. exact Hz.
Qed.

Lemma map_get_ext {A B C : Type} (d : A) (d' : B) (f : A -> C) (g : B -> C)
      (a : list A) (b : list B) :
  length a = length b ->
  (forall i, 0 <= i < Z.of_nat (length a) -> f (get d a i) = g (get d' b i)) ->
  map f a = map g b.
Proof.
  revert b. induction a as [|x a IH]; intros [|y b] HL Hget; try discriminate.
  - reflexivity.
  - cbn [map]. f_equal.
    + specialize (Hget 0 ltac:(cbn [length]; lia)). now rewrite !get_0 in Hget.
    + apply IH; [cbn [length] in HL; lia|].
      intros i Hi. specialize (Hget (i + 1) ltac:(cbn [length]; lia)).
      rewrite !get_cons in Hget by lia.
      replace (i + 1 - 1) with i in Hget by lia. exact Hget.
Qed.

(** What a run of [ComputeFDR] returns on an array of exactly [groupNum]
    groups: the input groups in ascending order of [loValue], with [fdr]
    values of [0, 1] that do not decrease along the order. *)
Lemma ComputeFDR_result `{BetaCdf} `{RandomGen}
      (groups : list GROUP_STRUCT) (groupNum : Z)
      (maxPercentile : double) (numOfRandPass : Z) (g0 : rng) final g1 :
  fdr_input_ok groups groupNum -> 0 <= numOfRandPass ->
  pool_in_range numOfRandPass groupNum ->
  ComputeFDR groups groupNum maxPercentile numOfRandPass g0 = Some (final, g1) ->
  exists sorted,
    Permutation groups sorted /\ fdr_only sorted final /\
    StronglySorted (fun a b => (loValue a <= loValue b)%Q) final /\
    StronglySorted (fun a b => (fdr a <= fdr b)%Q) final /\
    Forall (fun g => (0 <= fdr g <= 1)%Q) final.
Proof.
  intros Hok Hpass Hfit Erun.
  destruct (ComputeFDR_stages groups groupNum maxPercentile numOfRandPass g0
              Hok Hpass Hfit)
    as (s & E & HN & HL & HNpos & Hrun).
  rewrite Hrun in Erun. injection Erun as Efinal _.
  destruct Hok as (Hn & Hpos & Hitems).
  destruct (QuicksortF_whole (randLoValue s)) as (HPp & HSp & HLp).
  rewrite HL in HPp, HSp, HLp.
  set (pool := QuicksortF (randLoValue s) 0 (randLoValueNum s - 1)) in *.
  destruct (QuickSortBy_whole no_group loValue groups) as (HPg & HSg & HLg).
  rewrite <- Hn in HPg, HSg, HLg.
  fold (QuickSortGroupByLoValue groups 0 (groupNum - 1)) in HPg, HSg, HLg.
  set (sorted := QuickSortGroupByLoValue groups 0 (groupNum - 1)) in *.
  assert (Hns : groupNum = Z.of_nat (length sorted)) by (rewrite HLg; exact Hn).
  destruct (assign_fdr_spec pool (randLoValueNum s) groupNum sorted Hns) as (Hfo1 & Hraw).
  set (assigned := assign_fdr pool (randLoValueNum s) groupNum sorted) in *.
  assert (Hna : groupNum = Z.of_nat (length assigned)).
  { destruct Hfo1 as [L _]. rewrite L. exact Hns. }
  destruct (clamp_last_spec groupNum assigned Hna Hpos) as (Hfo2 & Hsame2 & Hlast2).
  set (clamped := clamp_last groupNum assigned) in *.
  assert (Hnc : groupNum = Z.of_nat (length clamped)).
  { destruct Hfo2 as [L _]. rewrite L. exact Hna. }
  destruct (sweep_spec groupNum clamped Hnc Hpos) as (Hfo3 & Hlast3 & Hstep3).
  rewrite Efinal in Hfo3, Hlast3, Hstep3.
  assert (Hfo : fdr_only sorted final).
  { eapply fdr_only_trans; [exact Hfo1|]. eapply fdr_only_trans; eassumption. }
  assert (Elast : (fdr (get no_group final (groupNum - 1))
                     == Qmin 1 (fdr (get no_group assigned (groupNum - 1))))%Q).
  { rewrite Hlast3. exact Hlast2. }
  assert (Estep : forall i, 0 <= i < groupNum - 1 ->
            (fdr (get no_group final i)
               == Qmin (fdr (get no_group assigned i)) (fdr (get no_group final (i + 1))))%Q).
  { intros i Hi. rewrite (Hstep3 i Hi). rewrite (Hsame2 i Hi). reflexivity. }
  assert (Hnonneg : forall m, 0 <= m < groupNum -> (0 <= fdr (get no_group assigned m))%Q).
  { intros m Hm. rewrite (Hraw m Hm). apply Qlt_le_weak.
    assert (EN : randLoValueNum s = Z.of_nat (length pool)).
    { rewrite HLp. symmetry. exact HL. }
    rewrite EN. apply raw_fdr_pos; try assumption; lia. }
  destruct (min_chain_bounds groupNum
              (fun m => fdr (get no_group assigned m))
              (fun m => fdr (get no_group final m)) Hpos Elast Estep Hnonneg)
    as [Hbounds Hmono].
  assert (Lf : length final = length sorted) by (destruct Hfo as [Lf _]; exact Lf).
  exists sorted. split; [exact HPg|]. split; [exact Hfo|]. split; [|split].
  - apply (ascending_by_StronglySorted no_group loValue).
    destruct Hfo as [_ Hsame]. unfold ascending_by. rewrite Lf.
    intros k1 k2 H1 H12 H2.
    destruct (Hsame k1 ltac:(lia)) as (_ & _ & _ & ->).
    destruct (Hsame k2 ltac:(lia)) as (_ & _ & _ & ->).
    apply HSg; lia.
  - apply (ascending_by_StronglySorted no_group fdr). unfold ascending_by.
    replace (Z.of_nat (length final)) with groupNum by lia.
    apply adjacent_sorted_range. exact Hmono.
  - apply Forall_forall. intros g Hg.
    destruct (In_get no_group final g Hg) as (i & Hi & <-).
    apply Hbounds. lia.
Qed.

(** ** The rows of the output *)

(** The row that [SaveGroupInfo] prints for a group. *)
Definition row_of (g : GROUP_STRUCT) : output_row :=
  {| out_name := group_name g; out_itemNum := itemNum g;
     out_loValue := loValue g; out_fdr := fdr g |}.

Lemma firstn_succ_get {A : Type} (d : A) (a : list A) (k : Z) :
  0 <= k < Z.of_nat (length a) ->
  firstn (Z.to_nat (k + 1)) a = firstn (Z.to_nat k) a ++ [get d a k].
Proof.
  intros Hk. replace (Z.to_nat (k + 1)) with (S (Z.to_nat k)) by lia.
  unfold get. destruct (Z.ltb_spec k 0); [lia|].
  assert (Hn : (Z.to_nat k < length a)%nat) by lia.
  revert Hn. generalize (Z.to_nat k) as n. clear.
  induction a as [|x a IH]; intros n Hn; [cbn in Hn; lia|].
  destruct n as [|n]; [reflexivity|].
  cbn [firstn nth app]. f_equal. apply IH. cbn [length] in Hn. lia.
Qed.

Lemma SaveGroupInfo_rows writable fileName groups groupNum :
  writable fileName = true -> 0 <= groupNum <= Z.of_nat (length groups) ->
  SaveGroupInfo writable fileName groups groupNum =
    (1, Some (map row_of (firstn (Z.to_nat groupNum) groups))).
Proof.
  intros Hw Hn. unfold SaveGroupInfo. rewrite Hw. cbn [negb]. do 2 f_equal.
  pose (P := fun (k : Z) (rows : list output_row) =>
               rows = map row_of (firstn (Z.to_nat k) groups)).
  apply (for_range_inv P); subst P; cbn beta; [lia|reflexivity|].
  intros k rows Hk ->.
  rewrite (firstn_succ_get no_group) by lia. rewrite map_app. reflexivity.
Qed.

(** X17: the output of a successful run.  When [main] returns 0 it has
    written one row for each group that [ReadFile] found in the input,
    with the name and the item count of that group; the rows are in
    ascending order of their lo-value, and their FDR values lie in
    [0, 1] and do not decrease from one row to the next. *)
Theorem main_output `{BetaCdf} `{RandomGen} `{TextServices}
        (fs : String.string -> option String.string)
        (writable : String.string -> bool) (g0 : rng) (argv : list String.string)
        (rows : list output_row) :
  main fs writable g0 argv = Some (0, Some rows) ->
  exists total groups groupNum lists listNum,
    main_read fs argv = Some (ReadDone total groups groupNum lists listNum) /\
    0 < groupNum /\ Z.of_nat (length rows) = groupNum /\
    Permutation (map (fun r => (out_name r, out_itemNum r)) rows)
                (map group_head (firstn (Z.to_nat groupNum) groups)) /\
    StronglySorted (fun a b => (out_loValue a <= out_loValue b)%Q) rows /\
    StronglySorted (fun a b => (out_fdr a <= out_fdr b)%Q) rows /\
    Forall (fun r => (0 <= out_fdr r <= 1)%Q) rows.
Proof.
  intros Emain.
  destruct (settings_valid_dec argv) as [Hv|Hv].
  2:{ rewrite (main_invalid fs writable g0 argv Hv) in Emain. discriminate. }
  rewrite (main_valid fs writable g0 argv Hv) in Emain.
  destruct (main_read fs argv) as [[|total groups groupNum lists listNum]|] eqn:Eread;
    try discriminate.
  destruct (Z.leb_spec total 0) as [|Htotal]; [discriminate|].
  set (m := maxPercentile (parse_arguments argv)) in *.
  destruct (main_statistics fs argv g0 m _ _ _ _ _ Eread Htotal)
    as (groups1 & lists1 & groups2 & g1 & E1 & E2).
  rewrite E1, E2 in Emain.
  (* what ReadFile built *)
  destruct main_capacity as [HcapG HcapL].
  pose proof Eread as Eread'. unfold main_read in Eread'.
  destruct (ReadFile_done _ _ _ _ _ _ _ _ _ _ _ HcapG HcapL Eread')
    as (contents & t & _ & Ht & Hst & Et & EG & EL).
  destruct (stored_input _ _ _ _ _ _ _ _ Ht Hst)
    as (HGn & _ & _ & Hpos & LG & _ & HGok & _).
  rewrite <- Et in Hpos. rewrite <- EG in HGn, Hpos, HGok. specialize (Hpos Htotal).
  (* the statistics *)
  destruct (ProcessGroups_keeps _ _ _ _ _ _ _ E1) as [L1 Hhead].
  assert (Hcap1 : groupNum <= Z.of_nat (length groups1)) by lia.
  set (p := firstn (Z.to_nat groupNum) groups1).
  set (rest := skipn (Z.to_nat groupNum) groups1).
  assert (Esplit : groups1 = p ++ rest) by (symmetry; apply firstn_skipn).
  assert (Lp : groupNum = Z.of_nat (length p)).
  { unfold p. rewrite length_firstn. lia. }
  rewrite Esplit in E2. rewrite (ComputeFDR_app p rest groupNum) in E2 by exact Lp.
  destruct (ComputeFDR p groupNum m (RAND_PASS_NUM * groupNum) g0)
    as [[final g1']|] eqn:Ep; [|discriminate].
  cbn [option_map fst snd] in E2. injection E2 as E2 _.
  assert (Hokp : fdr_input_ok p groupNum).
  { split; [exact Lp|]. split; [exact Hpos|]. intros i Hi.
    unfold p. rewrite get_firstn by lia.
    pose proof (Hhead i) as Hh. unfold group_head in Hh. injection Hh as _ ->.
    apply (HGok i Hi). }
  destruct (ComputeFDR_result p groupNum m (RAND_PASS_NUM * groupNum) g0 final g1'
              Hokp ltac:(unfold RAND_PASS_NUM; lia) ltac:(apply main_pool_in_range; lia) Ep)
    as (sorted & Hperm & Hfo & Hslo & Hsfdr & Hbounds).
  assert (Lfinal : length final = length p).
  { destruct Hfo as [Lf _]. rewrite Lf. symmetry. apply Permutation_length. exact Hperm. }
  assert (Efirst : firstn (Z.to_nat groupNum) groups2 = final).
  { rewrite <- E2. rewrite firstn_app.
    replace (Z.to_nat groupNum - length final)%nat with O by lia.
    cbn [firstn]. rewrite app_nil_r. apply firstn_all2. lia. }
  assert (Hw : writable (outputFileName (parse_arguments argv)) = true).
  { unfold SaveGroupInfo in Emain.
    destruct (writable (outputFileName (parse_arguments argv))); [reflexivity|].
    cbn in Emain. discriminate. }
  rewrite (SaveGroupInfo_rows writable _ groups2 groupNum Hw) in Emain.
  2:{ rewrite <- E2, length_app. lia. }
  cbn in Emain. injection Emain as Erows. rewrite Efirst in Erows. subst rows.
  exists total, groups, groupNum, lists, listNum.
  split; [reflexivity|]. split; [exact Hpos|].
  split; [rewrite length_map; lia|]. split; [|split; [|split]].
  - rewrite map_map.
    change (fun x => (out_name (row_of x), out_itemNum (row_of x))) with group_head.
    assert (E3 : map group_head final = map group_head sorted).
    { destruct Hfo as [Lf Hsame]. apply (map_get_ext no_group no_group); [exact Lf|].
      intros i Hi. rewrite Lf in Hi.
      destruct (Hsame i Hi) as (En & _ & Ec & _). unfold group_head. congruence. }
    rewrite E3.
    assert (E4 : map group_head (firstn (Z.to_nat groupNum) groups) = map group_head p).
    { apply (map_get_ext no_group no_group).
      - unfold p. rewrite !length_firstn. lia.
      - intros i Hi. rewrite length_firstn in Hi. unfold p.
        rewrite !get_firstn by lia. symmetry. apply Hhead. }
    rewrite E4. apply Permutation_sym. apply Permutation_map. exact Hperm.
  - apply StronglySorted_map. exact Hslo.
  - apply StronglySorted_map. exact Hsfdr.
  - apply Forall_forall. intros r Hr. apply in_map_iff in Hr.
    destruct Hr as (g & <- & Hg). rewrite Forall_forall in Hbounds.
    apply (Hbounds g Hg).
Qed.

Definition demo_argv : list String.string :=
  ["rra"; "-i"; "in.txt"; "-o"; "out.txt"]%string.

Definition demo_rows : list output_row :=
  Eval vm_compute in
    match @main ExactBeta Lehmer PlainText demo_fs (fun _ => true) 0 demo_argv with
    | Some (_, Some rows) => rows
    | _ => []
    end.

Lemma demo_main :
  @main ExactBeta Lehmer PlainText demo_fs (fun _ => true) 0 demo_argv
    = Some (0, Some demo_rows).
Proof. vm_compute. reflexivity. Qed.

Lemma main_output_witness :
  exists total groups groupNum lists listNum,
    @main_read PlainText demo_fs demo_argv
      = Some (ReadDone total groups groupNum lists listNum) /\
    0 < groupNum /\ Z.of_nat (length demo_rows) = groupNum /\
    Permutation (map (fun r => (out_name r, out_itemNum r)) demo_rows)
                (map group_head (firstn (Z.to_nat groupNum) groups)) /\
    StronglySorted (fun a b => (out_loValue a <= out_loValue b)%Q) demo_rows /\
    StronglySorted (fun a b => (out_fdr a <= out_fdr b)%Q) demo_rows /\
    Forall (fun r => (0 <= out_fdr r <= 1)%Q) demo_rows.
Proof.
  apply (@main_output ExactBeta Lehmer PlainText demo_fs (fun _ => true) 0
           demo_argv demo_rows).
  exact demo_main.
Defined.

(** * What [ReadFile] stores *)

Section FindExt.
Context {A : Type} (d : A) (name_of : A -> String.string).

(** The search depends on the names of the entries it visits only. *)
Lemma find_from_ext name a b (n : Z) : forall k i,
  0 <= i -> i + Z.of_nat k <= n ->
  (forall m, 0 <= m < n -> name_of (get d a m) = name_of (get d b m)) ->
  find_from d name_of name a k i = find_from d name_of name b k i.
Proof.
  induction k as [|k IH]; intros i Hi Hn Hnames; cbn [find_from]; [reflexivity|].
  rewrite (Hnames i) by lia.
  destruct (String.eqb name (name_of (get d b i))); [reflexivity|].
  apply IH; [lia|lia|exact Hnames].
Qed.

Lemma find_name_ext name a b n :
  (forall m, 0 <= m < n -> name_of (get d a m) = name_of (get d b m)) ->
  find_name d name_of name a n = find_name d name_of name b n.
Proof.
  intros Hnames. unfold find_name.
  destruct (Z.le_gt_cases 0 n).
  - apply (find_from_ext name a b n); [lia|lia|exact Hnames].
  - replace (Z.to_nat n) with O by lia. reflexivity.
Qed.
End FindExt.

(** The records among [rows] whose name, read by [name_of_record], is
    [name]. *)
Definition records_of (name_of_record : list String.string -> String.string)
           (name : String.string) (rows : list (list String.string))
  : list (list String.string) :=
  filter (fun w => String.eqb (name_of_record w) name) rows.

Lemma records_of_snoc name_of_record name done w :
  records_of name_of_record name (done ++ [w]) =
    if String.eqb (name_of_record w) name
    then records_of name_of_record name done ++ [w]
    else records_of name_of_record name done.
Proof.
  unfold records_of. rewrite filter_app. cbn [filter].
  destruct (String.eqb (name_of_record w) name); [reflexivity|apply app_nil_r].
Qed.

Section Content.
Context `{TextServices}.

(** The item that the second pass stores for a record: its name, the
    index of its list in the table of lists, its value, and the
    percentile of a fresh array cell. *)
Definition item_of (lists : list LIST_STRUCT) (listNum : Z) (w : list String.string)
  : ITEM_STRUCT :=
  {| item_name := nth 0 w String.EmptyString;
     listIndex := find_name no_list list_name (list_of w) lists listNum;
     value := atof (nth 3 w String.EmptyString);
     percentile := 0 |}.

(** The value of a record. *)
Definition value_of (w : list String.string) : double :=
  atof (nth 3 w String.EmptyString).

Variable t : tally.
Variable rows : list (list String.string).
Hypothesis groups_counted :
  groups_table (t_groups t) (tmpGroupNum t) (map group_of rows).
Hypothesis lists_counted :
  lists_table (t_lists t) (tmpListNum t) (map list_of rows).

(** The stored items of every group and the stored values of every list
    are the records read so far under its name, in the order of the
    file. *)
Definition holds_records (done : list (list String.string))
           (st : list GROUP_STRUCT * list LIST_STRUCT) : Prop :=
  stored t done st /\
  (forall k, 0 <= k < tmpGroupNum t ->
     firstn (Z.to_nat (itemNum (get no_group (fst st) k)))
            (items (get no_group (fst st) k)) =
       map (item_of (t_lists t) (tmpListNum t))
           (records_of group_of (group_name (get no_group (t_groups t) k)) done) /\
     forall m, itemNum (get no_group (fst st) k) <= m ->
       get no_item (items (get no_group (fst st) k)) m = no_item) /\
  (forall j, 0 <= j < tmpListNum t ->
     firstn (Z.to_nat (list_itemNum (get no_list (snd st) j)))
            (values (get no_list (snd st) j)) =
       map value_of (records_of list_of (list_name (get no_list (t_lists t) j)) done)).

Lemma holds_records_after_alloc :
  holds_records [] (alloc_items (t_groups t) (tmpGroupNum t),
                    alloc_values (t_lists t) (tmpListNum t)).
Proof using groups_counted lists_counted.
  split; [apply (stored_after_alloc t rows); assumption|].
  destruct groups_counted as (HGn & _). destruct lists_counted as (HLn & _).
  destruct (alloc_items_spec (t_groups t) (tmpGroupNum t) HGn) as (_ & HG & _).
  destruct (alloc_values_spec (t_lists t) (tmpListNum t) HLn) as (_ & HL & _).
  cbn [fst snd]. split.
  - intros k Hk. rewrite (HG k Hk). cbn [itemNum items set_itemNum set_items].
    split; [reflexivity|]. intros m _. unfold malloc_items. apply get_repeat.
  - intros j Hj. rewrite (HL j Hj). reflexivity.
Qed.

Lemma store_record_holds done w todo st :
  rows = done ++ w :: todo -> holds_records done st ->
  exists st', store_record (tmpGroupNum t) (tmpListNum t) w st = Some st' /\
              holds_records (done ++ [w]) st'.
Proof using groups_counted lists_counted.
  intros Hrows (Hst & CG & CL).
  destruct (store_record_ok t rows groups_counted lists_counted done w todo st Hrows Hst)
    as (st' & Est & Hst').
  exists st'. split; [exact Est|]. split; [exact Hst'|].
  destruct Hst as (LG & LL & HG & HL). destruct st as [gs ls]. cbn [fst snd] in *.
  unfold store_record in Est. fold (group_of w) in Est. fold (list_of w) in Est.
  assert (HinG : In (group_of w) (map group_of rows)).
  { rewrite Hrows, map_app. apply in_or_app. right. left. reflexivity. }
  assert (HinL : In (list_of w) (map list_of rows)).
  { rewrite Hrows, map_app. apply in_or_app. right. left. reflexivity. }
  destruct (find_counted no_group group_name itemNum (t_groups t) gs (tmpGroupNum t)
              _ (group_of w) groups_counted (fun k Hk => proj1 (HG k Hk)) HinG)
    as (Hi & Ei).
  destruct (find_counted no_list list_name list_itemNum (t_lists t) ls (tmpListNum t)
              _ (list_of w) lists_counted (fun k Hk => proj1 (HL k Hk)) HinL)
    as (Hj & Ej).
  assert (Efind : find_name no_list list_name (list_of w) ls (tmpListNum t) =
                  find_name no_list list_name (list_of w) (t_lists t) (tmpListNum t)).
  { apply find_name_ext. intros m Hm. apply (HL m Hm). }
  set (i := find_name no_group group_name (group_of w) gs (tmpGroupNum t)) in *.
  set (j := find_name no_list list_name (list_of w) ls (tmpListNum t)) in *.
  destruct (Z.ltb_spec i (tmpGroupNum t)) as [_|]; [|lia].
  destruct (Z.ltb_spec j (tmpListNum t)) as [_|]; [|lia].
  cbn [negb] in Est. injection Est as <-. cbn [fst snd].
  destruct groups_counted as (HGn & HGdist & HGc & _).
  destruct lists_counted as (HLn & HLdist & HLc & _).
  destruct Hst' as (_ & _ & HG' & HL'). cbn [fst snd] in HG', HL'.
  set (g := get no_group gs i) in *. set (l := get no_list ls j) in *.
  assert (Hrows_occ : forall (f : list String.string -> String.string) name,
            occurrences name (map f rows) =
              occurrences name (map f done) + occurrences name [f w]
              + occurrences name (map f todo)).
  { intros f name. rewrite Hrows, map_app. cbn [map].
    change (f w :: map f todo) with ([f w] ++ map f todo).
    rewrite !occurrences_app. lia. }
  destruct (HG i Hi) as (Gname & Gnum & Glen & _). fold g in Gname, Gnum, Glen.
  destruct (HL j Hj) as (Lname & Lnum & Llen). fold l in Lname, Lnum, Llen.
  assert (Hgcur : 0 <= itemNum g < Z.of_nat (length (items g))).
  { rewrite Gnum, Glen. destruct (HGc i Hi) as [-> _].
    rewrite (Hrows_occ group_of), occurrences_one, Ei, String.eqb_refl.
    pose proof (occurrences_nonneg (group_of w) (map group_of done)).
    pose proof (occurrences_nonneg (group_of w) (map group_of todo)). lia. }
  assert (Hlcur : 0 <= list_itemNum l < Z.of_nat (length (values l))).
  { rewrite Lnum, Llen. destruct (HLc j Hj) as [-> _].
    rewrite (Hrows_occ list_of), occurrences_one, Ej, String.eqb_refl.
    pose proof (occurrences_nonneg (list_of w) (map list_of done)).
    pose proof (occurrences_nonneg (list_of w) (map list_of todo)). lia. }
  split.
  - intros k Hk. rewrite records_of_snoc.
    destruct (Z.eq_dec k i) as [->|Hne].
    + rewrite get_upd_same by lia.
      cbn [itemNum items set_itemNum set_items].
      rewrite Ei, String.eqb_refl.
      destruct (CG i Hi) as [Cfirst Cfree]. fold g in Cfirst, Cfree.
      rewrite Ei in Cfirst. split.
      * rewrite firstn_upd_snoc by lia. rewrite Cfirst, map_app. cbn [map].
        do 2 f_equal. unfold item_of. rewrite (Cfree (itemNum g)) by lia.
        rewrite <- Efind. reflexivity.
      * intros m Hm. rewrite get_upd_other by lia. apply Cfree. lia.
    + rewrite get_upd_other by congruence.
      destruct (String.eqb_spec (group_of w) (group_name (get no_group (t_groups t) k)))
        as [E|E].
      { exfalso. apply Hne. apply HGdist; try lia. congruence. }
      apply CG. exact Hk.
  - intros j0 Hj0. rewrite records_of_snoc.
    destruct (Z.eq_dec j0 j) as [->|Hne].
    + rewrite get_upd_same by lia.
      cbn [list_itemNum values set_list_itemNum set_values].
      rewrite Ej, String.eqb_refl.
      pose proof (CL j Hj) as Cfirst. fold l in Cfirst. rewrite Ej in Cfirst.
      rewrite firstn_upd_snoc by lia. rewrite Cfirst, map_app. reflexivity.
    + rewrite get_upd_other by congruence.
      destruct (String.eqb_spec (list_of w) (list_name (get no_list (t_lists t) j0)))
        as [E|E].
      { exfalso. apply Hne. apply HLdist; try lia. congruence. }
      apply CL. exact Hj0.
Qed.

Lemma store_records_hold :
  exists st,
    fold_records (store_record (tmpGroupNum t) (tmpListNum t)) rows
      (alloc_items (t_groups t) (tmpGroupNum t),
       alloc_values (t_lists t) (tmpListNum t)) = Some st /\
    holds_records rows st.
Proof using groups_counted lists_counted.
  apply (fold_records_total (store_record (tmpGroupNum t) (tmpListNum t)) rows
           holds_records).
  - exact holds_records_after_alloc.
  - intros done w todo st Hrows Hst. eapply store_record_holds; eassumption.
Qed.
End Content.

(** X18: nothing is lost and nothing is made up.  When [ReadFile]
    returns a count, every record of the file has its group name and its
    list name in the tables; the items of each group are exactly the
    records of the file with that group name, in the order of the file,
    each with its item name, the index of its list and its value read by
    [atof]; and the values of each list are the values of the records
    with that list name, in the order of the file. *)
Theorem ReadFile_stores_records `{TextServices}
        (fs : String.string -> option String.string) (fileName : String.string)
        (groups : list GROUP_STRUCT) (maxGroupNum : Z)
        (lists : list LIST_STRUCT) (maxListNum : Z)
        (total : Z) (groups' : list GROUP_STRUCT) (groupNum : Z)
        (lists' : list LIST_STRUCT) (listNum : Z) :
  0 < maxGroupNum <= Z.of_nat (length groups) ->
  0 < maxListNum <= Z.of_nat (length lists) ->
  ReadFile fs fileName groups maxGroupNum lists maxListNum =
    Some (ReadDone total groups' groupNum lists' listNum) ->
  exists contents,
    fs fileName = Some contents /\
    let rows := file_records contents String.EmptyString in
    (forall w, In w rows ->
       (exists k, 0 <= k < groupNum /\ group_name (get no_group groups' k) = group_of w) /\
       (exists j, 0 <= j < listNum /\ list_name (get no_list lists' j) = list_of w)) /\
    (forall k, 0 <= k < groupNum ->
       items (get no_group groups' k) =
         map (item_of lists' listNum)
             (records_of group_of (group_name (get no_group groups' k)) rows)) /\
    (forall j, 0 <= j < listNum ->
       values (get no_list lists' j) =
         map value_of (records_of list_of (list_name (get no_list lists' j)) rows)).
Proof.
  intros HG HL. rewrite ReadFile_run.
  destruct (fs fileName) as [contents|]; [|discriminate].
  destruct (negb _); [discriminate|].
  set (rows := file_records contents String.EmptyString).
  destruct (fold_records (count_record maxGroupNum maxListNum) rows _) as [t|] eqn:E1;
    [|discriminate].
  pose proof (count_records_ok _ _ _ _ _ _ HG HL E1) as Ht.
  pose proof Ht as (TG & TGmax & TGlen & TL & TLmax & TLlen & Ttot).
  destruct (store_records_hold t rows TG TL) as (st & E2 & Hst & CG & CL).
  rewrite E2. destruct st as [gs ls]. intros E. injection E as <- <- <- <- <-.
  cbn [fst snd] in *.
  destruct (stored_input _ _ _ _ _ _ _ _ Ht Hst)
    as (_ & _ & _ & _ & _ & _ & HGok & HLok & _).
  destruct Hst as (_ & _ & SG & SL). cbn [fst snd] in SG, SL.
  exists contents. split; [reflexivity|]. cbv zeta. split; [|split].
  - intros w Hw. split.
    + destruct TG as (_ & _ & _ & Hcover).
      destruct (Hcover (group_of w) (in_map group_of _ _ Hw)) as (k & Hk & Ek).
      exists k. split; [exact Hk|]. rewrite (proj1 (SG k Hk)). exact Ek.
    + destruct TL as (_ & _ & _ & Hcover).
      destruct (Hcover (list_of w) (in_map list_of _ _ Hw)) as (j & Hj & Ej).
      exists j. split; [exact Hj|]. rewrite (proj1 (SL j Hj)). exact Ej.
  - intros k Hk. destruct (CG k Hk) as [Cfirst _].
    destruct (HGok k Hk) as (_ & Elen & _).
    rewrite Elen, Nat2Z.id, firstn_all in Cfirst. rewrite Cfirst.
    rewrite (proj1 (SG k Hk)). apply map_ext. intros w. unfold item_of. f_equal.
    apply find_name_ext. intros m Hm. symmetry. apply (SL m Hm).
  - intros j Hj. pose proof (CL j Hj) as Cfirst.
    destruct (HLok j Hj) as (_ & Elen).
    rewrite Elen, Nat2Z.id, firstn_all in Cfirst. rewrite Cfirst.
    rewrite (proj1 (SL j Hj)). reflexivity.
Qed.

Lemma ReadFile_stores_records_witness :
  exists contents,
    demo_fs "in.txt"%string = Some contents /\
    let rows := @file_records PlainText contents String.EmptyString in
    (forall w, In w rows ->
       (exists k, 0 <= k < 2 /\ group_name (get no_group demo_groups k) = group_of w) /\
       (exists j, 0 <= j < 2 /\ list_name (get no_list demo_lists j) = list_of w)) /\
    (forall k, 0 <= k < 2 ->
       items (get no_group demo_groups k) =
         map (@item_of PlainText demo_lists 2)
             (records_of group_of (group_name (get no_group demo_groups k)) rows)) /\
    (forall j, 0 <= j < 2 ->
       values (get no_list demo_lists j) =
         map (@value_of PlainText)
             (records_of list_of (list_name (get no_list demo_lists j)) rows)).
Proof.
  apply (@ReadFile_stores_records PlainText demo_fs "in.txt"%string
           (repeat no_group 5) 5 (repeat no_list 4) 4 3 demo_groups 2 demo_lists 2).
  - cbn. lia.
  - cbn. lia.
  - exact demo_read.
Defined.

(** * The capacity of the tables *)

(** The number of distinct names in a list. *)
Definition distinct_count (names : list String.string) : Z :=
  Z.of_nat (length (nodup String.string_dec names)).

Lemma distinct_count_incl names names' :
  incl names names' -> distinct_count names <= distinct_count names'.
Proof.
  intros Hincl. unfold distinct_count. apply inj_le.
  apply NoDup_incl_length; [apply NoDup_nodup|].
  intros s Hs. apply nodup_In. apply Hincl. apply (nodup_In String.string_dec). exact Hs.
Qed.

Lemma distinct_count_new name seen names :
  ~ In name seen -> incl (name :: seen) names ->
  distinct_count seen + 1 <= distinct_count names.
Proof.
  intros Hnew Hincl. unfold distinct_count.
  assert (Hlen : (length (name :: nodup String.string_dec seen)
                  <= length (nodup String.string_dec names))%nat).
  { apply NoDup_incl_length.
    - constructor; [|apply NoDup_nodup]. rewrite nodup_In. exact Hnew.
    - intros s [<-|Hs].
      + apply nodup_In. apply Hincl. left. reflexivity.
      + apply nodup_In. apply Hincl. right. apply (nodup_In String.string_dec). exact Hs. }
  cbn [length] in Hlen. lia.
Qed.

Section TableSize.
Context {A : Type} (d : A) (name_of : A -> String.string) (count_of : A -> Z).

(** A table holds as many entries as there are distinct names. *)
Lemma table_ok_distinct_count (a : list A) (n : Z) (seen : list String.string) :
  table_ok d name_of count_of a n seen -> n = distinct_count seen.
Proof.
  intros (Hn & Hdist & Hcount & Hcover).
  set (names := map (fun k => name_of (get d a (Z.of_nat k))) (seq 0 (Z.to_nat n))).
  assert (Hlen : length names = Z.to_nat n).
  { unfold names. rewrite length_map, length_seq. reflexivity. }
  assert (Hnodup : NoDup names).
  { unfold names. apply NoDup_map_NoDup_ForallPairs; [|apply seq_NoDup].
    intros k1 k2 H1 H2 E. apply in_seq in H1, H2.
    apply Nat2Z.inj. apply Hdist; [lia|lia|exact E]. }
  assert (Hsub : incl names (nodup String.string_dec seen)).
  { intros s Hs. unfold names in Hs. apply in_map_iff in Hs.
    destruct Hs as (k & <- & Hk). apply in_seq in Hk.
    apply nodup_In. apply occurrences_In.
    destruct (Hcount (Z.of_nat k)) as [<- Hpos]; [lia|exact Hpos]. }
  assert (Hsup : incl (nodup String.string_dec seen) names).
  { intros s Hs. apply nodup_In in Hs. destruct (Hcover s Hs) as (k & Hk & <-).
    unfold names. apply in_map_iff. exists (Z.to_nat k).
    split; [rewrite Z2Nat.id by lia; reflexivity|]. apply in_seq. lia. }
  pose proof (NoDup_incl_length Hnodup Hsub) as Hle.
  pose proof (NoDup_incl_length (NoDup_nodup String.string_dec seen) Hsup) as Hge.
  unfold distinct_count. lia.
Qed.

(** An entry is refused only for a new name that fills the table. *)
Lemma enter_name_full fresh bump name (a : list A) (n max : Z) (seen : list String.string) :
  table_ok d name_of count_of a n seen ->
  enter_name d name_of fresh bump name a n max = None ->
  ~ In name seen /\ max <= n + 1.
Proof.
  intros (Hn & _ & _ & Hcover). unfold enter_name.
  destruct (find_name_spec d name_of name a n ltac:(lia)) as (Hb & Hlow & _).
  set (i := find_name d name_of name a n) in *.
  destruct (Z.leb_spec n i) as [Hnew|Hold]; [|discriminate].
  destruct (Z.leb_spec max (n + 1)) as [Hfull|]; [|discriminate].
  intros _. split; [|exact Hfull].
  intros Hin. destruct (Hcover _ Hin) as (k & Hk & Ek). apply (Hlow k); [lia|exact Ek].
Qed.
End TableSize.

Section Capacity.
Context `{TextServices}.

(** The first pass gives up only when the distinct names reach the
    capacity of a table. *)
Lemma count_records_full maxGroupNum maxListNum groups lists rows :
  0 < maxGroupNum <= Z.of_nat (length groups) ->
  0 < maxListNum <= Z.of_nat (length lists) ->
  fold_records (count_record maxGroupNum maxListNum) rows
    {| t_groups := groups; t_lists := lists;
       tmpGroupNum := 0; tmpListNum := 0; totalItemNum := 0 |} = None ->
  maxGroupNum <= distinct_count (map group_of rows) \/
  maxListNum <= distinct_count (map list_of rows).
Proof.
  intros HG HL.
  assert (Hgen : forall todo done t,
            rows = done ++ todo ->
            tally_ok maxGroupNum maxListNum groups lists done t ->
            fold_records (count_record maxGroupNum maxListNum) todo t = None ->
            maxGroupNum <= distinct_count (map group_of rows) \/
            maxListNum <= distinct_count (map list_of rows)).
  { induction todo as [|w todo IH]; intros done t Hrows Ht; cbn [fold_records];
      [discriminate|].
    destruct (count_record maxGroupNum maxListNum w t) as [t'|] eqn:Ew.
    - apply (IH (done ++ [w]) t').
      + rewrite <- app_assoc. exact Hrows.
      + apply (count_record_ok maxGroupNum maxListNum groups lists done w t t');
          [lia|lia|exact Ht|exact Ew].
    - intros _. pose proof Ht as (TG & TGmax & TGlen & TL & TLmax & TLlen & _).
      assert (Hpre : forall f : list String.string -> String.string,
                incl (f w :: map f done) (map f rows)).
      { intros f s Hs. rewrite Hrows, map_app. apply in_or_app.
        destruct Hs as [<-|Hs]; [right; left; reflexivity|left; exact Hs]. }
      unfold count_record in Ew. fold (group_of w) in Ew. fold (list_of w) in Ew.
      destruct (enter_name no_group group_name _ _ (group_of w) _ _ maxGroupNum)
        as [[gs n]|] eqn:Eg.
      + destruct (enter_name no_list list_name _ _ (list_of w) _ _ maxListNum)
          as [[ls m]|] eqn:El; [discriminate|].
        right. destruct (enter_name_full _ _ _ _ _ _ _ _ _ _ TL El) as [Hnew Hfull].
        pose proof (table_ok_distinct_count _ _ _ _ _ _ TL) as En.
        pose proof (distinct_count_new _ _ _ Hnew (Hpre list_of)). lia.
      + left. destruct (enter_name_full _ _ _ _ _ _ _ _ _ _ TG Eg) as [Hnew Hfull].
        pose proof (table_ok_distinct_count _ _ _ _ _ _ TG) as En.
        pose proof (distinct_count_new _ _ _ Hnew (Hpre group_of)). lia. }
  apply (Hgen rows []); [reflexivity|].
  unfold tally_ok. cbn.
  split; [apply table_ok_nil|]. split; [lia|]. split; [reflexivity|].
  split; [apply table_ok_nil|]. split; [lia|]. split; reflexivity.
Qed.
End Capacity.

(** X19: the capacity of the tables is one less than their size.  On a
    file that can be opened and has a header of four words, [ReadFile]
    returns a count exactly when the records have fewer than
    [maxGroupNum] distinct group names and fewer than [maxListNum]
    distinct list names; [groupNum] and [listNum] are then these numbers
    of distinct names and the count is the number of records.  Otherwise
    it returns -1. *)
Theorem ReadFile_capacity `{TextServices}
        (fs : String.string -> option String.string) (fileName : String.string)
        (groups : list GROUP_STRUCT) (maxGroupNum : Z)
        (lists : list LIST_STRUCT) (maxListNum : Z) (contents : String.string) :
  0 < maxGroupNum <= Z.of_nat (length groups) ->
  0 < maxListNum <= Z.of_nat (length lists) ->
  fs fileName = Some contents ->
  Z.of_nat (length (header_words contents)) = 4 ->
  let rows := file_records contents String.EmptyString in
  let G := distinct_count (map group_of rows) in
  let L := distinct_count (map list_of rows) in
  if (G <? maxGroupNum) && (L <? maxListNum)
  then exists groups' lists',
         ReadFile fs fileName groups maxGroupNum lists maxListNum =
           Some (ReadDone (Z.of_nat (length rows)) groups' G lists' L)
  else ReadFile fs fileName groups maxGroupNum lists maxListNum = Some ReadFailed.
Proof.
  intros HG HL Efs E4 rows G L. rewrite ReadFile_run, Efs, E4. cbn [Z.eqb Pos.eqb negb].
  fold rows.
  destruct (fold_records (count_record maxGroupNum maxListNum) rows _) as [t|] eqn:E1.
  - pose proof (count_records_ok _ _ _ _ _ _ HG HL E1)
      as (TG & TGmax & _ & TL & TLmax & _ & Ttot).
    pose proof (table_ok_distinct_count _ _ _ _ _ _ TG) as EG.
    pose proof (table_ok_distinct_count _ _ _ _ _ _ TL) as EL.
    fold G in EG. fold L in EL.
    destruct (Z.ltb_spec G maxGroupNum); [|lia].
    destruct (Z.ltb_spec L maxListNum); [|lia]. cbn [andb].
    destruct (store_records_ok t rows TG TL) as ([gs ls] & E2 & _).
    rewrite E2. exists gs, ls. rewrite Ttot, EG, EL. reflexivity.
  - destruct (count_records_full _ _ _ _ _ HG HL E1) as [Hfull|Hfull];
      fold rows in Hfull.
    + fold G in Hfull. destruct (Z.ltb_spec G maxGroupNum); [lia|]. reflexivity.
    + fold L in Hfull. destruct (Z.ltb_spec L maxListNum); [lia|].
      rewrite andb_false_r. reflexivity.
Qed.

(** A table of two groups is too small for the two groups of the file. *)
Lemma ReadFile_capacity_witness :
  Z.of_nat (length (@header_words PlainText demo_file)) = 4 /\
  @ReadFile PlainText demo_fs "in.txt"%string
            (repeat no_group 2) 2 (repeat no_list 4) 4 = Some ReadFailed.
Proof.
  assert (E4 : Z.of_nat (length (@header_words PlainText demo_file)) = 4)
    by (vm_compute; reflexivity).
  split; [exact E4|].
  assert (HG : 0 < 2 <= Z.of_nat (length (repeat no_group 2))) by (cbn; lia).
  assert (HL : 0 < 4 <= Z.of_nat (length (repeat no_list 4))) by (cbn; lia).
  pose proof (@ReadFile_capacity PlainText demo_fs "in.txt"%string
                (repeat no_group 2) 2 (repeat no_list 4) 4 demo_file
                HG HL eq_refl E4) as W.
  cbv zeta in W.
  assert (Ec : (distinct_count
                  (map group_of (@file_records PlainText demo_file String.EmptyString)) <? 2)
               && (distinct_count
                     (map list_of (@file_records PlainText demo_file String.EmptyString)) <? 4)
               = false) by (vm_compute; reflexivity).
  rewrite Ec in W. exact W.
Defined.
